(** * react-vaani: the real-time session layer, embedded and verified

    The development follows the source units that carry the session
    logic:

    - [SocketManager]        the connection manager class (socketManager.js);
    - [CallSounds]           the audio-cue player (callSounds.js);
    - [NotificationManager]  the browser notification manager
                             (notificationManager.js);
    - [Dashboard]            the message overlay and the call signaling
                             code of the Dashboard component.

    JavaScript values are embedded as a small untyped value type; objects
    are association lists read with [prop].  Function values (handlers,
    closures) are heap references, so that the identity test of [Set] and
    of the event emitter is the one of the source. *)

From stdpp Require Import base list strings.
From Stdlib Require Import Lia DecimalString.

Set Warnings "-register-all,-abstract-large-number,-notation-for-abbreviation".

Open Scope string_scope.
Open Scope nat_scope.
Open Scope list_scope.

(** ** JavaScript values *)

Inductive Val :=
| VUndef
| VNull
| VBool (b : bool)
| VStr (s : string)
| VObj (fields : list (string * Val)).

(** Truthiness of a value, as used by [if], [&&], [||] and [!]. *)
Definition truthy (v : Val) : bool :=
  match v with
  | VUndef | VNull => false
  | VBool b => b
  | VStr s => negb (String.eqb s "")
  | VObj _ => true
  end.

(** [a || b] *)
Definition jor (a b : Val) : Val := if truthy a then a else b.

(** [a && b] *)
Definition jand (a b : Val) : Val := if truthy a then b else a.

Fixpoint lookup_field (k : string) (fs : list (string * Val)) : Val :=
  match fs with
  | [] => VUndef
  | (k', v) :: fs' => if String.eqb k k' then v else lookup_field k fs'
  end.

(** [v?.k]; also [v.k] on a value known to be an object or a string. *)
Definition prop (v : Val) (k : string) : Val :=
  match v with
  | VObj fs => lookup_field k fs
  | _ => VUndef
  end.

(** [v.k] throws a TypeError on [undefined] and [null]. *)
Definition nullish (v : Val) : bool :=
  match v with VUndef | VNull => true | _ => false end.

Fixpoint set_field (k : string) (x : Val) (fs : list (string * Val)) : list (string * Val) :=
  match fs with
  | [] => [(k, x)]
  | (k', v) :: fs' =>
      if String.eqb k k' then (k, x) :: fs' else (k', v) :: set_field k x fs'
  end.

(** [{ ...v, k: x }] *)
Definition with_field (v : Val) (k : string) (x : Val) : Val :=
  match v with
  | VObj fs => VObj (set_field k x fs)
  | _ => VObj [(k, x)]
  end.

(** [a === b].  Two object operands are different references in every
    comparison the embedded code performs (one side comes from a payload,
    the other from local state). *)
Definition strict_eq (a b : Val) : bool :=
  match a, b with
  | VUndef, VUndef => true
  | VNull, VNull => true
  | VBool x, VBool y => Bool.eqb x y
  | VStr s, VStr t => String.eqb s t
  | _, _ => false
  end.

(** [String(v)], the conversion of template literals. *)
Definition to_string (v : Val) : string :=
  match v with
  | VUndef => "undefined"
  | VNull => "null"
  | VBool true => "true"
  | VBool false => "false"
  | VStr s => s
  | VObj _ => "[object Object]"
  end.

(** ** JavaScript strings

    A string holds the UTF-8 encoding of the text.  [length] and
    [substring] of JavaScript count UTF-16 code units: one for a character
    of one to three bytes, two for a character of four bytes. *)
Definition continuation (c : Ascii.ascii) : bool :=
  (128 <=? Ascii.nat_of_ascii c) && (Ascii.nat_of_ascii c <? 192).

Definition units (c : Ascii.ascii) : nat :=
  if continuation c then 0 else if Ascii.nat_of_ascii c <? 240 then 1 else 2.

(** [s.length] *)
Fixpoint utf16_length (s : string) : nat :=
  match s with
  | EmptyString => 0
  | String c s' => units c + utf16_length s'
  end.

(** The first code unit of the four-byte character that starts with the
    byte [a] and goes on with [s]: a high surrogate, written in the
    three-byte form. *)
Definition high_surrogate (a : Ascii.ascii) (s : string) : string :=
  match s with
  | String b (String c _) =>
      let x := ((Ascii.N_of_ascii a mod 8) * 262144
                + (Ascii.N_of_ascii b mod 64) * 4096
                + (Ascii.N_of_ascii c mod 64) * 64)%N in
      let high := (55296 + (x - 65536) / 1024)%N in
      String (Ascii.ascii_of_N 237)
        (String (Ascii.ascii_of_N (128 + (high / 64) mod 64))
           (String (Ascii.ascii_of_N (128 + high mod 64)) EmptyString))
  | _ => EmptyString
  end.

(** [s.substring(0, n)]; the cut may fall inside a character of two code
    units, of which the first is kept. *)
Fixpoint substring_units (n : nat) (s : string) : string :=
  match s with
  | EmptyString => EmptyString
  | String a s1 =>
      if continuation a then String a (substring_units n s1)
      else
        match n with
        | 0 => EmptyString
        | S n1 =>
            if Ascii.nat_of_ascii a <? 240 then String a (substring_units n1 s1)
            else
              match n1 with
              | 0 => high_surrogate a s1
              | S n2 => String a (substring_units n2 s1)
              end
        end
  end.

(** [v?.toString()] *)
Definition toStringQ (v : Val) : Val :=
  match v with
  | VUndef | VNull => VUndef
  | _ => VStr (to_string v)
  end.

(** ** The connection manager (class SocketManager) *)

Module SocketManager.

Inductive Transport := polling | websocket.

(** The functions attached to a socket.  The first five are the arrow
    functions [setupListeners] creates; [LUser h] is a function passed to
    [on], identified by its reference [h]. *)
Inductive Listener :=
| LConnect
| LDisconnect
| LConnectError
| LPong
| LIncomingCallBridge
| LUser (h : nat).

#[global] Instance Listener_eq_dec : EqDecision Listener.
Proof. solve_decision. Defined.

#[global] Instance Transport_eq_dec : EqDecision Transport.
Proof. solve_decision. Defined.

(** A socket object returned by [io(url, options)].  [callbacks] is the
    emitter's listener array in attachment order; [closed] records that
    [disconnect()] was called on it by this client. *)
Record Socket := mkSocket {
  transports : list Transport;
  upgrade : bool;
  auth : Val;
  callbacks : list (string * Listener);
  connected : bool;
  closed : bool;
  sent : list (string * Val)
}.

(** The fields of the manager instance.  [eventHandlers] is the
    [Map event -> Set handler]; both iterate in insertion order. *)
Record Manager := mkManager {
  socket : option nat;
  token : Val;
  eventHandlers : list (string * list nat);
  isConnected : bool;
  attemptCount : nat;
  maxAttempts : nat;
  useWebSocket : bool;
  heartbeatInterval : option nat;
  browserEventCleanup : bool
}.

(** The manager together with the objects it reaches: the sockets ever
    created (a socket's index is its identity), the interval timers that
    are armed, the number of listener pairs installed on window/document,
    the invocations of user handlers and the warnings printed. *)
Record World := mkWorld {
  this : Manager;
  sockets : list Socket;
  intervals : list nat;
  nextInterval : nat;
  browserListeners : nat;
  delivered : list (nat * string * nat * Val);
  warnings : nat
}.

Definition constructor : Manager :=
  {| socket := None; token := VNull; eventHandlers := []; isConnected := false;
     attemptCount := 0; maxAttempts := 10; useWebSocket := true;
     heartbeatInterval := None; browserEventCleanup := false |}.

Definition init : World :=
  {| this := constructor; sockets := []; intervals := []; nextInterval := 0;
     browserListeners := 0; delivered := []; warnings := 0 |}.

(** *** Field updates *)

Definition set_this (f : Manager → Manager) (w : World) : World :=
  {| this := f (this w); sockets := sockets w; intervals := intervals w;
     nextInterval := nextInterval w; browserListeners := browserListeners w;
     delivered := delivered w; warnings := warnings w |}.

Definition set_sockets (f : list Socket → list Socket) (w : World) : World :=
  {| this := this w; sockets := f (sockets w); intervals := intervals w;
     nextInterval := nextInterval w; browserListeners := browserListeners w;
     delivered := delivered w; warnings := warnings w |}.

Definition set_socket (v : option nat) (m : Manager) : Manager :=
  {| socket := v; token := token m; eventHandlers := eventHandlers m;
     isConnected := isConnected m; attemptCount := attemptCount m;
     maxAttempts := maxAttempts m; useWebSocket := useWebSocket m;
     heartbeatInterval := heartbeatInterval m;
     browserEventCleanup := browserEventCleanup m |}.

Definition set_token (v : Val) (m : Manager) : Manager :=
  {| socket := socket m; token := v; eventHandlers := eventHandlers m;
     isConnected := isConnected m; attemptCount := attemptCount m;
     maxAttempts := maxAttempts m; useWebSocket := useWebSocket m;
     heartbeatInterval := heartbeatInterval m;
     browserEventCleanup := browserEventCleanup m |}.

Definition set_eventHandlers (v : list (string * list nat)) (m : Manager) : Manager :=
  {| socket := socket m; token := token m; eventHandlers := v;
     isConnected := isConnected m; attemptCount := attemptCount m;
     maxAttempts := maxAttempts m; useWebSocket := useWebSocket m;
     heartbeatInterval := heartbeatInterval m;
     browserEventCleanup := browserEventCleanup m |}.

Definition set_isConnected (v : bool) (m : Manager) : Manager :=
  {| socket := socket m; token := token m; eventHandlers := eventHandlers m;
     isConnected := v; attemptCount := attemptCount m;
     maxAttempts := maxAttempts m; useWebSocket := useWebSocket m;
     heartbeatInterval := heartbeatInterval m;
     browserEventCleanup := browserEventCleanup m |}.

Definition set_attemptCount (v : nat) (m : Manager) : Manager :=
  {| socket := socket m; token := token m; eventHandlers := eventHandlers m;
     isConnected := isConnected m; attemptCount := v;
     maxAttempts := maxAttempts m; useWebSocket := useWebSocket m;
     heartbeatInterval := heartbeatInterval m;
     browserEventCleanup := browserEventCleanup m |}.

Definition set_useWebSocket (v : bool) (m : Manager) : Manager :=
  {| socket := socket m; token := token m; eventHandlers := eventHandlers m;
     isConnected := isConnected m; attemptCount := attemptCount m;
     maxAttempts := maxAttempts m; useWebSocket := v;
     heartbeatInterval := heartbeatInterval m;
     browserEventCleanup := browserEventCleanup m |}.

Definition set_heartbeatInterval (v : option nat) (m : Manager) : Manager :=
  {| socket := socket m; token := token m; eventHandlers := eventHandlers m;
     isConnected := isConnected m; attemptCount := attemptCount m;
     maxAttempts := maxAttempts m; useWebSocket := useWebSocket m;
     heartbeatInterval := v;
     browserEventCleanup := browserEventCleanup m |}.

Definition set_browserEventCleanup (v : bool) (m : Manager) : Manager :=
  {| socket := socket m; token := token m; eventHandlers := eventHandlers m;
     isConnected := isConnected m; attemptCount := attemptCount m;
     maxAttempts := maxAttempts m; useWebSocket := useWebSocket m;
     heartbeatInterval := heartbeatInterval m;
     browserEventCleanup := v |}.

Definition set_intervals (v : list nat) (w : World) : World :=
  {| this := this w; sockets := sockets w; intervals := v;
     nextInterval := nextInterval w; browserListeners := browserListeners w;
     delivered := delivered w; warnings := warnings w |}.

Definition set_nextInterval (v : nat) (w : World) : World :=
  {| this := this w; sockets := sockets w; intervals := intervals w;
     nextInterval := v; browserListeners := browserListeners w;
     delivered := delivered w; warnings := warnings w |}.

Definition set_browserListeners (v : nat) (w : World) : World :=
  {| this := this w; sockets := sockets w; intervals := intervals w;
     nextInterval := nextInterval w; browserListeners := v;
     delivered := delivered w; warnings := warnings w |}.

Definition log_delivery (d : nat * string * nat * Val) (w : World) : World :=
  {| this := this w; sockets := sockets w; intervals := intervals w;
     nextInterval := nextInterval w; browserListeners := browserListeners w;
     delivered := delivered w ++ [d]; warnings := warnings w |}.

Definition warn (w : World) : World :=
  {| this := this w; sockets := sockets w; intervals := intervals w;
     nextInterval := nextInterval w; browserListeners := browserListeners w;
     delivered := delivered w; warnings := S (warnings w) |}.

(** *** The socket object (socket.io-client) *)

Definition sk_set_callbacks (v : list (string * Listener)) (s : Socket) : Socket :=
  {| transports := transports s; upgrade := upgrade s; auth := auth s;
     callbacks := v; connected := connected s; closed := closed s; sent := sent s |}.

Definition sk_set_connected (v : bool) (s : Socket) : Socket :=
  {| transports := transports s; upgrade := upgrade s; auth := auth s;
     callbacks := callbacks s; connected := v; closed := closed s; sent := sent s |}.

Definition sk_close (s : Socket) : Socket :=
  {| transports := transports s; upgrade := upgrade s; auth := auth s;
     callbacks := callbacks s; connected := false; closed := true; sent := sent s |}.

Definition sk_send (e : string) (d : Val) (s : Socket) : Socket :=
  {| transports := transports s; upgrade := upgrade s; auth := auth s;
     callbacks := callbacks s; connected := connected s; closed := closed s;
     sent := sent s ++ [(e, d)] |}.

(** [Array.prototype.splice] of the first entry equal to [x]. *)
Fixpoint remove_first {A} `{EqDecision A} (x : A) (l : list A) : list A :=
  match l with
  | [] => []
  | y :: l' => if decide (x = y) then l' else y :: remove_first x l'
  end.

(** [socket.on(event, fn)]: the emitter pushes [fn], whether or not it
    is already attached. *)
Definition socket_on (sid : nat) (e : string) (l : Listener) (w : World) : World :=
  set_sockets (alter (λ s, sk_set_callbacks (callbacks s ++ [(e, l)]) s) sid) w.

(** [socket.off(event, fn)] removes the first attachment of [fn];
    [socket.off(event)] removes every listener of the event. *)
Definition socket_off (sid : nat) (e : string) (l : option Listener) (w : World) : World :=
  set_sockets
    (alter (λ s,
       sk_set_callbacks
         (match l with
          | Some fn => remove_first (e, fn) (callbacks s)
          | None => filter (λ c, c.1 ≠ e) (callbacks s)
          end) s) sid) w.

Definition socket_emit (sid : nat) (e : string) (d : Val) (w : World) : World :=
  set_sockets (alter (sk_send e d) sid) w.

(** The listeners called for one occurrence of [e], in order. *)
Definition listeners_for (e : string) (cbs : list (string * Listener)) : list Listener :=
  (filter (λ c, c.1 = e) cbs).*2.

(** *** Methods *)

Definition stopHeartbeat (w : World) : World :=
  match heartbeatInterval (this w) with
  | Some i =>
      set_this (set_heartbeatInterval None)
        (set_intervals (filter (λ j, j ≠ i) (intervals w)) w)
  | None => w
  end.

Definition startHeartbeat (w : World) : World :=
  let w1 := stopHeartbeat w in
  let i := nextInterval w1 in
  set_this (set_heartbeatInterval (Some i))
    (set_nextInterval (S i) (set_intervals (intervals w1 ++ [i]) w1)).

Definition removeBrowserEventListeners (w : World) : World :=
  if browserEventCleanup (this w)
  then set_this (set_browserEventCleanup false)
         (set_browserListeners (pred (browserListeners w)) w)
  else w.

Definition setupBrowserEventListeners (w : World) : World :=
  set_this (set_browserEventCleanup true)
    (set_browserListeners (S (browserListeners w)) w).

(** The body of the ['disconnect'] listener of [setupListeners]. *)
Definition on_disconnect (w : World) : World :=
  stopHeartbeat (set_this (set_isConnected false) w).

(** [socket.disconnect()]: the socket is destroyed; when it was connected
    its ['disconnect'] listeners run synchronously.  Only [LDisconnect]
    and user functions are ever attached under that event name. *)
Definition run_disconnect_listener (sid : nat) (l : Listener) (w : World) : World :=
  match l with
  | LDisconnect => on_disconnect w
  | LUser h => log_delivery (sid, "disconnect", h, VStr "io client disconnect") w
  | _ => w
  end.

Definition socket_disconnect (sid : nat) (w : World) : World :=
  match sockets w !! sid with
  | Some s =>
      let w1 := set_sockets (alter sk_close sid) w in
      if connected s
      then foldl (λ acc l, run_disconnect_listener sid l acc) w1
             (listeners_for "disconnect" (callbacks s))
      else w1
  | None => w
  end.

Definition cleanup (isLogout : bool) (w : World) : World :=
  let w1 := removeBrowserEventListeners (stopHeartbeat w) in
  let w2 :=
    match socket (this w1) with
    | Some sid =>
        let w' := if isLogout && isConnected (this w1)
                  then socket_emit sid "userLogout" VUndef w1 else w1 in
        set_this (set_socket None) (socket_disconnect sid w')
    | None => w1
    end in
  set_this (set_isConnected false) w2.

Definition handleLogout (w : World) : World := cleanup true w.

Definition attach_set (sid : nat) (e : string) (hs : list nat) (w : World) : World :=
  foldl (λ acc h, socket_on sid e (LUser h) acc) w hs.

Definition setupListeners (w : World) : World :=
  match socket (this w) with
  | None => w
  | Some sid =>
      let w1 := socket_on sid "connect" LConnect w in
      let w2 := socket_on sid "disconnect" LDisconnect w1 in
      let w3 := socket_on sid "connect_error" LConnectError w2 in
      let w4 := socket_on sid "pong" LPong w3 in
      let w5 := foldl (λ acc eh, attach_set sid eh.1 eh.2 acc) w4
                  (eventHandlers (this w4)) in
      socket_on sid "incomingCall" LIncomingCallBridge w5
  end.

Definition connect (w : World) : World :=
  let w1 := match socket (this w) with Some _ => cleanup false w | None => w end in
  let transportOptions :=
    if useWebSocket (this w1) then [polling; websocket] else [polling] in
  let s := {| transports := transportOptions; upgrade := useWebSocket (this w1);
              auth := VObj [("token", token (this w1))];
              callbacks := []; connected := false; closed := false; sent := [] |} in
  let sid := length (sockets w1) in
  setupListeners
    (set_this (set_socket (Some sid)) (set_sockets (λ l, l ++ [s]) w1)).

Definition initialize (tok : Val) (w : World) : World :=
  setupBrowserEventListeners (connect (set_this (set_token tok) w)).

Definition getSocket (w : World) : option nat := socket (this w).

Definition isSocketConnected (w : World) : bool := isConnected (this w).

(** [Set.prototype.add] *)
Definition set_add (h : nat) (hs : list nat) : list nat :=
  if decide (h ∈ hs) then hs else hs ++ [h].

Fixpoint map_get (e : string) (m : list (string * list nat)) : option (list nat) :=
  match m with
  | [] => None
  | (e', hs) :: m' => if decide (e = e') then Some hs else map_get e m'
  end.

(** Replace the value stored under an existing key. *)
Fixpoint map_put (e : string) (hs : list nat) (m : list (string * list nat))
  : list (string * list nat) :=
  match m with
  | [] => [(e, hs)]
  | (e', hs') :: m' =>
      if decide (e = e') then (e, hs) :: m' else (e', hs') :: map_put e hs m'
  end.

Definition map_delete (e : string) (m : list (string * list nat)) : list (string * list nat) :=
  filter (λ eh, eh.1 ≠ e) m.

Definition on (e : string) (h : nat) (w : World) : World :=
  let m := eventHandlers (this w) in
  let m1 := match map_get e m with Some _ => m | None => map_put e [] m end in
  let handlerSet := default [] (map_get e m1) in
  let w1 := set_this (set_eventHandlers (map_put e (set_add h handlerSet) m1)) w in
  match socket (this w1) with
  | Some sid => socket_on sid e (LUser h) w1
  | None => w1
  end.

Definition off (e : string) (handler : option nat) (w : World) : World :=
  let m := eventHandlers (this w) in
  let handlerSet := map_get e m in
  match handler with
  | Some h =>
      let m1 :=
        match handlerSet with
        | Some hs =>
            let hs' := filter (λ x, x ≠ h) hs in
            if decide (length hs' = 0) then map_delete e m else map_put e hs' m
        | None => m
        end in
      let w1 := set_this (set_eventHandlers m1) w in
      match socket (this w1) with
      | Some sid => socket_off sid e (Some (LUser h)) w1
      | None => w1
      end
  | None =>
      let m1 := match handlerSet with Some _ => map_delete e m | None => m end in
      let w1 := set_this (set_eventHandlers m1) w in
      match socket (this w1) with
      | Some sid => socket_off sid e None w1
      | None => w1
      end
  end.

Definition emit (e : string) (d : Val) (w : World) : World :=
  match socket (this w) with
  | Some sid => if isConnected (this w) then socket_emit sid e d w else warn w
  | None => warn w
  end.

(** The bodies of the remaining listeners of [setupListeners]. *)
Definition on_connect (w : World) : World :=
  startHeartbeat (set_this (λ m, set_attemptCount 0 (set_isConnected true m)) w).

Definition on_connect_error (w : World) : World :=
  let w1 := set_this (λ m, set_attemptCount (S (attemptCount m)) m) w in
  if (3 <=? attemptCount (this w1))%nat && useWebSocket (this w1)
  then connect (set_this (set_useWebSocket false) w1)
  else w1.

(** The interval callback armed by [startHeartbeat]. *)
Definition heartbeat_tick (w : World) : World :=
  match socket (this w) with
  | Some sid => if isConnected (this w) then socket_emit sid "ping" VUndef w else w
  | None => w
  end.

(** The window/document listeners of [setupBrowserEventListeners]. *)
Definition handleBeforeUnload (w : World) : World :=
  match socket (this w) with
  | Some sid =>
      if isConnected (this w)
      then socket_disconnect sid (socket_emit sid "userLogout" VUndef w)
      else w
  | None => w
  end.

Definition handleVisibilityChange (hidden : bool) (w : World) : World :=
  if hidden then w
  else if negb (isConnected (this w)) && truthy (token (this w))
       then connect w else w.

(** *** Events reaching a socket *)

Definition run_listener (sid : nat) (e : string) (d : Val) (l : Listener) (w : World) : World :=
  match l with
  | LConnect => on_connect w
  | LDisconnect => on_disconnect w
  | LConnectError => on_connect_error w
  | LPong => w
  | LIncomingCallBridge => w
  | LUser h => log_delivery (sid, e, h, d) w
  end.

(** The emitter calls the listeners attached when the event occurs (it
    iterates over a copy of the array). *)
Definition fire (sid : nat) (e : string) (d : Val) (w : World) : World :=
  match sockets w !! sid with
  | Some s => foldl (λ acc l, run_listener sid e d l acc) w
                (listeners_for e (callbacks s))
  | None => w
  end.

(** What the transport library does to a socket that [disconnect()] was
    not called on: it connects it, loses the connection (and keeps
    retrying), fails to connect, or delivers a server event. *)
Definition transport_connect (sid : nat) (w : World) : World :=
  match sockets w !! sid with
  | Some s =>
      if closed s || connected s then w
      else fire sid "connect" VUndef (set_sockets (alter (sk_set_connected true) sid) w)
  | None => w
  end.

Definition transport_disconnect (sid : nat) (reason : Val) (w : World) : World :=
  match sockets w !! sid with
  | Some s =>
      if closed s || negb (connected s) then w
      else fire sid "disconnect" reason (set_sockets (alter (sk_set_connected false) sid) w)
  | None => w
  end.

Definition transport_connect_error (sid : nat) (err : Val) (w : World) : World :=
  match sockets w !! sid with
  | Some s => if closed s || connected s then w else fire sid "connect_error" err w
  | None => w
  end.

Definition transport_event (sid : nat) (e : string) (d : Val) (w : World) : World :=
  match sockets w !! sid with
  | Some s => if closed s || negb (connected s) then w else fire sid e d w
  | None => w
  end.

(** Everything that can happen to the manager: calls of its public
    methods, browser events, interval ticks and transport events. *)
Inductive Op :=
| OInitialize (tok : Val)
| OConnect
| OOn (e : string) (h : nat)
| OOff (e : string) (h : option nat)
| OEmit (e : string) (d : Val)
| OCleanup (isLogout : bool)
| OHandleLogout
| OStartHeartbeat
| OStopHeartbeat
| OHeartbeatTick (i : nat)
| OBeforeUnload
| OVisibilityChange (hidden : bool)
| TConnect (sid : nat)
| TDisconnect (sid : nat) (reason : Val)
| TConnectError (sid : nat) (err : Val)
| TEvent (sid : nat) (e : string) (d : Val).

Definition step (o : Op) (w : World) : World :=
  match o with
  | OInitialize tok => initialize tok w
  | OConnect => connect w
  | OOn e h => on e h w
  | OOff e h => off e h w
  | OEmit e d => emit e d w
  | OCleanup b => cleanup b w
  | OHandleLogout => handleLogout w
  | OStartHeartbeat => startHeartbeat w
  | OStopHeartbeat => stopHeartbeat w
  | OHeartbeatTick i => if decide (i ∈ intervals w) then heartbeat_tick w else w
  | OBeforeUnload => Nat.iter (browserListeners w) handleBeforeUnload w
  | OVisibilityChange hidden =>
      Nat.iter (browserListeners w) (handleVisibilityChange hidden) w
  | TConnect sid => transport_connect sid w
  | TDisconnect sid reason => transport_disconnect sid reason w
  | TConnectError sid err => transport_connect_error sid err w
  | TEvent sid e d => transport_event sid e d w
  end.

Definition run (tr : list Op) (w : World) : World := foldl (λ acc o, step o acc) w tr.

End SocketManager.

(** ** The audio-cue player (class CallSounds) *)

Module CallSounds.

(** An [Audio] element; the two the player creates have [loop = true]. *)
Record Audio := mkAudio { paused : bool }.

(** The fields of the player.  [loopOscillator] tells whether the
    generated fallback loop ([_loopOscillator]) exists.  The last two
    fields are the browser: whether [audioElement.play()] is allowed to
    start playback, and whether the Web Audio API is there.  The promises
    of the audio element and of the audio context settle before the next
    event is handled, so each [play*] method is one transition. *)
Record State := mkState {
  ringtone : option Audio;
  ringback : option Audio;
  initialized : bool;
  playingSound : Val;
  audioContext : bool;
  loopOscillator : bool;
  autoplayAllowed : bool;
  audioApi : bool
}.

Definition constructor (autoplay api : bool) : State :=
  {| ringtone := None; ringback := None; initialized := false; playingSound := VNull;
     audioContext := false; loopOscillator := false;
     autoplayAllowed := autoplay; audioApi := api |}.

Definition set_ringtone (v : option Audio) (x : State) : State :=
  {| ringtone := v; ringback := ringback x; initialized := initialized x;
     playingSound := playingSound x; audioContext := audioContext x;
     loopOscillator := loopOscillator x; autoplayAllowed := autoplayAllowed x;
     audioApi := audioApi x |}.

Definition set_ringback (v : option Audio) (x : State) : State :=
  {| ringtone := ringtone x; ringback := v; initialized := initialized x;
     playingSound := playingSound x; audioContext := audioContext x;
     loopOscillator := loopOscillator x; autoplayAllowed := autoplayAllowed x;
     audioApi := audioApi x |}.

Definition set_initialized (v : bool) (x : State) : State :=
  {| ringtone := ringtone x; ringback := ringback x; initialized := v;
     playingSound := playingSound x; audioContext := audioContext x;
     loopOscillator := loopOscillator x; autoplayAllowed := autoplayAllowed x;
     audioApi := audioApi x |}.

Definition set_playingSound (v : Val) (x : State) : State :=
  {| ringtone := ringtone x; ringback := ringback x; initialized := initialized x;
     playingSound := v; audioContext := audioContext x;
     loopOscillator := loopOscillator x; autoplayAllowed := autoplayAllowed x;
     audioApi := audioApi x |}.

Definition set_audioContext (v : bool) (x : State) : State :=
  {| ringtone := ringtone x; ringback := ringback x; initialized := initialized x;
     playingSound := playingSound x; audioContext := v;
     loopOscillator := loopOscillator x; autoplayAllowed := autoplayAllowed x;
     audioApi := audioApi x |}.

Definition set_loopOscillator (v : bool) (x : State) : State :=
  {| ringtone := ringtone x; ringback := ringback x; initialized := initialized x;
     playingSound := playingSound x; audioContext := audioContext x;
     loopOscillator := v; autoplayAllowed := autoplayAllowed x;
     audioApi := audioApi x |}.

Definition set_autoplayAllowed (v : bool) (x : State) : State :=
  {| ringtone := ringtone x; ringback := ringback x; initialized := initialized x;
     playingSound := playingSound x; audioContext := audioContext x;
     loopOscillator := loopOscillator x; autoplayAllowed := v;
     audioApi := audioApi x |}.

Definition set_audioApi (v : bool) (x : State) : State :=
  {| ringtone := ringtone x; ringback := ringback x; initialized := initialized x;
     playingSound := playingSound x; audioContext := audioContext x;
     loopOscillator := loopOscillator x; autoplayAllowed := autoplayAllowed x;
     audioApi := v |}.


Definition init (s : State) : State :=
  if initialized s then s
  else set_initialized true
         (set_ringback (Some (mkAudio true)) (set_ringtone (Some (mkAudio true)) s)).

Definition ensureAudioContext (s : State) : State :=
  if audioContext s then s else if audioApi s then set_audioContext true s else s.

Definition pause (a : option Audio) : option Audio :=
  match a with
  | Some x => if paused x then Some x else Some (mkAudio true)
  | None => None
  end.

Definition _stopGeneratedLoop (s : State) : State :=
  if loopOscillator s then set_loopOscillator false s else s.

Definition stopAll (s : State) : State :=
  let s1 := set_ringtone (pause (ringtone s)) s in
  let s2 := set_ringback (pause (ringback s1)) s1 in
  set_playingSound VNull (_stopGeneratedLoop s2).

Definition stopRingtone (s : State) : State :=
  let s1 := set_ringtone (pause (ringtone s)) s in
  if strict_eq (playingSound s1) (VStr "ringtone") then _stopGeneratedLoop s1 else s1.

Definition stopRingback (s : State) : State :=
  let s1 := set_ringback (pause (ringback s)) s in
  if strict_eq (playingSound s1) (VStr "ringback") then _stopGeneratedLoop s1 else s1.

Definition getCurrentSound (s : State) : Val := playingSound s.

Definition _startGeneratedLoop (name : string) (s : State) : State :=
  if audioContext s
  then set_playingSound (VStr name) (set_loopOscillator true s)
  else s.

(** [safePlay] of the ringtone element: the new state and the result. *)
Definition safePlay_ringtone (s : State) : State * bool :=
  match ringtone s with
  | None => (s, false)
  | Some _ =>
      if autoplayAllowed s
      then (set_playingSound (VStr "ringtone") (set_ringtone (Some (mkAudio false)) s), true)
      else (set_ringtone (Some (mkAudio true)) s, false)
  end.

Definition safePlay_ringback (s : State) : State * bool :=
  match ringback s with
  | None => (s, false)
  | Some _ =>
      if autoplayAllowed s
      then (set_playingSound (VStr "ringback") (set_ringback (Some (mkAudio false)) s), true)
      else (set_ringback (Some (mkAudio true)) s, false)
  end.

Definition playRingtone (s : State) : State :=
  let '(s1, ok) := safePlay_ringtone (stopAll (init s)) in
  if ok then s1 else _startGeneratedLoop "ringtone" (ensureAudioContext s1).

Definition playRingback (s : State) : State :=
  let '(s1, ok) := safePlay_ringback (stopAll (init s)) in
  if ok then s1 else _startGeneratedLoop "ringback" (ensureAudioContext s1).

(** The generated beeps are one-shot oscillators that stop by themselves. *)
Definition playConnect (s : State) : State :=
  let s1 := ensureAudioContext (stopAll (init s)) in
  if audioContext s1 then set_playingSound (VStr "connect") s1 else s1.

Definition playDisconnect (s : State) : State := ensureAudioContext (init s).

(** [playConnect()] when the caller does not await it: what runs inside
    the call, up to the [await] that suspends on the audio context, and
    the assignment that runs once the 120 ms beep is over (only when
    there is an audio context). *)
Definition playConnect_begin (s : State) : State := ensureAudioContext (stopAll (init s)).

Definition playConnect_end (s : State) : State := set_playingSound (VStr "connect") s.

Definition unlockAudio (s : State) : State := ensureAudioContext s.

Definition enableUserInteraction (s : State) : State := unlockAudio s.

Definition is_paused (a : option Audio) : bool :=
  match a with Some x => paused x | None => true end.

(** No ringtone, ringback or generated loop is playing. *)
Definition silent (s : State) : bool :=
  is_paused (ringtone s) && is_paused (ringback s) && negb (loopOscillator s).

End CallSounds.

(** ** The Dashboard component: message overlay and call signaling *)

Module Dashboard.

Module SM := SocketManager.
Module CS := CallSounds.

(** The [useState] values a function of the component body closes over.
    Every render creates the functions anew ([startCall], [endCall], the
    socket handlers of an effect, ...), each seeing the values of its own
    render.  Media streams are references into [streams]. *)
Record Render := mkRender {
  selectedUser : Val;
  selectedRoom : Val;
  user : Val;
  inCall : bool;
  callType : Val;
  localStream : option nat;
  remoteStream : option nat;
  isMuted : bool;
  isCameraOff : bool;
  incomingCall : Val;
  acceptingCall : bool;
  activeCallSession : Val;
  callerRinging : bool;
  remoteRingingUser : Val
}.

(** The functions the component passes to [socketManager.on], with what
    they close over.  [cell] is the [let deliveryTimer] variable of one
    [startCall] invocation; [fd], [fu], [fo] are references to handlers. *)
Inductive Closure :=
| COnDelivered (r : Render) (cell fd fu : nat)
| COnUserUnavailable (r : Render) (cell fd fu : nat)
| CHandleOffer (r : Render) (pc fo : nat)
| CHandleIncomingCall (r : Render)
| CHandleIncomingCallAck (r : Render)
| CCallAnswered (r : Render)
| CIceCandidate
| CCallEnded (r : Render)
| CHandleParticipantAck
| CReceiveMessage
| CMessageStatusUpdate
| CSendHandler (i : nat) (clientTempId : Val).

(** The callbacks passed to [setTimeout]. *)
Inductive TimerCb :=
| TDeliveryTimeout (cell fd fu : nat)
| TOfferWait (r : Render) (fo : nat)
| TSendTimeout (i : nat).

Record Timer := mkTimer { tid : nat; due : nat; cb : TimerCb }.

(** An [async] function suspended at an [await], with its local
    variables. *)
Inductive Task :=
| KStartGroupCall (r : Render) (type : Val)
| KStartCallMedia (r : Render) (type : Val)
| KStartCallOffer (r : Render) (type : Val) (pc : nat)
| KStartCallLocal (r : Render) (type : Val) (pc : nat) (offer : Val)
| KAnswerMedia (r : Render)
| KAnswerRemote (r : Render) (pc : nat)
| KAnswerCreate (r : Render) (pc : nat)
| KAnswerLocal (r : Render) (pc : nat) (answer : Val)
| KOfferRemote (r : Render) (pc fo : nat) (data : Val)
| KOfferCreate (r : Render) (pc fo : nat) (data : Val)
| KOfferLocal (r : Render) (pc fo : nat) (data answer : Val)
| KCallAnsweredRemote (pc : nat) (answer : Val)
| KIceAdd (pc : nat) (candidate : Val)
| KAckMedia (r : Render) (pc : nat) (data : Val)
| KAckOffer (r : Render) (pc : nat) (data : Val)
| KAckLocal (r : Render) (pc : nat) (data offer : Val)
| KTranslate (msg : Val).

(** How an awaited promise settles. *)
Inductive Settled := Resolved (v : Val) | Rejected (err : Val).

(** The request of one [sendMessage] invocation ([resPromise]). *)
Inductive ApiState := ApiPending | ApiFulfilled (data : Val) | ApiRejected.

(** The variables of one [sendMessage] invocation: the correlation token,
    the [resolved] flag and the timer of its race, the request, and
    whether the timer callback is suspended on the request. *)
Record Send := mkSend {
  s_clientTempId : Val;
  s_resolved : bool;
  s_timeout : nat;
  s_api : ApiState;
  s_awaiting : bool
}.

(** A [MediaStreamTrack]; [synthetic] marks the silent audio track made
    by [createSilentAudioTrack]. *)
Record Track := mkTrack { kind : string; synthetic : bool; ended : bool }.

(** An [RTCPeerConnection] with the render whose [createPeerConnection]
    made it (its callbacks close over that render). *)
Record PeerConnection := mkPC {
  pc_render : Render;
  pc_closed : bool;
  senders : list nat;
  localDescription : Val;
  remoteDescription : Val;
  candidates : list Val
}.

(** The component instance and what it reaches: the state the next render
    will see, the refs, the connection manager, the function and variable
    heaps, the timers with the clock (in ms), the sound player, the media
    objects, the alerts shown and the suspended async functions.  [offs]
    lists the calls of [socketManager.off] the component made.  The last
    four fields belong to the message overlay: the [messages] and
    [message] states, the [sendMessage] invocations in flight, the number
    of [fetchUnreadCounts] requests and the [fetchMessages] requests with
    the render each was made in.  [beeps] counts the connect beeps that
    [playConnect] calls nobody awaited still have to finish. *)
Record World := mkWorld {
  cur : Render;
  peerConnectionRef : option nat;
  initiatorOfferSentRef : list Val;
  sm : SM.World;
  closures : list Closure;
  cells : list (option nat);
  timers : list Timer;
  now : nat;
  nextTimer : nat;
  sounds : CS.State;
  tracks : list Track;
  streams : list (list nat);
  pcs : list PeerConnection;
  alerts : list string;
  tasks : list (option Task);
  signalingCleanup : option nat;
  offs : list (string * option nat);
  messages : list Val;
  message : string;
  sends : list Send;
  unreadFetches : nat;
  fetches : list (option Render);
  beeps : nat
}.

Definition initialRender (u : Val) : Render :=
  {| selectedUser := VNull; selectedRoom := VNull; user := u; inCall := false;
     callType := VNull; localStream := None; remoteStream := None; isMuted := false;
     isCameraOff := false; incomingCall := VNull; acceptingCall := false;
     activeCallSession := VNull; callerRinging := false; remoteRingingUser := VNull |}.

Definition initialWorld (u : Val) (autoplay api : bool) : World :=
  {| cur := initialRender u; peerConnectionRef := None; initiatorOfferSentRef := [];
     sm := SM.init; closures := []; cells := []; timers := []; now := 0; nextTimer := 0;
     sounds := CS.constructor autoplay api; tracks := []; streams := []; pcs := [];
     alerts := []; tasks := []; signalingCleanup := None; offs := [];
     messages := []; message := ""; sends := []; unreadFetches := 0;
     fetches := []; beeps := 0 |}.

(** *** Field updates *)

Definition r_selectedUser (v : Val) (x : Render) : Render :=
  {| selectedUser := v; selectedRoom := selectedRoom x; user := user x;
     inCall := inCall x; callType := callType x; localStream := localStream x;
     remoteStream := remoteStream x; isMuted := isMuted x;
     isCameraOff := isCameraOff x; incomingCall := incomingCall x;
     acceptingCall := acceptingCall x; activeCallSession := activeCallSession x;
     callerRinging := callerRinging x; remoteRingingUser := remoteRingingUser x |}.

Definition r_selectedRoom (v : Val) (x : Render) : Render :=
  {| selectedUser := selectedUser x; selectedRoom := v; user := user x;
     inCall := inCall x; callType := callType x; localStream := localStream x;
     remoteStream := remoteStream x; isMuted := isMuted x;
     isCameraOff := isCameraOff x; incomingCall := incomingCall x;
     acceptingCall := acceptingCall x; activeCallSession := activeCallSession x;
     callerRinging := callerRinging x; remoteRingingUser := remoteRingingUser x |}.

Definition r_user (v : Val) (x : Render) : Render :=
  {| selectedUser := selectedUser x; selectedRoom := selectedRoom x; user := v;
     inCall := inCall x; callType := callType x; localStream := localStream x;
     remoteStream := remoteStream x; isMuted := isMuted x;
     isCameraOff := isCameraOff x; incomingCall := incomingCall x;
     acceptingCall := acceptingCall x; activeCallSession := activeCallSession x;
     callerRinging := callerRinging x; remoteRingingUser := remoteRingingUser x |}.

Definition r_inCall (v : bool) (x : Render) : Render :=
  {| selectedUser := selectedUser x; selectedRoom := selectedRoom x; user := user x;
     inCall := v; callType := callType x; localStream := localStream x;
     remoteStream := remoteStream x; isMuted := isMuted x;
     isCameraOff := isCameraOff x; incomingCall := incomingCall x;
     acceptingCall := acceptingCall x; activeCallSession := activeCallSession x;
     callerRinging := callerRinging x; remoteRingingUser := remoteRingingUser x |}.

Definition r_callType (v : Val) (x : Render) : Render :=
  {| selectedUser := selectedUser x; selectedRoom := selectedRoom x; user := user x;
     inCall := inCall x; callType := v; localStream := localStream x;
     remoteStream := remoteStream x; isMuted := isMuted x;
     isCameraOff := isCameraOff x; incomingCall := incomingCall x;
     acceptingCall := acceptingCall x; activeCallSession := activeCallSession x;
     callerRinging := callerRinging x; remoteRingingUser := remoteRingingUser x |}.

Definition r_localStream (v : option nat) (x : Render) : Render :=
  {| selectedUser := selectedUser x; selectedRoom := selectedRoom x; user := user x;
     inCall := inCall x; callType := callType x; localStream := v;
     remoteStream := remoteStream x; isMuted := isMuted x;
     isCameraOff := isCameraOff x; incomingCall := incomingCall x;
     acceptingCall := acceptingCall x; activeCallSession := activeCallSession x;
     callerRinging := callerRinging x; remoteRingingUser := remoteRingingUser x |}.

Definition r_remoteStream (v : option nat) (x : Render) : Render :=
  {| selectedUser := selectedUser x; selectedRoom := selectedRoom x; user := user x;
     inCall := inCall x; callType := callType x; localStream := localStream x;
     remoteStream := v; isMuted := isMuted x; isCameraOff := isCameraOff x;
     incomingCall := incomingCall x; acceptingCall := acceptingCall x;
     activeCallSession := activeCallSession x; callerRinging := callerRinging x;
     remoteRingingUser := remoteRingingUser x |}.

Definition r_isMuted (v : bool) (x : Render) : Render :=
  {| selectedUser := selectedUser x; selectedRoom := selectedRoom x; user := user x;
     inCall := inCall x; callType := callType x; localStream := localStream x;
     remoteStream := remoteStream x; isMuted := v; isCameraOff := isCameraOff x;
     incomingCall := incomingCall x; acceptingCall := acceptingCall x;
     activeCallSession := activeCallSession x; callerRinging := callerRinging x;
     remoteRingingUser := remoteRingingUser x |}.

Definition r_isCameraOff (v : bool) (x : Render) : Render :=
  {| selectedUser := selectedUser x; selectedRoom := selectedRoom x; user := user x;
     inCall := inCall x; callType := callType x; localStream := localStream x;
     remoteStream := remoteStream x; isMuted := isMuted x; isCameraOff := v;
     incomingCall := incomingCall x; acceptingCall := acceptingCall x;
     activeCallSession := activeCallSession x; callerRinging := callerRinging x;
     remoteRingingUser := remoteRingingUser x |}.

Definition r_incomingCall (v : Val) (x : Render) : Render :=
  {| selectedUser := selectedUser x; selectedRoom := selectedRoom x; user := user x;
     inCall := inCall x; callType := callType x; localStream := localStream x;
     remoteStream := remoteStream x; isMuted := isMuted x;
     isCameraOff := isCameraOff x; incomingCall := v; acceptingCall := acceptingCall x;
     activeCallSession := activeCallSession x; callerRinging := callerRinging x;
     remoteRingingUser := remoteRingingUser x |}.

Definition r_acceptingCall (v : bool) (x : Render) : Render :=
  {| selectedUser := selectedUser x; selectedRoom := selectedRoom x; user := user x;
     inCall := inCall x; callType := callType x; localStream := localStream x;
     remoteStream := remoteStream x; isMuted := isMuted x;
     isCameraOff := isCameraOff x; incomingCall := incomingCall x; acceptingCall := v;
     activeCallSession := activeCallSession x; callerRinging := callerRinging x;
     remoteRingingUser := remoteRingingUser x |}.

Definition r_activeCallSession (v : Val) (x : Render) : Render :=
  {| selectedUser := selectedUser x; selectedRoom := selectedRoom x; user := user x;
     inCall := inCall x; callType := callType x; localStream := localStream x;
     remoteStream := remoteStream x; isMuted := isMuted x;
     isCameraOff := isCameraOff x; incomingCall := incomingCall x;
     acceptingCall := acceptingCall x; activeCallSession := v;
     callerRinging := callerRinging x; remoteRingingUser := remoteRingingUser x |}.

Definition r_callerRinging (v : bool) (x : Render) : Render :=
  {| selectedUser := selectedUser x; selectedRoom := selectedRoom x; user := user x;
     inCall := inCall x; callType := callType x; localStream := localStream x;
     remoteStream := remoteStream x; isMuted := isMuted x;
     isCameraOff := isCameraOff x; incomingCall := incomingCall x;
     acceptingCall := acceptingCall x; activeCallSession := activeCallSession x;
     callerRinging := v; remoteRingingUser := remoteRingingUser x |}.

Definition r_remoteRingingUser (v : Val) (x : Render) : Render :=
  {| selectedUser := selectedUser x; selectedRoom := selectedRoom x; user := user x;
     inCall := inCall x; callType := callType x; localStream := localStream x;
     remoteStream := remoteStream x; isMuted := isMuted x;
     isCameraOff := isCameraOff x; incomingCall := incomingCall x;
     acceptingCall := acceptingCall x; activeCallSession := activeCallSession x;
     callerRinging := callerRinging x; remoteRingingUser := v |}.


Definition w_cur (v : Render) (x : World) : World :=
  {| cur := v; peerConnectionRef := peerConnectionRef x;
     initiatorOfferSentRef := initiatorOfferSentRef x; sm := sm x;
     closures := closures x; cells := cells x; timers := timers x; now := now x;
     nextTimer := nextTimer x; sounds := sounds x; tracks := tracks x;
     streams := streams x; pcs := pcs x; alerts := alerts x; tasks := tasks x;
     signalingCleanup := signalingCleanup x; offs := offs x; messages := messages x;
     message := message x; sends := sends x; unreadFetches := unreadFetches x;
     fetches := fetches x; beeps := beeps x |}.

Definition w_peerConnectionRef (v : option nat) (x : World) : World :=
  {| cur := cur x; peerConnectionRef := v;
     initiatorOfferSentRef := initiatorOfferSentRef x; sm := sm x;
     closures := closures x; cells := cells x; timers := timers x; now := now x;
     nextTimer := nextTimer x; sounds := sounds x; tracks := tracks x;
     streams := streams x; pcs := pcs x; alerts := alerts x; tasks := tasks x;
     signalingCleanup := signalingCleanup x; offs := offs x; messages := messages x;
     message := message x; sends := sends x; unreadFetches := unreadFetches x;
     fetches := fetches x; beeps := beeps x |}.

Definition w_initiatorOfferSentRef (v : list Val) (x : World) : World :=
  {| cur := cur x; peerConnectionRef := peerConnectionRef x;
     initiatorOfferSentRef := v; sm := sm x; closures := closures x; cells := cells x;
     timers := timers x; now := now x; nextTimer := nextTimer x; sounds := sounds x;
     tracks := tracks x; streams := streams x; pcs := pcs x; alerts := alerts x;
     tasks := tasks x; signalingCleanup := signalingCleanup x; offs := offs x;
     messages := messages x; message := message x; sends := sends x;
     unreadFetches := unreadFetches x;
     fetches := fetches x; beeps := beeps x |}.

Definition w_sm (v : SocketManager.World) (x : World) : World :=
  {| cur := cur x; peerConnectionRef := peerConnectionRef x;
     initiatorOfferSentRef := initiatorOfferSentRef x; sm := v; closures := closures x;
     cells := cells x; timers := timers x; now := now x; nextTimer := nextTimer x;
     sounds := sounds x; tracks := tracks x; streams := streams x; pcs := pcs x;
     alerts := alerts x; tasks := tasks x; signalingCleanup := signalingCleanup x;
     offs := offs x; messages := messages x; message := message x; sends := sends x;
     unreadFetches := unreadFetches x;
     fetches := fetches x; beeps := beeps x |}.

Definition w_closures (v : list Closure) (x : World) : World :=
  {| cur := cur x; peerConnectionRef := peerConnectionRef x;
     initiatorOfferSentRef := initiatorOfferSentRef x; sm := sm x; closures := v;
     cells := cells x; timers := timers x; now := now x; nextTimer := nextTimer x;
     sounds := sounds x; tracks := tracks x; streams := streams x; pcs := pcs x;
     alerts := alerts x; tasks := tasks x; signalingCleanup := signalingCleanup x;
     offs := offs x; messages := messages x; message := message x; sends := sends x;
     unreadFetches := unreadFetches x;
     fetches := fetches x; beeps := beeps x |}.

Definition w_cells (v : list (option nat)) (x : World) : World :=
  {| cur := cur x; peerConnectionRef := peerConnectionRef x;
     initiatorOfferSentRef := initiatorOfferSentRef x; sm := sm x;
     closures := closures x; cells := v; timers := timers x; now := now x;
     nextTimer := nextTimer x; sounds := sounds x; tracks := tracks x;
     streams := streams x; pcs := pcs x; alerts := alerts x; tasks := tasks x;
     signalingCleanup := signalingCleanup x; offs := offs x; messages := messages x;
     message := message x; sends := sends x; unreadFetches := unreadFetches x;
     fetches := fetches x; beeps := beeps x |}.

Definition w_timers (v : list Timer) (x : World) : World :=
  {| cur := cur x; peerConnectionRef := peerConnectionRef x;
     initiatorOfferSentRef := initiatorOfferSentRef x; sm := sm x;
     closures := closures x; cells := cells x; timers := v; now := now x;
     nextTimer := nextTimer x; sounds := sounds x; tracks := tracks x;
     streams := streams x; pcs := pcs x; alerts := alerts x; tasks := tasks x;
     signalingCleanup := signalingCleanup x; offs := offs x; messages := messages x;
     message := message x; sends := sends x; unreadFetches := unreadFetches x;
     fetches := fetches x; beeps := beeps x |}.

Definition w_now (v : nat) (x : World) : World :=
  {| cur := cur x; peerConnectionRef := peerConnectionRef x;
     initiatorOfferSentRef := initiatorOfferSentRef x; sm := sm x;
     closures := closures x; cells := cells x; timers := timers x; now := v;
     nextTimer := nextTimer x; sounds := sounds x; tracks := tracks x;
     streams := streams x; pcs := pcs x; alerts := alerts x; tasks := tasks x;
     signalingCleanup := signalingCleanup x; offs := offs x; messages := messages x;
     message := message x; sends := sends x; unreadFetches := unreadFetches x;
     fetches := fetches x; beeps := beeps x |}.

Definition w_nextTimer (v : nat) (x : World) : World :=
  {| cur := cur x; peerConnectionRef := peerConnectionRef x;
     initiatorOfferSentRef := initiatorOfferSentRef x; sm := sm x;
     closures := closures x; cells := cells x; timers := timers x; now := now x;
     nextTimer := v; sounds := sounds x; tracks := tracks x; streams := streams x;
     pcs := pcs x; alerts := alerts x; tasks := tasks x;
     signalingCleanup := signalingCleanup x; offs := offs x; messages := messages x;
     message := message x; sends := sends x; unreadFetches := unreadFetches x;
     fetches := fetches x; beeps := beeps x |}.

Definition w_sounds (v : CallSounds.State) (x : World) : World :=
  {| cur := cur x; peerConnectionRef := peerConnectionRef x;
     initiatorOfferSentRef := initiatorOfferSentRef x; sm := sm x;
     closures := closures x; cells := cells x; timers := timers x; now := now x;
     nextTimer := nextTimer x; sounds := v; tracks := tracks x; streams := streams x;
     pcs := pcs x; alerts := alerts x; tasks := tasks x;
     signalingCleanup := signalingCleanup x; offs := offs x; messages := messages x;
     message := message x; sends := sends x; unreadFetches := unreadFetches x;
     fetches := fetches x; beeps := beeps x |}.

Definition w_tracks (v : list Track) (x : World) : World :=
  {| cur := cur x; peerConnectionRef := peerConnectionRef x;
     initiatorOfferSentRef := initiatorOfferSentRef x; sm := sm x;
     closures := closures x; cells := cells x; timers := timers x; now := now x;
     nextTimer := nextTimer x; sounds := sounds x; tracks := v; streams := streams x;
     pcs := pcs x; alerts := alerts x; tasks := tasks x;
     signalingCleanup := signalingCleanup x; offs := offs x; messages := messages x;
     message := message x; sends := sends x; unreadFetches := unreadFetches x;
     fetches := fetches x; beeps := beeps x |}.

Definition w_streams (v : list (list nat)) (x : World) : World :=
  {| cur := cur x; peerConnectionRef := peerConnectionRef x;
     initiatorOfferSentRef := initiatorOfferSentRef x; sm := sm x;
     closures := closures x; cells := cells x; timers := timers x; now := now x;
     nextTimer := nextTimer x; sounds := sounds x; tracks := tracks x; streams := v;
     pcs := pcs x; alerts := alerts x; tasks := tasks x;
     signalingCleanup := signalingCleanup x; offs := offs x; messages := messages x;
     message := message x; sends := sends x; unreadFetches := unreadFetches x;
     fetches := fetches x; beeps := beeps x |}.

Definition w_pcs (v : list PeerConnection) (x : World) : World :=
  {| cur := cur x; peerConnectionRef := peerConnectionRef x;
     initiatorOfferSentRef := initiatorOfferSentRef x; sm := sm x;
     closures := closures x; cells := cells x; timers := timers x; now := now x;
     nextTimer := nextTimer x; sounds := sounds x; tracks := tracks x;
     streams := streams x; pcs := v; alerts := alerts x; tasks := tasks x;
     signalingCleanup := signalingCleanup x; offs := offs x; messages := messages x;
     message := message x; sends := sends x; unreadFetches := unreadFetches x;
     fetches := fetches x; beeps := beeps x |}.

Definition w_alerts (v : list string) (x : World) : World :=
  {| cur := cur x; peerConnectionRef := peerConnectionRef x;
     initiatorOfferSentRef := initiatorOfferSentRef x; sm := sm x;
     closures := closures x; cells := cells x; timers := timers x; now := now x;
     nextTimer := nextTimer x; sounds := sounds x; tracks := tracks x;
     streams := streams x; pcs := pcs x; alerts := v; tasks := tasks x;
     signalingCleanup := signalingCleanup x; offs := offs x; messages := messages x;
     message := message x; sends := sends x; unreadFetches := unreadFetches x;
     fetches := fetches x; beeps := beeps x |}.

Definition w_tasks (v : list (option Task)) (x : World) : World :=
  {| cur := cur x; peerConnectionRef := peerConnectionRef x;
     initiatorOfferSentRef := initiatorOfferSentRef x; sm := sm x;
     closures := closures x; cells := cells x; timers := timers x; now := now x;
     nextTimer := nextTimer x; sounds := sounds x; tracks := tracks x;
     streams := streams x; pcs := pcs x; alerts := alerts x; tasks := v;
     signalingCleanup := signalingCleanup x; offs := offs x; messages := messages x;
     message := message x; sends := sends x; unreadFetches := unreadFetches x;
     fetches := fetches x; beeps := beeps x |}.

Definition w_signalingCleanup (v : option nat) (x : World) : World :=
  {| cur := cur x; peerConnectionRef := peerConnectionRef x;
     initiatorOfferSentRef := initiatorOfferSentRef x; sm := sm x;
     closures := closures x; cells := cells x; timers := timers x; now := now x;
     nextTimer := nextTimer x; sounds := sounds x; tracks := tracks x;
     streams := streams x; pcs := pcs x; alerts := alerts x; tasks := tasks x;
     signalingCleanup := v; offs := offs x; messages := messages x;
     message := message x; sends := sends x; unreadFetches := unreadFetches x;
     fetches := fetches x; beeps := beeps x |}.

Definition w_offs (v : list (string * option nat)) (x : World) : World :=
  {| cur := cur x; peerConnectionRef := peerConnectionRef x;
     initiatorOfferSentRef := initiatorOfferSentRef x; sm := sm x;
     closures := closures x; cells := cells x; timers := timers x; now := now x;
     nextTimer := nextTimer x; sounds := sounds x; tracks := tracks x;
     streams := streams x; pcs := pcs x; alerts := alerts x; tasks := tasks x;
     signalingCleanup := signalingCleanup x; offs := v; messages := messages x;
     message := message x; sends := sends x; unreadFetches := unreadFetches x;
     fetches := fetches x; beeps := beeps x |}.

Definition w_messages (v : list Val) (x : World) : World :=
  {| cur := cur x; peerConnectionRef := peerConnectionRef x;
     initiatorOfferSentRef := initiatorOfferSentRef x; sm := sm x;
     closures := closures x; cells := cells x; timers := timers x; now := now x;
     nextTimer := nextTimer x; sounds := sounds x; tracks := tracks x;
     streams := streams x; pcs := pcs x; alerts := alerts x; tasks := tasks x;
     signalingCleanup := signalingCleanup x; offs := offs x; messages := v;
     message := message x; sends := sends x; unreadFetches := unreadFetches x;
     fetches := fetches x; beeps := beeps x |}.

Definition w_message (v : string) (x : World) : World :=
  {| cur := cur x; peerConnectionRef := peerConnectionRef x;
     initiatorOfferSentRef := initiatorOfferSentRef x; sm := sm x;
     closures := closures x; cells := cells x; timers := timers x; now := now x;
     nextTimer := nextTimer x; sounds := sounds x; tracks := tracks x;
     streams := streams x; pcs := pcs x; alerts := alerts x; tasks := tasks x;
     signalingCleanup := signalingCleanup x; offs := offs x; messages := messages x;
     message := v; sends := sends x; unreadFetches := unreadFetches x;
     fetches := fetches x; beeps := beeps x |}.

Definition w_sends (v : list Send) (x : World) : World :=
  {| cur := cur x; peerConnectionRef := peerConnectionRef x;
     initiatorOfferSentRef := initiatorOfferSentRef x; sm := sm x;
     closures := closures x; cells := cells x; timers := timers x; now := now x;
     nextTimer := nextTimer x; sounds := sounds x; tracks := tracks x;
     streams := streams x; pcs := pcs x; alerts := alerts x; tasks := tasks x;
     signalingCleanup := signalingCleanup x; offs := offs x; messages := messages x;
     message := message x; sends := v; unreadFetches := unreadFetches x;
     fetches := fetches x; beeps := beeps x |}.

Definition w_unreadFetches (v : nat) (x : World) : World :=
  {| cur := cur x; peerConnectionRef := peerConnectionRef x;
     initiatorOfferSentRef := initiatorOfferSentRef x; sm := sm x;
     closures := closures x; cells := cells x; timers := timers x; now := now x;
     nextTimer := nextTimer x; sounds := sounds x; tracks := tracks x;
     streams := streams x; pcs := pcs x; alerts := alerts x; tasks := tasks x;
     signalingCleanup := signalingCleanup x; offs := offs x; messages := messages x;
     message := message x; sends := sends x; unreadFetches := v;
     fetches := fetches x; beeps := beeps x |}.

Definition w_fetches (v : list (option Render)) (x : World) : World :=
  {| cur := cur x; peerConnectionRef := peerConnectionRef x;
     initiatorOfferSentRef := initiatorOfferSentRef x; sm := sm x;
     closures := closures x; cells := cells x; timers := timers x; now := now x;
     nextTimer := nextTimer x; sounds := sounds x; tracks := tracks x;
     streams := streams x; pcs := pcs x; alerts := alerts x; tasks := tasks x;
     signalingCleanup := signalingCleanup x; offs := offs x; messages := messages x;
     message := message x; sends := sends x; unreadFetches := unreadFetches x;
     fetches := v; beeps := beeps x |}.

Definition w_beeps (v : nat) (x : World) : World :=
  {| cur := cur x; peerConnectionRef := peerConnectionRef x;
     initiatorOfferSentRef := initiatorOfferSentRef x; sm := sm x;
     closures := closures x; cells := cells x; timers := timers x; now := now x;
     nextTimer := nextTimer x; sounds := sounds x; tracks := tracks x;
     streams := streams x; pcs := pcs x; alerts := alerts x; tasks := tasks x;
     signalingCleanup := signalingCleanup x; offs := offs x; messages := messages x;
     message := message x; sends := sends x; unreadFetches := unreadFetches x;
     fetches := fetches x; beeps := v |}.


(** The [useState] setters. *)
Definition setSelectedUser (v : Val) (w : World) := w_cur (r_selectedUser v (cur w)) w.
Definition setSelectedRoom (v : Val) (w : World) := w_cur (r_selectedRoom v (cur w)) w.
Definition setInCall (v : bool) (w : World) := w_cur (r_inCall v (cur w)) w.
Definition setCallType (v : Val) (w : World) := w_cur (r_callType v (cur w)) w.
Definition setLocalStream (v : option nat) (w : World) := w_cur (r_localStream v (cur w)) w.
Definition setRemoteStream (v : option nat) (w : World) := w_cur (r_remoteStream v (cur w)) w.
Definition setIsMuted (v : bool) (w : World) := w_cur (r_isMuted v (cur w)) w.
Definition setIsCameraOff (v : bool) (w : World) := w_cur (r_isCameraOff v (cur w)) w.
Definition setIncomingCall (v : Val) (w : World) := w_cur (r_incomingCall v (cur w)) w.
Definition setAcceptingCall (v : bool) (w : World) := w_cur (r_acceptingCall v (cur w)) w.
Definition setActiveCallSession (v : Val) (w : World) :=
  w_cur (r_activeCallSession v (cur w)) w.
Definition setCallerRinging (v : bool) (w : World) := w_cur (r_callerRinging v (cur w)) w.
Definition setRemoteRingingUser (v : Val) (w : World) :=
  w_cur (r_remoteRingingUser v (cur w)) w.

(** *** Collaborators *)

Definition alert (msg : string) (w : World) : World := w_alerts (alerts w ++ [msg]) w.

Definition sound (f : CS.State → CS.State) (w : World) : World := w_sounds (f (sounds w)) w.

(** [callSoundPlayer.playConnect().catch(...)]: nobody awaits the call.
    Its synchronous part runs at once; when there is an audio context the
    beep starts, and the method sets [playingSound] when the beep is
    over, after whatever the caller did in between. *)
Definition playConnect_unawaited (w : World) : World :=
  let w1 := sound CS.playConnect_begin w in
  if CS.audioContext (sounds w1) then w_beeps (S (beeps w1)) w1 else w1.

Definition connectBeepEnds (w : World) : World :=
  match beeps w with
  | S n => sound CS.playConnect_end (w_beeps n w)
  | 0 => w
  end.

Definition sm_on (e : string) (h : nat) (w : World) : World := w_sm (SM.on e h (sm w)) w.

Definition sm_off (e : string) (h : option nat) (w : World) : World :=
  w_offs (offs w ++ [(e, h)]) (w_sm (SM.off e h (sm w)) w).

Definition sm_emit (e : string) (d : Val) (w : World) : World := w_sm (SM.emit e d (sm w)) w.

(** The socket the manager holds. *)
Definition current_socket (w : World) : option SM.Socket :=
  match SM.socket (SM.this (sm w)) with
  | Some sid => SM.sockets (sm w) !! sid
  | None => None
  end.

(** [socketManager.socket?.connected] *)
Definition socket_connected (w : World) : bool :=
  match current_socket w with Some s => SM.connected s | None => false end.

Definition new_closure (c : Closure) (w : World) : World := w_closures (closures w ++ [c]) w.

Definition push_task (t : Task) (w : World) : World := w_tasks (tasks w ++ [Some t]) w.

(** [setTimeout(cb, delay)]: the new state and the timer id. *)
Definition setTimeout (c : TimerCb) (delay : nat) (w : World) : World * nat :=
  let i := nextTimer w in
  (w_nextTimer (S i) (w_timers (timers w ++ [mkTimer i (now w + delay) c]) w), i).

Definition clearTimeout (i : nat) (w : World) : World :=
  w_timers (filter (λ t, tid t ≠ i) (timers w)) w.

(** *** Media and peer connections *)

(** [navigator.mediaDevices.getUserMedia({audio: true, video})] when it
    resolves: live tracks and the stream that holds them. *)
Definition acquire (video : bool) (w : World) : World * nat :=
  let n := length (tracks w) in
  let new := mkTrack "audio" false false
             :: (if video then [mkTrack "video" false false] else []) in
  let ids := seq n (length new) in
  (w_streams (streams w ++ [ids]) (w_tracks (tracks w ++ new) w), length (streams w)).

(** [track.stop()] on every track of a stream. *)
Definition stop_track (i : nat) (w : World) : World :=
  w_tracks (alter (λ t, mkTrack (kind t) (synthetic t) true) i (tracks w)) w.

Definition stop_stream (st : option nat) (w : World) : World :=
  match st with
  | Some s => foldl (λ acc i, stop_track i acc) w (default [] (streams w !! s))
  | None => w
  end.

Definition createPeerConnection (r : Render) (w : World) : World * nat :=
  (w_pcs (pcs w ++ [mkPC r false [] VUndef VUndef []]) w, length (pcs w)).

Definition pc_update (f : PeerConnection → PeerConnection) (pc : nat) (w : World) : World :=
  w_pcs (alter f pc (pcs w)) w.

Definition pc_close (p : PeerConnection) : PeerConnection :=
  mkPC (pc_render p) true (senders p) (localDescription p) (remoteDescription p)
    (candidates p).

Definition pc_addTrack (t : nat) (p : PeerConnection) : PeerConnection :=
  mkPC (pc_render p) (pc_closed p) (senders p ++ [t]) (localDescription p)
    (remoteDescription p) (candidates p).

Definition pc_setLocal (d : Val) (p : PeerConnection) : PeerConnection :=
  mkPC (pc_render p) (pc_closed p) (senders p) d (remoteDescription p) (candidates p).

Definition pc_setRemote (d : Val) (p : PeerConnection) : PeerConnection :=
  mkPC (pc_render p) (pc_closed p) (senders p) (localDescription p) d (candidates p).

Definition pc_addCandidate (c : Val) (p : PeerConnection) : PeerConnection :=
  mkPC (pc_render p) (pc_closed p) (senders p) (localDescription p)
    (remoteDescription p) (candidates p ++ [c]).

(** The [stream.getTracks().forEach] of [startCall], [answerCall] and
    the acknowledgement handler: an audio track is replaced by a fresh
    silent track, any other track is added as it is. *)
Definition add_track (pc : nat) (w : World) (i : nat) : World :=
  match tracks w !! i with
  | Some t =>
      if String.eqb (kind t) "audio"
      then let silent := length (tracks w) in
           pc_update (pc_addTrack silent) pc
             (w_tracks (tracks w ++ [mkTrack "audio" true false]) w)
      else pc_update (pc_addTrack i) pc w
  | None => w
  end.

Definition add_stream_tracks (pc stream : nat) (w : World) : World :=
  foldl (add_track pc) w (default [] (streams w !! stream)).

(** *** Ending and rejecting *)

Definition endCall (r : Render) (w : World) : World :=
  let w1 := sound CS.playDisconnect (sound CS.stopAll w) in
  let w2 := stop_stream (remoteStream r) (stop_stream (localStream r) w1) in
  let w3 := match peerConnectionRef w2 with
            | Some pc => pc_update pc_close pc w2
            | None => w2
            end in
  let sessionId := prop (activeCallSession r) "callSessionId" in
  let w4 := if truthy sessionId
            then sm_emit "leaveCallSession" (VObj [("callSessionId", sessionId)]) w3
            else w3 in
  let w5 :=
    if inCall r then
      if truthy (selectedRoom r)
      then sm_emit "endCall"
             (VObj [("roomId", prop (selectedRoom r) "_id"); ("callSessionId", sessionId)]) w4
      else if truthy (selectedUser r)
      then sm_emit "endCall"
             (VObj [("to", prop (selectedUser r) "id"); ("callSessionId", sessionId)]) w4
      else w4
    else w4 in
  setActiveCallSession VNull
    (w_peerConnectionRef None
       (setIsCameraOff false (setIsMuted false (setRemoteStream None
          (setLocalStream None (setCallType VNull (setInCall false w5))))))).

Definition rejectCall (r : Render) (w : World) : World :=
  let w1 := sound CS.stopAll w in
  let ic := incomingCall r in
  let w2 :=
    if truthy ic then
      let d0 := [("to", prop ic "from")] in
      let d1 := if truthy (prop ic "roomId") then d0 ++ [("roomId", prop ic "roomId")] else d0 in
      if truthy (prop ic "isGroupCall") && truthy (prop ic "callSessionId")
      then sm_emit "leaveCallSession" (VObj [("callSessionId", prop ic "callSessionId")]) w1
      else
        let d2 := if truthy (prop ic "callSessionId")
                  then d1 ++ [("callSessionId", prop ic "callSessionId");
                              ("callRoomId", prop ic "callRoomId")]
                  else d1 in
        sm_emit "endCall" (VObj d2) w1
    else w1 in
  setIncomingCall VNull w2.

(** *** startCall *)

Definition startCall_error (err : Val) : string :=
  if strict_eq (prop err "name") (VStr "NotAllowedError")
  then "❌ Camera/microphone access denied. Please allow access in your browser settings and try again."
  else if strict_eq (prop err "name") (VStr "NotFoundError")
  then "❌ Camera/microphone not found. Please check your devices and try again."
  else if strict_eq (prop err "name") (VStr "NotReadableError")
  then "❌ Camera/microphone is already in use by another application. Please close other apps and try again."
  else String.append "❌ Failed to start call: " (to_string (prop err "message")).

Definition answerCall_error (err : Val) : string :=
  if strict_eq (prop err "name") (VStr "NotAllowedError")
  then "❌ Camera/microphone access denied. Please allow access and try again."
  else if strict_eq (prop err "name") (VStr "NotFoundError")
  then "❌ Camera/microphone not found. Please check your devices."
  else if strict_eq (prop err "name") (VStr "NotReadableError")
  then "❌ Camera/microphone is already in use. Please close other apps and try again."
  else String.append "❌ Failed to answer call: " (to_string (prop err "message")).

(** The [catch] block of [startCall]. *)
Definition startCall_catch (r : Render) (err : Val) (w : World) : World :=
  endCall r (alert (startCall_error err) (sound CS.stopAll w)).

(** [startCall] up to [await getUserMedia]. *)
Definition startCall (r : Render) (type : Val) (w : World) : World :=
  if negb (truthy (selectedUser r)) && negb (truthy (selectedRoom r))
  then alert "Please select a user or group to call" w
  else if negb (socket_connected w)
  then alert "Real-time connection not available. Please refresh the page and try again." w
  else
    let w1 := sound CS.enableUserInteraction w in
    if truthy (selectedRoom r) then push_task (KStartGroupCall r type) w1
    else
      let w2 := setCallType type (setActiveCallSession VNull w1) in
      push_task (KStartCallMedia r type) (sound CS.playRingback w2).

Definition clear_cell (cell : nat) (w : World) : World :=
  match cells w !! cell with
  | Some (Some t) => w_cells (<[cell := None]> (cells w)) (clearTimeout t w)
  | _ => w
  end.

Definition remove_delivery_listeners (fd fu : nat) (w : World) : World :=
  sm_off "userUnavailable" (Some fu) (sm_off "incomingCallDelivered" (Some fd) w).

(** The state reset shared by the unavailability handler and the
    delivery timeout. *)
Definition reset_call_ui (w : World) : World :=
  setRemoteRingingUser VNull
    (setCallerRinging false (setCallType VNull (setInCall false (sound CS.stopAll w)))).

(** [data && data.to === selectedUser.id] inside [try]: a [null]
    [selectedUser] throws, which the handler swallows. *)
Definition addressed_to (r : Render) (data : Val) : bool :=
  truthy data && negb (nullish (selectedUser r))
  && strict_eq (prop data "to") (prop (selectedUser r) "id").

Definition onDelivered (r : Render) (cell fd fu : nat) (data : Val) (w : World) : World :=
  if addressed_to r data
  then remove_delivery_listeners fd fu (clear_cell cell w)
  else w.

Definition onUserUnavailable (r : Render) (cell fd fu : nat) (payload : Val) (w : World)
  : World :=
  if addressed_to r payload
  then remove_delivery_listeners fd fu
         (alert "User is unavailable or offline." (reset_call_ui (clear_cell cell w)))
  else w.

Definition DELIVERY_TIMEOUT_MS : nat := 5000.

Definition deliveryTimeout (cell fd fu : nat) (w : World) : World :=
  remove_delivery_listeners fd fu
    (alert "No answer from recipient (timeout)."
       (reset_call_ui (w_cells (<[cell := None]> (cells w)) w))).

(** The private-call branch of [startCall] after the offer is set. *)
Definition startCall_private (r : Render) (type offer : Val) (w : World) : World :=
  let cell := length (cells w) in
  let w1 := w_cells (cells w ++ [None]) w in
  let fd := length (closures w1) in
  let fu := S fd in
  let w2 := new_closure (COnUserUnavailable r cell fd fu)
              (new_closure (COnDelivered r cell fd fu) w1) in
  let w3 := sm_on "userUnavailable" fu (sm_on "incomingCallDelivered" fd w2) in
  let '(w4, t) := setTimeout (TDeliveryTimeout cell fd fu) DELIVERY_TIMEOUT_MS w3 in
  let w5 := w_cells (<[cell := Some t]> (cells w4)) w4 in
  sm_emit "callUser"
    (VObj [("offer", offer); ("callType", type); ("to", prop (selectedUser r) "id")]) w5.

(** [startCall] from the creation of [callData] on. *)
Definition startCall_send (r : Render) (type offer : Val) (w : World) : World :=
  let w1 :=
    if truthy (selectedRoom r)
    then sm_emit "callUser"
           (VObj [("offer", offer); ("callType", type);
                  ("roomId", prop (selectedRoom r) "_id")]) w
    else startCall_private r type offer w in
  setInCall true w1.

(** [startCall] between [getUserMedia] and [createOffer]. *)
Definition startCall_media (r : Render) (type : Val) (w : World) : World :=
  let '(w1, stream) := acquire (strict_eq type (VStr "video")) w in
  let '(w2, pc) := createPeerConnection r (setLocalStream (Some stream) w1) in
  let w3 := add_stream_tracks pc stream (w_peerConnectionRef (Some pc) w2) in
  push_task (KStartCallOffer r type pc) w3.

(** *** answerCall *)

Definition answer_payload (src answer : Val) : Val :=
  VObj [("to", prop src "from"); ("answer", answer); ("roomId", prop src "roomId");
        ("callSessionId", prop src "callSessionId"); ("callRoomId", prop src "callRoomId")].

(** The [catch] block of [answerCall]. *)
Definition answerCall_catch (r : Render) (err : Val) (w : World) : World :=
  rejectCall r
    (setAcceptingCall false
       (alert (answerCall_error err) (sound CS.stopAll w))).

(** [answerCall] up to [await getUserMedia]. *)
Definition answerCall (r : Render) (w : World) : World :=
  let ic := incomingCall r in
  if negb (truthy ic) then w
  else
    let w1 := sound CS.stopAll (setAcceptingCall true (sound CS.enableUserInteraction w)) in
    let w2 := setCallType (prop ic "callType") w1 in
    let w3 :=
      if truthy (prop ic "callSessionId")
      then sm_emit "joinCallSession" (VObj [("callSessionId", prop ic "callSessionId")])
             (setActiveCallSession ic w2)
      else setActiveCallSession VNull w2 in
    push_task (KAnswerMedia r) w3.

Definition OFFER_WAIT_MS : nat := 8000.

(** [answerCall] after [getUserMedia] resolved. *)
Definition answerCall_media (r : Render) (w : World) : World :=
  let ic := incomingCall r in
  let '(w1, stream) := acquire (strict_eq (prop ic "callType") (VStr "video")) w in
  let '(w2, pc) := createPeerConnection r (setLocalStream (Some stream) w1) in
  let w3 := add_stream_tracks pc stream (w_peerConnectionRef (Some pc) w2) in
  let waitingForOffer := negb (truthy (prop ic "offer")) && truthy (prop ic "callSessionId") in
  if waitingForOffer then
    let w4 := sm_emit "joinCallSession"
                (VObj [("callSessionId", prop ic "callSessionId")]) w3 in
    let fo := length (closures w4) in
    let w5 := sm_on "incomingCall" fo (new_closure (CHandleOffer r pc fo) w4) in
    (setTimeout (TOfferWait r fo) OFFER_WAIT_MS w5).1
  else push_task (KAnswerRemote r pc) w3.

(** The tail shared by the two answer flows, up to [setIncomingCall]. *)
Definition answered (src answer : Val) (w : World) : World :=
  setIncomingCall VNull
    (sound CS.stopAll
       (setInCall true
          (playConnect_unawaited (sm_emit "answerCall" (answer_payload src answer) w)))).

(** [handleOffer(data)] up to its first [await]; [finally] removes the
    listener on every exit. *)
Definition handleOffer (r : Render) (pc fo : nat) (data : Val) (w : World) : World :=
  let finally := sm_off "incomingCall" (Some fo) in
  if nullish data then finally (rejectCall r w)
  else if truthy (prop data "callSessionId")
          && negb (strict_eq (prop data "callSessionId")
                     (prop (incomingCall r) "callSessionId"))
  then finally w
  else if negb (truthy (prop data "offer")) then finally w
  else push_task (KOfferRemote r pc fo data) w.

Definition handleOffer_catch (r : Render) (fo : nat) (w : World) : World :=
  sm_off "incomingCall" (Some fo) (rejectCall r w).

(** The safety timeout armed by the deferred-offer branch. *)
Definition offerWaitTimeout (r : Render) (fo : nat) (w : World) : World :=
  rejectCall r (setAcceptingCall false (sm_off "incomingCall" (Some fo) w)).

(** *** Socket handlers of the signaling effect *)

Definition handleIncomingCall (r : Render) (data : Val) (w : World) : World :=
  if nullish data then w
  else
    let w1 := sound CS.playRingtone w in
    let w2 := sm_emit "incomingCallAck"
                (VObj [("from", prop data "from");
                       ("to", jor (prop (user r) "id") (prop (user r) "_id"));
                       ("callSessionId", prop data "callSessionId")]) w1 in
    setIncomingCall data w2.

Definition handleIncomingCallAck (r : Render) (data : Val) (w : World) : World :=
  let su := selectedUser r in
  if truthy su && truthy data && truthy (prop data "from") && truthy (prop su "id")
     && strict_eq (toStringQ (prop data "from")) (toStringQ (prop su "id"))
  then sound CS.playRingback (setRemoteRingingUser su (setCallerRinging true w))
  else w.

Definition callAnswered (r : Render) (data : Val) (w : World) : World :=
  if nullish data then w
  else
    let w1 := sound CS.stopAll w in
    let w2 :=
      if truthy (prop data "callSessionId") then
        if truthy (prop (activeCallSession (cur w1)) "callSessionId") then w1
        else setActiveCallSession
               (VObj [("callSessionId", prop data "callSessionId");
                      ("callRoomId", prop data "callRoomId");
                      ("callType", callType r); ("from", prop data "from")]) w1
      else w1 in
    match peerConnectionRef w2 with
    | Some pc => push_task (KCallAnsweredRemote pc (prop data "answer")) w2
    | None => w2
    end.

(** The ['iceCandidate'] handler up to [await addIceCandidate]. *)
Definition iceCandidate (data : Val) (w : World) : World :=
  match peerConnectionRef w with
  | Some pc => if nullish data then w else push_task (KIceAdd pc (prop data "candidate")) w
  | None => w
  end.

Definition callEnded (r : Render) (w : World) : World := endCall r w.

(** *** The participant-joined acknowledgement *)

(** The effect that registers [handleParticipantAck] lists every state
    value the handler reads among its dependencies, so the registered
    function sees the values current when the event arrives. *)
Definition effectiveCallType (r : Render) (data : Val) : Val :=
  jor (jor (prop (activeCallSession r) "callType") (prop data "callType")) (callType r).

Definition effectiveRoomId (r : Render) (data : Val) : Val :=
  jor (jor (prop (activeCallSession r) "roomId") (prop data "roomId"))
      (prop (activeCallSession r) "roomId").

(** [Set.prototype.has] *)
Definition set_has (x : Val) (s : list Val) : bool := existsb (strict_eq x) s.

(** [Set.prototype.add] *)
Definition set_add (x : Val) (s : list Val) : list Val :=
  if set_has x s then s else s ++ [x].

(** [handleParticipantAck(data)] up to its first [await]. *)
Definition handleParticipantAck (r : Render) (data : Val) (w : World) : World :=
  let callSessionId := prop (jor data (VObj [])) "callSessionId" in
  if negb (truthy callSessionId) then w
  else
    let acs := activeCallSession r in
    let initiatorId := jor (prop (prop acs "initiator") "id") (prop acs "initiator") in
    if truthy initiatorId
       && negb (strict_eq (toStringQ initiatorId) (toStringQ (prop (user r) "_id")))
    then w
    else if set_has callSessionId (initiatorOfferSentRef w) then w
    else
      let '(w1, pc) :=
        match peerConnectionRef w with
        | Some pc => (w, pc)
        | None => let '(w', pc) := createPeerConnection r w in
                  (w_peerConnectionRef (Some pc) w', pc)
        end in
      match localStream r with
      | None => push_task (KAckMedia r pc data) w1
      | Some _ => push_task (KAckOffer r pc data) w1
      end.

(** The offer sent by the acknowledgement handler. *)
Definition ack_offer (r : Render) (data offer : Val) : Val :=
  VObj [("offer", offer); ("callType", effectiveCallType r data);
        ("roomId", effectiveRoomId r data);
        ("callSessionId", prop data "callSessionId");
        ("callRoomId", jor (prop (activeCallSession r) "callRoomId") (prop data "callRoomId"))].

Definition ack_send (r : Render) (data offer : Val) (w : World) : World :=
  let w1 := sm_emit "callUser" (ack_offer r data offer) w in
  w_initiatorOfferSentRef (set_add (prop data "callSessionId") (initiatorOfferSentRef w1)) w1.

(** *** The message overlay *)

Definition setMessages (f : list Val → list Val) (w : World) : World :=
  w_messages (f (messages w)) w.

Definition setMessage (v : string) (w : World) : World := w_message v w.

Definition fetchUnreadCounts (w : World) : World := w_unreadFetches (S (unreadFetches w)) w.

(** [m._id || m.id] *)
Definition local_id (m : Val) : Val := jor (prop m "_id") (prop m "id").

(** [m._id || m.id || `${m.timestamp}-${m.sender}`] *)
Definition persisted_id (m : Val) : Val :=
  jor (local_id m)
      (VStr (String.append (to_string (prop m "timestamp"))
               (String.append "-" (to_string (prop m "sender"))))).

(** [prev.findIndex(m => m._id === t || m.id === t)] *)
Fixpoint findIndex (t : Val) (prev : list Val) : option nat :=
  match prev with
  | [] => None
  | m :: prev' =>
      if strict_eq (prop m "_id") t || strict_eq (prop m "id") t then Some 0
      else S <$> findIndex t prev'
  end.

(** The updater the ['receiveMessage'] handler passes to [setMessages]. *)
Definition reconcile (m : Val) (prev : list Val) : list Val :=
  if existsb (λ x, strict_eq (local_id x) (persisted_id m)) prev then prev
  else if truthy (prop m "clientTempId") then
    match findIndex (prop m "clientTempId") prev with
    | Some idx => <[idx := m]> prev
    | None => prev ++ [m]
    end
  else prev ++ [m].

(** [shouldAppend] of the ['receiveMessage'] handler; the refs it reads
    mirror the state. *)
Definition senderIdFromMsg (msg : Val) : Val :=
  jor (jor (prop (prop msg "sender") "_id") (prop (prop msg "sender") "id")) (prop msg "sender").

Definition receiverIdFromMsg (msg : Val) : Val :=
  jor (jor (prop (prop msg "receiver") "_id") (prop msg "receiver")) (prop msg "receiverId").

Definition currentUserId (r : Render) : Val := jor (prop (user r) "_id") (prop (user r) "id").

Definition isSelfMessage (r : Render) (msg : Val) : bool :=
  strict_eq (senderIdFromMsg msg) (toStringQ (currentUserId r))
  || strict_eq (senderIdFromMsg msg) (currentUserId r).

Definition matches_selected (r : Render) (x : Val) : bool :=
  let selUser := selectedUser r in
  let selectedUserId := jor (prop selUser "id") (prop selUser "_id") in
  strict_eq x selectedUserId || strict_eq x (prop selUser "id")
  || strict_eq x (prop selUser "_id")
  || strict_eq (toStringQ x) (toStringQ selectedUserId).

Definition shouldAppend (r : Render) (msg : Val) : bool :=
  let isSenderMatch := truthy (selectedUser r) && matches_selected r (senderIdFromMsg msg) in
  let isReceiverMatch :=
    truthy (selectedUser r) && truthy (receiverIdFromMsg msg)
    && matches_selected r (receiverIdFromMsg msg) in
  let isRoomMatch :=
    truthy (selectedRoom r)
    && (strict_eq (prop msg "room") (prop (selectedRoom r) "_id")
        || strict_eq (prop msg "roomId") (prop (selectedRoom r) "_id")) in
  (isSelfMessage r msg && isReceiverMatch)
  || (negb (isSelfMessage r msg) && isSenderMatch)
  || isRoomMatch.

(** The ['receiveMessage'] handler up to [await translateText]. *)
Definition receiveMessage (msg : Val) (w : World) : World :=
  if nullish msg then w
  else if shouldAppend (cur w) msg then push_task (KTranslate msg) w
  else if negb (isSelfMessage (cur w) msg) then fetchUnreadCounts w else w.

(** The delivery acknowledgement both branches of the handler send. *)
Definition acknowledge (msg : Val) (w : World) : World :=
  let messageId := jor (local_id msg) VNull in
  let uid := currentUserId (cur w) in
  let sender := prop msg "sender" in
  let isFromOther :=
    negb (truthy sender
          && ((truthy (prop sender "_id") && strict_eq (prop sender "_id") uid)
              || strict_eq sender uid)) in
  if truthy messageId && isFromOther
  then sm_emit "messageDelivered"
         (VObj [("messageId", messageId);
                ("clientTempId", jor (prop msg "clientTempId") VNull)]) w
  else w.

(** The handler after [translateText] settled. *)
Definition receiveMessage_translated (msg : Val) (res : Settled) (w : World) : World :=
  match res with
  | Resolved translatedContent =>
      let msgWithTranslated :=
        with_field (with_field msg "content" translatedContent)
          "_originalContent" (prop msg "content") in
      acknowledge msg (setMessages (reconcile msgWithTranslated) w)
  | Rejected _ => acknowledge msg (setMessages (reconcile msg) w)
  end.

(** The ['messageStatusUpdate'] handler: the updater it passes to
    [setMessages], then the handler. *)
Definition status_matches (key m : Val) : bool :=
  let mId := local_id m in
  let mTempId := prop m "clientTempId" in
  (truthy mId && strict_eq (toStringQ mId) (toStringQ key))
  || (truthy mTempId && strict_eq (toStringQ mTempId) (toStringQ key)).

Definition update_status (key status : Val) (prev : list Val) : list Val :=
  (λ m, if status_matches key m then with_field m "status" status else m) <$> prev.

Definition messageStatusUpdate (payload : Val) (w : World) : World :=
  let p := jor payload (VObj []) in
  let messageId := prop p "messageId" in
  let status := prop p "status" in
  let clientTempId := prop p "clientTempId" in
  if negb (truthy messageId) && negb (truthy clientTempId) then w
  else
    let w1 := setMessages (update_status (jor messageId clientTempId) status) w in
    if strict_eq status (VStr "delivered") || strict_eq status (VStr "seen")
    then fetchUnreadCounts w1 else w1.

(** [message.trim()] is empty: the text holds white space and line
    terminators only.  A string is the UTF-8 encoding of the text, so the
    characters [trim] strips are the bytes 09 to 0D and 20, the pair C2 A0
    (U+00A0) and the triples of U+1680, U+2000 to U+200A, U+2028, U+2029,
    U+202F, U+205F, U+3000 and U+FEFF. *)
Definition is_space (c : Ascii.ascii) : bool :=
  bool_decide (Ascii.nat_of_ascii c ∈ [32; 9; 10; 11; 12; 13]).

Definition is_space2 (a b : Ascii.ascii) : bool :=
  (Ascii.nat_of_ascii a =? 194) && (Ascii.nat_of_ascii b =? 160).

Definition is_space3 (a b c : Ascii.ascii) : bool :=
  let x := Ascii.nat_of_ascii a in
  let y := Ascii.nat_of_ascii b in
  let z := Ascii.nat_of_ascii c in
  ((x =? 225) && (y =? 154) && (z =? 128))
  || ((x =? 226) && (y =? 128)
      && (((128 <=? z) && (z <=? 138)) || (z =? 168) || (z =? 169) || (z =? 175)))
  || ((x =? 226) && (y =? 129) && (z =? 159))
  || ((x =? 227) && (y =? 128) && (z =? 128))
  || ((x =? 239) && (y =? 187) && (z =? 191)).

Fixpoint is_blank (s : string) : bool :=
  match s with
  | EmptyString => true
  | String a s1 =>
      if is_space a then is_blank s1
      else
        match s1 with
        | EmptyString => false
        | String b s2 =>
            if is_space2 a b then is_blank s2
            else
              match s2 with
              | EmptyString => false
              | String c s3 => is_space3 a b c && is_blank s3
              end
        end
  end.

Definition optimisticMessage (r : Render) (clientTempId timestamp : Val) (content : string)
  : Val :=
  VObj [("_id", clientTempId); ("id", clientTempId); ("clientTempId", clientTempId);
        ("sender", VObj [("_id", jor (prop (user r) "_id") (prop (user r) "id"));
                         ("username", jor (prop (user r) "username") (prop (user r) "name"))]);
        ("content", VStr content); ("originalContent", VStr content);
        ("timestamp", timestamp); ("status", VStr "queued");
        ("room", jor (prop (selectedRoom r) "_id") VNull);
        ("receiver", jor (prop (selectedUser r) "id") VNull);
        ("isGroupMessage", VBool (truthy (selectedRoom r)))].

Definition SOCKET_PREFERENCE_MS : nat := 700.

(** [sendMessage] up to [await new Promise(...)]; the correlation token
    and the timestamp come from [Date.now()] and [Math.random()]. *)
Definition sendMessage (r : Render) (clientTempId timestamp : Val) (w : World) : World :=
  if is_blank (message w) then w
  else
    let w1 := setMessages (λ prev, prev ++ [optimisticMessage r clientTempId timestamp (message w)]) w in
    if negb (truthy (selectedUser r)) && nullish (selectedRoom r)
    then alert "Failed to send message. Please try again." w1
    else
      let i := length (sends w1) in
      let '(w2, t) := setTimeout (TSendTimeout i) SOCKET_PREFERENCE_MS w1 in
      let h := length (closures w2) in
      let w3 := sm_on "receiveMessage" h (new_closure (CSendHandler i clientTempId) w2) in
      w_sends (sends w3 ++ [mkSend clientTempId false t ApiPending false]) w3.

Definition send_update (f : Send → Send) (i : nat) (w : World) : World :=
  w_sends (alter f i (sends w)) w.

Definition s_resolve (s : Send) : Send :=
  mkSend (s_clientTempId s) true (s_timeout s) (s_api s) false.

Definition s_await (s : Send) : Send :=
  mkSend (s_clientTempId s) true (s_timeout s) (s_api s) true.

Definition s_settle (a : ApiState) (s : Send) : Send :=
  mkSend (s_clientTempId s) (s_resolved s) (s_timeout s) a (s_awaiting s).

(** [sendMessage] after the race promise resolved with [savedViaSocket]. *)
Definition sendMessage_finish (i : nat) (savedViaSocket : Val) (w : World) : World :=
  if truthy savedViaSocket then setMessage "" w
  else
    match s_api <$> sends w !! i with
    | Some (ApiFulfilled data) =>
        if nullish data then setMessage "" w
        else setMessage ""
               (setMessages
                  (λ prev, if existsb (λ m, strict_eq (local_id m) (persisted_id data)) prev
                           then prev else prev ++ [data]) w)
    | _ => setMessage "" w
    end.

(** The callback of the race timer. *)
Definition sendTimeout (i : nat) (w : World) : World :=
  match sends w !! i with
  | Some s =>
      if s_resolved s then w
      else
        match s_api s with
        | ApiPending => send_update s_await i w
        | ApiFulfilled data => sendMessage_finish i data (send_update s_resolve i w)
        | ApiRejected => sendMessage_finish i VNull (send_update s_resolve i w)
        end
  | None => w
  end.

(** The request settles: [Some data] is the response body, [None] a
    failed request. *)
Definition apiResponse (i : nat) (res : option Val) (w : World) : World :=
  match sends w !! i with
  | Some s =>
      match s_api s with
      | ApiPending =>
          let a := match res with Some data => ApiFulfilled data | None => ApiRejected end in
          let w1 := send_update (s_settle a) i w in
          if s_awaiting s
          then sendMessage_finish i (default VNull res) (send_update s_resolve i w1)
          else w1
      | _ => w
      end
  | None => w
  end.

(** The temporary ['receiveMessage'] listener of one [sendMessage]. *)
Definition sendHandler (i : nat) (clientTempId msg : Val) (w : World) : World :=
  if truthy msg && strict_eq (prop msg "clientTempId") clientTempId then
    match sends w !! i with
    | Some s =>
        if s_resolved s then w
        else sendMessage_finish i msg (clearTimeout (s_timeout s) (send_update s_resolve i w))
    | None => w
    end
  else w.

(** *** Resuming a suspended function *)

Definition resume (t : Task) (res : Settled) (w : World) : World :=
  match t, res with
  | KStartGroupCall r type, _ => w
  | KStartCallMedia r type, Resolved _ => startCall_media r type w
  | KStartCallMedia r type, Rejected err => startCall_catch r err w
  | KStartCallOffer r type pc, Resolved offer => push_task (KStartCallLocal r type pc offer) w
  | KStartCallOffer r type pc, Rejected err => startCall_catch r err w
  | KStartCallLocal r type pc offer, Resolved _ =>
      startCall_send r type offer (pc_update (pc_setLocal offer) pc w)
  | KStartCallLocal r type pc offer, Rejected err => startCall_catch r err w
  | KAnswerMedia r, Resolved _ => answerCall_media r w
  | KAnswerMedia r, Rejected err => answerCall_catch r err w
  | KAnswerRemote r pc, Resolved _ =>
      push_task (KAnswerCreate r pc)
        (pc_update (pc_setRemote (prop (incomingCall r) "offer")) pc w)
  | KAnswerRemote r pc, Rejected err => answerCall_catch r err w
  | KAnswerCreate r pc, Resolved answer => push_task (KAnswerLocal r pc answer) w
  | KAnswerCreate r pc, Rejected err => answerCall_catch r err w
  | KAnswerLocal r pc answer, Resolved _ =>
      setAcceptingCall false
        (answered (incomingCall r) answer (pc_update (pc_setLocal answer) pc w))
  | KAnswerLocal r pc answer, Rejected err => answerCall_catch r err w
  | KOfferRemote r pc fo data, Resolved _ =>
      push_task (KOfferCreate r pc fo data)
        (pc_update (pc_setRemote (prop data "offer")) pc w)
  | KOfferRemote r pc fo data, Rejected _ => handleOffer_catch r fo w
  | KOfferCreate r pc fo data, Resolved answer => push_task (KOfferLocal r pc fo data answer) w
  | KOfferCreate r pc fo data, Rejected _ => handleOffer_catch r fo w
  | KOfferLocal r pc fo data answer, Resolved _ =>
      sm_off "incomingCall" (Some fo)
        (answered data answer (pc_update (pc_setLocal answer) pc w))
  | KOfferLocal r pc fo data answer, Rejected _ => handleOffer_catch r fo w
  | KCallAnsweredRemote pc answer, Resolved _ => pc_update (pc_setRemote answer) pc w
  | KCallAnsweredRemote pc answer, Rejected _ => w
  | KIceAdd pc candidate, Resolved _ => pc_update (pc_addCandidate candidate) pc w
  | KIceAdd pc candidate, Rejected _ => w
  | KAckMedia r pc data, Resolved _ =>
      let '(w1, stream) :=
        acquire (strict_eq (effectiveCallType r data) (VStr "video")) w in
      push_task (KAckOffer r pc data)
        (add_stream_tracks pc stream (setLocalStream (Some stream) w1))
  | KAckMedia r pc data, Rejected _ => push_task (KAckOffer r pc data) w
  | KAckOffer r pc data, Resolved offer => push_task (KAckLocal r pc data offer) w
  | KAckOffer r pc data, Rejected _ => w
  | KAckLocal r pc data offer, Resolved _ =>
      ack_send r data offer (pc_update (pc_setLocal offer) pc w)
  | KAckLocal r pc data offer, Rejected _ => w
  | KTranslate msg, _ => receiveMessage_translated msg res w
  end.

Definition settle (k : nat) (res : Settled) (w : World) : World :=
  match tasks w !! k with
  | Some (Some t) => resume t res (w_tasks (<[k := None]> (tasks w)) w)
  | _ => w
  end.

(** *** Calling handlers, timers and peer-connection callbacks *)

Definition call (c : Closure) (d : Val) (w : World) : World :=
  match c with
  | COnDelivered r cell fd fu => onDelivered r cell fd fu d w
  | COnUserUnavailable r cell fd fu => onUserUnavailable r cell fd fu d w
  | CHandleOffer r pc fo => handleOffer r pc fo d w
  | CHandleIncomingCall r => handleIncomingCall r d w
  | CHandleIncomingCallAck r => handleIncomingCallAck r d w
  | CCallAnswered r => callAnswered r d w
  | CIceCandidate => iceCandidate d w
  | CCallEnded r => callEnded r w
  | CHandleParticipantAck => handleParticipantAck (cur w) d w
  | CReceiveMessage => receiveMessage d w
  | CMessageStatusUpdate => messageStatusUpdate d w
  | CSendHandler i clientTempId => sendHandler i clientTempId d w
  end.

Definition run_listener (sid : nat) (e : string) (d : Val) (w : World) (l : SM.Listener)
  : World :=
  match l with
  | SM.LUser h =>
      match closures w !! h with
      | Some c => call c d w
      | None => w
      end
  | _ => w_sm (SM.run_listener sid e d l (sm w)) w
  end.

(** A server event reaches the socket the manager holds. *)
Definition dispatch (e : string) (d : Val) (w : World) : World :=
  match SM.socket (SM.this (sm w)) with
  | Some sid =>
      match SM.sockets (sm w) !! sid with
      | Some s =>
          if SM.closed s || negb (SM.connected s) then w
          else foldl (run_listener sid e d) w (SM.listeners_for e (SM.callbacks s))
      | None => w
      end
  | None => w
  end.

Definition run_timer (c : TimerCb) (w : World) : World :=
  match c with
  | TDeliveryTimeout cell fd fu => deliveryTimeout cell fd fu w
  | TOfferWait r fo => offerWaitTimeout r fo w
  | TSendTimeout i => sendTimeout i w
  end.

Definition fire_timer (w : World) (t : Timer) : World :=
  if bool_decide (tid t ∈ tid <$> timers w)
  then run_timer (cb t) (clearTimeout (tid t) w)
  else w.

(** One millisecond passes; the timers that are due run in the order
    they were armed. *)
Definition tick (w : World) : World :=
  let w1 := w_now (S (now w)) w in
  foldl fire_timer w1 (filter (λ t, due t ≤ now w1) (timers w1)).

(** [pc.oniceconnectionstatechange] *)
Definition oniceconnectionstatechange (pc : nat) (state : string) (w : World) : World :=
  match pcs w !! pc with
  | Some p =>
      let w1 := if String.eqb state "connected" then playConnect_unawaited w else w in
      if String.eqb state "disconnected" || String.eqb state "failed"
      then endCall (pc_render p) w1 else w1
  | None => w
  end.

(** [pc.ontrack]: the remote stream with its live tracks. *)
Definition ontrack (pc : nat) (video : bool) (w : World) : World :=
  match pcs w !! pc with
  | Some p => let '(w1, stream) := acquire video w in setRemoteStream (Some stream) w1
  | None => w
  end.

(** [pc.onicecandidate] *)
Definition onicecandidate (pc : nat) (candidate : Val) (w : World) : World :=
  match pcs w !! pc with
  | Some p =>
      let su := selectedUser (pc_render p) in
      if truthy candidate && truthy su
      then sm_emit "iceCandidate" (VObj [("to", prop su "id"); ("candidate", candidate)]) w
      else w
  | None => w
  end.

(** *** Effects *)

(** The effect with dependency [selectedUser] that registers the
    signaling handlers; [signalingCleanup] remembers the
    [handleIncomingCallAck] its cleanup removes by reference. *)
Definition signalingEffect (w : World) : World :=
  match SM.socket (SM.this (sm w)) with
  | None => w_signalingCleanup None w
  | Some _ =>
      let r := cur w in
      let h := length (closures w) in
      let w1 := w_closures (closures w ++
                  [CHandleIncomingCall r; CHandleIncomingCallAck r; CCallAnswered r;
                   CIceCandidate; CCallEnded r]) w in
      let w2 := sm_on "incomingCall" h w1 in
      let w3 := sm_on "incomingCallAck" (h + 1) w2 in
      let w4 := sm_on "callAnswered" (h + 2) w3 in
      let w5 := sm_on "iceCandidate" (h + 3) w4 in
      let w6 := sm_on "callEnded" (h + 4) w5 in
      w_signalingCleanup (Some (h + 1)) w6
  end.

Definition signalingEffect_cleanup (w : World) : World :=
  match signalingCleanup w with
  | Some hAck =>
      sm_off "incomingCallAck" (Some hAck)
        (sm_off "callEnded" None
           (sm_off "iceCandidate" None
              (sm_off "callAnswered" None (sm_off "incomingCall" None w))))
  | None => w
  end.

Definition participantAckEffect (w : World) : World :=
  match SM.socket (SM.this (sm w)) with
  | None => w
  | Some _ =>
      sm_on "participantJoinedAck" (length (closures w)) (new_closure CHandleParticipantAck w)
  end.

(** The effect that initializes the socket and registers the message
    handlers. *)
Definition initializeEffect (tok : Val) (w : World) : World :=
  let w1 := w_sm (SM.initialize tok (sm w)) w in
  let h := length (closures w1) in
  let w2 := w_closures (closures w1 ++ [CReceiveMessage; CMessageStatusUpdate]) w1 in
  sm_on "messageStatusUpdate" (h + 1) (sm_on "receiveMessage" h w2).

(** First render of an authenticated user: the effects run in the order
    of the component body. *)
Definition mount (tok : Val) (w : World) : World :=
  participantAckEffect (signalingEffect (initializeEffect tok w)).

(** *** Loading the conversation *)

(** A JavaScript array as an object: its elements under their indices. *)
Definition index_key (i : nat) : string :=
  DecimalString.NilZero.string_of_uint (Nat.to_uint i).

Definition js_array (l : list Val) : Val := VObj (imap (λ i x, (index_key i, x)) l).

(** [fetchMessages(userId, roomId, { append: false })] of render [r] up
    to [await axios.get].  Without a user id the parameters are built from
    [selectedRoom._id], which throws for a [null] room, and [catch] empties
    the list. *)
Definition fetchMessages (r : Render) (userId : Val) (w : World) : World :=
  if truthy userId || negb (nullish (selectedRoom r))
  then w_fetches (fetches w ++ [Some r]) w
  else setMessages (λ _, []) w.

(** A message of somebody else that is not marked seen. *)
Definition unseen (r : Render) (msg : Val) : bool :=
  let senderId := jor (prop (prop msg "sender") "_id") (prop msg "sender") in
  negb (strict_eq senderId (currentUserId r))
  && negb (strict_eq (prop msg "status") (VStr "seen")).

(** The request settles: [Some msgs] is the array [data.messages] of the
    response (the empty array when the response has none), [None] a
    failed request.  The list is replaced; then the unseen messages are
    reported to the server, where reading [msg.sender] of a [null] element
    throws and [catch] empties the list.  The page flag and the unread
    counters the function also sets are not part of the state. *)
Definition fetchMessages_done (r : Render) (res : option (list Val)) (w : World) : World :=
  match res with
  | None => setMessages (λ _, []) w
  | Some msgs =>
      let w1 := setMessages (λ _, msgs) w in
      if existsb nullish msgs then setMessages (λ _, []) w1
      else
        let unseenMessageIds :=
          filter (λ x, truthy x = true) (local_id <$> filter (λ m, unseen r m = true) msgs) in
        match unseenMessageIds with
        | [] => w1
        | _ => sm_emit "messageSeen" (VObj [("messageIds", js_array unseenMessageIds)]) w1
        end
  end.

Definition fetchResponse (k : nat) (res : option (list Val)) (w : World) : World :=
  match fetches w !! k with
  | Some (Some r) => fetchMessages_done r res (w_fetches (<[k := None]> (fetches w)) w)
  | _ => w
  end.

(** The effect with dependencies [selectedUser, selectedRoom]. *)
Definition fetchEffect (w : World) : World :=
  let r := cur w in
  if truthy (selectedUser r) then fetchMessages r (prop (selectedUser r) "id") w
  else if truthy (selectedRoom r) then fetchMessages r VNull w
  else w.

(** *** Selecting a contact *)

(** The body of [selectUser], then what React does with the effects that
    depend on the selection: the cleanups of the effects whose
    dependencies changed, then these effects in the order of the component
    body.  [userChanged] tells whether [u] is another value than the
    selected one for [Object.is].  The effects that copy the selection
    into refs and the one that listens for ['loadOlderMessages'] on the
    window change nothing of the state; [selectedRoomRef.current] is the
    selected room of the current render. *)
Definition select (userChanged : bool) (u : Val) (w : World) : World :=
  let w1 := if truthy (selectedRoom (cur w)) && socket_connected w
            then sm_emit "leaveRoom" (prop (selectedRoom (cur w)) "_id") w else w in
  let roomChanged := negb (strict_eq (selectedRoom (cur w)) VNull) in
  let w2 := setSelectedRoom VNull (setSelectedUser u w1) in
  let w3 := if userChanged then signalingEffect_cleanup w2 else w2 in
  let w4 := if userChanged || roomChanged then fetchEffect w3 else w3 in
  if userChanged then signalingEffect w4 else w4.

(** [selectUser(u)].  An object value of the model is an object of its
    own (as for [===]), so an object [u] is another object than the
    selected one: a contact of a list that was fetched anew, or another
    contact. *)
Definition selectUser (u : Val) (w : World) : World :=
  select (negb (strict_eq u (selectedUser (cur w)))) u w.

(** [selectUser(u)] where [u] is the very object that is selected: the
    click on the open conversation. *)
Definition reselectUser (w : World) : World := select false (selectedUser (cur w)) w.

(** *** Events *)

Inductive Event :=
| UStartCall (type : Val)
| UAnswerCall
| URejectCall
| UEndCall
| USelectUser (u : Val)
| UReselectUser
| Inbound (e : string) (d : Val)
| Tick
| Settle (k : nat) (res : Settled)
| IceConnectionState (pc : nat) (state : string)
| RemoteTrack (pc : nat) (video : bool)
| LocalCandidate (pc : nat) (candidate : Val)
| Transport (o : SM.Op)
| UType (text : string)
| USendMessage (clientTempId timestamp : Val)
| ApiResponse (i : nat) (res : option Val)
| FetchResponse (k : nat) (res : option (list Val))
| ConnectBeepEnds.

Definition step (w : World) (ev : Event) : World :=
  match ev with
  | UStartCall type => startCall (cur w) type w
  | UAnswerCall => answerCall (cur w) w
  | URejectCall => rejectCall (cur w) w
  | UEndCall => endCall (cur w) w
  | USelectUser u => selectUser u w
  | UReselectUser => reselectUser w
  | Inbound e d => dispatch e d w
  | Tick => tick w
  | Settle k res => settle k res w
  | IceConnectionState pc state => oniceconnectionstatechange pc state w
  | RemoteTrack pc video => ontrack pc video w
  | LocalCandidate pc candidate => onicecandidate pc candidate w
  | Transport o => w_sm (SM.step o (sm w)) w
  | UType text => setMessage text w
  | USendMessage clientTempId timestamp => sendMessage (cur w) clientTempId timestamp w
  | ApiResponse i res => apiResponse i res w
  | FetchResponse k res => fetchResponse k res w
  | ConnectBeepEnds => connectBeepEnds w
  end.

Definition run (tr : list Event) (w : World) : World := foldl step w tr.

End Dashboard.

(** ** The browser notification manager (class NotificationManager) *)

Module NotificationManager.

(** A [Notification] object.  [n_id] is the key under which the manager
    tracks it; [n_closed] tells that [close()] was called on it or that
    the user dismissed it.  The options that are the same for every
    notification (icon, badge, vibration pattern) and the time stamp are
    left out. *)
Record Notification := mkNotification {
  n_title : string;
  n_body : Val;
  n_tag : string;
  n_requireInteraction : bool;
  n_data : Val;
  n_id : string;
  n_closed : bool
}.

(** What a timer armed by [setTimeout] remembers: when it is due and the
    notification and key its closure captured. *)
Record Timer := mkTimer { due : nat; t_id : string; t_notification : nat }.

(** The fields of the manager, then the browser: whether [Notification]
    exists in [window], [Notification.permission], the notifications
    created so far (a notification's index is its identity), the armed
    timers, the clock in milliseconds, the number of [window.focus()]
    calls, the notifications whose click callback ran and the number of
    [requestPermission] calls that wait for the user's answer.
    [activeNotifications] is the [Map] in insertion order. *)
Record State := mkState {
  permission : string;
  isEnabled : bool;
  activeNotifications : list (string * nat);
  supported : bool;
  browserPermission : string;
  shown : list Notification;
  timers : list Timer;
  now : nat;
  focused : nat;
  clicked : list nat;
  asking : nat
}.

(** [new NotificationManager()] followed by the module's
    initialisation from [Notification.permission]. *)
Definition constructor (sup : bool) (perm : string) : State :=
  {| permission := if sup then perm else "default";
     isEnabled := sup && String.eqb perm "granted";
     activeNotifications := [];
     supported := sup; browserPermission := perm; shown := []; timers := []; now := 0;
     focused := 0; clicked := []; asking := 0 |}.

(** *** Field updates *)

Definition set_permission (v : string) (x : State) : State :=
  {| permission := v; isEnabled := isEnabled x;
     activeNotifications := activeNotifications x; supported := supported x;
     browserPermission := browserPermission x; shown := shown x; timers := timers x;
     now := now x; focused := focused x; clicked := clicked x;
     asking := asking x |}.

Definition set_isEnabled (v : bool) (x : State) : State :=
  {| permission := permission x; isEnabled := v;
     activeNotifications := activeNotifications x; supported := supported x;
     browserPermission := browserPermission x; shown := shown x; timers := timers x;
     now := now x; focused := focused x; clicked := clicked x;
     asking := asking x |}.

Definition set_activeNotifications (v : list (string * nat)) (x : State) : State :=
  {| permission := permission x; isEnabled := isEnabled x;
     activeNotifications := v; supported := supported x;
     browserPermission := browserPermission x; shown := shown x; timers := timers x;
     now := now x; focused := focused x; clicked := clicked x;
     asking := asking x |}.

Definition set_browserPermission (v : string) (x : State) : State :=
  {| permission := permission x; isEnabled := isEnabled x;
     activeNotifications := activeNotifications x; supported := supported x;
     browserPermission := v; shown := shown x; timers := timers x;
     now := now x; focused := focused x; clicked := clicked x;
     asking := asking x |}.

Definition set_shown (v : list Notification) (x : State) : State :=
  {| permission := permission x; isEnabled := isEnabled x;
     activeNotifications := activeNotifications x; supported := supported x;
     browserPermission := browserPermission x; shown := v; timers := timers x;
     now := now x; focused := focused x; clicked := clicked x;
     asking := asking x |}.

Definition set_timers (v : list Timer) (x : State) : State :=
  {| permission := permission x; isEnabled := isEnabled x;
     activeNotifications := activeNotifications x; supported := supported x;
     browserPermission := browserPermission x; shown := shown x; timers := v;
     now := now x; focused := focused x; clicked := clicked x;
     asking := asking x |}.

Definition set_now (v : nat) (x : State) : State :=
  {| permission := permission x; isEnabled := isEnabled x;
     activeNotifications := activeNotifications x; supported := supported x;
     browserPermission := browserPermission x; shown := shown x; timers := timers x;
     now := v; focused := focused x; clicked := clicked x; asking := asking x |}.

Definition set_focused (v : nat) (x : State) : State :=
  {| permission := permission x; isEnabled := isEnabled x;
     activeNotifications := activeNotifications x; supported := supported x;
     browserPermission := browserPermission x; shown := shown x; timers := timers x;
     now := now x; focused := v; clicked := clicked x; asking := asking x |}.

Definition set_clicked (v : list nat) (x : State) : State :=
  {| permission := permission x; isEnabled := isEnabled x;
     activeNotifications := activeNotifications x; supported := supported x;
     browserPermission := browserPermission x; shown := shown x; timers := timers x;
     now := now x; focused := focused x; clicked := v; asking := asking x |}.

Definition set_asking (v : nat) (x : State) : State :=
  {| permission := permission x; isEnabled := isEnabled x;
     activeNotifications := activeNotifications x; supported := supported x;
     browserPermission := browserPermission x; shown := shown x; timers := timers x;
     now := now x; focused := focused x; clicked := clicked x; asking := v |}.

(** *** The [Map] of active notifications *)

Fixpoint map_get (k : string) (m : list (string * nat)) : option nat :=
  match m with
  | [] => None
  | (k', v) :: m' => if String.eqb k k' then Some v else map_get k m'
  end.

Definition map_has (k : string) (m : list (string * nat)) : bool :=
  match map_get k m with Some _ => true | None => false end.

(** [Map.prototype.set]: an existing key keeps its place. *)
Fixpoint map_set (k : string) (v : nat) (m : list (string * nat)) : list (string * nat) :=
  match m with
  | [] => [(k, v)]
  | (k', v') :: m' => if String.eqb k k' then (k, v) :: m' else (k', v') :: map_set k v m'
  end.

Definition map_delete (k : string) (m : list (string * nat)) : list (string * nat) :=
  filter (λ kv, kv.1 ≠ k) m.

(** *** Permission *)

(** [requestPermission()] up to its [await]: the result when it returns
    at once, [None] when it asks the user. *)
Definition requestPermission (s : State) : State * option bool :=
  if negb (supported s) then (s, Some false)
  else if String.eqb (browserPermission s) "granted"
  then (set_isEnabled true (set_permission "granted" s), Some true)
  else if String.eqb (browserPermission s) "denied"
  then (set_isEnabled false (set_permission "denied" s), Some false)
  else (set_asking (S (asking s)) s, None).

(** The user answered the prompt with [p], which the browser remembers;
    a prompt that fails ([None]) lands in [catch]. *)
Definition requestPermission_settled (answer : option string) (s : State) : State * bool :=
  match answer with
  | Some p =>
      let s1 := set_isEnabled (String.eqb p "granted")
                  (set_permission p (set_browserPermission p s)) in
      (s1, isEnabled s1)
  | None => (s, false)
  end.

Definition isNotificationEnabled (s : State) : bool :=
  isEnabled s && String.eqb (browserPermission s) "granted".

Definition getPermissionStatus (s : State) : string :=
  if negb (supported s) then "not-supported" else browserPermission s.

Definition isSupported (s : State) : bool := supported s.

(** *** Showing *)

(** [notification.close()] *)
Definition close (n : nat) (s : State) : State :=
  set_shown (alter (λ x, mkNotification (n_title x) (n_body x) (n_tag x)
                           (n_requireInteraction x) (n_data x) (n_id x) true) n (shown s)) s.

Definition delete (id : string) (s : State) : State :=
  set_activeNotifications (map_delete id (activeNotifications s)) s.

(** The part both [show] methods share: create the notification (the
    constructor succeeds), track it under [id] and arm the auto-close
    timer. *)
Definition present (title : string) (body : Val) (id : string) (requireInteraction : bool)
    (data : Val) (delay : nat) (s : State) : State * option nat :=
  let n := length (shown s) in
  let s1 := set_shown (shown s ++ [mkNotification title body id requireInteraction data id
                                     false]) s in
  let s2 := set_activeNotifications (map_set id n (activeNotifications s1)) s1 in
  (set_timers (timers s2 ++ [mkTimer (now s2 + delay) id n]) s2, Some n).

(** [Date.now()] inside a template literal. *)
Definition stamp (s : State) : Val :=
  VStr (DecimalString.NilZero.string_of_uint (Nat.to_uint (now s))).

Definition CALL_TIMEOUT_MS : nat := 30000.

Definition showIncomingCallNotification (callData : Val) (s : State) : State * option nat :=
  if negb (isNotificationEnabled s) then (s, None)
  else if nullish callData then (s, None)
  else
    let fromName := prop callData "fromName" in
    let callType := prop callData "callType" in
    let roomName := prop callData "roomName" in
    let title :=
      if truthy (prop callData "isGroupCall")
      then "📞 " +:+ to_string (jor roomName (VStr "Group")) +:+ " - Incoming "
           +:+ to_string callType +:+ " call"
      else "📞 Incoming " +:+ to_string callType +:+ " call" in
    let body :=
      if truthy (prop callData "isGroupCall")
      then to_string (jor fromName (VStr "Someone")) +:+ " is calling in "
           +:+ to_string (jor roomName (VStr "the group"))
      else to_string (jor fromName (VStr "Someone")) +:+ " is calling you" in
    let id := "call-" +:+ to_string (jor (jor (prop callData "callSessionId")
                                            (prop callData "callId")) (stamp s)) in
    present title (VStr body) id true callData CALL_TIMEOUT_MS s.

Definition MESSAGE_TIMEOUT_MS : nat := 5000.

(** [body.length > 100 ? body.substring(0, 97) + '...' : body].  The
    [length] of a string and the cut of [substring] count UTF-16 code
    units.  Reading [length] of [undefined] or [null] throws; a boolean has no [length]
    and is passed on as it is, and so is an object whose [length] is not
    greater than 100; on an object whose [length] is greater,
    [body.substring] is not a function and the call throws.  Numbers are
    not among the values: [exceeds l] stands for [Number(l) > 100] where
    the [length] of an object is the text [l], and every result holds for
    each way of deciding it. *)
Section length_as_text.
Variable exceeds : string → bool.

Definition truncate (body : Val) : option Val :=
  match body with
  | VStr b => Some (VStr (if 100 <? utf16_length b
                          then substring_units 97 b +:+ "..." else b))
  | VUndef | VNull => None
  | VBool _ => Some body
  | VObj _ =>
      match prop body "length" with
      | VStr l => if exceeds l then None else Some body
      | _ => Some body
      end
  end.

Definition showMessageNotification (messageData : Val) (s : State) : State * option nat :=
  if negb (isNotificationEnabled s) then (s, None)
  else if nullish messageData then (s, None)
  else
    let senderName := prop messageData "senderName" in
    let content := prop messageData "content" in
    let roomName := prop messageData "roomName" in
    let title :=
      if truthy (prop messageData "isGroupMessage")
      then "💬 " +:+ to_string (jor roomName (VStr "Group Message"))
      else "💬 " +:+ to_string (jor senderName (VStr "New Message")) in
    let body :=
      if truthy (prop messageData "isGroupMessage")
      then VStr (to_string senderName +:+ ": " +:+ to_string content)
      else content in
    match truncate body with
    | None => (s, None)
    | Some truncatedBody =>
        let id := "message-" +:+ to_string (jor (prop messageData "messageId") (stamp s)) in
        present title truncatedBody id false messageData MESSAGE_TIMEOUT_MS s
    end.

(** *** Handlers of a notification *)

(** [notification.onclick]; [callback] tells whether a callback was
    passed to the [show] method. *)
Definition onclick (callback : bool) (n : nat) (s : State) : State :=
  match shown s !! n with
  | Some x =>
      let s1 := set_focused (S (focused s)) s in
      let s2 := if callback then set_clicked (clicked s1 ++ [n]) s1 else s1 in
      delete (n_id x) (close n s2)
  | None => s
  end.

(** The notification closes (the user dismissed it, or the browser
    reports a [close()] call), then [notification.onclose] runs. *)
Definition onclose (n : nat) (s : State) : State :=
  match shown s !! n with
  | Some x => delete (n_id x) (close n s)
  | None => s
  end.

Definition onerror (n : nat) (s : State) : State :=
  match shown s !! n with
  | Some x => delete (n_id x) s
  | None => s
  end.

(** The callback of the auto-close timer. *)
Definition autoClose (t : Timer) (s : State) : State :=
  if map_has (t_id t) (activeNotifications s)
  then delete (t_id t) (close (t_notification t) s)
  else s.

(** One millisecond passes; the timers that are due run once, in the
    order they were armed. *)
Definition tick (s : State) : State :=
  let s1 := set_now (S (now s)) s in
  let due_now := filter (λ t, due t ≤ now s1) (timers s1) in
  foldl (λ acc t, autoClose t acc)
    (set_timers (filter (λ t, ¬ due t ≤ now s1) (timers s1)) s1) due_now.

(** *** Closing *)

Definition closeNotification (id : string) (s : State) : State :=
  match map_get id (activeNotifications s) with
  | Some n => delete id (close n s)
  | None => s
  end.

Definition closeAllNotifications (s : State) : State :=
  set_activeNotifications []
    (foldl (λ acc kv, close kv.2 acc) s (activeNotifications s)).

(** *** Events *)

(** The calls of the public methods, the answer to the permission
    prompt, what happens to a notification, the passing of time, and the
    user changing the permission in the browser settings. *)
Inductive Event :=
| RequestPermission
| Answer (p : option string)
| ShowCall (callData : Val)
| ShowMessage (messageData : Val)
| Click (callback : bool) (n : nat)
| CloseEvent (n : nat)
| ErrorEvent (n : nat)
| Tick
| CloseNotification (id : string)
| CloseAll
| Settings (p : string).

Definition step (s : State) (ev : Event) : State :=
  match ev with
  | RequestPermission => (requestPermission s).1
  | Answer p =>
      match asking s with
      | S k => (requestPermission_settled p (set_asking k s)).1
      | 0 => s
      end
  | ShowCall d => (showIncomingCallNotification d s).1
  | ShowMessage d => (showMessageNotification d s).1
  | Click cb n => onclick cb n s
  | CloseEvent n => onclose n s
  | ErrorEvent n => onerror n s
  | Tick => tick s
  | CloseNotification id => closeNotification id s
  | CloseAll => closeAllNotifications s
  | Settings p => set_browserPermission p s
  end.

Definition run (tr : list Event) (s : State) : State := foldl step s tr.

End length_as_text.

End NotificationManager.

(** ** Vocabulary for the properties of the connection manager *)

Module SocketManagerSpec.
Import SocketManager.

(** Append listeners to a socket: the effect of repeated [socket.on]. *)
Definition add_callbacks (L : list (string * Listener)) (s : Socket) : Socket :=
  sk_set_callbacks (callbacks s ++ L) s.

(** The attachments of one registry entry. *)
Definition set_listeners (e : string) (hs : list nat) : list (string * Listener) :=
  (λ h, (e, LUser h)) <$> hs.

(** The listeners [setupListeners] restores from the registry. *)
Definition registry_listeners (m : list (string * list nat)) : list (string * Listener) :=
  m ≫= (λ eh, set_listeners eh.1 eh.2).

(** Everything [setupListeners] attaches, in order. *)
Definition initial_listeners (m : list (string * list nat)) : list (string * Listener) :=
  [("connect", LConnect); ("disconnect", LDisconnect);
   ("connect_error", LConnectError); ("pong", LPong)]
  ++ registry_listeners m ++ [("incomingCall", LIncomingCallBridge)].

(** The socket [connect] creates. *)
Definition fresh_socket (m : Manager) : Socket :=
  {| transports := if useWebSocket m then [polling; websocket] else [polling];
     upgrade := useWebSocket m;
     auth := VObj [("token", token m)];
     callbacks := initial_listeners (eventHandlers m);
     connected := false; closed := false; sent := [] |}.

(** The state [connect] reaches before it creates the socket. *)
Definition torn_down (w : World) : World :=
  match socket (this w) with Some _ => cleanup false w | None => w end.

(** The invariant of the manager: a socket that [disconnect()] was not
    called on is the one the manager holds; the reference it holds is a
    socket that exists; the armed interval timers are exactly the
    heartbeat it remembers. *)
Record Inv (w : World) : Prop := mkInv {
  inv_live : ∀ i s, sockets w !! i = Some s → closed s = false → socket (this w) = Some i;
  inv_bound : ∀ i, socket (this w) = Some i → i < length (sockets w);
  inv_timers : intervals w = option_list (heartbeatInterval (this w))
}.

(** The state [cleanup] reaches just before it clears the reference. *)
Definition cleanup_pre (isLogout : bool) (w : World) : World :=
  removeBrowserEventListeners (stopHeartbeat w).

(** The sockets that [disconnect()] was not called on. *)
Definition live_sockets (w : World) : list Socket :=
  filter (λ s, closed s = false) (sockets w).

(** A socket created for the fallback transport only. *)
Definition polling_only (s : Socket) : Prop :=
  transports s = [polling] ∧ upgrade s = false.

(** What a transition may do to the transport preference and to the
    sockets: the preference never goes back to websocket, sockets keep
    their transport options, and sockets created while the preference is
    polling-only are polling-only. *)
Record Down (w w' : World) : Prop := mkDown {
  down_flag : useWebSocket (this w) = false → useWebSocket (this w') = false;
  down_old : ∀ i s, sockets w !! i = Some s →
      ∃ s', sockets w' !! i = Some s' ∧ transports s' = transports s ∧ upgrade s' = upgrade s;
  down_new : useWebSocket (this w) = false →
      ∀ i s, length (sockets w) ≤ i → sockets w' !! i = Some s → polling_only s
}.

(** The manager holds socket [sid], which is trying to connect and still
    carries the listeners [setupListeners] gave it for ['connect'] and
    ['connect_error'] (possibly followed by user handlers). *)
Definition awaiting (w : World) (sid : nat) : Prop :=
  socket (this w) = Some sid ∧
  ∃ s hs1 hs2, sockets w !! sid = Some s ∧ closed s = false ∧ connected s = false
    ∧ listeners_for "connect_error" (callbacks s) = LConnectError :: (LUser <$> hs1)
    ∧ listeners_for "connect" (callbacks s) = LConnect :: (LUser <$> hs2).

(** One failed connection attempt of the socket the manager holds. *)
Definition fail (w : World) : World :=
  match socket (this w) with
  | Some sid => step (TConnectError sid VUndef) w
  | None => w
  end.

(** How many times function [h] is attached to a socket for event [e]:
    the number of times it is called when [e] occurs. *)
Definition attached (e : string) (h : nat) (s : Socket) : nat :=
  length (filter (λ c, c = (e, LUser h)) (callbacks s)).

(** How many times the registry holds [h] for [e]. *)
Definition registered (e : string) (h : nat) (w : World) : nat :=
  length (filter (λ x, x = h) (default [] (map_get e (eventHandlers (this w))))).

(** How many times the handler was called for the event on a socket. *)
Definition calls (sid : nat) (e : string) (h : nat) (w : World) : nat :=
  length (filter (λ c, c.1.1.1 = sid ∧ c.1.1.2 = e ∧ c.1.2 = h) (delivered w)).

(** The state in which handler 7 was registered twice for one event
    after the socket was created. *)
Definition twice_registered : World :=
  run [OInitialize (VStr "jwt"); OOn "callEnded" 7; OOn "callEnded" 7; TConnect 0] init.

(** The socket the manager holds, the listeners it calls for an event,
    the registry entry of an event, and whether the socket is connected
    and was not disconnected by the client. *)
Definition current (m : World) : option Socket :=
  match socket (this m) with
  | Some sid => sockets m !! sid
  | None => None
  end.

Definition listening (e : string) (m : World) : list Listener :=
  match current m with
  | Some s => listeners_for e (callbacks s)
  | None => []
  end.

Definition registry (e : string) (m : World) : option (list nat) :=
  map_get e (eventHandlers (this m)).

Definition is_open (m : World) : bool :=
  match current m with
  | Some s => connected s && negb (closed s)
  | None => false
  end.

(** What [off(event, handler)] leaves of the registry entry. *)
Definition without (h : nat) (hs : option (list nat)) : option (list nat) :=
  match hs with
  | Some l => if decide (length (filter (λ x, x ≠ h) l) = 0) then None
              else Some (filter (λ x, x ≠ h) l)
  | None => None
  end.

Definition remove_callback (e : string) (h : nat) (s : Socket) : Socket :=
  sk_set_callbacks (remove_first (e, LUser h) (callbacks s)) s.

End SocketManagerSpec.

(** ** Vocabulary for the properties of the Dashboard component *)

Module DashboardSpec.
Import Dashboard.

(** What the socket the manager holds has sent. *)
Definition sent_of (w : World) : list (string * Val) :=
  match current_socket w with Some s => SM.sent s | None => [] end.

(** The listeners the current socket calls for an event. *)
Definition attached_to (e : string) (w : World) : list SM.Listener :=
  match current_socket w with
  | Some s => SM.listeners_for e (SM.callbacks s)
  | None => []
  end.

(** The registry entry of an event. *)
Definition registered_for (e : string) (w : World) : option (list nat) :=
  SM.map_get e (SM.eventHandlers (SM.this (sm w))).

(** Every listener of ['iceCandidate'] is the handler the signaling
    effect registers. *)
Definition ice_handlers_only (w : World) : bool :=
  forallb (λ l, match l with
                | SM.LUser h =>
                    match closures w !! h with Some CIceCandidate => true | _ => false end
                | _ => false
                end)
    (attached_to "iceCandidate" w).

(** A signed-in user, two contacts, and the component after its first
    render once the socket has connected. *)
Definition me : Val := VObj [("_id", VStr "me"); ("id", VStr "me"); ("username", VStr "Me")].

Definition ann : Val := VObj [("id", VStr "u1"); ("name", VStr "Ann")].

Definition bob : Val := VObj [("id", VStr "u2"); ("name", VStr "Bob")].

Definition online : World :=
  run [Transport (SM.TConnect 0)] (mount (VStr "jwt") (initialWorld me true true)).

(** Ann's conversation is open and a message to her was just queued with
    the correlation token "tmp1". *)
Definition queued : World :=
  run [USelectUser ann; UType "hello"; USendMessage (VStr "tmp1") (VStr "2024-05-01T10:00:00Z")]
    online.

(** The status of each local record. *)
Definition statuses (w : World) : list Val := (λ m, prop m "status") <$> messages w.

(** Some local record carries the identifier, respectively the
    correlation token. *)
Definition knows_id (x : Val) (w : World) : bool :=
  existsb (λ m, strict_eq (local_id m) x) (messages w).

Definition knows_token (x : Val) (w : World) : bool :=
  existsb (λ m, strict_eq (prop m "clientTempId") x) (messages w).

(** Ann's conversation is open and "hello" is typed. *)
Definition typing : World := run [USelectUser ann; UType "hello"] online.

(** The record the server pushes (and returns) for the queued message. *)
Definition persisted : Val :=
  VObj [("_id", VStr "srv1"); ("clientTempId", VStr "tmp1");
        ("sender", VObj [("_id", VStr "me"); ("username", VStr "Me")]);
        ("receiver", VStr "u1"); ("content", VStr "hello"); ("status", VStr "sent")].

(** The record the ['receiveMessage'] handler stores for a pushed message
    once the translation settled. *)
Definition stored (msg : Val) (res : Settled) : Val :=
  match res with
  | Resolved c => with_field (with_field msg "content" c) "_originalContent" (prop msg "content")
  | Rejected _ => msg
  end.

(** The number of local records with a given identifier. *)
Definition count_id (x : Val) (w : World) : nat :=
  length (filter (λ m, strict_eq (local_id m) x = true) (messages w)).

(** No timer is due within the next [n] milliseconds. *)
Definition idle_for (n : nat) (w : World) : bool :=
  forallb (λ t, now w + n <? due t) (timers w).

(** How many times an event was sent. *)
Definition count_sent (e : string) (w : World) : nat :=
  length (filter (λ x, x.1 = e) (sent_of w)).

(** The offers sent for a call session. *)
Definition offers_for (session : Val) (w : World) : list Val :=
  (filter (λ x, x.1 = "callUser" ∧ strict_eq (prop x.2 "callSessionId") session = true)
     (sent_of w)).*2.

(** The tracks of a stream that were not stopped. *)
Definition live_tracks (st : option nat) (w : World) : list nat :=
  match st with
  | Some s =>
      filter (λ i, ended <$> tracks w !! i = Some false) (default [] (streams w !! s))
  | None => []
  end.

(** A participant-joined acknowledgement for session "S". *)
Definition joined_ack : Val :=
  VObj [("callSessionId", VStr "S"); ("roomId", VStr "r1"); ("callType", VStr "audio")].

Definition ok : Settled := Resolved VUndef.

(** Two acknowledgements arrive before the first handler has passed its
    awaits; then the awaited promises settle. *)
Definition acks_in_flight : list Event :=
  [Inbound "participantJoinedAck" joined_ack; Inbound "participantJoinedAck" joined_ack;
   Settle 0 ok; Settle 1 ok;
   Settle 2 (Resolved (VStr "offer-1")); Settle 3 (Resolved (VStr "offer-2"));
   Settle 4 ok; Settle 5 ok].

(** The second acknowledgement arrives after the first handler is done. *)
Definition acks_in_turn : list Event :=
  [Inbound "participantJoinedAck" joined_ack;
   Settle 0 ok; Settle 1 (Resolved (VStr "offer-1")); Settle 2 ok;
   Inbound "participantJoinedAck" joined_ack; Inbound "participantJoinedAck" joined_ack].

(** An invitation that carries a session id and no offer, and the offer
    that follows for the same session. *)
Definition invitation : Val :=
  VObj [("from", VStr "u1"); ("fromName", VStr "Ann"); ("callType", VStr "audio");
        ("callSessionId", VStr "s1")].

Definition deferred_offer : Val :=
  VObj [("from", VStr "u1"); ("offer", VStr "sdp-offer"); ("callSessionId", VStr "s1")].

(** The invitation is accepted and the media acquired: the 8 s wait is
    armed at time 0. *)
Definition waiting_for_offer : World :=
  run [Inbound "incomingCall" invitation; UAnswerCall; Settle 0 ok] online.

(** The offer arrives after one second and is answered. *)
Definition answered_in_time : World :=
  run (replicate 1000 Tick ++
       [Inbound "incomingCall" deferred_offer;
        Settle 1 ok; Settle 2 (Resolved (VStr "sdp-answer")); Settle 3 ok])
    waiting_for_offer.

(** An incoming video call from Ann, answered, with the remote stream
    received: the call is active. *)
Definition incoming_video : Val :=
  VObj [("from", VStr "u1"); ("fromName", VStr "Ann"); ("callType", VStr "video");
        ("offer", VStr "sdp-offer")].

Definition in_call : World :=
  run [USelectUser ann; Inbound "incomingCall" incoming_video; UAnswerCall;
       Settle 0 ok; Settle 1 ok; Settle 2 (Resolved (VStr "sdp-answer")); Settle 3 ok;
       RemoteTrack 0 true] online.

(** The peer connections that are not closed. *)
Definition open_pcs (w : World) : list nat :=
  filter (λ i, pc_closed <$> pcs w !! i = Some false) (seq 0 (length (pcs w))).

(** *** The delivery race of an outgoing call *)

(** The manager holds a socket that is connected and was not
    disconnected by the client. *)
Definition socket_open (w : World) : bool := SocketManagerSpec.is_open (sm w).

(** The race as the specification tells it: while pending, a delivery
    acknowledgement addressed to the called user ends it as delivered, an
    unavailability signal addressed to the called user ends it as
    unavailable, and the millisecond that completes the delay ends it as
    timed out; an ended race stays as it is. *)
Inductive Outcome := Pending (elapsed : nat) | Delivered | Unavailable | TimedOut.

Definition race_step (r : Render) (o : Outcome) (ev : Event) : Outcome :=
  match o with
  | Pending k =>
      match ev with
      | Tick => if bool_decide (S k = DELIVERY_TIMEOUT_MS) then TimedOut else Pending (S k)
      | Inbound e d =>
          if String.eqb e "incomingCallDelivered" && addressed_to r d then Delivered
          else if String.eqb e "userUnavailable" && addressed_to r d then Unavailable
          else Pending k
      | _ => Pending k
      end
  | _ => o
  end.

Definition race_outcome (r : Render) (tr : list Event) : Outcome :=
  foldl (race_step r) (Pending 0) tr.

(** The events of the race: time and the two signals. *)
Definition race_event (ev : Event) : bool :=
  match ev with
  | Tick => true
  | Inbound e _ => String.eqb e "incomingCallDelivered" || String.eqb e "userUnavailable"
  | _ => false
  end.

(** The state of a pending race started from [w0]: the timer is armed
    for [now w0 + 5000] and remembered in the handlers' variable, each
    temporary handler is attached once and registered, no [off] call
    was made, nothing was shown and the call is on. *)
Record Armed (w0 : World) (r : Render) (k : nat) (w : World) : Prop := mkArmed {
  ar_now : now w = now w0 + k;
  ar_lt : k < DELIVERY_TIMEOUT_MS;
  ar_cell : cells w !! length (cells w0) = Some (Some (nextTimer w0));
  ar_timers : timers w = [mkTimer (nextTimer w0) (now w0 + DELIVERY_TIMEOUT_MS)
                            (TDeliveryTimeout (length (cells w0)) (length (closures w0))
                               (S (length (closures w0))))];
  ar_fd : closures w !! length (closures w0)
          = Some (COnDelivered r (length (cells w0)) (length (closures w0))
                    (S (length (closures w0))));
  ar_fu : closures w !! S (length (closures w0))
          = Some (COnUserUnavailable r (length (cells w0)) (length (closures w0))
                    (S (length (closures w0))));
  ar_open : socket_open w = true;
  ar_att1 : attached_to "incomingCallDelivered" w = [SM.LUser (length (closures w0))];
  ar_att2 : attached_to "userUnavailable" w = [SM.LUser (S (length (closures w0)))];
  ar_reg1 : registered_for "incomingCallDelivered" w = Some [length (closures w0)];
  ar_reg2 : registered_for "userUnavailable" w = Some [S (length (closures w0))];
  ar_offs : offs w = offs w0;
  ar_alerts : alerts w = alerts w0;
  ar_inCall : inCall (cur w) = true
}.

(** The state of an ended race: no timer is left, both temporary
    handlers are detached and unregistered, [off] was called once for
    each, and [shown] is what was shown to the user. *)
Record Over (w0 : World) (shown : list string) (w : World) : Prop := mkOver {
  ov_timers : timers w = [];
  ov_att1 : attached_to "incomingCallDelivered" w = [];
  ov_att2 : attached_to "userUnavailable" w = [];
  ov_reg1 : registered_for "incomingCallDelivered" w = None;
  ov_reg2 : registered_for "userUnavailable" w = None;
  ov_offs : offs w = offs w0 ++ [("incomingCallDelivered", Some (length (closures w0)));
                                 ("userUnavailable", Some (S (length (closures w0))))];
  ov_alerts : alerts w = alerts w0 ++ shown
}.

(** The call state is reset and no cue is playing. *)
Definition call_reset (w : World) : Prop :=
  inCall (cur w) = false ∧ callType (cur w) = VNull ∧ callerRinging (cur w) = false
  ∧ remoteRingingUser (cur w) = VNull ∧ CS.silent (sounds w) = true
  ∧ CS.playingSound (sounds w) = VNull.

(** The state the component is in for each outcome of the race. *)
Definition race_state (w0 : World) (r : Render) (o : Outcome) (w : World) : Prop :=
  match o with
  | Pending k => Armed w0 r k w
  | Delivered => Over w0 [] w ∧ inCall (cur w) = true
  | Unavailable => Over w0 ["User is unavailable or offline."] w ∧ call_reset w
  | TimedOut => Over w0 ["No answer from recipient (timeout)."] w ∧ call_reset w
  end.

(** Ann is selected and the offer of an audio call to her was created:
    [startCall] is suspended on [setLocalDescription]. *)
Definition dialing : World :=
  run [USelectUser ann; UStartCall (VStr "audio"); Settle 0 ok;
       Settle 1 (Resolved (VStr "sdp-offer"))] online.

(** What [startCall] captured when the call to Ann was started. *)
Definition caller : Render := r_selectedUser ann (cur online).

(** The call is delivered after a millisecond; then an unavailability
    signal arrives and five seconds pass. *)
Definition delivered_late : list Event :=
  [Tick; Inbound "incomingCallDelivered" (VObj [("to", VStr "u1")]);
   Inbound "userUnavailable" (VObj [("to", VStr "u1")])] ++ replicate 5000 Tick.

(** The call to Ann is placed: ['callUser'] was sent, the delivery timer
    of the attempt is armed and its two listeners are attached. *)
Definition placed_to_ann : World := run [Settle 2 ok] dialing.

(** The caller hangs up after a second. *)
Definition abandoned : World := run (replicate 1000 Tick ++ [UEndCall]) placed_to_ann.

(** Bob is selected and an audio call to him is placed at once. *)
Definition placed_to_bob : World :=
  run [USelectUser bob; UStartCall (VStr "audio"); Settle 3 ok;
       Settle 4 (Resolved (VStr "sdp-offer-2")); Settle 5 ok] abandoned.

(** Half a second later the call to Bob is reported delivered. *)
Definition delivered_to_bob : World :=
  run (replicate 500 Tick ++ [Inbound "incomingCallDelivered" (VObj [("to", VStr "u2")])])
    placed_to_bob.

(** Time passes until five seconds after the call to Ann was placed. *)
Definition first_timer_elapsed : World := run (replicate 3500 Tick) delivered_to_bob.

(** The armed timers, as handle and due time. *)
Definition armed (w : World) : list (nat * nat) := (λ t, (tid t, due t)) <$> timers w.

End DashboardSpec.

Module SocketManagerInvariants.
Import SocketManager.

(** What the manager knows and what the page holds of the
    window/document listeners: the number of installed listener pairs,
    whether the manager remembers a function that removes one, and
    whether it holds a socket. *)
Definition page (w : World) : nat * bool * bool :=
  (browserListeners w, browserEventCleanup (this w), bool_decide (socket (this w) ≠ None)).

(** One pair is installed exactly when the manager remembers how to
    remove it, and then the manager holds a socket. *)
Definition PageInv (w : World) : Prop :=
  page w = (1, true, true) ∨ ∃ b, page w = (0, false, b).

(** A listener sits under the event name [setupListeners] gave it; a
    function passed to [on] may sit under any name. *)
Definition paired (c : string * Listener) : bool :=
  match c.2 with
  | LConnect => String.eqb c.1 "connect"
  | LDisconnect => String.eqb c.1 "disconnect"
  | LConnectError => String.eqb c.1 "connect_error"
  | LPong => String.eqb c.1 "pong"
  | LIncomingCallBridge => String.eqb c.1 "incomingCall"
  | LUser _ => true
  end.

(** The socket is connected and [disconnect()] was not called on it. *)
Definition usable (s : Socket) : bool := connected s && negb (closed s).

(** The [isConnected] flag tells the truth: every listener sits under
    its event name, the socket the manager holds still carries the
    ['disconnect'] listener that resets the flag, and when the flag is set
    the manager holds a usable socket. *)
Record Flag (w : World) : Prop := mkFlag {
  flag_pairs : ∀ i s, sockets w !! i = Some s → forallb paired (callbacks s) = true;
  flag_guard : ∀ i s, socket (this w) = Some i → sockets w !! i = Some s →
      LDisconnect ∈ listeners_for "disconnect" (callbacks s);
  flag_true : isConnected (this w) = true →
      ∃ i s, socket (this w) = Some i ∧ sockets w !! i = Some s ∧ usable s = true
}.

(** Every operation but [off('disconnect')] without a handler, which
    removes the manager's own ['disconnect'] listener. *)
Definition keeps_guard (o : Op) : bool :=
  match o with
  | OOff e None => negb (String.eqb e "disconnect")
  | _ => true
  end.

(** The manager holds socket [sid], which is usable. *)
Definition holds_usable (sid : nat) (w : World) : Prop :=
  socket (this w) = Some sid ∧ ∃ s, sockets w !! sid = Some s ∧ usable s = true.

(** The registry is a [Map] from event names to [Set]s: no event name
    occurs twice and no handler occurs twice under a name. *)
Definition RegistryOk (m : list (string * list nat)) : Prop :=
  NoDup m.*1 ∧ ∀ e hs, (e, hs) ∈ m → NoDup hs.

(** The four listeners [setupListeners] attaches first. *)
Definition connection_listeners : list (string * Listener) :=
  [("connect", LConnect); ("disconnect", LDisconnect);
   ("connect_error", LConnectError); ("pong", LPong)].

(** A manager that registered handler 7 for ['callEnded'] after
    [initialize], and one whose socket connected. *)
Definition one_registered : World :=
  run [OInitialize (VStr "jwt"); OOn "callEnded" 7] init.

Definition connected_once : list Op := [OInitialize (VStr "jwt"); TConnect 0].

End SocketManagerInvariants.

Module CallSoundsInvariants.
Import CallSounds.

(** The public methods of the player. *)
Inductive Call :=
| CInit | CPlayRingtone | CPlayRingback | CPlayConnect | CPlayDisconnect
| CStopAll | CStopRingtone | CStopRingback | CEnableUserInteraction.

Definition exec (s : State) (c : Call) : State :=
  match c with
  | CInit => init s
  | CPlayRingtone => playRingtone s
  | CPlayRingback => playRingback s
  | CPlayConnect => playConnect s
  | CPlayDisconnect => playDisconnect s
  | CStopAll => stopAll s
  | CStopRingtone => stopRingtone s
  | CStopRingback => stopRingback s
  | CEnableUserInteraction => enableUserInteraction s
  end.

Definition playing (a : option Audio) : bool := negb (is_paused a).

(** How many loops are audible: the two audio elements and the
    generated fallback loop. *)
Definition loops (s : State) : nat :=
  (if playing (ringtone s) then 1 else 0) + (if playing (ringback s) then 1 else 0)
  + (if loopOscillator s then 1 else 0).

(** At most one loop is audible and [playingSound] names it. *)
Definition coherent (s : State) : bool :=
  (loops s <=? 1)
  && (negb (playing (ringtone s)) || strict_eq (playingSound s) (VStr "ringtone"))
  && (negb (playing (ringback s)) || strict_eq (playingSound s) (VStr "ringback"))
  && (negb (loopOscillator s)
      || strict_eq (playingSound s) (VStr "ringtone")
      || strict_eq (playingSound s) (VStr "ringback")).

(** Once [init] ran, both audio elements exist. *)
Definition wired (s : State) : bool :=
  negb (initialized s)
  || (bool_decide (ringtone s ≠ None) && bool_decide (ringback s ≠ None)).

End CallSoundsInvariants.

Module DashboardInvariants.
Import Dashboard DashboardSpec.

(** The record carries an identifier that is a non-empty string. *)
Definition named (m : Val) : bool :=
  match local_id m with
  | VStr s => negb (String.eqb s "")
  | _ => false
  end.

(** The identifiers of the local records. *)
Definition ids (l : list Val) : list Val := local_id <$> l.

(** The tracks of the stream held in a state variable. *)
Definition stream_tracks (st : option nat) (w : World) : list nat :=
  match st with Some s => default [] (streams w !! s) | None => [] end.

(** [track.stop()] *)
Definition stopped (t : Track) : Track := mkTrack (kind t) (synthetic t) true.

(** The tracks [getUserMedia] captures for an audio or a video call, and
    the tracks the call paths hand to the peer connection when the first
    captured track has index [mic]: the silent track made for the occasion
    and the camera track. *)
Definition captured (video : bool) : list Track :=
  mkTrack "audio" false false :: (if video then [mkTrack "video" false false] else []).

Definition silent_track : Track := mkTrack "audio" true false.

Definition sent_tracks (video : bool) (mic : nat) : list nat :=
  (mic + length (captured video)) :: (if video then [S mic] else []).

(** A conversation with Ann that holds an earlier, persisted message of
    hers and the message just queued. *)
Definition earlier : Val :=
  VObj [("_id", VStr "srv0");
        ("sender", VObj [("_id", VStr "u1"); ("username", VStr "Ann")]);
        ("receiver", VStr "me"); ("content", VStr "hi"); ("status", VStr "seen")].

Definition history : list Val := earlier :: messages queued.

End DashboardInvariants.

Module NotificationManagerSpec.
Import NotificationManager.

(** The manager enabled notifications only in a browser that has them
    and after it saw the permission granted; it asks the user only in a
    browser that has them. *)
Definition Enabled (s : State) : Prop :=
  (isEnabled s = true → supported s = true ∧ permission s = "granted")
  ∧ (0 < asking s → supported s = true).

(** Every tracked entry refers to a notification that exists, is open
    and carries the key of the entry; every timer remembers the key of its
    notification. *)
Record Tracked (s : State) : Prop := mkTracked {
  tr_entries : ∀ id n, (id, n) ∈ activeNotifications s →
      ∃ x, shown s !! n = Some x ∧ n_closed x = false ∧ n_id x = id;
  tr_timers : ∀ t, t ∈ timers s →
      ∃ x, shown s !! t_notification t = Some x ∧ n_id x = t_id t
}.

(** Notification [n], tracked under [id], is open and tracked,
    respectively closed and forgotten. *)
Definition open_under (id : string) (n : nat) (s : State) : Prop :=
  (∃ x, shown s !! n = Some x ∧ n_closed x = false ∧ n_id x = id)
  ∧ map_get id (activeNotifications s) = Some n.

Definition closed_under (id : string) (n : nat) (s : State) : Prop :=
  (∃ x, shown s !! n = Some x ∧ n_closed x = true ∧ n_id x = id)
  ∧ map_get id (activeNotifications s) = None.

(** A timer that belongs to another key and another notification. *)
Definition foreign (id : string) (n : nat) (t : Timer) : Prop :=
  t_id t ≠ id ∧ t_notification t ≠ n.

(** The manager in a browser that granted the permission, and the test
    message of the settings dialog. *)
Definition granted : State := constructor true "granted".

Definition test_message : Val :=
  VObj [("senderName", VStr "Vaani"); ("content", VStr "Notifications enabled!");
        ("isGroupMessage", VBool false); ("messageId", VStr "test-1")].

(** A direct message of 120 accented letters: 120 code units in 240
    bytes. *)
Definition accents (n : nat) : string := String.concat "" (replicate n "é").

Definition long_message : Val :=
  VObj [("senderName", VStr "Ann"); ("content", VStr (accents 120));
        ("isGroupMessage", VBool false); ("messageId", VStr "m-1")].

End NotificationManagerSpec.

(** ** Facts about values *)

Lemma lookup_set_field_eq k x fs : lookup_field k (set_field k x fs) = x.
Proof.
  induction fs as [|[k' v] fs IH]; simpl.
  - by rewrite String.eqb_refl.
  - destruct (String.eqb k k') eqn:E; simpl.
    + by rewrite String.eqb_refl.
    + by rewrite E.
Qed.

Lemma lookup_set_field_ne k k' x fs :
  k ≠ k' → lookup_field k' (set_field k x fs) = lookup_field k' fs.
Proof.
  intros Hne. induction fs as [|[k0 v] fs IH]; simpl.
  - destruct (String.eqb k' k) eqn:E; [|done].
    apply String.eqb_eq in E. congruence.
  - destruct (String.eqb k k0) eqn:E; simpl.
    + apply String.eqb_eq in E. subst k0.
      destruct (String.eqb k' k) eqn:E'; [|done].
      apply String.eqb_eq in E'. congruence.
    + destruct (String.eqb k' k0); [done|apply IH].
Qed.

Lemma strict_eq_str s t : strict_eq (VStr s) (VStr t) = true ↔ s = t.
Proof. simpl. apply String.eqb_eq. Qed.

(** ** Properties of the connection manager *)

Module SocketManagerFacts.
Import SocketManager SocketManagerSpec.

(** *** Exact effect of [setupListeners] and [connect] *)

Lemma add_callbacks_nil s : add_callbacks [] s = s.
Proof. destruct s. unfold add_callbacks, sk_set_callbacks. simpl. by rewrite app_nil_r. Qed.

Lemma add_callbacks_app L1 L2 s :
  add_callbacks L2 (add_callbacks L1 s) = add_callbacks (L1 ++ L2) s.
Proof. destruct s. unfold add_callbacks, sk_set_callbacks. simpl. by rewrite app_assoc. Qed.

Lemma set_sockets_compose f g w :
  set_sockets f (set_sockets g w) = set_sockets (f ∘ g) w.
Proof. by destruct w. Qed.

Lemma set_sockets_ext f g w :
  f (sockets w) = g (sockets w) → set_sockets f w = set_sockets g w.
Proof. destruct w. unfold set_sockets. simpl. by intros ->. Qed.

Lemma alter_add_callbacks L1 L2 sid (l : list Socket) :
  alter (add_callbacks L2) sid (alter (add_callbacks L1) sid l)
  = alter (add_callbacks (L1 ++ L2)) sid l.
Proof.
  rewrite list_alter_alter_eq. apply list_alter_ext; [|done].
  intros s _. apply add_callbacks_app.
Qed.

Lemma socket_on_spec sid e l w :
  socket_on sid e l w = set_sockets (alter (add_callbacks [(e, l)]) sid) w.
Proof. done. Qed.

Lemma add_then_on L sid e l w :
  socket_on sid e l (set_sockets (alter (add_callbacks L) sid) w)
  = set_sockets (alter (add_callbacks (L ++ [(e, l)])) sid) w.
Proof.
  rewrite socket_on_spec, set_sockets_compose. apply set_sockets_ext. simpl.
  apply alter_add_callbacks.
Qed.

Lemma attach_set_spec L sid e hs w :
  attach_set sid e hs (set_sockets (alter (add_callbacks L) sid) w)
  = set_sockets (alter (add_callbacks (L ++ set_listeners e hs)) sid) w.
Proof.
  unfold attach_set. revert L. induction hs as [|h hs IH]; intros L; simpl.
  - by rewrite app_nil_r.
  - rewrite add_then_on, IH. by rewrite <- app_assoc.
Qed.

Lemma attach_registry_spec L sid m w :
  foldl (λ acc eh, attach_set sid eh.1 eh.2 acc)
    (set_sockets (alter (add_callbacks L) sid) w) m
  = set_sockets (alter (add_callbacks (L ++ registry_listeners m)) sid) w.
Proof.
  revert L. induction m as [|[e hs] m IH]; intros L; simpl.
  - by rewrite app_nil_r.
  - rewrite attach_set_spec, IH. unfold registry_listeners. simpl.
    by rewrite <- app_assoc.
Qed.

Lemma setupListeners_spec sid w :
  socket (this w) = Some sid →
  setupListeners w
  = set_sockets (alter (add_callbacks (initial_listeners (eventHandlers (this w)))) sid) w.
Proof.
  intros Hs. unfold setupListeners. rewrite Hs.
  rewrite (socket_on_spec sid "connect").
  rewrite !add_then_on. simpl.
  change (eventHandlers (this (set_sockets ?f w))) with (eventHandlers (this w)).
  rewrite attach_registry_spec, add_then_on.
  unfold initial_listeners. by simpl.
Qed.

Lemma connect_spec w :
  connect w
  = set_this (set_socket (Some (length (sockets (torn_down w)))))
      (set_sockets (λ l, l ++ [fresh_socket (this (torn_down w))]) (torn_down w)).
Proof.
  unfold connect. fold (torn_down w). set (w1 := torn_down w).
  rewrite (setupListeners_spec (length (sockets w1))); [|done].
  destruct w1 as [m l iv ni bl dl wn]. unfold set_this, set_sockets. simpl. f_equal.
  rewrite alter_app_r_alt by lia. by rewrite Nat.sub_diag.
Qed.

(** *** One live transport *)

Lemma list_alter_None {A} (f : A → A) (l : list A) i :
  l !! i = None → alter f i l = l.
Proof.
  intros H. apply list_eq. intros j. rewrite list_lookup_alter.
  case_decide; [subst; by rewrite H|done].
Qed.

Lemma Inv_init : Inv init.
Proof. split; simpl; [intros i s H; by rewrite lookup_nil in H|done|done]. Qed.

Lemma Inv_alter f sid w :
  (∀ s, closed (f s) = false → closed s = false) →
  Inv w → Inv (set_sockets (alter f sid) w).
Proof.
  intros Hf [H1 H2 H3]. split; simpl.
  - intros i s. rewrite list_lookup_alter. case_decide as E.
    + subst i. destruct (sockets w !! sid) as [s0|] eqn:E0; simpl; [|done].
      intros [= <-] Hc. eauto.
    + apply H1.
  - intros i Hi. rewrite length_alter. auto.
  - done.
Qed.

Lemma Inv_this f w :
  socket (f (this w)) = socket (this w) →
  heartbeatInterval (f (this w)) = heartbeatInterval (this w) →
  Inv w → Inv (set_this f w).
Proof.
  intros E1 E2 [H1 H2 H3]. split; simpl.
  - intros i s. rewrite E1. apply H1.
  - intros i. rewrite E1. apply H2.
  - by rewrite E2.
Qed.

Lemma Inv_foldl {A} (f : World → A → World) (l : list A) w :
  (∀ x w', Inv w' → Inv (f w' x)) → Inv w → Inv (foldl f w l).
Proof. intros Hf. revert w. induction l; simpl; auto. Qed.

Lemma Inv_iter (f : World → World) n w :
  (∀ w', Inv w' → Inv (f w')) → Inv w → Inv (Nat.iter n f w).
Proof. intros Hf Hw. induction n; simpl; auto. Qed.

Lemma Inv_socket_on sid e l w : Inv w → Inv (socket_on sid e l w).
Proof. apply Inv_alter. by intros []. Qed.

Lemma Inv_socket_off sid e l w : Inv w → Inv (socket_off sid e l w).
Proof. apply Inv_alter. by intros []. Qed.

Lemma Inv_socket_emit sid e d w : Inv w → Inv (socket_emit sid e d w).
Proof. apply Inv_alter. by intros []. Qed.

Lemma Inv_log d w : Inv w → Inv (log_delivery d w).
Proof. by intros []. Qed.

Lemma Inv_warn w : Inv w → Inv (warn w).
Proof. by intros []. Qed.

Lemma Inv_stopHeartbeat w : Inv w → Inv (stopHeartbeat w).
Proof.
  intros Hw. unfold stopHeartbeat.
  destruct (heartbeatInterval (this w)) as [i|] eqn:E; [|done].
  destruct Hw as [H1 H2 H3].
  split; simpl; [done|done|]. rewrite H3, E. simpl.
  rewrite filter_cons_False by (intros ?; done). done.
Qed.

Lemma stopHeartbeat_None w :
  Inv w → heartbeatInterval (this (stopHeartbeat w)) = None ∧ intervals (stopHeartbeat w) = [].
Proof.
  intros Hw. pose proof (Inv_stopHeartbeat w Hw) as [_ _ H3].
  assert (heartbeatInterval (this (stopHeartbeat w)) = None) as E.
  { unfold stopHeartbeat. by destruct (heartbeatInterval (this w)) eqn:E. }
  split; [done|]. by rewrite H3, E.
Qed.

Lemma Inv_startHeartbeat w : Inv w → Inv (startHeartbeat w).
Proof.
  intros Hw. unfold startHeartbeat.
  destruct (stopHeartbeat_None w Hw) as [E1 E2].
  destruct (Inv_stopHeartbeat w Hw) as [H1 H2 H3].
  split; simpl; [done|done|]. by rewrite E2.
Qed.

Lemma Inv_removeBrowserEventListeners w : Inv w → Inv (removeBrowserEventListeners w).
Proof. intros []. unfold removeBrowserEventListeners. by destruct (browserEventCleanup _). Qed.

Lemma Inv_setupBrowserEventListeners w : Inv w → Inv (setupBrowserEventListeners w).
Proof. by intros []. Qed.

Lemma Inv_on_disconnect w : Inv w → Inv (on_disconnect w).
Proof. intros Hw. apply Inv_stopHeartbeat. by apply Inv_this. Qed.

Lemma Inv_on_connect w : Inv w → Inv (on_connect w).
Proof. intros Hw. apply Inv_startHeartbeat. by apply Inv_this. Qed.

Lemma Inv_run_disconnect_listener sid l w : Inv w → Inv (run_disconnect_listener sid l w).
Proof. destruct l; simpl; auto using Inv_on_disconnect, Inv_log. Qed.

Lemma Inv_socket_disconnect sid w : Inv w → Inv (socket_disconnect sid w).
Proof.
  intros Hw. unfold socket_disconnect. destruct (sockets w !! sid) as [s|]; [|done].
  assert (Inv (set_sockets (alter sk_close sid) w)) by (apply Inv_alter; [by intros []|done]).
  destruct (connected s); [|done].
  apply Inv_foldl; [|done]. intros. by apply Inv_run_disconnect_listener.
Qed.

(** [socket.disconnect()] leaves the manager's reference alone and closes
    the socket; the listeners it runs touch no socket. *)
Lemma stopHeartbeat_frame w :
  sockets (stopHeartbeat w) = sockets w ∧ socket (this (stopHeartbeat w)) = socket (this w).
Proof. unfold stopHeartbeat. by destruct (heartbeatInterval (this w)). Qed.

Lemma run_disconnect_listener_frame sid l w :
  sockets (run_disconnect_listener sid l w) = sockets w
  ∧ socket (this (run_disconnect_listener sid l w)) = socket (this w).
Proof.
  destruct l; simpl; try done. unfold on_disconnect.
  destruct (stopHeartbeat_frame (set_this (set_isConnected false) w)) as [-> ->]. done.
Qed.

Lemma socket_disconnect_frame sid w :
  sockets (socket_disconnect sid w) = alter sk_close sid (sockets w)
  ∧ socket (this (socket_disconnect sid w)) = socket (this w).
Proof.
  unfold socket_disconnect. destruct (sockets w !! sid) as [s|] eqn:E.
  - destruct (connected s); [|done].
    generalize (listeners_for "disconnect" (callbacks s)). intros L.
    assert (∀ w0, sockets (foldl (λ acc l, run_disconnect_listener sid l acc) w0 L) = sockets w0
              ∧ socket (this (foldl (λ acc l, run_disconnect_listener sid l acc) w0 L))
                = socket (this w0)) as HL.
    { induction L as [|l L IH]; intros w0; simpl; [done|].
      destruct (IH (run_disconnect_listener sid l w0)) as [-> ->].
      apply run_disconnect_listener_frame. }
    destruct (HL (set_sockets (alter sk_close sid) w)) as [-> ->]. done.
  - split; [|done]. symmetry. by apply list_alter_None.
Qed.

Lemma removeBrowserEventListeners_frame w :
  sockets (removeBrowserEventListeners w) = sockets w
  ∧ socket (this (removeBrowserEventListeners w)) = socket (this w)
  ∧ heartbeatInterval (this (removeBrowserEventListeners w)) = heartbeatInterval (this w).
Proof. unfold removeBrowserEventListeners. by destruct (browserEventCleanup (this w)). Qed.

Lemma cleanup_pre_frame b w :
  sockets (cleanup_pre b w) = sockets w ∧ socket (this (cleanup_pre b w)) = socket (this w).
Proof.
  unfold cleanup_pre.
  destruct (removeBrowserEventListeners_frame (stopHeartbeat w)) as (-> & -> & _).
  apply stopHeartbeat_frame.
Qed.

Lemma Inv_cleanup b w : Inv w → Inv (cleanup b w).
Proof.
  intros Hw. unfold cleanup. fold (cleanup_pre b w).
  assert (Inv (cleanup_pre b w)) as H1
    by (by apply Inv_removeBrowserEventListeners, Inv_stopHeartbeat).
  apply Inv_this; [done|done|].
  destruct (socket (this (cleanup_pre b w))) as [sid|] eqn:Es; [|done].
  set (w' := if b && isConnected (this (cleanup_pre b w))
             then socket_emit sid "userLogout" VUndef (cleanup_pre b w)
             else cleanup_pre b w).
  assert (Inv w' ∧ socket (this w') = Some sid) as [H2 Es'].
  { subst w'. destruct (b && _); [|done]. split; [by apply Inv_socket_emit|done]. }
  pose proof (Inv_socket_disconnect sid w' H2) as [L B T].
  destruct (socket_disconnect_frame sid w') as [Eso Eth].
  split; simpl.
  - intros i s Hi Hc. exfalso. pose proof (L i s Hi Hc) as Hsi.
    rewrite Eth, Es' in Hsi. injection Hsi as <-.
    rewrite Eso, list_lookup_alter_eq in Hi.
    destruct (sockets w' !! sid); simplify_eq/=.
  - done.
  - done.
Qed.

Lemma cleanup_socket b w : socket (this (cleanup b w)) = None.
Proof.
  unfold cleanup. fold (cleanup_pre b w).
  destruct (socket (this (cleanup_pre b w))) eqn:E; simpl; done.
Qed.

Lemma cleanup_heartbeat b w :
  Inv w → heartbeatInterval (this (cleanup b w)) = None ∧ intervals (cleanup b w) = [].
Proof.
  intros Hw. pose proof (Inv_cleanup b w Hw) as [_ _ T].
  assert (heartbeatInterval (this (cleanup b w)) = None) as E.
  { unfold cleanup. simpl.
    assert (heartbeatInterval (this (cleanup_pre b w)) = None) as E0.
    { unfold cleanup_pre.
      destruct (removeBrowserEventListeners_frame (stopHeartbeat w)) as (_ & _ & ->).
      by apply stopHeartbeat_None. }
    fold (cleanup_pre b w).
    destruct (socket (this (cleanup_pre b w))) as [sid|]; simpl; [|done].
    set (w' := if b && _ then _ else _).
    assert (heartbeatInterval (this w') = None) as E1
      by (subst w'; by destruct (b && _)).
    clearbody w'. unfold socket_disconnect.
    destruct (sockets w' !! sid) as [s|]; [|done].
    destruct (connected s); [|done].
    generalize (listeners_for "disconnect" (callbacks s)). intros L.
    assert (∀ w0, heartbeatInterval (this w0) = None →
              heartbeatInterval
                (this (foldl (λ acc l, run_disconnect_listener sid l acc) w0 L)) = None) as HL.
    { induction L as [|l L IH]; intros w0 H0; simpl; [done|]. apply IH.
      destruct l; simpl; try done. unfold on_disconnect, stopHeartbeat. simpl.
      by rewrite H0. }
    by apply HL. }
  split; [done|]. by rewrite T, E.
Qed.

(** [cleanup] disconnects the socket the manager held. *)
Lemma cleanup_closes b w sid s :
  socket (this w) = Some sid → sockets w !! sid = Some s →
  ∃ s', sockets (cleanup b w) !! sid = Some s' ∧ closed s' = true ∧ connected s' = false
        ∧ transports s' = transports s ∧ upgrade s' = upgrade s.
Proof.
  intros Es Hs. unfold cleanup. fold (cleanup_pre b w). simpl.
  destruct (cleanup_pre_frame b w) as [Eso Eth]. rewrite Eth, Es.
  set (w' := if b && _ then _ else _).
  assert (∃ s0, sockets w' !! sid = Some s0 ∧ transports s0 = transports s
                ∧ upgrade s0 = upgrade s) as (s0 & Hs0 & Et & Eu).
  { subst w'. destruct (b && _).
    - simpl. rewrite list_lookup_alter_eq, Eso, Hs. simpl. eauto.
    - rewrite Eso. eauto. }
  simpl. destruct (socket_disconnect_frame sid w') as [-> _].
  rewrite list_lookup_alter_eq, Hs0. simpl. eauto 10.
Qed.

Lemma cleanup_length b w : length (sockets (cleanup b w)) = length (sockets w).
Proof.
  unfold cleanup. fold (cleanup_pre b w). simpl.
  destruct (cleanup_pre_frame b w) as [Eso Eth].
  destruct (socket (this (cleanup_pre b w))) as [sid|]; [|by rewrite Eso].
  simpl. destruct (socket_disconnect_frame sid
    (if b && isConnected (this (cleanup_pre b w))
     then socket_emit sid "userLogout" VUndef (cleanup_pre b w)
     else cleanup_pre b w)) as [-> _].
  rewrite length_alter. destruct (b && _); simpl; [rewrite length_alter|]; by rewrite Eso.
Qed.

Lemma Inv_torn_down w : Inv w → Inv (torn_down w) ∧ socket (this (torn_down w)) = None.
Proof.
  intros Hw. unfold torn_down. destruct (socket (this w)) eqn:E.
  - split; [by apply Inv_cleanup|apply cleanup_socket].
  - done.
Qed.

Lemma Inv_connect w : Inv w → Inv (connect w).
Proof.
  intros Hw. rewrite connect_spec.
  destruct (Inv_torn_down w Hw) as [[L B T] En].
  split; simpl.
  - intros i s Hi Hc. destruct (decide (i < length (sockets (torn_down w)))) as [Hlt|Hge].
    + rewrite lookup_app_l in Hi by done. specialize (L i s Hi Hc). congruence.
    + apply lookup_lt_Some in Hi as Hlen. rewrite length_app in Hlen. simpl in Hlen.
      f_equal. lia.
  - intros i [= <-]. rewrite length_app. simpl. lia.
  - done.
Qed.

Lemma Inv_initialize tok w : Inv w → Inv (initialize tok w).
Proof.
  intros Hw. unfold initialize. apply Inv_setupBrowserEventListeners, Inv_connect.
  by apply Inv_this.
Qed.

Lemma Inv_on e h w : Inv w → Inv (on e h w).
Proof.
  intros Hw. unfold on.
  set (w1 := set_this _ w). assert (Inv w1) by (by apply Inv_this).
  destruct (socket (this w1)); [by apply Inv_socket_on|done].
Qed.

Lemma Inv_off e h w : Inv w → Inv (off e h w).
Proof.
  intros Hw. unfold off. destruct h as [h|].
  - set (w1 := set_this _ w). assert (Inv w1) by (by apply Inv_this).
    destruct (socket (this w1)); [by apply Inv_socket_off|done].
  - set (w1 := set_this _ w). assert (Inv w1) by (by apply Inv_this).
    destruct (socket (this w1)); [by apply Inv_socket_off|done].
Qed.

Lemma Inv_emit e d w : Inv w → Inv (emit e d w).
Proof.
  intros Hw. unfold emit. destruct (socket (this w)); [|by apply Inv_warn].
  destruct (isConnected (this w)); [by apply Inv_socket_emit|by apply Inv_warn].
Qed.

Lemma Inv_on_connect_error w : Inv w → Inv (on_connect_error w).
Proof.
  intros Hw. unfold on_connect_error.
  set (w1 := set_this _ w). assert (Inv w1) by (by apply Inv_this).
  destruct (_ && _); [|done]. apply Inv_connect. by apply Inv_this.
Qed.

Lemma Inv_heartbeat_tick w : Inv w → Inv (heartbeat_tick w).
Proof.
  intros Hw. unfold heartbeat_tick. destruct (socket (this w)); [|done].
  destruct (isConnected (this w)); [by apply Inv_socket_emit|done].
Qed.

Lemma Inv_handleBeforeUnload w : Inv w → Inv (handleBeforeUnload w).
Proof.
  intros Hw. unfold handleBeforeUnload. destruct (socket (this w)); [|done].
  destruct (isConnected (this w)); [|done].
  by apply Inv_socket_disconnect, Inv_socket_emit.
Qed.

Lemma Inv_handleVisibilityChange hidden w : Inv w → Inv (handleVisibilityChange hidden w).
Proof.
  intros Hw. unfold handleVisibilityChange. destruct hidden; [done|].
  destruct (_ && _); [by apply Inv_connect|done].
Qed.

Lemma Inv_run_listener sid e d l w : Inv w → Inv (run_listener sid e d l w).
Proof.
  destruct l; simpl;
    auto using Inv_on_connect, Inv_on_disconnect, Inv_on_connect_error, Inv_log.
Qed.

Lemma Inv_fire sid e d w : Inv w → Inv (fire sid e d w).
Proof.
  intros Hw. unfold fire. destruct (sockets w !! sid); [|done].
  apply Inv_foldl; [|done]. intros. by apply Inv_run_listener.
Qed.

Lemma Inv_step o w : Inv w → Inv (step o w).
Proof.
  intros Hw. destruct o; simpl.
  - by apply Inv_initialize.
  - by apply Inv_connect.
  - by apply Inv_on.
  - by apply Inv_off.
  - by apply Inv_emit.
  - by apply Inv_cleanup.
  - by apply Inv_cleanup.
  - by apply Inv_startHeartbeat.
  - by apply Inv_stopHeartbeat.
  - case_decide; [by apply Inv_heartbeat_tick|done].
  - apply Inv_iter; [|done]. apply Inv_handleBeforeUnload.
  - apply Inv_iter; [|done]. apply Inv_handleVisibilityChange.
  - unfold transport_connect. destruct (sockets w !! sid); [|done].
    destruct (_ || _); [done|]. apply Inv_fire, Inv_alter; [by intros []|done].
  - unfold transport_disconnect. destruct (sockets w !! sid); [|done].
    destruct (_ || _); [done|]. apply Inv_fire, Inv_alter; [by intros []|done].
  - unfold transport_connect_error. destruct (sockets w !! sid); [|done].
    destruct (_ || _); [done|]. by apply Inv_fire.
  - unfold transport_event. destruct (sockets w !! sid); [|done].
    destruct (_ || _); [done|]. by apply Inv_fire.
Qed.

Lemma Inv_run tr w : Inv w → Inv (run tr w).
Proof. revert w. induction tr as [|o tr IH]; simpl; auto using Inv_step. Qed.

(** Under [inv_live] at most one socket of the heap is not closed. *)
Lemma at_most_one {A} (P : A → Prop) `{!∀ x, Decision (P x)} (l : list A) :
  (∀ i j x y, l !! i = Some x → l !! j = Some y → P x → P y → i = j) →
  length (filter P l) ≤ 1.
Proof.
  induction l as [|a l IH]; intros Huniq; simpl; [lia|].
  destruct (decide (P a)) as [Ha|Ha].
  - rewrite filter_cons_True by done. simpl.
    destruct (filter P l) as [|y r] eqn:E; [simpl; lia|].
    assert (y ∈ filter P l) as Hy by (rewrite E; left).
    apply list_elem_of_filter in Hy as [Py Hy].
    apply list_elem_of_lookup in Hy as [j Hj].
    specialize (Huniq 0 (S j) a y eq_refl Hj Ha Py). lia.
  - rewrite filter_cons_False by done. apply IH.
    intros i j x y Hi Hj Px Py.
    specialize (Huniq (S i) (S j) x y Hi Hj Px Py). lia.
Qed.

(** C10. From the freshly constructed manager, after any sequence of
    method calls, browser events, timer ticks and transport events, at
    most one socket has not been disconnected.  Moreover a call of
    [connect] in such a state, when the manager holds a socket, leaves
    that socket disconnected and the heartbeat stopped (no interval
    armed), and the manager then holds a new socket that is the only one
    not disconnected. *)
Theorem connect_single_live_transport (tr : list Op) :
  let w := run tr init in
  length (live_sockets w) ≤ 1
  ∧ length (live_sockets (connect w)) = 1
  ∧ socket (this (connect w)) = Some (length (sockets w))
  ∧ (∃ s, sockets (connect w) !! length (sockets w) = Some s
          ∧ closed s = false ∧ connected s = false)
  ∧ ∀ sid, socket (this w) = Some sid →
      (∃ s, sockets (connect w) !! sid = Some s ∧ closed s = true ∧ connected s = false)
      ∧ heartbeatInterval (this (connect w)) = None
      ∧ intervals (connect w) = [].
Proof.
  intros w. assert (Inv w) as Hw by apply Inv_run, Inv_init.
  assert (∀ w0, Inv w0 → length (live_sockets w0) ≤ 1) as Hone.
  { intros w0 [L _ _]. apply at_most_one.
    intros i j x y Hi Hj Px Py.
    pose proof (L i x Hi Px). pose proof (L j y Hj Py). congruence. }
  pose proof (Inv_connect w Hw) as Hc.
  assert (length (sockets (torn_down w)) = length (sockets w)) as Hlen.
  { unfold torn_down. destruct (socket (this w)); [apply cleanup_length|done]. }
  assert (sockets (connect w) !! length (sockets w)
          = Some (fresh_socket (this (torn_down w)))) as Hnew.
  { rewrite connect_spec. simpl. rewrite <- Hlen.
    rewrite lookup_app_r by lia. by rewrite Nat.sub_diag. }
  split; [by apply Hone|]. split; [|split; [|split]].
  - pose proof (Hone _ Hc) as Hle.
    assert (fresh_socket (this (torn_down w)) ∈ live_sockets (connect w)) as Hin.
    { apply list_elem_of_filter. split; [done|]. by eapply list_elem_of_lookup_2. }
    destruct (live_sockets (connect w)); simpl in *; [by apply elem_of_nil in Hin|lia].
  - rewrite connect_spec. simpl. by rewrite Hlen.
  - eauto.
  - intros sid Hsid.
    destruct Hw as [L B T]. pose proof (B sid Hsid) as Hb.
    destruct (lookup_lt_is_Some_2 _ _ Hb) as [s Hs].
    assert (torn_down w = cleanup false w) as Etd by (unfold torn_down; by rewrite Hsid).
    destruct (cleanup_closes false w sid s Hsid Hs) as (s' & Hs' & C1 & C2 & _).
    destruct (cleanup_heartbeat false w (mkInv _ L B T)) as [Hh Hi].
    rewrite connect_spec, Etd. simpl. split; [|done].
    exists s'. split; [|done]. rewrite lookup_app_l; [done|].
    by eapply lookup_lt_Some.
Qed.

(** *** Transport downgrade *)

Lemma Down_refl w : Down w w.
Proof.
  split; [done|eauto|]. intros _ i s Hi Hs. apply lookup_lt_Some in Hs. lia.
Qed.

Lemma Down_trans w1 w2 w3 : Down w1 w2 → Down w2 w3 → Down w1 w3.
Proof.
  intros [F1 O1 N1] [F2 O2 N2]. split.
  - auto.
  - intros i s Hs. destruct (O1 i s Hs) as (s' & Hs' & <- & <-).
    destruct (O2 i s' Hs') as (s'' & Hs'' & <- & <-). eauto.
  - intros Hf i s Hi Hs.
    destruct (decide (i < length (sockets w2))) as [Hlt|Hge].
    + destruct (lookup_lt_is_Some_2 _ _ Hlt) as [s2 Hs2].
      destruct (O2 i s2 Hs2) as (s'' & Hs'' & Et & Eu).
      assert (s'' = s) as -> by congruence.
      destruct (N1 Hf i s2 Hi Hs2) as [A B]. split; congruence.
    + apply (N2 (F1 Hf) i s); [lia|done].
Qed.

Lemma Down_alter f sid w :
  (∀ s, transports (f s) = transports s ∧ upgrade (f s) = upgrade s) →
  Down w (set_sockets (alter f sid) w).
Proof.
  intros Hf. split; simpl.
  - done.
  - intros i s Hs. rewrite list_lookup_alter. case_decide as E.
    + subst i. rewrite Hs. simpl. destruct (Hf s). eauto.
    + eauto.
  - intros _ i s Hi Hs. apply lookup_lt_Some in Hs. rewrite length_alter in Hs. lia.
Qed.

Lemma Down_this f w :
  (useWebSocket (this w) = false → useWebSocket (f (this w)) = false) →
  Down w (set_this f w).
Proof.
  intros Hf. split; simpl; [done|eauto|].
  intros _ i s Hi Hs. apply lookup_lt_Some in Hs. lia.
Qed.

Lemma Down_same w w' :
  this w' = this w → sockets w' = sockets w → Down w w'.
Proof.
  intros E1 E2. split; rewrite ?E1, ?E2; [done|eauto|].
  intros _ i s Hi Hs. apply lookup_lt_Some in Hs. lia.
Qed.

Lemma Down_foldl {A} (f : World → A → World) (l : list A) w :
  (∀ x w', Down w' (f w' x)) → Down w (foldl f w l).
Proof.
  intros Hf. revert w. induction l as [|x l IH]; intros w; simpl.
  - apply Down_refl.
  - eapply Down_trans; [apply Hf|apply IH].
Qed.

Lemma Down_iter (f : World → World) n w :
  (∀ w', Down w' (f w')) → Down w (Nat.iter n f w).
Proof.
  intros Hf. induction n; simpl; [apply Down_refl|].
  eapply Down_trans; [apply IHn|apply Hf].
Qed.

Lemma Down_socket_on sid e l w : Down w (socket_on sid e l w).
Proof. apply Down_alter. by intros []. Qed.

Lemma Down_socket_off sid e l w : Down w (socket_off sid e l w).
Proof. apply Down_alter. by intros []. Qed.

Lemma Down_socket_emit sid e d w : Down w (socket_emit sid e d w).
Proof. apply Down_alter. by intros []. Qed.

Lemma Down_stopHeartbeat w : Down w (stopHeartbeat w).
Proof.
  unfold stopHeartbeat. destruct (heartbeatInterval (this w)); [|apply Down_refl].
  eapply Down_trans; [|by apply Down_this]. by apply Down_same.
Qed.

Lemma Down_startHeartbeat w : Down w (startHeartbeat w).
Proof.
  unfold startHeartbeat. eapply Down_trans; [apply Down_stopHeartbeat|].
  eapply Down_trans; [|by apply Down_this]. by apply Down_same.
Qed.

Lemma Down_removeBrowserEventListeners w : Down w (removeBrowserEventListeners w).
Proof.
  unfold removeBrowserEventListeners.
  destruct (browserEventCleanup (this w)); [|apply Down_refl].
  eapply Down_trans; [|by apply Down_this]. by apply Down_same.
Qed.

Lemma Down_on_disconnect w : Down w (on_disconnect w).
Proof.
  unfold on_disconnect. eapply Down_trans; [|apply Down_stopHeartbeat].
  by apply Down_this.
Qed.

Lemma Down_on_connect w : Down w (on_connect w).
Proof.
  unfold on_connect. eapply Down_trans; [|apply Down_startHeartbeat].
  by apply Down_this.
Qed.

Lemma Down_socket_disconnect sid w : Down w (socket_disconnect sid w).
Proof.
  unfold socket_disconnect. destruct (sockets w !! sid) as [s|]; [|apply Down_refl].
  assert (Down w (set_sockets (alter sk_close sid) w)) as H
    by (apply Down_alter; by intros []).
  destruct (connected s); [|done].
  eapply Down_trans; [exact H|]. apply Down_foldl.
  intros l w'. destruct l; simpl; try apply Down_refl.
  - apply Down_on_disconnect.
  - by apply Down_same.
Qed.

Lemma Down_cleanup b w : Down w (cleanup b w).
Proof.
  unfold cleanup.
  eapply Down_trans; [apply Down_stopHeartbeat|].
  eapply Down_trans; [apply Down_removeBrowserEventListeners|].
  eapply Down_trans; [|by apply Down_this].
  destruct (socket (this _)) as [sid|]; [|apply Down_refl].
  eapply Down_trans; [|by apply Down_this].
  eapply Down_trans; [|apply Down_socket_disconnect].
  destruct (b && _); [apply Down_socket_emit|apply Down_refl].
Qed.

Lemma Down_torn_down w : Down w (torn_down w).
Proof. unfold torn_down. destruct (socket (this w)); [apply Down_cleanup|apply Down_refl]. Qed.

Lemma Down_connect w : Down w (connect w).
Proof.
  rewrite connect_spec. eapply Down_trans; [apply Down_torn_down|].
  generalize (torn_down w). intros w1. split; simpl.
  - done.
  - intros i s Hs. exists s. rewrite lookup_app_l; [done|]. by eapply lookup_lt_Some.
  - intros Hf i s Hi Hs. apply lookup_lt_Some in Hs as Hlt.
    rewrite length_app in Hlt. simpl in Hlt.
    rewrite lookup_app_r in Hs by done.
    replace (i - length (sockets w1)) with 0 in Hs by lia.
    injection Hs as <-. unfold polling_only, fresh_socket. simpl. by rewrite Hf.
Qed.

Lemma Down_on e h w : Down w (on e h w).
Proof.
  unfold on. set (w1 := set_this _ w). assert (Down w w1) by (by apply Down_this).
  destruct (socket (this w1)); [|done].
  eapply Down_trans; [done|apply Down_socket_on].
Qed.

Lemma Down_off e h w : Down w (off e h w).
Proof.
  unfold off. destruct h as [h|].
  - set (w1 := set_this _ w). assert (Down w w1) by (by apply Down_this).
    destruct (socket (this w1)); [|done].
    eapply Down_trans; [done|apply Down_socket_off].
  - set (w1 := set_this _ w). assert (Down w w1) by (by apply Down_this).
    destruct (socket (this w1)); [|done].
    eapply Down_trans; [done|apply Down_socket_off].
Qed.

Lemma Down_emit e d w : Down w (emit e d w).
Proof.
  unfold emit. destruct (socket (this w)); [|by apply Down_same].
  destruct (isConnected (this w)); [apply Down_socket_emit|by apply Down_same].
Qed.

Lemma Down_on_connect_error w : Down w (on_connect_error w).
Proof.
  unfold on_connect_error.
  set (w1 := set_this _ w). assert (Down w w1) by (by apply Down_this).
  destruct (_ && _); [|done].
  eapply Down_trans; [done|]. eapply Down_trans; [|apply Down_connect].
  by apply Down_this.
Qed.

Lemma Down_run_listener sid e d l w : Down w (run_listener sid e d l w).
Proof.
  destruct l; simpl; try apply Down_refl.
  - apply Down_on_connect.
  - apply Down_on_disconnect.
  - apply Down_on_connect_error.
  - by apply Down_same.
Qed.

Lemma Down_fire sid e d w : Down w (fire sid e d w).
Proof.
  unfold fire. destruct (sockets w !! sid); [|apply Down_refl].
  apply Down_foldl. intros. apply Down_run_listener.
Qed.

Lemma Down_step o w : Down w (step o w).
Proof.
  destruct o; simpl.
  - unfold initialize.
    eapply (Down_trans _ (set_this (set_token tok) w)); [by apply Down_this|].
    eapply Down_trans; [apply Down_connect|].
    generalize (connect (set_this (set_token tok) w)). intros w1.
    split; simpl; [done|eauto|].
    intros _ i s Hi Hs. apply lookup_lt_Some in Hs. lia.
  - apply Down_connect.
  - apply Down_on.
  - apply Down_off.
  - apply Down_emit.
  - apply Down_cleanup.
  - apply Down_cleanup.
  - apply Down_startHeartbeat.
  - apply Down_stopHeartbeat.
  - case_decide; [|apply Down_refl]. unfold heartbeat_tick.
    destruct (socket (this w)); [|apply Down_refl].
    destruct (isConnected (this w)); [apply Down_socket_emit|apply Down_refl].
  - apply Down_iter. intros w'. unfold handleBeforeUnload.
    destruct (socket (this w')); [|apply Down_refl].
    destruct (isConnected (this w')); [|apply Down_refl].
    eapply Down_trans; [apply Down_socket_emit|apply Down_socket_disconnect].
  - apply Down_iter. intros w'. unfold handleVisibilityChange.
    destruct hidden; [apply Down_refl|].
    destruct (_ && _); [apply Down_connect|apply Down_refl].
  - unfold transport_connect. destruct (sockets w !! sid); [|apply Down_refl].
    destruct (_ || _); [apply Down_refl|].
    eapply Down_trans; [|apply Down_fire]. apply Down_alter. by intros [].
  - unfold transport_disconnect. destruct (sockets w !! sid); [|apply Down_refl].
    destruct (_ || _); [apply Down_refl|].
    eapply Down_trans; [|apply Down_fire]. apply Down_alter. by intros [].
  - unfold transport_connect_error. destruct (sockets w !! sid); [|apply Down_refl].
    destruct (_ || _); [apply Down_refl|apply Down_fire].
  - unfold transport_event. destruct (sockets w !! sid); [|apply Down_refl].
    destruct (_ || _); [apply Down_refl|apply Down_fire].
Qed.

Lemma Down_run tr w : Down w (run tr w).
Proof.
  revert w. induction tr as [|o tr IH]; intros w; simpl; [apply Down_refl|].
  eapply Down_trans; [apply Down_step|apply IH].
Qed.

Lemma run_user_listeners sid e d hs w :
  let w' := foldl (λ acc l, run_listener sid e d l acc) w (LUser <$> hs) in
  this w' = this w ∧ sockets w' = sockets w ∧ intervals w' = intervals w.
Proof.
  revert w. induction hs as [|h hs IH]; intros w; cbv zeta; csimpl; [done|].
  specialize (IH (log_delivery (sid, e, h, d) w)). cbv zeta in IH.
  destruct IH as (-> & -> & ->). done.
Qed.

Lemma fail_counts w sid n :
  awaiting w sid → useWebSocket (this w) = true → attemptCount (this w) = n → S n < 3 →
  awaiting (fail w) sid ∧ useWebSocket (this (fail w)) = true
  ∧ attemptCount (this (fail w)) = S n ∧ sockets (fail w) = sockets w.
Proof.
  intros (Es & s & hs1 & hs2 & Hs & Hc & Hn & L1 & L2) Hu Ha Hlt.
  unfold fail. rewrite Es. simpl. unfold transport_connect_error.
  rewrite Hs, Hc, Hn. simpl. unfold fire. rewrite Hs, L1. simpl.
  assert (on_connect_error w
          = set_this (λ m, set_attemptCount (S (attemptCount m)) m) w) as ->.
  { unfold on_connect_error. simpl. rewrite Ha, Hu.
    destruct n as [|[|n]]; [done|done|lia]. }
  destruct (run_user_listeners sid "connect_error" VUndef hs1
              (set_this (λ m, set_attemptCount (S (attemptCount m)) m) w))
    as (Et & Eso & _).
  simpl in Et, Eso. unfold awaiting. rewrite Et, Eso. simpl.
  rewrite Ha. repeat split; try done. exists s, hs1, hs2. done.
Qed.

Lemma fail_downgrades w sid :
  Inv w → awaiting w sid → useWebSocket (this w) = true → attemptCount (this w) = 2 →
  useWebSocket (this (fail w)) = false
  ∧ length (sockets (fail w)) = S (length (sockets w))
  ∧ socket (this (fail w)) = Some (length (sockets w))
  ∧ (∃ s', sockets (fail w) !! length (sockets w) = Some s'
           ∧ polling_only s' ∧ closed s' = false)
  ∧ (∃ s0, sockets (fail w) !! sid = Some s0 ∧ closed s0 = true).
Proof.
  intros Hw (Es & s & hs1 & hs2 & Hs & Hc & Hn & L1 & L2) Hu Ha.
  unfold fail. rewrite Es. simpl. unfold transport_connect_error.
  rewrite Hs, Hc, Hn. simpl. unfold fire. rewrite Hs, L1. simpl.
  set (w1 := set_this (set_useWebSocket false)
               (set_this (λ m, set_attemptCount (S (attemptCount m)) m) w)).
  assert (on_connect_error w = connect w1) as ->.
  { unfold on_connect_error. simpl. by rewrite Ha, Hu. }
  destruct (run_user_listeners sid "connect_error" VUndef hs1 (connect w1))
    as (Et & Eso & _).
  rewrite Et, Eso. clear Et Eso.
  assert (Inv w1) as Hw1 by (apply Inv_this; [done|done|by apply Inv_this]).
  assert (socket (this w1) = Some sid) as Es1 by done.
  assert (sockets w1 !! sid = Some s) as Hs1 by done.
  assert (torn_down w1 = cleanup false w1) as Etd by (unfold torn_down; by rewrite Es1).
  assert (useWebSocket (this (cleanup false w1)) = false) as Hf
    by (by apply (down_flag _ _ (Down_cleanup false w1))).
  destruct (cleanup_closes false w1 sid s Es1 Hs1) as (s0 & Hs0 & C0 & _).
  pose proof (cleanup_length false w1) as Hlen.
  change (sockets w1) with (sockets w) in Hlen.
  rewrite connect_spec, Etd. clear Etd.
  generalize dependent (cleanup false w1). intros w2 Hf Hs0 Hlen.
  simpl. rewrite Hlen.
  repeat split.
  - done.
  - rewrite length_app. simpl. lia.
  - exists (fresh_socket (this w2)). rewrite <- Hlen.
    rewrite lookup_app_r by lia. rewrite Nat.sub_diag. simpl.
    split; [done|]. unfold polling_only, fresh_socket. simpl. by rewrite Hf.
  - exists s0. split; [|done]. rewrite lookup_app_l; [done|]. by eapply lookup_lt_Some.
Qed.

Lemma connect_resets w sid :
  awaiting w sid → attemptCount (this (step (TConnect sid) w)) = 0
                   ∧ isConnected (this (step (TConnect sid) w)) = true.
Proof.
  intros (Es & s & hs1 & hs2 & Hs & Hc & Hn & L1 & L2).
  simpl. unfold transport_connect. rewrite Hs, Hc, Hn. simpl.
  unfold fire. simpl. rewrite list_lookup_alter_eq, Hs. simpl. rewrite L2. simpl.
  set (w1 := on_connect _).
  destruct (run_user_listeners sid "connect" VUndef hs2 w1) as (Et & _).
  rewrite Et. subst w1. unfold on_connect, startHeartbeat. simpl.
  set (w2 := stopHeartbeat _).
  assert (attemptCount (this w2) = 0 ∧ isConnected (this w2) = true) as [? ?].
  { subst w2. unfold stopHeartbeat. simpl. by destruct (heartbeatInterval (this w)). }
  done.
Qed.

(** C5. Take a manager state reached from the constructor in which the
    websocket transport is enabled, the failure counter is zero and the
    held socket is trying to connect.  The first two consecutive
    connection failures only count; the third switches the manager to
    polling: the preference flag is cleared, the old socket is
    disconnected and the manager holds a new socket created with the
    polling transport only and without upgrade.  From then on, whatever
    happens, the flag stays cleared and every socket created later is
    polling-only.  A successful connect (here after two failures) resets
    the failure counter to zero. *)
Theorem three_failures_downgrade_permanently (pre : list Op) (sid : nat) :
  let w := run pre init in
  awaiting w sid →
  useWebSocket (this w) = true →
  attemptCount (this w) = 0 →
  let w3 := fail (fail (fail w)) in
  useWebSocket (this (fail w)) = true
  ∧ useWebSocket (this (fail (fail w))) = true
  ∧ attemptCount (this (fail (fail w))) = 2
  ∧ attemptCount (this (step (TConnect sid) (fail (fail w)))) = 0
  ∧ useWebSocket (this w3) = false
  ∧ (∃ s0, sockets w3 !! sid = Some s0 ∧ closed s0 = true)
  ∧ (∃ sid' s', socket (this w3) = Some sid' ∧ sockets w3 !! sid' = Some s'
        ∧ closed s' = false ∧ transports s' = [polling] ∧ upgrade s' = false)
  ∧ ∀ tr, useWebSocket (this (run tr w3)) = false
      ∧ ∀ i s', length (sockets w3) ≤ i → sockets (run tr w3) !! i = Some s' →
          transports s' = [polling] ∧ upgrade s' = false.
Proof.
  intros w Haw Hu Ha w3.
  assert (Inv w) as Hw by apply Inv_run, Inv_init.
  destruct (fail_counts w sid 0 Haw Hu Ha) as (Haw1 & Hu1 & Ha1 & Es1); [lia|].
  destruct (fail_counts (fail w) sid 1 Haw1 Hu1 Ha1) as (Haw2 & Hu2 & Ha2 & Es2); [lia|].
  assert (Inv (fail (fail w))) as Hw2.
  { unfold fail at 1. destruct (socket (this (fail w))); [apply Inv_step|];
      (unfold fail; destruct (socket (this w)); [by apply Inv_step|done]). }
  destruct (fail_downgrades (fail (fail w)) sid Hw2 Haw2 Hu2 Ha2)
    as (Hf3 & Hlen & Hsock & (s' & Hs' & [Ht Hup] & Hc') & Hold).
  repeat split; try done.
  - by apply connect_resets.
  - eauto 10.
  - apply (down_flag _ _ (Down_run tr w3)). done.
  - eapply (down_new _ _ (Down_run tr w3)); done.
  - eapply (down_new _ _ (Down_run tr w3)); done.
Qed.

Lemma three_failures_downgrade_permanently_witness :
  let w3 := fail (fail (fail (run [OInitialize (VStr "jwt")] init))) in
  useWebSocket (this w3) = false
  ∧ (∃ sid' s', socket (this w3) = Some sid' ∧ sockets w3 !! sid' = Some s'
        ∧ closed s' = false ∧ transports s' = [polling] ∧ upgrade s' = false).
Proof.
  assert (awaiting (run [OInitialize (VStr "jwt")] init) 0) as Haw.
  { split; [done|]. exists (fresh_socket (set_token (VStr "jwt") constructor)), [], [].
    repeat split; done. }
  pose proof (three_failures_downgrade_permanently [OInitialize (VStr "jwt")] 0
                Haw eq_refl eq_refl) as H.
  destruct H as (_ & _ & _ & _ & H5 & _ & H7 & _). split; [exact H5|exact H7].
Defined.

(** *** The handler registry *)

Lemma stopHeartbeat_eventHandlers w :
  eventHandlers (this (stopHeartbeat w)) = eventHandlers (this w).
Proof. unfold stopHeartbeat. by destruct (heartbeatInterval (this w)). Qed.

Lemma socket_disconnect_eventHandlers sid w :
  eventHandlers (this (socket_disconnect sid w)) = eventHandlers (this w).
Proof.
  unfold socket_disconnect. destruct (sockets w !! sid) as [s|]; [|done].
  destruct (connected s); [|done].
  change (eventHandlers (this w))
    with (eventHandlers (this (set_sockets (alter sk_close sid) w))).
  generalize (listeners_for "disconnect" (callbacks s)).
  generalize (set_sockets (alter sk_close sid) w).
  intros w0 L. revert w0. induction L as [|l L IH]; intros w0; simpl; [done|].
  rewrite IH. destruct l; simpl; try done.
  unfold on_disconnect. by rewrite stopHeartbeat_eventHandlers.
Qed.

Lemma cleanup_eventHandlers b w :
  eventHandlers (this (cleanup b w)) = eventHandlers (this w).
Proof.
  unfold cleanup. fold (cleanup_pre b w).
  assert (eventHandlers (this (cleanup_pre b w)) = eventHandlers (this w)) as E.
  { unfold cleanup_pre, removeBrowserEventListeners.
    destruct (browserEventCleanup _); simpl; apply stopHeartbeat_eventHandlers. }
  destruct (socket (this (cleanup_pre b w))) as [sid|]; simpl; [|done].
  rewrite socket_disconnect_eventHandlers. by destruct (b && _).
Qed.

(** The restore path: the socket [connect] creates carries, after the four
    connection listeners, one attachment per entry of the registry. *)
Lemma connect_restores_registry w :
  sockets (connect w) !! length (sockets w)
  = Some (fresh_socket (this (torn_down w)))
  ∧ callbacks (fresh_socket (this (torn_down w)))
    = initial_listeners (eventHandlers (this w)).
Proof.
  assert (length (sockets (torn_down w)) = length (sockets w)) as Hlen.
  { unfold torn_down. destruct (socket (this w)); [apply cleanup_length|done]. }
  split.
  - rewrite connect_spec. simpl. rewrite <- Hlen.
    rewrite lookup_app_r by lia. by rewrite Nat.sub_diag.
  - simpl. f_equal. unfold torn_down.
    destruct (socket (this w)); [apply cleanup_eventHandlers|done].
Qed.

(** C4. Registering the same function twice for an event while a socket
    exists stores it once in the registry and attaches it twice to the
    socket, so one occurrence of the event calls it twice; after a
    reconnect the new socket carries it once. *)
Theorem on_attaches_registered_handler_twice :
  registered "callEnded" 7 twice_registered = 1
  ∧ (∃ s, sockets twice_registered !! 0 = Some s ∧ attached "callEnded" 7 s = 2)
  ∧ calls 0 "callEnded" 7 (run [TEvent 0 "callEnded" VUndef] twice_registered) = 2
  ∧ (∃ s, sockets (run [OConnect] twice_registered) !! 1 = Some s
          ∧ closed s = false ∧ attached "callEnded" 7 s = 1).
Proof.
  split; [by vm_compute|]. split; [|split; [by vm_compute|]].
  - eexists. split; [vm_compute; reflexivity|by vm_compute].
  - eexists. split; [vm_compute; reflexivity|]. split; by vm_compute.
Qed.

(** *** Attaching and detaching one handler *)

Lemma listeners_for_app e l1 l2 :
  listeners_for e (l1 ++ l2) = listeners_for e l1 ++ listeners_for e l2.
Proof. unfold listeners_for. by rewrite filter_app, fmap_app. Qed.

Lemma listeners_for_one e e' l :
  listeners_for e [(e', l)] = if decide (e' = e) then [l] else [].
Proof.
  unfold listeners_for. case_decide as E.
  - by rewrite filter_cons_True.
  - by rewrite filter_cons_False.
Qed.

Lemma listeners_for_cons e e0 l0 cbs :
  listeners_for e ((e0, l0) :: cbs)
  = if decide (e0 = e) then l0 :: listeners_for e cbs else listeners_for e cbs.
Proof.
  unfold listeners_for. case_decide.
  - by rewrite filter_cons_True.
  - by rewrite filter_cons_False.
Qed.

Lemma listeners_for_remove_first e e' l cbs :
  listeners_for e (remove_first (e', l) cbs)
  = if decide (e' = e) then remove_first l (listeners_for e cbs) else listeners_for e cbs.
Proof.
  induction cbs as [|[e0 l0] cbs IH].
  - simpl. by case_decide.
  - cbn [remove_first]. destruct (decide ((e', l) = (e0, l0))) as [[= <- <-]|Hne].
    + rewrite listeners_for_cons. case_decide; [|done].
      cbn [remove_first]. by rewrite decide_True.
    + rewrite !listeners_for_cons, IH.
      destruct (decide (e0 = e)) as [->|He0]; [|done].
      case_decide as E; [|done]. subst e'.
      cbn [remove_first]. rewrite decide_False by congruence. done.
Qed.

Lemma map_get_put_eq e v m : map_get e (map_put e v m) = Some v.
Proof.
  induction m as [|[e' hs] m IH]; simpl.
  - by rewrite decide_True.
  - destruct (decide (e = e')) as [->|Hne]; simpl.
    + by rewrite decide_True.
    + by rewrite decide_False.
Qed.

Lemma map_get_put_ne e e' v m : e ≠ e' → map_get e (map_put e' v m) = map_get e m.
Proof.
  intros Hne. induction m as [|[e0 hs] m IH]; simpl.
  - by rewrite decide_False.
  - destruct (decide (e' = e0)) as [->|Hne']; simpl.
    + by rewrite !decide_False.
    + destruct (decide (e = e0)); [done|exact IH].
Qed.

Lemma map_get_delete e e' m :
  map_get e (map_delete e' m) = if decide (e = e') then None else map_get e m.
Proof.
  unfold map_delete. induction m as [|[e0 hs] m IH]; simpl.
  - by case_decide.
  - destruct (decide (e0 = e')) as [->|Hne].
    + rewrite filter_cons_False by (simpl; congruence). rewrite IH.
      by destruct (decide (e = e')).
    + rewrite filter_cons_True by done. simpl. rewrite IH.
      destruct (decide (e = e0)) as [->|He]; [by rewrite decide_False|done].
Qed.

Lemma current_alter f m sid :
  socket (this m) = Some sid →
  current (set_sockets (alter f sid) m) = f <$> current m.
Proof. intros Hs. unfold current. simpl. rewrite Hs. apply list_lookup_alter_eq. Qed.

Lemma on_spec e h m :
  registry e (on e h m) = Some (set_add h (default [] (registry e m)))
  ∧ (∀ e', e' ≠ e → registry e' (on e h m) = registry e' m)
  ∧ current (on e h m) = add_callbacks [(e, LUser h)] <$> current m.
Proof.
  unfold on, registry.
  set (m1 := match map_get e (eventHandlers (this m)) with
             | Some _ => eventHandlers (this m)
             | None => map_put e [] (eventHandlers (this m))
             end).
  assert (default [] (map_get e m1) = default [] (map_get e (eventHandlers (this m)))
          ∧ ∀ e', e' ≠ e → map_get e' m1 = map_get e' (eventHandlers (this m))) as [E1 E2].
  { subst m1. destruct (map_get e (eventHandlers (this m))) eqn:E.
    - by rewrite E.
    - rewrite map_get_put_eq. split; [done|]. intros e' He'. by apply map_get_put_ne. }
  set (w1 := set_this _ m).
  assert (∀ w2, this w2 = this w1 →
            map_get e (eventHandlers (this w2))
            = Some (set_add h (default [] (map_get e (eventHandlers (this m)))))
            ∧ ∀ e', e' ≠ e →
                map_get e' (eventHandlers (this w2)) = map_get e' (eventHandlers (this m)))
    as Hreg.
  { intros w2 ->. subst w1. simpl. rewrite map_get_put_eq, E1. split; [done|].
    intros e' He'. rewrite map_get_put_ne by done. by apply E2. }
  assert (socket (this w1) = socket (this m)) as Hsock by done.
  destruct (socket (this w1)) as [sid|] eqn:Es.
  - destruct (Hreg (socket_on sid e (LUser h) w1) eq_refl) as [R1 R2].
    split; [exact R1|]. split; [exact R2|].
    rewrite socket_on_spec, current_alter by done.
    unfold current. simpl. by rewrite <- Hsock.
  - destruct (Hreg w1 eq_refl) as [R1 R2].
    split; [exact R1|]. split; [exact R2|].
    unfold current. rewrite Es, <- Hsock. done.
Qed.

Lemma off_spec e h m :
  registry e (off e (Some h) m) = without h (registry e m)
  ∧ (∀ e', e' ≠ e → registry e' (off e (Some h) m) = registry e' m)
  ∧ current (off e (Some h) m) = remove_callback e h <$> current m.
Proof.
  unfold off, registry.
  set (m1 := match map_get e (eventHandlers (this m)) with
             | Some hs =>
                 if decide (length (filter (λ x, x ≠ h) hs) = 0)
                 then map_delete e (eventHandlers (this m))
                 else map_put e (filter (λ x, x ≠ h) hs) (eventHandlers (this m))
             | None => eventHandlers (this m)
             end).
  assert (map_get e m1 = without h (map_get e (eventHandlers (this m)))
          ∧ ∀ e', e' ≠ e → map_get e' m1 = map_get e' (eventHandlers (this m))) as [E1 E2].
  { subst m1. unfold without. destruct (map_get e (eventHandlers (this m))) eqn:E.
    - case_decide.
      + rewrite map_get_delete, decide_True by done. split; [done|].
        intros e' He'. by rewrite map_get_delete, decide_False.
      + rewrite map_get_put_eq. split; [done|]. intros e' He'. by apply map_get_put_ne.
    - by rewrite E. }
  set (w1 := set_this _ m).
  assert (socket (this w1) = socket (this m)) as Hsock by done.
  destruct (socket (this w1)) as [sid|] eqn:Es.
  - split; [exact E1|]. split; [exact E2|].
    unfold socket_off. rewrite current_alter by done.
    unfold current. simpl. by rewrite <- Hsock.
  - split; [exact E1|]. split; [exact E2|].
    unfold current. rewrite Es, <- Hsock. done.
Qed.

Lemma emit_spec e d m :
  this (emit e d m) = this m
  ∧ ∃ f, current (emit e d m) = f <$> current m
         ∧ ∀ s, callbacks (f s) = callbacks s ∧ connected (f s) = connected s
                ∧ closed (f s) = closed s.
Proof.
  unfold emit. destruct (socket (this m)) as [sid|] eqn:Es.
  - destruct (isConnected (this m)).
    + split; [done|]. exists (sk_send e d). split; [|done].
      unfold socket_emit. by rewrite current_alter.
    + split; [done|]. exists id. split; [|done]. unfold current. simpl.
      by destruct (socket (this m)); [destruct (sockets m !! _)|].
  - split; [done|]. exists id. split; [|done]. unfold current. simpl.
    by rewrite Es.
Qed.

(** What [on], [off] and [emit] do to the listeners of the current
    socket, to the registry and to the connection. *)
Lemma on_open e h m : is_open (on e h m) = is_open m.
Proof.
  destruct (on_spec e h m) as (_ & _ & Hc). unfold is_open. rewrite Hc.
  by destruct (current m).
Qed.

Lemma on_listening e e' h m :
  is_open m = true →
  listening e' (on e h m) = listening e' m ++ (if decide (e = e') then [LUser h] else []).
Proof.
  intros Ho. destruct (on_spec e h m) as (_ & _ & Hc). unfold listening, is_open in *.
  rewrite Hc. destruct (current m) as [s|]; [|done]. simpl.
  by rewrite listeners_for_app, listeners_for_one.
Qed.

Lemma off_open e h m : is_open (off e (Some h) m) = is_open m.
Proof.
  destruct (off_spec e h m) as (_ & _ & Hc). unfold is_open. rewrite Hc.
  by destruct (current m).
Qed.

Lemma off_listening e e' h m :
  listening e' (off e (Some h) m)
  = if decide (e = e') then remove_first (LUser h) (listening e' m) else listening e' m.
Proof.
  destruct (off_spec e h m) as (_ & _ & Hc). unfold listening. rewrite Hc.
  destruct (current m) as [s|]; simpl.
  - apply listeners_for_remove_first.
  - by case_decide.
Qed.

Lemma emit_open e d m : is_open (emit e d m) = is_open m.
Proof.
  destruct (emit_spec e d m) as (_ & f & Hc & Hf). unfold is_open. rewrite Hc.
  destruct (current m) as [s|]; [|done]. simpl.
  destruct (Hf s) as (_ & -> & ->). done.
Qed.

Lemma emit_listening e d e' m : listening e' (emit e d m) = listening e' m.
Proof.
  destruct (emit_spec e d m) as (_ & f & Hc & Hf). unfold listening. rewrite Hc.
  destruct (current m) as [s|]; [|done]. simpl.
  destruct (Hf s) as (-> & _). done.
Qed.

Lemma emit_registry e d e' m : registry e' (emit e d m) = registry e' m.
Proof. destruct (emit_spec e d m) as (Ht & _). unfold registry. by rewrite Ht. Qed.

Lemma on_registry e e' h m :
  registry e' (on e h m)
  = if decide (e' = e) then Some (set_add h (default [] (registry e m))) else registry e' m.
Proof.
  destruct (on_spec e h m) as (H1 & H2 & _). case_decide as E; [by subst|by apply H2].
Qed.

Lemma off_registry e e' h m :
  registry e' (off e (Some h) m)
  = if decide (e' = e) then without h (registry e m) else registry e' m.
Proof.
  destruct (off_spec e h m) as (H1 & H2 & _). case_decide as E; [by subst|by apply H2].
Qed.
End SocketManagerFacts.

(** ** Properties of the audio-cue player *)

Module CallSoundsFacts.
Import CallSounds.

Lemma stopAll_silent s : silent (stopAll s) = true ∧ playingSound (stopAll s) = VNull.
Proof.
  destruct s as [[[[]]|] [[[]]|] i p a [] ap api]; by vm_compute.
Qed.

Lemma playDisconnect_silent s : silent s = true → silent (playDisconnect s) = true.
Proof.
  destruct s as [[[[]]|] [[[]]|] [] p [] [] ap []]; by vm_compute.
Qed.

End CallSoundsFacts.
(** ** Properties of the Dashboard component *)

Module DashboardFacts.
Import Dashboard DashboardSpec.

(** *** Time *)

Lemma w_now_id w : w_now (now w) w = w.
Proof. by destruct w. Qed.

Lemma run_app tr1 tr2 w : run (tr1 ++ tr2) w = run tr2 (run tr1 w).
Proof. apply foldl_app. Qed.

(** A millisecond in which no timer is due only moves the clock. *)
Lemma tick_idle w : idle_for 1 w = true → tick w = w_now (S (now w)) w.
Proof.
  intros H. unfold tick. simpl.
  assert (filter (λ t, due t ≤ S (now w)) (timers w) = []) as ->; [|done].
  unfold idle_for in H. rewrite forallb_forall in H.
  induction (timers w) as [|t l IH]; [done|].
  rewrite filter_cons_False.
  - apply IH. intros x Hx. apply H. by right.
  - specialize (H t (or_introl eq_refl)). apply Nat.ltb_lt in H. lia.
Qed.

Lemma ticks_idle n w :
  idle_for n w = true → run (replicate n Tick) w = w_now (now w + n) w.
Proof.
  revert w. induction n as [|n IH]; intros w H; simpl.
  - rewrite Nat.add_0_r. by rewrite w_now_id.
  - assert (idle_for 1 w = true) as H1.
    { unfold idle_for in *. rewrite forallb_forall in *. intros t Ht.
      specialize (H t Ht). apply Nat.ltb_lt in H. apply Nat.ltb_lt. lia. }
    unfold run in *. rewrite tick_idle by done. rewrite IH.
    + simpl. replace (S (now w + n)) with (now w + S n) by lia. by destruct w.
    + unfold idle_for in *. rewrite forallb_forall in *. intros t Ht.
      specialize (H t Ht). apply Nat.ltb_lt in H. apply Nat.ltb_lt. simpl. lia.
Qed.

(** After [n] idle milliseconds, the next one. *)
Lemma ticks_idle_then_tick n w :
  idle_for n w = true → run (replicate (S n) Tick) w = tick (w_now (now w + n) w).
Proof.
  intros H. replace (S n) with (n + 1) by lia.
  rewrite replicate_add, run_app. by rewrite (ticks_idle n w).
Qed.

(** *** ICE candidates *)

Lemma foldl_fixed {A B} (f : A → B → A) (a : A) (l : list B) :
  (∀ x, x ∈ l → f a x = a) → foldl f a l = a.
Proof.
  induction l as [|x l IH]; intros H; simpl; [done|].
  rewrite (H x) by left. apply IH. intros y Hy. apply H. by right.
Qed.

Lemma dispatch_attached e d w :
  dispatch e d w = w
  ∨ ∃ sid, SM.socket (SM.this (sm w)) = Some sid
           ∧ dispatch e d w = foldl (run_listener sid e d) w (attached_to e w).
Proof.
  unfold dispatch, attached_to, current_socket.
  destruct (SM.socket (SM.this (sm w))) as [sid|]; [|by left].
  destruct (SM.sockets (sm w) !! sid) as [s|]; [|by left].
  destruct (SM.closed s || negb (SM.connected s)); [by left|right; eauto].
Qed.

(** C9. While no peer connection exists, an ['iceCandidate'] event leaves
    the whole state as it was: the candidate is stored nowhere, no async
    work is started, nothing is sent and nothing is shown. *)
Theorem ice_candidate_without_peer_connection (w : World) (d : Val) :
  peerConnectionRef w = None →
  ice_handlers_only w = true →
  step w (Inbound "iceCandidate" d) = w.
Proof.
  intros Hpc Hice. simpl.
  destruct (dispatch_attached "iceCandidate" d w) as [->|(sid & _ & ->)]; [done|].
  apply foldl_fixed. intros l Hl.
  unfold ice_handlers_only in Hice. rewrite forallb_forall in Hice.
  apply list_elem_of_In in Hl. specialize (Hice l Hl).
  destruct l as [| | | | |h]; try done. simpl.
  destruct (closures w !! h) as [[]|]; try done.
  simpl. unfold iceCandidate. by rewrite Hpc.
Qed.

Lemma ice_candidate_without_peer_connection_witness :
  peerConnectionRef online = None
  ∧ attached_to "iceCandidate" online = [SM.LUser 5]
  ∧ step online (Inbound "iceCandidate" (VObj [("candidate", VStr "candidate:1 1 udp")]))
    = online.
Proof.
  split; [reflexivity|]. split; [by vm_compute|].
  apply ice_candidate_without_peer_connection; by vm_compute.
Defined.

(** With a peer connection the candidate is handed to it and, once
    [addIceCandidate] resolves, belongs to its candidates. *)
Lemma ice_candidate_applied (w : World) (d : Val) (pc : nat) (p : PeerConnection) :
  peerConnectionRef w = Some pc → pcs w !! pc = Some p → nullish d = false →
  let w1 := iceCandidate d w in
  tasks w1 = tasks w ++ [Some (KIceAdd pc (prop d "candidate"))]
  ∧ ∃ p', pcs (settle (length (tasks w)) (Resolved VUndef) w1) !! pc = Some p'
          ∧ candidates p' = candidates p ++ [prop d "candidate"].
Proof.
  intros Hpc Hp Hd. unfold iceCandidate. rewrite Hpc, Hd. simpl. split; [done|].
  unfold settle. simpl. rewrite lookup_app_r by lia. rewrite Nat.sub_diag. simpl.
  rewrite list_lookup_alter_eq, Hp. simpl. eauto.
Qed.

(** *** Status updates *)

Lemma prop_with_field_eq m k x : prop (with_field m k x) k = x.
Proof.
  destruct m; simpl; try by rewrite String.eqb_refl.
  apply lookup_set_field_eq.
Qed.

Lemma prop_with_field_ne m k k' x : k ≠ k' → prop (with_field m k x) k' = prop m k'.
Proof.
  intros Hne. destruct m; simpl;
    try (destruct (String.eqb k' k) eqn:E; [apply String.eqb_eq in E; congruence|done]).
  by apply lookup_set_field_ne.
Qed.

Lemma jor_truthy a b : truthy a = true → jor a b = a.
Proof. unfold jor. by intros ->. Qed.

Lemma jor_falsy a b : truthy a = false → jor a b = b.
Proof. unfold jor. by intros ->. Qed.

(** C6. A status update names the authoritative identifier "srv1" and
    the correlation token "tmp1" of a message; locally only the token is
    known (the record is still the optimistic one).  The handler takes the
    identifier for its one key and does not fall back to the token: no
    record matches and the record stays queued.  The same update without
    the identifier is matched by its token and sets the status. *)
Theorem status_update_misses_local_token :
  let payload := VObj [("messageId", VStr "srv1"); ("clientTempId", VStr "tmp1");
                       ("status", VStr "sent")] in
  let by_token := VObj [("clientTempId", VStr "tmp1"); ("status", VStr "sent")] in
  knows_id (VStr "srv1") queued = false
  ∧ knows_token (VStr "tmp1") queued = true
  ∧ statuses queued = [VStr "queued"]
  ∧ statuses (step queued (Inbound "messageStatusUpdate" payload)) = [VStr "queued"]
  ∧ statuses (step queued (Inbound "messageStatusUpdate" by_token)) = [VStr "sent"].
Proof. by vm_compute. Qed.

(** X24. The status-update handler matches on one key: the [messageId] of the
    payload when it is truthy, otherwise its [clientTempId].  A record
    whose identifier or whose own correlation token equals the key gets
    the status of the payload and keeps its other fields; every other
    record is unchanged; nothing else changes but the count of
    unread-count refreshes.  A payload with neither identifier changes
    nothing at all. *)
Theorem status_update_matches_one_key (payload : Val) (w : World) :
  let p := jor payload (VObj []) in
  let messageId := prop p "messageId" in
  let clientTempId := prop p "clientTempId" in
  let status := prop p "status" in
  let key := if truthy messageId then messageId else clientTempId in
  let w' := messageStatusUpdate payload w in
  (truthy key = false → w' = w)
  ∧ length (messages w') = length (messages w)
  ∧ (∀ i m, truthy key = true → messages w !! i = Some m → status_matches key m = true →
       ∃ m', messages w' !! i = Some m' ∧ prop m' "status" = status
             ∧ ∀ k, k ≠ "status" → prop m' k = prop m k)
  ∧ (∀ i m, messages w !! i = Some m → status_matches key m = false →
       messages w' !! i = Some m)
  ∧ w_unreadFetches (unreadFetches w) (w_messages (messages w) w') = w.
Proof.
  intros p messageId clientTempId status key w'.
  assert (jor messageId clientTempId = key) as Hkey by done.
  subst w'. unfold messageStatusUpdate. fold p. fold messageId clientTempId status.
  rewrite Hkey.
  destruct (truthy key) eqn:Ek.
  - assert (negb (truthy messageId) && negb (truthy clientTempId) = false) as ->.
    { subst key. destruct (truthy messageId); [done|]. by rewrite Ek. }
    set (w1 := setMessages (update_status key status) w).
    assert (messages w1 = update_status key status (messages w)) as Hm by done.
    assert (∀ w2, messages w2 = messages w1 →
              w_unreadFetches (unreadFetches w) (w_messages (messages w) w2) = w →
              (true = false → w2 = w)
              ∧ length (messages w2) = length (messages w)
              ∧ (∀ i m, true = true → messages w !! i = Some m →
                   status_matches key m = true →
                   ∃ m', messages w2 !! i = Some m' ∧ prop m' "status" = status
                         ∧ ∀ k, k ≠ "status" → prop m' k = prop m k)
              ∧ (∀ i m, messages w !! i = Some m → status_matches key m = false →
                   messages w2 !! i = Some m)
              ∧ w_unreadFetches (unreadFetches w) (w_messages (messages w) w2) = w) as Hgen.
    { intros w2 E2 Hrest. rewrite E2, Hm. unfold update_status.
      split; [done|]. split; [by rewrite length_fmap|]. split; [|split; [|done]].
      - intros i m _ Hi Hmatch. rewrite list_lookup_fmap, Hi. simpl. rewrite Hmatch.
        eexists. split; [done|]. split; [apply prop_with_field_eq|].
        intros k Hk. by apply prop_with_field_ne.
      - intros i m Hi Hmatch. rewrite list_lookup_fmap, Hi. simpl. by rewrite Hmatch. }
    destruct (_ || _); apply Hgen; try done; by destruct w.
  - assert (negb (truthy messageId) && negb (truthy clientTempId) = true) as ->.
    { subst key. destruct (truthy messageId) eqn:E1; [congruence|]. by rewrite Ek. }
    split; [done|]. split; [done|]. split; [done|]. split; [|by destruct w].
    intros i m Hi _. done.
Qed.

(** *** Reconciliation of a sent message *)

Lemma findIndex_app_last t prev m :
  findIndex t prev = None →
  strict_eq (prop m "_id") t || strict_eq (prop m "id") t = true →
  findIndex t (prev ++ [m]) = Some (length prev).
Proof.
  intros Hnone Hm. induction prev as [|x prev IH]; simpl in *.
  - by rewrite Hm.
  - destruct (_ || _); [done|].
    destruct (findIndex t prev); [done|]. by rewrite IH.
Qed.

Lemma reconcile_in_place (m opt : Val) (prev : list Val) (srv tmp : string) :
  local_id m = VStr srv → prop m "clientTempId" = VStr tmp →
  srv ≠ "" → tmp ≠ "" → srv ≠ tmp →
  prop opt "_id" = VStr tmp →
  existsb (λ x, strict_eq (local_id x) (VStr srv)) prev = false →
  findIndex (VStr tmp) prev = None →
  reconcile m (prev ++ [opt]) = prev ++ [m].
Proof.
  intros Hid Htok Hsrv Htmp Hne Hopt Hnew Hfresh. unfold reconcile.
  assert (persisted_id m = VStr srv) as ->.
  { unfold persisted_id. rewrite Hid. unfold jor. simpl.
    destruct (String.eqb srv "") eqn:E; [|done].
    apply String.eqb_eq in E. congruence. }
  rewrite existsb_app, Hnew. simpl.
  assert (local_id opt = VStr tmp) as ->.
  { unfold local_id, jor. rewrite Hopt. simpl.
    destruct (String.eqb tmp "") eqn:E; [apply String.eqb_eq in E; congruence|done]. }
  simpl. destruct (String.eqb tmp srv) eqn:E; [apply String.eqb_eq in E; congruence|].
  simpl. rewrite Htok. simpl.
  destruct (String.eqb tmp "") eqn:E'; [apply String.eqb_eq in E'; congruence|]. simpl.
  rewrite (findIndex_app_last _ _ _ Hfresh).
  - rewrite insert_app_r_alt by lia. by rewrite Nat.sub_diag.
  - rewrite Hopt. simpl. by rewrite String.eqb_refl.
Qed.

(** A second push of the same record is recognized by its identifier. *)
Lemma reconcile_known (m : Val) (prev : list Val) :
  existsb (λ x, strict_eq (local_id x) (persisted_id m)) prev = true →
  reconcile m prev = prev.
Proof. unfold reconcile. by intros ->. Qed.

Lemma local_id_stored msg res : local_id (stored msg res) = local_id msg.
Proof.
  destruct res; [|done]. unfold local_id, stored.
  by rewrite !prop_with_field_ne.
Qed.

Lemma token_stored msg res :
  prop (stored msg res) "clientTempId" = prop msg "clientTempId".
Proof. destruct res; [|done]. unfold stored. by rewrite !prop_with_field_ne. Qed.

Lemma acknowledge_messages m w : messages (acknowledge m w) = messages w.
Proof. unfold acknowledge. by case_match. Qed.

(** A response that carries an object never changes the list. *)
Lemma apiResponse_messages i data w :
  truthy data = true → messages (apiResponse i (Some data) w) = messages w.
Proof.
  intros Hdata. unfold apiResponse.
  destruct (sends w !! i) as [s|]; [|done].
  destruct (s_api s); try done.
  destruct (s_awaiting s); [|done].
  unfold sendMessage_finish. simpl. by rewrite Hdata.
Qed.

(** C3, counterexample. The message to Ann is queued, then Bob's
    conversation is opened; the pushed record and the response both
    arrive.  The handler skips the push as not belonging to the view and
    the response path stores nothing: no translation is pending, the
    authoritative identifier is unknown locally and the only record is
    still the optimistic one. *)
Lemma push_outside_view_is_not_reconciled :
  let w := run [USelectUser bob; Inbound "receiveMessage" persisted;
                ApiResponse 0 (Some persisted)] queued in
  tasks w = tasks queued
  ∧ s_resolved <$> sends w = [true]
  ∧ knows_id (VStr "srv1") w = false
  ∧ (λ m, prop m "_id") <$> messages w = [VStr "tmp1"]
  ∧ statuses w = [VStr "queued"].
Proof. by vm_compute. Qed.

(** C3, amended. A message is sent from a conversation; the server pushes
    the persisted record with the same correlation token and a new
    identifier, the push belongs to the conversation in view, and the
    request returns an object.  Whether the push arrives before the
    response or after the race timer and the response, the list ends as
    it was before the send plus the one stored record, in the place of
    the optimistic one; the timer and the response never change the
    list, it is the push that reconciles. *)
Theorem sent_message_reconciled_by_push
    (w0 : World) (tmp srv : string) (ts push data : Val) (res : Settled) :
  is_blank (message w0) = false →
  negb (truthy (selectedUser (cur w0))) && nullish (selectedRoom (cur w0)) = false →
  shouldAppend (cur w0) push = true →
  local_id push = VStr srv → prop push "clientTempId" = VStr tmp →
  srv ≠ "" → tmp ≠ "" → srv ≠ tmp →
  knows_id (VStr srv) w0 = false →
  findIndex (VStr tmp) (messages w0) = None →
  truthy data = true →
  let i := length (sends w0) in
  let k := length (tasks w0) in
  let w1 := sendMessage (cur w0) (VStr tmp) ts w0 in
  let push_first :=
    apiResponse i (Some data)
      (settle k res (sendHandler i (VStr tmp) push (receiveMessage push w1))) in
  let response_first :=
    settle k res
      (sendHandler i (VStr tmp) push
         (receiveMessage push (apiResponse i (Some data) (sendTimeout i w1)))) in
  messages w1 = messages w0 ++ [optimisticMessage (cur w0) (VStr tmp) ts (message w0)]
  ∧ messages (sendTimeout i w1) = messages w1
  ∧ messages (apiResponse i (Some data) (sendTimeout i w1)) = messages w1
  ∧ messages push_first = messages w0 ++ [stored push res]
  ∧ messages response_first = messages w0 ++ [stored push res]
  ∧ local_id (stored push res) = VStr srv.
Proof.
  intros Hblank Hsel Hview Hid Htok Hsrv Htmp Hne Hnew Hfresh Hdata i k w1 push_first response_first.
  set (opt := optimisticMessage (cur w0) (VStr tmp) ts (message w0)).
  assert (nullish push = false) as Hpush.
  { destruct push; try done; by vm_compute in Hid. }
  assert (truthy push = true) as Hpush'.
  { destruct push; try done; by vm_compute in Hid. }
  assert (messages w1 = messages w0 ++ [opt] ∧ tasks w1 = tasks w0 ∧ cur w1 = cur w0
          ∧ ∃ t, sends w1 = sends w0 ++ [mkSend (VStr tmp) false t ApiPending false])
    as (Hm1 & Ht1 & Hc1 & t & Hs1).
  { subst w1. unfold sendMessage. rewrite Hblank. simpl. rewrite Hsel. simpl. eauto. }
  assert (sends w1 !! i = Some (mkSend (VStr tmp) false t ApiPending false)) as Hi1.
  { rewrite Hs1. subst i. rewrite lookup_app_r by lia. by rewrite Nat.sub_diag. }
  assert (reconcile (stored push res) (messages w0 ++ [opt])
          = messages w0 ++ [stored push res]) as Hrec.
  { apply (reconcile_in_place _ _ _ srv tmp); try done.
    - by rewrite local_id_stored.
    - by rewrite token_stored. }
  assert (∀ w, messages w = messages w0 ++ [opt] → tasks w = tasks w0 → cur w = cur w0 →
            messages (settle k res (receiveMessage push w))
            = messages w0 ++ [stored push res]) as Hpushpath.
  { intros w Hm Ht Hc. unfold receiveMessage. rewrite Hpush, Hc, Hview.
    unfold settle, push_task. simpl. rewrite Ht. subst k.
    rewrite lookup_app_r by lia. rewrite Nat.sub_diag. simpl.
    unfold receiveMessage_translated.
    destruct res; rewrite acknowledge_messages; simpl; rewrite Hm; exact Hrec. }
  split; [done|].
  assert (sendTimeout i w1 = send_update s_await i w1) as Eto.
  { unfold sendTimeout. by rewrite Hi1. }
  split; [by rewrite Eto|].
  assert (sends (send_update s_await i w1) !! i
          = Some (mkSend (VStr tmp) true t ApiPending true)) as Hi2.
  { simpl. by rewrite list_lookup_alter_eq, Hi1. }
  set (w3 := apiResponse i (Some data) (sendTimeout i w1)).
  assert (messages w3 = messages w1 ∧ tasks w3 = tasks w1 ∧ cur w3 = cur w1
          ∧ ∃ s, sends w3 !! i = Some s ∧ s_resolved s = true) as (Hm3 & Ht3 & Hc3 & s3 & Hs3 & Hr3).
  { subst w3. rewrite Eto. unfold apiResponse. rewrite Hi2. simpl.
    unfold sendMessage_finish. rewrite Hdata. simpl.
    repeat split; try done. rewrite !list_lookup_alter_eq, Hi1. simpl. eauto. }
  split; [done|]. split; [|split].
  - subst push_first.
    assert (sendHandler i (VStr tmp) push (receiveMessage push w1)
            = sendMessage_finish i push
                (clearTimeout t (send_update s_resolve i (receiveMessage push w1)))) as ->.
    { unfold sendHandler. rewrite Hpush', Htok. simpl. rewrite String.eqb_refl.
      assert (sends (receiveMessage push w1) !! i
              = Some (mkSend (VStr tmp) false t ApiPending false)) as ->; [|done].
      unfold receiveMessage. rewrite Hpush, Hc1, Hview. exact Hi1. }
    unfold sendMessage_finish at 1. rewrite Hpush'.
    set (w2 := receiveMessage push w1).
    assert (messages (settle k res (setMessage "" (clearTimeout t (send_update s_resolve i w2))))
            = messages w0 ++ [stored push res]) as Hfin.
    { subst w2. unfold receiveMessage. rewrite Hpush, Hc1, Hview.
      unfold settle, push_task. simpl. rewrite Ht1. subst k.
      rewrite lookup_app_r by lia. rewrite Nat.sub_diag. simpl.
      unfold receiveMessage_translated.
      destruct res; rewrite acknowledge_messages; simpl; rewrite Hm1; exact Hrec. }
    rewrite <- Hfin. by apply apiResponse_messages.
  - subst response_first. fold w3.
    assert (sendHandler i (VStr tmp) push (receiveMessage push w3) = receiveMessage push w3) as ->.
    { unfold sendHandler. rewrite Hpush', Htok. simpl. rewrite String.eqb_refl.
      assert (sends (receiveMessage push w3) !! i = Some s3) as ->.
      { unfold receiveMessage. rewrite Hpush, Hc3, Hc1, Hview. exact Hs3. }
      by rewrite Hr3. }
    apply Hpushpath; congruence.
  - by rewrite local_id_stored.
Qed.

Lemma sent_message_reconciled_by_push_witness :
  let w1 := sendMessage (cur typing) (VStr "tmp1") (VStr "2024-05-01T10:00:00Z") typing in
  let push_first :=
    apiResponse 0 (Some persisted)
      (settle 0 (Resolved (VStr "hello"))
         (sendHandler 0 (VStr "tmp1") persisted (receiveMessage persisted w1))) in
  messages push_first = messages typing ++ [stored persisted (Resolved (VStr "hello"))]
  ∧ count_id (VStr "srv1") push_first = 1
  ∧ knows_id (VStr "tmp1") push_first = false.
Proof.
  assert ("srv1" ≠ "") as H0 by done.
  assert ("tmp1" ≠ "") as H1 by done.
  assert ("srv1" ≠ "tmp1") as H2 by done.
  pose proof (sent_message_reconciled_by_push typing "tmp1" "srv1"
                (VStr "2024-05-01T10:00:00Z") persisted persisted (Resolved (VStr "hello"))
                eq_refl eq_refl eq_refl eq_refl eq_refl H0 H1 H2 eq_refl eq_refl eq_refl)
    as (_ & _ & _ & Hm & _).
  split; [exact Hm|]. split; by vm_compute.
Defined.

(** *** Offers for a joined participant *)

(** Once the session is recorded, an acknowledgement starts nothing. *)
Lemma ack_for_recorded_session (r : Render) (d : Val) (w : World) :
  set_has (prop (jor d (VObj [])) "callSessionId") (initiatorOfferSentRef w) = true →
  handleParticipantAck r d w = w.
Proof.
  intros H. unfold handleParticipantAck. rewrite H.
  destruct (negb _); [done|]. by destruct (_ && _).
Qed.

(** C1. Two acknowledgements for session "S" that arrive before the
    first handler has passed its awaits both find the session
    unrecorded, and two offers are sent for it.  When the second arrives
    after the first handler is done, one offer is sent. *)
Theorem acks_in_flight_send_two_offers :
  offers_for (VStr "S") online = []
  ∧ length (offers_for (VStr "S") (run acks_in_flight online)) = 2
  ∧ initiatorOfferSentRef (run acks_in_flight online) = [VStr "S"]
  ∧ length (offers_for (VStr "S") (run acks_in_turn online)) = 1.
Proof. by vm_compute. Qed.

(** *** The wait for a deferred offer *)

(** C7. The callee accepts an invitation without offer; the offer arrives
    after one second and is answered: the call is active and nothing was
    rejected.  Seven seconds later the wait timer, which nobody cleared,
    fires and sends the rejection to the caller.  (Without an offer the
    same timer rejects, as it should.) *)
Theorem offer_wait_timer_rejects_answered_call :
  (tid <$> timers waiting_for_offer, due <$> timers waiting_for_offer) = ([0], [8000])
  ∧ inCall (cur answered_in_time) = true
  ∧ count_sent "answerCall" answered_in_time = 1
  ∧ count_sent "endCall" answered_in_time = 0
  ∧ (tid <$> timers answered_in_time) = [0]
  ∧ now (run (replicate 7000 Tick) answered_in_time) = 8000
  ∧ last (sent_of (run (replicate 7000 Tick) answered_in_time))
    = Some ("endCall", VObj [("to", VStr "u1"); ("callSessionId", VStr "s1");
                             ("callRoomId", VUndef)])
  ∧ count_sent "endCall" (run (replicate 8000 Tick) waiting_for_offer) = 1.
Proof.
  assert (now waiting_for_offer = 0) as En0 by (vm_compute; reflexivity).
  assert (answered_in_time
          = run [Inbound "incomingCall" deferred_offer;
                 Settle 1 ok; Settle 2 (Resolved (VStr "sdp-answer")); Settle 3 ok]
              (w_now 1000 waiting_for_offer)) as E1.
  { unfold answered_in_time. rewrite run_app.
    rewrite (ticks_idle 1000 waiting_for_offer) by (vm_compute; reflexivity).
    rewrite En0. reflexivity. }
  assert (now answered_in_time = 1000) as En by (rewrite E1; vm_compute; reflexivity).
  assert (run (replicate 7000 Tick) answered_in_time
          = tick (w_now 7999 answered_in_time)) as E2.
  { change 7000 with (S 6999).
    rewrite (ticks_idle_then_tick 6999 answered_in_time).
    - rewrite En. replace (1000 + 6999) with 7999 by (vm_compute; reflexivity). reflexivity.
    - rewrite E1. vm_compute. reflexivity. }
  assert (run (replicate 8000 Tick) waiting_for_offer
          = tick (w_now 7999 waiting_for_offer)) as E3.
  { change 8000 with (S 7999).
    rewrite (ticks_idle_then_tick 7999 waiting_for_offer) by (vm_compute; reflexivity).
    rewrite En0. reflexivity. }
  rewrite E2, E3, E1. vm_compute. repeat split; reflexivity.
Qed.

(** *** Ending a call *)

(** What [endCall] does whatever render it closes over: the sounds are
    stopped, the peer connection the ref holds is closed and the ref
    cleared, the call state is reset. *)
Lemma endCall_always (r : Render) (w : World) :
  let w' := endCall r w in
  peerConnectionRef w' = None
  ∧ (∀ pc p, peerConnectionRef w = Some pc → pcs w !! pc = Some p →
       ∃ p', pcs w' !! pc = Some p' ∧ pc_closed p' = true)
  ∧ inCall (cur w') = false ∧ callType (cur w') = VNull
  ∧ localStream (cur w') = None ∧ remoteStream (cur w') = None
  ∧ activeCallSession (cur w') = VNull.
Proof.
  intros w'. subst w'. unfold endCall. simpl. split; [done|]. split; [|done].
  intros pc p Hpc Hp.
  set (w1 := sound CS.playDisconnect (sound CS.stopAll w)).
  assert (∀ st w0, pcs (stop_stream st w0) = pcs w0
                   ∧ peerConnectionRef (stop_stream st w0) = peerConnectionRef w0) as Hstop.
  { intros [s|] w0; simpl; [|done]. generalize (default [] (streams w0 !! s)).
    intros l. revert w0. induction l as [|i l IH]; intros w0; simpl; [done|].
    destruct (IH (stop_track i w0)) as [-> ->]. done. }
  set (w2 := stop_stream (remoteStream r) (stop_stream (localStream r) w1)).
  assert (pcs w2 = pcs w ∧ peerConnectionRef w2 = Some pc) as [E1 E2].
  { subst w2. destruct (Hstop (remoteStream r) (stop_stream (localStream r) w1)) as [-> ->].
    destruct (Hstop (localStream r) w1) as [-> ->]. done. }
  rewrite E2.
  assert (∀ e d w0, pcs (sm_emit e d w0) = pcs w0) as Hemit by done.
  repeat match goal with |- context [if ?c then _ else _] => destruct c end;
    rewrite ?Hemit; simpl; rewrite E1, list_lookup_alter_eq, Hp; simpl; eauto.
Qed.

(** C8. In an active call with local and remote media, a remote
    ['callEnded'] signal and a failed ICE connection both run the
    [endCall] of an earlier render: the peer connection is closed and the
    ref cleared, but the acquired tracks stay live and nothing is sent to
    the other party.  The hang-up button runs the current [endCall]: all
    tracks are stopped and one ['endCall'] is sent. *)
Theorem stale_endCall_keeps_tracks_live :
  let remote := step in_call (Inbound "callEnded" VUndef) in
  let failed := step in_call (IceConnectionState 0 "failed") in
  let hangup := step in_call UEndCall in
  (inCall (cur in_call), localStream (cur in_call), remoteStream (cur in_call))
    = (true, Some 0, Some 1)
  ∧ (live_tracks (Some 0) in_call, live_tracks (Some 1) in_call) = ([0; 1], [3; 4])
  ∧ open_pcs in_call = [0]
  ∧ (live_tracks (Some 0) remote, live_tracks (Some 1) remote) = ([0; 1], [3; 4])
  ∧ (open_pcs remote, peerConnectionRef remote, CS.silent (sounds remote)) = ([], None, true)
  ∧ sent_of remote = sent_of in_call
  ∧ (live_tracks (Some 0) failed, live_tracks (Some 1) failed) = ([0; 1], [3; 4])
  ∧ sent_of failed = sent_of in_call
  ∧ (live_tracks (Some 0) hangup, live_tracks (Some 1) hangup) = ([], [])
  ∧ (open_pcs hangup, peerConnectionRef hangup, CS.silent (sounds hangup)) = ([], None, true)
  ∧ sent_of hangup
    = sent_of in_call ++ [("endCall", VObj [("to", VStr "u1"); ("callSessionId", VUndef)])].
Proof. by vm_compute. Qed.

(** *** The delivery race of an outgoing call *)

Module SS := SocketManagerSpec.
Module SF := SocketManagerFacts.

#[local] Arguments SM.on : simpl never.
#[local] Arguments SM.off : simpl never.
#[local] Arguments SM.emit : simpl never.
#[local] Arguments CS.stopAll : simpl never.

Lemma attached_listening e w : attached_to e w = SS.listening e (sm w).
Proof. reflexivity. Qed.

Lemma registered_registry e w : registered_for e w = SS.registry e (sm w).
Proof. reflexivity. Qed.

Lemma dispatch_open e d w :
  socket_open w = true →
  ∃ sid, dispatch e d w = foldl (run_listener sid e d) w (attached_to e w).
Proof.
  unfold socket_open, SS.is_open, SS.current, dispatch, attached_to, current_socket.
  destruct (SM.socket (SM.this (sm w))) as [sid|]; [|done].
  destruct (SM.sockets (sm w) !! sid) as [s|]; [|done].
  intros [-> Hc]%andb_true_iff. apply negb_true_iff in Hc. rewrite Hc. by exists sid.
Qed.

Lemma dispatch_unattached e d w : attached_to e w = [] → dispatch e d w = w.
Proof.
  intros H. destruct (dispatch_attached e d w) as [->|(sid & _ & ->)]; [done|].
  by rewrite H.
Qed.

Section race.
Variables (w0 : World) (r : Render).

Let cell := length (cells w0).
Let fd := length (closures w0).
Let fu := S fd.

Lemma remove_delivery_listeners_over shown X :
  timers X = [] →
  attached_to "incomingCallDelivered" X = [SM.LUser fd] →
  attached_to "userUnavailable" X = [SM.LUser fu] →
  registered_for "incomingCallDelivered" X = Some [fd] →
  registered_for "userUnavailable" X = Some [fu] →
  offs X = offs w0 →
  alerts X = alerts w0 ++ shown →
  Over w0 shown (remove_delivery_listeners fd fu X).
Proof.
  rewrite !attached_listening, !registered_registry.
  intros Ht Ha1 Ha2 Hr1 Hr2 Ho Hal.
  split; rewrite ?attached_listening, ?registered_registry;
    unfold remove_delivery_listeners, sm_off; simpl.
  - done.
  - rewrite !SF.off_listening, Ha1. simpl. by rewrite decide_True.
  - rewrite !SF.off_listening, Ha2. simpl. by rewrite decide_True.
  - rewrite !SF.off_registry. simpl. rewrite Hr1. simpl.
    rewrite filter_cons_False by (intros H; by apply H). done.
  - rewrite !SF.off_registry. simpl. rewrite Hr2. simpl.
    rewrite filter_cons_False by (intros H; by apply H). done.
  - rewrite Ho. by rewrite <- app_assoc.
  - done.
Qed.

Lemma remove_delivery_listeners_ui X :
  cur (remove_delivery_listeners fd fu X) = cur X
  ∧ sounds (remove_delivery_listeners fd fu X) = sounds X.
Proof. done. Qed.

Lemma reset_call_ui_reset X : call_reset (reset_call_ui X).
Proof.
  unfold call_reset, reset_call_ui. simpl.
  destruct (CallSoundsFacts.stopAll_silent (sounds X)) as [-> _]. done.
Qed.

Lemma call_reset_shown msg Y :
  call_reset Y → call_reset (remove_delivery_listeners fd fu (alert msg Y)).
Proof. intros H. exact H. Qed.

Lemma startCall_send_armed type offer :
  truthy (selectedRoom r) = false →
  socket_open w0 = true →
  attached_to "incomingCallDelivered" w0 = [] →
  attached_to "userUnavailable" w0 = [] →
  registered_for "incomingCallDelivered" w0 = None →
  registered_for "userUnavailable" w0 = None →
  timers w0 = [] →
  Armed w0 r 0 (startCall_send r type offer w0).
Proof.
  rewrite !attached_listening, !registered_registry. unfold socket_open.
  intros Hroom Hopen Ha1 Ha2 Hr1 Hr2 Ht.
  unfold startCall_send. rewrite Hroom.
  split; rewrite ?attached_listening, ?registered_registry; unfold socket_open;
    unfold startCall_private, setTimeout, sm_emit, sm_on, new_closure; simpl.
  - lia.
  - unfold DELIVERY_TIMEOUT_MS. lia.
  - rewrite list_lookup_insert_eq; [done|]. rewrite length_app. simpl. lia.
  - by rewrite Ht.
  - rewrite <- app_assoc. by rewrite lookup_app_r, Nat.sub_diag.
  - rewrite lookup_app_r; rewrite length_app; simpl; [|lia].
    by replace (S (length (closures w0)) - (length (closures w0) + 1)) with 0 by lia.
  - by rewrite SF.emit_open, !SF.on_open.
  - rewrite SF.emit_listening, !SF.on_listening, Ha1; [by simpl|done|].
    by rewrite SF.on_open.
  - rewrite SF.emit_listening, !SF.on_listening, Ha2; [by simpl|done|].
    by rewrite SF.on_open.
  - rewrite SF.emit_registry, !SF.on_registry. simpl. by rewrite Hr1.
  - rewrite SF.emit_registry, !SF.on_registry. simpl. by rewrite Hr2.
  - done.
  - done.
  - done.
Qed.

Lemma Armed_tick_waits k w :
  Armed w0 r k w → S k < DELIVERY_TIMEOUT_MS → Armed w0 r (S k) (tick w).
Proof.
  intros [] Hk. rewrite tick_idle.
  - split; simpl; try done. lia.
  - unfold idle_for. rewrite ar_timers0. simpl. rewrite andb_true_r.
    apply Nat.ltb_lt. lia.
Qed.

Lemma Armed_tick_fires k w :
  Armed w0 r k w → S k = DELIVERY_TIMEOUT_MS →
  Over w0 ["No answer from recipient (timeout)."] (tick w) ∧ call_reset (tick w).
Proof.
  intros [] Hk. unfold tick. simpl. rewrite ar_timers0.
  rewrite filter_cons_True by (simpl; lia). rewrite filter_nil. simpl.
  unfold fire_timer. simpl. rewrite ar_timers0. simpl.
  rewrite bool_decide_eq_true_2 by apply list_elem_of_here.
  unfold run_timer, deliveryTimeout. split.
  - apply remove_delivery_listeners_over; simpl; try done.
    + unfold clearTimeout. simpl. rewrite ar_timers0.
      rewrite filter_cons_False by (simpl; intros H; by apply H). done.
    + by rewrite ar_alerts0.
  - apply call_reset_shown, reset_call_ui_reset.
Qed.

Lemma clear_cell_armed k w :
  Armed w0 r k w →
  timers (clear_cell cell w) = []
  ∧ sm (clear_cell cell w) = sm w ∧ offs (clear_cell cell w) = offs w
  ∧ alerts (clear_cell cell w) = alerts w ∧ cur (clear_cell cell w) = cur w.
Proof.
  intros []. unfold clear_cell. fold cell in ar_cell0. rewrite ar_cell0.
  unfold clearTimeout. simpl. rewrite ar_timers0.
  rewrite filter_cons_False by (simpl; intros H; by apply H). done.
Qed.

Lemma Armed_delivered k w d :
  Armed w0 r k w → addressed_to r d = true →
  Over w0 [] (dispatch "incomingCallDelivered" d w)
  ∧ inCall (cur (dispatch "incomingCallDelivered" d w)) = true.
Proof.
  intros Hw Hd. destruct (clear_cell_armed k w Hw) as (Ht & Hsm & Ho & Hal & Hc).
  unfold cell in *.
  destruct (dispatch_open "incomingCallDelivered" d w) as [sid ->]; [by destruct Hw|].
  destruct Hw. rewrite ar_att3. simpl. rewrite ar_fd0.
  unfold call, onDelivered. rewrite Hd. split.
  - apply remove_delivery_listeners_over; rewrite
      ?attached_listening, ?registered_registry, ?Hsm, ?Ho, ?Hal, ?app_nil_r; done.
  - simpl. by rewrite Hc.
Qed.

Lemma Armed_unavailable k w d :
  Armed w0 r k w → addressed_to r d = true →
  Over w0 ["User is unavailable or offline."] (dispatch "userUnavailable" d w)
  ∧ call_reset (dispatch "userUnavailable" d w).
Proof.
  intros Hw Hd. destruct (clear_cell_armed k w Hw) as (Ht & Hsm & Ho & Hal & Hc).
  unfold cell in *.
  destruct (dispatch_open "userUnavailable" d w) as [sid ->]; [by destruct Hw|].
  destruct Hw. rewrite ar_att4. simpl. rewrite ar_fu0.
  unfold call, onUserUnavailable. rewrite Hd. split.
  - apply remove_delivery_listeners_over; simpl; rewrite
      ?attached_listening, ?registered_registry; simpl; rewrite ?Hsm, ?Ho, ?Hal; try done.
    by rewrite ar_alerts0.
  - apply call_reset_shown, reset_call_ui_reset.
Qed.

Lemma Armed_ignores k w e d :
  Armed w0 r k w → race_event (Inbound e d) = true → addressed_to r d = false →
  dispatch e d w = w.
Proof.
  intros Hw He Hd. destruct (dispatch_open e d w) as [sid ->]; [by destruct Hw|].
  destruct Hw. simpl in He. apply orb_true_iff in He as [->%String.eqb_eq| ->%String.eqb_eq].
  - rewrite ar_att3. simpl. rewrite ar_fd0. unfold call, onDelivered. by rewrite Hd.
  - rewrite ar_att4. simpl. rewrite ar_fu0. unfold call, onUserUnavailable. by rewrite Hd.
Qed.

Lemma Over_step shown w ev :
  Over w0 shown w → race_event ev = true →
  Over w0 shown (step w ev) ∧ cur (step w ev) = cur w ∧ sounds (step w ev) = sounds w.
Proof.
  intros Hw He. destruct ev; try done; simpl.
  - rewrite dispatch_unattached; [done|].
    simpl in He. apply orb_true_iff in He as [->%String.eqb_eq| ->%String.eqb_eq];
      by destruct Hw.
  - rewrite tick_idle.
    + by destruct Hw.
    + unfold idle_for. by rewrite (ov_timers _ _ _ Hw).
Qed.

Lemma race_step_state o w ev :
  race_state w0 r o w → race_event ev = true →
  race_state w0 r (race_step r o ev) (step w ev).
Proof.
  intros Hw He. destruct o as [k| | |]; simpl.
  - destruct ev; try done; simpl.
    + destruct (addressed_to r d) eqn:Hd.
      * simpl in He. rewrite andb_true_r.
        apply orb_true_iff in He as [->%String.eqb_eq| ->%String.eqb_eq]; simpl.
        -- by apply (Armed_delivered k).
        -- by apply (Armed_unavailable k).
      * rewrite !andb_false_r. by rewrite (Armed_ignores k w e d).
    + case_bool_decide as Hk.
      * by apply (Armed_tick_fires k).
      * apply Armed_tick_waits; [done|]. destruct Hw. lia.
  - destruct Hw as [Hw Hc]. destruct (Over_step _ _ _ Hw He) as (? & Hc' & ?).
    split; [done|]. by rewrite Hc'.
  - destruct Hw as [Hw Hc]. destruct (Over_step _ _ _ Hw He) as (? & Hc' & Hs).
    split; [done|]. unfold call_reset. by rewrite Hc', Hs.
  - destruct Hw as [Hw Hc]. destruct (Over_step _ _ _ Hw He) as (? & Hc' & Hs).
    split; [done|]. unfold call_reset. by rewrite Hc', Hs.
Qed.

Lemma race_run_state tr o w :
  race_state w0 r o w → forallb race_event tr = true →
  race_state w0 r (foldl (race_step r) o tr) (run tr w).
Proof.
  revert o w. induction tr as [|ev tr IH]; intros o w Hw Htr; [done|].
  simpl in Htr. apply andb_true_iff in Htr as [Hev Htr].
  simpl. apply IH; [|done]. by apply race_step_state.
Qed.
End race.

(** X23. A one-to-one call is sent from any state whose socket is open,
    that has no timer and no listener of the two signals; afterwards only
    time passes and the two signals arrive, in any number and order.  The
    component is then in the state of the outcome the specification
    gives for these events: the attempt is pending with the timer armed
    for 5000 ms and each temporary handler attached once; or it was
    delivered, the timer cancelled and the call still on; or the called
    user was unavailable or the 5000th millisecond passed, the call state
    reset, no cue playing and the user told.  In each of the three ended
    states no timer is left, both temporary handlers are detached and
    unregistered, and [off] was called once for each. *)
Theorem delivery_race_ends_once (w0 : World) (r : Render) (type offer : Val)
    (tr : list Event) :
  truthy (selectedRoom r) = false →
  socket_open w0 = true →
  attached_to "incomingCallDelivered" w0 = [] →
  attached_to "userUnavailable" w0 = [] →
  registered_for "incomingCallDelivered" w0 = None →
  registered_for "userUnavailable" w0 = None →
  timers w0 = [] →
  forallb race_event tr = true →
  race_state w0 r (race_outcome r tr) (run tr (startCall_send r type offer w0)).
Proof.
  intros Hroom Hopen Ha1 Ha2 Hr1 Hr2 Ht Htr.
  apply race_run_state; [|done]. by apply startCall_send_armed.
Qed.

(** The call to Ann is delivered after a millisecond; a late
    unavailability signal and the rest of the five seconds change
    nothing. *)
Lemma delivery_race_ends_once_witness :
  race_outcome caller delivered_late = Delivered
  ∧ race_state dialing caller (race_outcome caller delivered_late)
      (run delivered_late (startCall_send caller (VStr "audio") (VStr "sdp-offer") dialing)).
Proof.
  split; [vm_compute; reflexivity|].
  apply (delivery_race_ends_once dialing caller (VStr "audio") (VStr "sdp-offer")
           delivered_late); vm_compute; reflexivity.
Defined.

(** C2. A call to Ann is placed and the caller hangs up after a second:
    [endCall] neither clears the delivery timer of the attempt nor
    detaches its two listeners.  Bob is selected and called at once, and
    his call is reported delivered half a second later: the timer of that
    attempt is cancelled and the call is on.  When five seconds have
    passed since the call to Ann was placed, the timer of the abandoned
    attempt runs: the delivered call to Bob is reset and the user is told
    that the recipient did not answer. *)
Theorem stale_delivery_timer_resets_delivered_call :
  (now abandoned = 1000 ∧ inCall (cur abandoned) = false
   ∧ armed abandoned = [(0, 5000)]
   ∧ attached_to "incomingCallDelivered" abandoned = [SM.LUser 13]
   ∧ attached_to "userUnavailable" abandoned = [SM.LUser 14])
  ∧ (now placed_to_bob = 1000 ∧ inCall (cur placed_to_bob) = true
     ∧ armed placed_to_bob = [(0, 5000); (1, 6000)])
  ∧ (now delivered_to_bob = 1500 ∧ inCall (cur delivered_to_bob) = true
     ∧ callType (cur delivered_to_bob) = VStr "audio"
     ∧ armed delivered_to_bob = [(0, 5000)]
     ∧ attached_to "incomingCallDelivered" delivered_to_bob = [SM.LUser 13]
     ∧ alerts delivered_to_bob = [])
  ∧ (now first_timer_elapsed = 5000 ∧ inCall (cur first_timer_elapsed) = false
     ∧ callType (cur first_timer_elapsed) = VNull
     ∧ armed first_timer_elapsed = []
     ∧ alerts first_timer_elapsed = ["No answer from recipient (timeout)."]).
Proof. vm_compute. repeat split. Qed.

End DashboardFacts.
Module SocketManagerLaws.
Import SocketManager SocketManagerSpec SocketManagerFacts SocketManagerInvariants.

(** *** Registering and unregistering *)

Lemma remove_first_app_fresh {A} `{EqDecision A} (x : A) (l : list A) :
  x ∉ l → remove_first x (l ++ [x]) = l.
Proof.
  induction l as [|y l IH]; intros Hx; simpl.
  - by rewrite decide_True.
  - apply not_elem_of_cons in Hx as [Hne Hx].
    rewrite decide_False by done. by rewrite IH.
Qed.

Lemma filter_app_fresh (h : nat) (l : list nat) :
  h ∉ l → filter (λ x, x ≠ h) (l ++ [h]) = l.
Proof.
  intros Hh. rewrite filter_app, filter_cons_False, filter_nil, app_nil_r
    by (intros Hq; by apply Hq).
  induction l as [|y l IH]; [done|].
  apply not_elem_of_cons in Hh as [Hne Hh].
  rewrite filter_cons_True by done. by rewrite IH.
Qed.

Lemma map_put_absent e v m : map_get e m = None → map_put e v m = m ++ [(e, v)].
Proof.
  induction m as [|[e' hs] m IH]; simpl; [done|].
  case_decide as E; [done|]. intros Hm. by rewrite IH.
Qed.

Lemma map_delete_absent e m : map_get e m = None → map_delete e m = m.
Proof.
  unfold map_delete. induction m as [|[e' hs] m IH]; simpl; [done|].
  case_decide as E; [done|]. intros Hm.
  rewrite filter_cons_True by (simpl; congruence). by rewrite IH.
Qed.

Lemma map_put_put e v v' m : map_put e v (map_put e v' m) = map_put e v m.
Proof.
  induction m as [|[e' hs] m IH]; simpl.
  - by rewrite decide_True.
  - case_decide as E; simpl.
    + by rewrite decide_True.
    + rewrite decide_False by done. by rewrite IH.
Qed.

Lemma map_put_same e v m : map_get e m = Some v → map_put e v m = m.
Proof.
  induction m as [|[e' hs] m IH]; simpl; [done|].
  case_decide as E; [by intros [= ->]; subst|]. intros Hm. by rewrite IH.
Qed.

Lemma set_this_eventHandlers_id w :
  set_this (set_eventHandlers (eventHandlers (this w))) w = w.
Proof. by destruct w as [[] ? ? ? ? ? ?]. Qed.

(** X1. Registering a function that is new for an event and unregistering
    it again gives back the state before the two calls: the registry, the
    listeners of the socket and everything else.  (The function is neither
    registered nor attached for the event, and the registry does not hold
    an empty set for it, which [off] would delete.) *)
Theorem off_undoes_on (e : string) (h : nat) (w : World) :
  h ∉ default [] (registry e w) →
  registry e w ≠ Some [] →
  (∀ s, current w = Some s → (e, LUser h) ∉ callbacks s) →
  off e (Some h) (on e h w) = w.
Proof.
  unfold registry, current. intros Hfresh Hne Hcb.
  destruct w as [m socks ints ni bl dl wn].
  destruct m as [sk tok eh ic ac ma uw hb bc]. simpl in *.
  assert (∀ sid, sk = Some sid →
            alter (λ s, sk_set_callbacks (remove_first (e, LUser h) (callbacks s)) s) sid
              (alter (λ s, sk_set_callbacks (callbacks s ++ [(e, LUser h)]) s) sid socks)
            = socks) as Hsock.
  { intros sid ->.
    apply list_eq. intros i. destruct (decide (i = sid)) as [->|Hi].
    - rewrite !list_lookup_alter_eq.
      destruct (socks !! sid) as [s|] eqn:Es; [|done]. simpl. f_equal.
      rewrite remove_first_app_fresh by by apply Hcb.
      by destruct s.
    - by rewrite !list_lookup_alter_ne. }
  assert (∀ l, map_get e eh = Some l → h ∉ l → l ≠ [] →
            map_put e (filter (λ x, x ≠ h) (set_add h l)) (map_put e (set_add h l) eh) = eh
            ∧ length (filter (λ x, x ≠ h) (set_add h l)) ≠ 0) as Hold.
  { intros l El Hl Hl0.
    assert (set_add h l = l ++ [h]) as -> by (unfold set_add; by rewrite decide_False).
    rewrite filter_app_fresh by done. split.
    - by rewrite map_put_put, (map_put_same e l eh).
    - destruct l; [done|simpl; lia]. }
  assert (map_get e eh = None →
            map_delete e (map_put e [h] (map_put e [] eh)) = eh) as Hnew.
  { intros En. rewrite map_put_put, map_put_absent by done.
    unfold map_delete. rewrite filter_app, filter_cons_False, filter_nil, app_nil_r
      by (simpl; intros Hq; by apply Hq).
    by apply map_delete_absent. }
  assert (set_add h [] = [h]) as Hadd.
  { unfold set_add. by rewrite decide_False by apply not_elem_of_nil. }
  assert (filter (λ x, x ≠ h) [h] = []) as Hfil.
  { by rewrite filter_cons_False by (intros Hq; by apply Hq). }
  unfold on, off.
  destruct (map_get e eh) as [l|] eqn:El; destruct sk as [sid|]; simpl in *;
    rewrite ?El; simpl; rewrite ?map_get_put_eq; simpl; rewrite ?map_get_put_eq; simpl.
  - destruct (Hold l eq_refl Hfresh) as [Hput Hlen]; [congruence|].
    rewrite decide_False by done. rewrite Hput.
    unfold socket_on, socket_off, set_sockets. simpl. by rewrite Hsock.
  - destruct (Hold l eq_refl Hfresh) as [Hput Hlen]; [congruence|].
    rewrite decide_False by done. by rewrite Hput.
  - rewrite Hadd, Hfil. simpl. rewrite Hnew by done.
    unfold socket_on, socket_off, set_sockets. simpl. by rewrite Hsock.
  - rewrite Hadd, Hfil. simpl. by rewrite Hnew.
Qed.

Lemma off_undoes_on_witness :
  off "callEnded" (Some 8) (on "callEnded" 8 one_registered) = one_registered.
Proof.
  apply off_undoes_on.
  - vm_compute. intros Hin. apply elem_of_cons in Hin as [Hin|Hin]; [lia|].
    by apply elem_of_nil in Hin.
  - vm_compute. discriminate.
  - intros s Hs. vm_compute in Hs. injection Hs as <-.
    intros Hin. repeat (apply elem_of_cons in Hin as [Hin|Hin]; [discriminate|]).
    by apply elem_of_nil in Hin.
Defined.


Lemma listeners_for_filter_ne e e' cbs :
  listeners_for e' (filter (λ c : string * Listener, c.1 ≠ e) cbs)
  = if decide (e' = e) then [] else listeners_for e' cbs.
Proof.
  induction cbs as [|[e0 l0] cbs IH]; simpl.
  - by case_decide.
  - destruct (decide (e0 = e)) as [->|Hne].
    + rewrite filter_cons_False by (simpl; intros Hq; by apply Hq).
      rewrite IH, listeners_for_cons. by repeat case_decide; simplify_eq.
    + rewrite filter_cons_True by done.
      rewrite !listeners_for_cons, IH. by repeat case_decide; simplify_eq.
Qed.

Lemma on_socket e h w : socket (this (on e h w)) = socket (this w).
Proof.
  assert (∀ w1 l, socket (this w1) = socket (this w) →
            socket (this (match socket (this w1) with
                          | Some sid => socket_on sid e l w1
                          | None => w1
                          end)) = socket (this w)) as Hgen.
  { intros w1 l <-. by destruct (socket (this w1)) eqn:E. }
  unfold on. by apply Hgen.
Qed.

Lemma off_socket e h w : socket (this (off e h w)) = socket (this w).
Proof.
  assert (∀ w1 l, socket (this w1) = socket (this w) →
            socket (this (match socket (this w1) with
                          | Some sid => socket_off sid e l w1
                          | None => w1
                          end)) = socket (this w)) as Hgen.
  { intros w1 l <-. by destruct (socket (this w1)) eqn:E. }
  unfold off. destruct h as [h|]; by apply Hgen.
Qed.

Lemma off_all_registry e e' w :
  registry e' (off e None w) = if decide (e' = e) then None else registry e' w.
Proof.
  unfold registry, off.
  assert (∀ m1, eventHandlers
                  (this (match socket (this (set_this (set_eventHandlers m1) w)) with
                         | Some sid => socket_off sid e None
                                         (set_this (set_eventHandlers m1) w)
                         | None => set_this (set_eventHandlers m1) w
                         end)) = m1) as ->.
  { intros m1. simpl. by destruct (socket (this w)). }
  destruct (map_get e (eventHandlers (this w))) as [hs|] eqn:Ee.
  - apply map_get_delete.
  - case_decide; [by subst|done].
Qed.

Lemma off_all_current e w :
  current (off e None w)
  = (λ s, sk_set_callbacks (filter (λ c, c.1 ≠ e) (callbacks s)) s) <$> current w.
Proof.
  unfold off.
  set (m1 := match map_get e (eventHandlers (this w)) with
             | Some _ => map_delete e (eventHandlers (this w))
             | None => eventHandlers (this w)
             end).
  change (socket (this (set_this (set_eventHandlers m1) w))) with (socket (this w)).
  destruct (socket (this w)) as [sid|] eqn:Es.
  - unfold socket_off. rewrite current_alter by done.
    unfold current. simpl. by rewrite Es.
  - unfold current. simpl. by rewrite Es.
Qed.

Lemma off_all_listening e e' w :
  listening e' (off e None w) = if decide (e' = e) then [] else listening e' w.
Proof.
  unfold listening. rewrite off_all_current.
  destruct (current w) as [s|]; simpl; [|by case_decide].
  apply listeners_for_filter_ne.
Qed.

Lemma on_listening_held e e' h w :
  is_Some (current w) →
  listening e' (on e h w) = listening e' w ++ (if decide (e = e') then [LUser h] else [])
  ∧ is_Some (current (on e h w)).
Proof.
  intros [s Hs]. destruct (on_spec e h w) as (_ & _ & Hc). unfold listening.
  rewrite Hc, Hs. simpl. split; [|done].
  by rewrite listeners_for_app, listeners_for_one.
Qed.

Lemma off_held e h w : is_Some (current w) → is_Some (current (off e h w)).
Proof.
  intros [s Hs]. destruct h as [h|].
  - destruct (off_spec e h w) as (_ & _ & ->). by rewrite Hs.
  - rewrite off_all_current. by rewrite Hs.
Qed.

Lemma emit_held e d w : is_Some (current w) → is_Some (current (emit e d w)).
Proof.
  intros [s Hs]. destruct (emit_spec e d w) as (_ & f & -> & _). by rewrite Hs.
Qed.

(** X2. [off(event)] without a handler deletes the registry entry of the
    event and removes every listener of the event from the socket the
    manager holds, the manager's own listener for it and the
    ['incomingCall'] bridge included; the other events and the connection
    are untouched. *)
Theorem off_event_detaches_every_listener (e : string) (w : World) :
  let w' := off e None w in
  registry e w' = None
  ∧ listening e w' = []
  ∧ is_open w' = is_open w
  ∧ ∀ e', e' ≠ e → registry e' w' = registry e' w ∧ listening e' w' = listening e' w.
Proof.
  cbv zeta. repeat split.
  - rewrite off_all_registry. by rewrite decide_True.
  - rewrite off_all_listening. by rewrite decide_True.
  - unfold is_open. rewrite off_all_current. by destruct (current w).
  - rewrite off_all_registry. by rewrite decide_False.
  - rewrite off_all_listening. by rewrite decide_False.
Qed.

(** *** Releasing the connection *)

Lemma stopHeartbeat_manager w :
  token (this (stopHeartbeat w)) = token (this w)
  ∧ browserEventCleanup (this (stopHeartbeat w)) = browserEventCleanup (this w)
  ∧ isConnected (this (stopHeartbeat w)) = isConnected (this w)
  ∧ browserListeners (stopHeartbeat w) = browserListeners w.
Proof. unfold stopHeartbeat. by destruct (heartbeatInterval (this w)). Qed.

Lemma socket_disconnect_manager sid w :
  token (this (socket_disconnect sid w)) = token (this w)
  ∧ browserEventCleanup (this (socket_disconnect sid w)) = browserEventCleanup (this w)
  ∧ browserListeners (socket_disconnect sid w) = browserListeners w.
Proof.
  unfold socket_disconnect. destruct (sockets w !! sid) as [s|]; [|done].
  destruct (connected s); [|done].
  set (w1 := set_sockets (alter sk_close sid) w).
  change (token (this w)) with (token (this w1)).
  change (browserEventCleanup (this w)) with (browserEventCleanup (this w1)).
  change (browserListeners w) with (browserListeners w1).
  generalize w1. clear w1.
  induction (listeners_for "disconnect" (callbacks s)) as [|l ls IH]; intros w1; [done|].
  simpl. destruct (IH (run_disconnect_listener sid l w1)) as (-> & -> & ->).
  destruct l; try done. simpl. unfold on_disconnect.
  destruct (stopHeartbeat_manager (set_this (set_isConnected false) w1)) as (-> & -> & _ & ->).
  done.
Qed.

Lemma cleanup_sockets b w :
  sockets (cleanup b w)
  = match socket (this w) with
    | Some sid =>
        alter sk_close sid
          (if b && isConnected (this w)
           then alter (sk_send "userLogout" VUndef) sid (sockets w) else sockets w)
    | None => sockets w
    end.
Proof.
  unfold cleanup. fold (cleanup_pre b w).
  destruct (cleanup_pre_frame b w) as [Hs Hk].
  assert (isConnected (this (cleanup_pre b w)) = isConnected (this w)) as Hc.
  { unfold cleanup_pre, removeBrowserEventListeners.
    destruct (stopHeartbeat_manager w) as (_ & _ & <- & _).
    by destruct (browserEventCleanup (this (stopHeartbeat w))). }
  simpl. rewrite Hk, Hc. destruct (socket (this w)) as [sid|]; simpl; [|done].
  destruct (socket_disconnect_frame sid
              (if b && isConnected (this w)
               then socket_emit sid "userLogout" VUndef (cleanup_pre b w)
               else cleanup_pre b w)) as [-> _].
  destruct (b && isConnected (this w)); simpl; by rewrite Hs.
Qed.

Lemma cleanup_manager b w :
  token (this (cleanup b w)) = token (this w)
  ∧ browserEventCleanup (this (cleanup b w)) = false
  ∧ isConnected (this (cleanup b w)) = false.
Proof.
  unfold cleanup. fold (cleanup_pre b w).
  assert (token (this (cleanup_pre b w)) = token (this w)
          ∧ browserEventCleanup (this (cleanup_pre b w)) = false) as [Ht Hb].
  { unfold cleanup_pre, removeBrowserEventListeners.
    destruct (stopHeartbeat_manager w) as (<- & _ & _ & _).
    by destruct (browserEventCleanup (this (stopHeartbeat w))) eqn:E. }
  simpl. destruct (socket (this (cleanup_pre b w))) as [sid|]; simpl; [|done].
  destruct (socket_disconnect_manager sid
              (if b && isConnected (this (cleanup_pre b w))
               then socket_emit sid "userLogout" VUndef (cleanup_pre b w)
               else cleanup_pre b w)) as (-> & -> & _).
  by destruct (b && _).
Qed.

(** X3. In every reachable state [cleanup(isLogout)] leaves the manager
    without socket, not connected, without heartbeat interval and without
    page listeners, and keeps the registry and the token.  The socket it
    held is disconnected, after ['userLogout'] was emitted on it exactly
    when [isLogout] holds and the manager was connected; no other socket
    changes. *)
Theorem cleanup_releases_connection (tr : list Op) (isLogout : bool) :
  let w := run tr init in
  let w' := cleanup isLogout w in
  socket (this w') = None
  ∧ isConnected (this w') = false
  ∧ heartbeatInterval (this w') = None ∧ intervals w' = []
  ∧ browserEventCleanup (this w') = false
  ∧ eventHandlers (this w') = eventHandlers (this w)
  ∧ token (this w') = token (this w)
  ∧ length (sockets w') = length (sockets w)
  ∧ (∀ sid s, socket (this w) = Some sid → sockets w !! sid = Some s →
       ∃ s', sockets w' !! sid = Some s' ∧ closed s' = true ∧ connected s' = false
             ∧ sent s' = sent s ++ (if isLogout && isConnected (this w)
                                    then [("userLogout", VUndef)] else []))
  ∧ ∀ i, socket (this w) ≠ Some i → sockets w' !! i = sockets w !! i.
Proof.
  intros w w'. assert (Inv w) as Hw by apply Inv_run, Inv_init.
  destruct (cleanup_manager isLogout w) as (Ht & Hb & Hc).
  destruct (cleanup_heartbeat isLogout w Hw) as [Hh Hi].
  repeat split; try done.
  - apply cleanup_socket.
  - apply cleanup_eventHandlers.
  - apply cleanup_length.
  - intros sid s Hsid Hs. subst w'. rewrite cleanup_sockets, Hsid.
    rewrite list_lookup_alter_eq.
    destruct (isLogout && isConnected (this w)).
    + rewrite list_lookup_alter_eq, Hs. simpl. eauto.
    + rewrite Hs. simpl. eexists. repeat split. by rewrite app_nil_r.
  - intros i Hi'. subst w'. rewrite cleanup_sockets.
    destruct (socket (this w)) as [sid|]; [|done].
    rewrite list_lookup_alter_ne by congruence.
    destruct (isLogout && isConnected (this w)); [|done].
    by rewrite list_lookup_alter_ne by congruence.
Qed.

(** *** The heartbeat *)

(** X4. In every reachable state the only armed interval is the one the
    manager remembers, so at most one heartbeat runs; [startHeartbeat]
    leaves exactly one, [stopHeartbeat] none, and the tick of an interval
    the manager no longer remembers does nothing. *)
Theorem heartbeat_single_interval (tr : list Op) :
  let w := run tr init in
  intervals w = option_list (heartbeatInterval (this w))
  ∧ length (intervals w) ≤ 1
  ∧ length (intervals (startHeartbeat w)) = 1
  ∧ intervals (stopHeartbeat w) = []
  ∧ ∀ i, step (OHeartbeatTick i) w
         = if decide (heartbeatInterval (this w) = Some i) then heartbeat_tick w else w.
Proof.
  intros w. assert (Inv w) as Hw by apply Inv_run, Inv_init.
  pose proof (inv_timers w Hw) as Hi.
  pose proof (inv_timers _ (Inv_startHeartbeat w Hw)) as Hs.
  destruct (stopHeartbeat_None w Hw) as [_ Hstop].
  repeat split; try done.
  - rewrite Hi. destruct (heartbeatInterval (this w)); simpl; lia.
  - by rewrite Hs.
  - intros i. simpl. rewrite Hi.
    destruct (heartbeatInterval (this w)) as [j|]; simpl.
    + destruct (decide (i ∈ [j])) as [Hin|Hin];
        destruct (decide (Some j = Some i)) as [Heq|Heq]; try done.
      * apply list_elem_of_singleton in Hin. congruence.
      * exfalso. apply Hin. injection Heq as ->. apply list_elem_of_here.
    + destruct (decide (i ∈ [])) as [Hin|Hin]; [by apply elem_of_nil in Hin|done].
Qed.

(** *** The page listeners *)

Lemma page_sockets f w : page (set_sockets f w) = page w.
Proof. done. Qed.

Lemma page_stopHeartbeat w : page (stopHeartbeat w) = page w.
Proof. unfold stopHeartbeat. by destruct (heartbeatInterval (this w)). Qed.

Lemma page_startHeartbeat w : page (startHeartbeat w) = page w.
Proof. unfold startHeartbeat, page. simpl. by injection (page_stopHeartbeat w) as -> -> ->. Qed.

Lemma page_foldl {A} (f : World → A → World) (l : list A) w :
  (∀ x w', page (f w' x) = page w') → page (foldl f w l) = page w.
Proof.
  intros Hf. revert w. induction l as [|x l IH]; intros w; [done|].
  simpl. by rewrite IH, Hf.
Qed.

Lemma page_socket_disconnect sid w : page (socket_disconnect sid w) = page w.
Proof.
  unfold socket_disconnect. destruct (sockets w !! sid) as [s|]; [|done].
  destruct (connected s); [|done].
  rewrite page_foldl; [done|]. intros l w'. destruct l; try done.
  simpl. unfold on_disconnect. by rewrite page_stopHeartbeat.
Qed.

Lemma PageInv_cleanup b w : PageInv w → page (cleanup b w) = (0, false, false).
Proof.
  intros Hw. unfold cleanup.
  set (w1 := removeBrowserEventListeners (stopHeartbeat w)).
  assert (browserListeners w1 = 0 ∧ browserEventCleanup (this w1) = false) as [Hl Hb].
  { subst w1. unfold removeBrowserEventListeners.
    pose proof (page_stopHeartbeat w) as Hp.
    destruct Hw as [Hw|[b' Hw]]; rewrite Hw in Hp; injection Hp as Hp1 Hp2 _;
      rewrite Hp2; simpl; by rewrite ?Hp1. }
  assert (∀ w2, browserListeners w2 = browserListeners w1 →
            browserEventCleanup (this w2) = browserEventCleanup (this w1) →
            socket (this w2) = None →
            page (set_this (set_isConnected false) w2) = (0, false, false)) as Hfin.
  { intros w2 Hp1 Hp2 Hs. unfold page. simpl. by rewrite Hp1, Hp2, Hs, Hl, Hb. }
  destruct (socket (this w1)) as [sid|] eqn:Es.
  - set (w' := if b && isConnected (this w1)
               then socket_emit sid "userLogout" VUndef w1 else w1).
    assert (page w' = page w1) as Hp' by (subst w'; by destruct (b && _)).
    pose proof (page_socket_disconnect sid w') as Hp. rewrite Hp' in Hp.
    injection Hp as Hp1 Hp2 _. by apply Hfin.
  - by apply Hfin.
Qed.

Lemma PageInv_connect w : PageInv w → page (connect w) = (0, false, true).
Proof.
  intros Hw. rewrite connect_spec. unfold torn_down.
  destruct (socket (this w)) as [sid|] eqn:Es.
  - pose proof (PageInv_cleanup false w Hw) as Hp. injection Hp as Hp1 Hp2 _.
    unfold page. simpl. by rewrite Hp1, Hp2.
  - destruct Hw as [Hw|[b' Hw]]; injection Hw as Hp1 Hp2 Hp3.
    + exfalso. rewrite Es in Hp3. by apply bool_decide_eq_true in Hp3.
    + unfold page. simpl. by rewrite Hp1, Hp2.
Qed.

Lemma PageInv_of_connect w : PageInv w → PageInv (connect w).
Proof. intros Hw. right. exists true. by apply PageInv_connect. Qed.

Lemma PageInv_page w w' : page w' = page w → PageInv w → PageInv w'.
Proof. unfold PageInv. by intros ->. Qed.

Lemma PageInv_initialize tok w : PageInv w → page (initialize tok w) = (1, true, true).
Proof.
  intros Hw. unfold initialize.
  pose proof (PageInv_connect (set_this (set_token tok) w) (PageInv_page _ _ eq_refl Hw)) as Hp.
  revert Hp. generalize (connect (set_this (set_token tok) w)). intros w' Hp.
  injection Hp as Hp1 Hp2 Hp3. unfold page. simpl. by rewrite Hp1, Hp3.
Qed.

Lemma PageInv_foldl {A} (f : World → A → World) (l : list A) w :
  (∀ x w', PageInv w' → PageInv (f w' x)) → PageInv w → PageInv (foldl f w l).
Proof.
  intros Hf. revert w. induction l as [|x l IH]; intros w Hw; [done|].
  simpl. by apply IH, Hf.
Qed.

Lemma PageInv_iter (f : World → World) n w :
  (∀ w', PageInv w' → PageInv (f w')) → PageInv w → PageInv (Nat.iter n f w).
Proof. intros Hf Hw. induction n as [|n IH]; [done|]. simpl. by apply Hf. Qed.

Lemma PageInv_on_connect_error w : PageInv w → PageInv (on_connect_error w).
Proof.
  intros Hw. unfold on_connect_error.
  destruct (_ && _); [|done]. by apply PageInv_of_connect.
Qed.

Lemma PageInv_fire sid e d w : PageInv w → PageInv (fire sid e d w).
Proof.
  intros Hw. unfold fire. destruct (sockets w !! sid) as [s|]; [|done].
  apply PageInv_foldl; [|done]. intros l w' Hw'. destruct l; simpl; try done.
  - unfold on_connect. apply (PageInv_page w'); [|done].
    by rewrite page_startHeartbeat.
  - unfold on_disconnect. apply (PageInv_page w'); [|done].
    by rewrite page_stopHeartbeat.
  - by apply PageInv_on_connect_error.
Qed.

Lemma PageInv_step o w : PageInv w → PageInv (step o w).
Proof.
  intros Hw. destruct o; simpl.
  - left. by apply PageInv_initialize.
  - by apply PageInv_of_connect.
  - apply (PageInv_page w); [|done]. unfold on.
    set (w1 := set_this _ w). change (page w) with (page w1).
    by destruct (socket (this w1)).
  - apply (PageInv_page w); [|done]. unfold off. destruct h as [h|].
    + set (w1 := set_this _ w). change (page w) with (page w1).
      by destruct (socket (this w1)).
    + set (w1 := set_this _ w). change (page w) with (page w1).
      by destruct (socket (this w1)).
  - apply (PageInv_page w); [|done]. unfold emit.
    destruct (socket (this w)); [|done]. by destruct (isConnected (this w)).
  - right. exists false. by apply PageInv_cleanup.
  - right. exists false. by apply PageInv_cleanup.
  - apply (PageInv_page w); [|done]. apply page_startHeartbeat.
  - apply (PageInv_page w); [|done]. apply page_stopHeartbeat.
  - case_decide; [|done]. apply (PageInv_page w); [|done]. unfold heartbeat_tick.
    destruct (socket (this w)); [|done]. by destruct (isConnected (this w)).
  - apply PageInv_iter; [|done]. intros w' Hw'. unfold handleBeforeUnload.
    destruct (socket (this w')) as [sid|]; [|done].
    destruct (isConnected (this w')); [|done].
    apply (PageInv_page w'); [|done]. by rewrite page_socket_disconnect.
  - apply PageInv_iter; [|done]. intros w' Hw'. unfold handleVisibilityChange.
    destruct hidden; [done|]. destruct (_ && _); [|done]. by apply PageInv_of_connect.
  - unfold transport_connect. destruct (sockets w !! sid) as [s|]; [|done].
    destruct (_ || _); [done|]. by apply PageInv_fire.
  - unfold transport_disconnect. destruct (sockets w !! sid) as [s|]; [|done].
    destruct (_ || _); [done|]. by apply PageInv_fire.
  - unfold transport_connect_error. destruct (sockets w !! sid) as [s|]; [|done].
    destruct (_ || _); [done|]. by apply PageInv_fire.
  - unfold transport_event. destruct (sockets w !! sid) as [s|]; [|done].
    destruct (_ || _); [done|]. by apply PageInv_fire.
Qed.

Lemma PageInv_run tr w : PageInv w → PageInv (run tr w).
Proof.
  revert w. induction tr as [|o tr IH]; intros w Hw; [done|].
  simpl. by apply IH, PageInv_step.
Qed.

Lemma page_fields w n b c :
  page w = (n, b, c) →
  browserListeners w = n ∧ browserEventCleanup (this w) = b
  ∧ (c = true → socket (this w) ≠ None).
Proof.
  intros [= <- <- <-]. repeat split. intros Hc. by apply bool_decide_eq_true in Hc.
Qed.

(** X5. In every reachable state at most one pair of window and document
    listeners is installed, exactly when the manager remembers how to
    remove it, and then the manager holds a socket.  [initialize] leaves
    one pair installed; [connect] and [cleanup] leave none: a reconnect
    takes the page listeners away and does not install them again. *)
Theorem page_listeners_installed_by_initialize_only (tr : list Op) (tok : Val) :
  let w := run tr init in
  browserListeners w ≤ 1
  ∧ (browserListeners w = 1 ↔ browserEventCleanup (this w) = true)
  ∧ (browserEventCleanup (this w) = true → socket (this w) ≠ None)
  ∧ browserListeners (initialize tok w) = 1
  ∧ browserListeners (connect w) = 0
  ∧ ∀ b, browserListeners (cleanup b w) = 0.
Proof.
  intros w. assert (PageInv w) as Hw.
  { apply PageInv_run. right. by exists false. }
  destruct (page_fields _ _ _ _ (PageInv_initialize tok w Hw)) as (Hi & _ & _).
  destruct (page_fields _ _ _ _ (PageInv_connect w Hw)) as (Hc & _ & _).
  assert (∀ b, browserListeners (cleanup b w) = 0) as Hcl.
  { intros b. by destruct (page_fields _ _ _ _ (PageInv_cleanup b w Hw)) as (Hp & _ & _). }
  revert Hw Hi Hc Hcl. generalize w. clear w. intros w Hw Hi Hc Hcl.
  destruct Hw as [Hw|[b Hw]]; destruct (page_fields _ _ _ _ Hw) as (H1 & H2 & H3).
  - rewrite H1, H2. repeat split; try done.
  - rewrite H1, H2. repeat split; try done. lia.
Qed.

(** *** The connection flag *)

Lemma Flag_view w w' :
  isConnected (this w') = isConnected (this w) →
  socket (this w') = socket (this w) →
  sockets w' = sockets w →
  Flag w → Flag w'.
Proof. intros H1 H2 H3 [Hp Hg Ht]. split; rewrite ?H1, ?H2, ?H3; done. Qed.

Lemma Flag_alter f sid w :
  (∀ s, forallb paired (callbacks s) = true → forallb paired (callbacks (f s)) = true) →
  (∀ s, LDisconnect ∈ listeners_for "disconnect" (callbacks s) →
        LDisconnect ∈ listeners_for "disconnect" (callbacks (f s))) →
  (∀ s, usable s = true → usable (f s) = true) →
  Flag w → Flag (set_sockets (alter f sid) w).
Proof.
  intros Hfp Hfg Hfu [Hp Hg Ht]. split; simpl.
  - intros i s. destruct (decide (i = sid)) as [->|Hne].
    + rewrite list_lookup_alter_eq. destruct (sockets w !! sid) as [s0|] eqn:E; [|done].
      intros [= <-]. by apply Hfp, (Hp sid).
    + rewrite list_lookup_alter_ne by done. apply Hp.
  - intros i s Hi. destruct (decide (i = sid)) as [->|Hne].
    + rewrite list_lookup_alter_eq. destruct (sockets w !! sid) as [s0|] eqn:E; [|done].
      intros [= <-]. by apply Hfg, (Hg sid).
    + rewrite list_lookup_alter_ne by done. by apply Hg.
  - intros Hc. destruct (Ht Hc) as (i & s & Hi & Hs & Hu). exists i.
    destruct (decide (i = sid)) as [->|Hne].
    + exists (f s). rewrite list_lookup_alter_eq, Hs. repeat split; [done|]. by apply Hfu.
    + exists s. by rewrite list_lookup_alter_ne.
Qed.

Lemma Flag_socket_emit sid e d w : Flag w → Flag (socket_emit sid e d w).
Proof. apply Flag_alter; by intros []. Qed.

Lemma Flag_socket_on sid e h w : Flag w → Flag (socket_on sid e (LUser h) w).
Proof.
  apply Flag_alter; intros s; simpl.
  - intros Hs. by rewrite forallb_app, Hs.
  - rewrite listeners_for_app. intros Hs. apply elem_of_app. by left.
  - done.
Qed.

Lemma forallb_remove_first {A} `{EqDecision A} (p : A → bool) x l :
  forallb p l = true → forallb p (remove_first x l) = true.
Proof.
  induction l as [|y l IH]; simpl; [done|].
  intros [Hy Hl]%andb_true_iff. case_decide; [done|]. simpl. by rewrite Hy, IH.
Qed.

Lemma elem_of_remove_first {A} `{EqDecision A} (x y : A) l :
  x ≠ y → y ∈ l → y ∈ remove_first x l.
Proof.
  intros Hne. induction l as [|z l IH]; simpl; [done|].
  intros [->|Hy]%elem_of_cons.
  - rewrite decide_False by done. apply list_elem_of_here.
  - case_decide; [done|]. apply elem_of_cons. right. by apply IH.
Qed.

Lemma forallb_filter {A} (p : A → bool) (P : A → Prop) `{!∀ x, Decision (P x)} l :
  forallb p l = true → forallb p (filter P l) = true.
Proof.
  induction l as [|y l IH]; simpl; [done|].
  intros [Hy Hl]%andb_true_iff. destruct (decide (P y)).
  - rewrite filter_cons_True by done. simpl. by rewrite Hy, IH.
  - rewrite filter_cons_False by done. by apply IH.
Qed.

Lemma Flag_socket_off sid e h w :
  (h = None → e ≠ "disconnect") → Flag w → Flag (socket_off sid e (LUser <$> h) w).
Proof.
  intros He. apply Flag_alter; intros s; simpl.
  - destruct h; simpl; [apply forallb_remove_first|apply forallb_filter].
  - destruct h as [h|]; simpl.
    + rewrite listeners_for_remove_first. case_decide; [|done].
      by apply elem_of_remove_first.
    + unfold listeners_for. intros Hs.
      apply list_elem_of_fmap in Hs as ([e0 l0] & Hl & Hin). simpl in Hl. subst l0.
      apply list_elem_of_filter in Hin as [He0 Hin]. simpl in He0. subst e0.
      apply list_elem_of_fmap. exists ("disconnect", LDisconnect). split; [done|].
      apply list_elem_of_filter. split; [done|].
      apply list_elem_of_filter. split; [|done]. simpl. intros <-. by apply He.
  - done.
Qed.

Lemma Flag_this f w :
  isConnected (f (this w)) = isConnected (this w) →
  socket (f (this w)) = socket (this w) →
  Flag w → Flag (set_this f w).
Proof. intros H1 H2. by apply Flag_view. Qed.

Lemma view_stopHeartbeat w :
  isConnected (this (stopHeartbeat w)) = isConnected (this w)
  ∧ socket (this (stopHeartbeat w)) = socket (this w)
  ∧ sockets (stopHeartbeat w) = sockets w.
Proof. unfold stopHeartbeat. by destruct (heartbeatInterval (this w)). Qed.

Lemma Flag_stopHeartbeat w : Flag w → Flag (stopHeartbeat w).
Proof. destruct (view_stopHeartbeat w) as (?&?&?). by apply Flag_view. Qed.

Lemma Flag_startHeartbeat w : Flag w → Flag (startHeartbeat w).
Proof.
  destruct (view_stopHeartbeat w) as (?&?&?). unfold startHeartbeat.
  by apply Flag_view.
Qed.

(** Clearing the flag is always sound. *)
Lemma Flag_clear w :
  (∀ i s, sockets w !! i = Some s → forallb paired (callbacks s) = true) →
  (∀ i s, socket (this w) = Some i → sockets w !! i = Some s →
     LDisconnect ∈ listeners_for "disconnect" (callbacks s)) →
  isConnected (this w) = false → Flag w.
Proof. intros Hp Hg Hc. split; [done|done|]. by rewrite Hc. Qed.

Lemma Flag_on_disconnect_false w : isConnected (this (on_disconnect w)) = false.
Proof.
  unfold on_disconnect.
  by destruct (view_stopHeartbeat (set_this (set_isConnected false) w)) as (-> & _ & _).
Qed.

Lemma Flag_on_disconnect w : Flag w → Flag (on_disconnect w).
Proof.
  intros [Hp Hg Ht].
  apply Flag_clear; [| |apply Flag_on_disconnect_false]; unfold on_disconnect;
    destruct (view_stopHeartbeat (set_this (set_isConnected false) w)) as (H1 & H2 & H3);
    rewrite ?H2, ?H3; done.
Qed.

Lemma run_disconnect_listener_false sid l w :
  isConnected (this w) = false →
  isConnected (this (run_disconnect_listener sid l w)) = false.
Proof.
  intros Hc. destruct l; try done. simpl.
  by destruct (Flag_on_disconnect_false w).
Qed.

Lemma disconnect_listeners_false sid ls w :
  isConnected (this w) = false →
  isConnected (this (foldl (λ acc l, run_disconnect_listener sid l acc) w ls)) = false.
Proof.
  revert w. induction ls as [|l ls IH]; intros w Hc; [done|].
  simpl. by apply IH, run_disconnect_listener_false.
Qed.

Lemma disconnect_listeners_clear sid ls w :
  LDisconnect ∈ ls →
  isConnected (this (foldl (λ acc l, run_disconnect_listener sid l acc) w ls)) = false.
Proof.
  revert w. induction ls as [|l ls IH]; intros w Hin; [by apply elem_of_nil in Hin|].
  apply elem_of_cons in Hin as [<-|Hin]; simpl.
  - apply disconnect_listeners_false. by destruct (Flag_on_disconnect_false w).
  - by apply IH.
Qed.

Lemma disconnect_listeners_frame sid ls w :
  sockets (foldl (λ acc l, run_disconnect_listener sid l acc) w ls) = sockets w
  ∧ socket (this (foldl (λ acc l, run_disconnect_listener sid l acc) w ls))
    = socket (this w).
Proof.
  revert w. induction ls as [|l ls IH]; intros w; [done|].
  simpl. destruct (IH (run_disconnect_listener sid l w)) as [-> ->].
  apply run_disconnect_listener_frame.
Qed.

Lemma paired_alter (f : Socket → Socket) sid (socks : list Socket) :
  (∀ s, callbacks (f s) = callbacks s) →
  (∀ i s, socks !! i = Some s → forallb paired (callbacks s) = true) →
  ∀ i s, alter f sid socks !! i = Some s → forallb paired (callbacks s) = true.
Proof.
  intros Hf Hp i s. destruct (decide (i = sid)) as [->|Hne].
  - rewrite list_lookup_alter_eq. destruct (socks !! sid) as [s0|] eqn:E; [|done].
    intros [= <-]. rewrite Hf. by apply (Hp sid).
  - rewrite list_lookup_alter_ne by done. apply Hp.
Qed.

Lemma guard_alter (f : Socket → Socket) sid (socks : list Socket) sk :
  (∀ s, callbacks (f s) = callbacks s) →
  (∀ i s, sk = Some i → socks !! i = Some s →
     LDisconnect ∈ listeners_for "disconnect" (callbacks s)) →
  ∀ i s, sk = Some i → alter f sid socks !! i = Some s →
    LDisconnect ∈ listeners_for "disconnect" (callbacks s).
Proof.
  intros Hf Hg i s Hi. destruct (decide (i = sid)) as [->|Hne].
  - rewrite list_lookup_alter_eq. destruct (socks !! sid) as [s0|] eqn:E; [|done].
    intros [= <-]. rewrite Hf. by apply (Hg sid).
  - rewrite list_lookup_alter_ne by done. by apply Hg.
Qed.

(** [socket.disconnect()] on the socket the manager holds clears the
    flag: a connected socket runs the ['disconnect'] listener, and the
    flag of a manager whose socket is not connected is clear already. *)
Lemma Flag_socket_disconnect sid w :
  Flag w → socket (this w) = Some sid →
  Flag (socket_disconnect sid w) ∧ isConnected (this (socket_disconnect sid w)) = false.
Proof.
  intros [Hp Hg Ht] Hsid.
  destruct (socket_disconnect_frame sid w) as [Hs Hk].
  assert (isConnected (this (socket_disconnect sid w)) = false) as Hc.
  { unfold socket_disconnect. destruct (sockets w !! sid) as [s|] eqn:Es.
    - destruct (connected s) eqn:Ec.
      + apply disconnect_listeners_clear. by apply (Hg sid).
      + simpl. destruct (isConnected (this w)) eqn:Ei; [|done].
        destruct (Ht eq_refl) as (i & s' & Hi & Hs' & Hu). simplify_eq.
        unfold usable in Hu. by rewrite Ec in Hu.
    - destruct (isConnected (this w)) eqn:Ei; [|done].
      destruct (Ht eq_refl) as (i & s' & Hi & Hs' & Hu). simplify_eq. }
  split; [|done]. apply Flag_clear; [| |done].
  - rewrite Hs. by apply paired_alter.
  - rewrite Hs, Hk. by apply guard_alter.
Qed.

Lemma Flag_cleanup b w : Flag w → Flag (cleanup b w).
Proof.
  intros [Hp Hg Ht].
  destruct (cleanup_manager b w) as (_ & _ & Hc).
  apply Flag_clear; [| |done].
  - rewrite cleanup_sockets. destruct (socket (this w)) as [sid|]; [|done].
    apply paired_alter; [done|]. destruct (b && _); [|done]. by apply paired_alter.
  - intros i s. by rewrite cleanup_socket.
Qed.

Lemma paired_registry m : forallb paired (registry_listeners m) = true.
Proof.
  unfold registry_listeners. induction m as [|[e hs] m IH]; [done|].
  rewrite bind_cons, forallb_app, IH, andb_true_r. unfold set_listeners. simpl.
  by induction hs.
Qed.

Lemma paired_initial m : forallb paired (initial_listeners m) = true.
Proof.
  unfold initial_listeners. by rewrite !forallb_app, paired_registry.
Qed.

Lemma Flag_connect w : Flag w → Flag (connect w).
Proof.
  intros Hw. rewrite connect_spec.
  assert (Flag (torn_down w) ∧ isConnected (this (torn_down w)) = false) as [[Hp Hg Ht] Hc].
  { unfold torn_down. destruct (socket (this w)) as [sid|] eqn:Es.
    - split; [by apply Flag_cleanup|]. by destruct (cleanup_manager false w) as (_ & _ & ->).
    - split; [done|]. destruct (isConnected (this w)) eqn:Ei; [|done].
      destruct (flag_true w Hw Ei) as (i & s' & Hi & _). congruence. }
  apply Flag_clear; simpl; [| |done].
  - intros i s Hi. apply lookup_app_Some in Hi as [Hi|[_ Hi]]; [by apply (Hp i)|].
    destruct (i - _); [|done]. injection Hi as <-. apply paired_initial.
  - intros i s [= <-]. rewrite lookup_app_r, Nat.sub_diag by done.
    intros [= <-]. unfold fresh_socket, initial_listeners. simpl.
    rewrite (listeners_for_cons "disconnect" "connect"), decide_False by done.
    rewrite (listeners_for_cons "disconnect" "disconnect"), decide_True by done.
    apply list_elem_of_here.
Qed.

Lemma Flag_on e h w : Flag w → Flag (on e h w).
Proof.
  intros Hw. unfold on. set (w1 := set_this _ w).
  assert (Flag w1) as Hw1 by by apply Flag_this.
  destruct (socket (this w1)); [by apply Flag_socket_on|done].
Qed.

Lemma Flag_off e h w : keeps_guard (OOff e h) = true → Flag w → Flag (off e h w).
Proof.
  intros Hk Hw. unfold off. destruct h as [h|].
  - set (w1 := set_this _ w).
    assert (Flag w1) as Hw1 by by apply Flag_this.
    destruct (socket (this w1)); [|done].
    by apply (Flag_socket_off _ _ (Some h)).
  - set (w1 := set_this _ w).
    assert (Flag w1) as Hw1 by by apply Flag_this.
    destruct (socket (this w1)); [|done].
    apply (Flag_socket_off _ _ None); [|done]. intros _ ->. done.
Qed.

Lemma Flag_emit e d w : Flag w → Flag (emit e d w).
Proof.
  intros Hw. unfold emit. destruct (socket (this w)); [|by apply (Flag_view w)].
  destruct (isConnected (this w)); [by apply Flag_socket_emit|by apply (Flag_view w)].
Qed.

Lemma Flag_on_connect_error w : Flag w → Flag (on_connect_error w).
Proof.
  intros Hw. unfold on_connect_error.
  destruct (_ && _); [|by apply Flag_this].
  apply Flag_connect. by apply (Flag_view w).
Qed.

Lemma Flag_on_connect sid w :
  Flag w → holds_usable sid w → Flag (on_connect w) ∧ holds_usable sid (on_connect w).
Proof.
  intros [Hp Hg Ht] [Hsid (s & Hs & Hu)]. unfold on_connect.
  set (w1 := set_this _ w).
  destruct (view_stopHeartbeat w1) as (H1 & H2 & H3).
  assert (Flag w1) as Hw1.
  { split; [done|done|]. intros _. by exists sid, s. }
  split; [by apply Flag_startHeartbeat|].
  unfold holds_usable, startHeartbeat. simpl. rewrite H2, H3. split; [done|by exists s].
Qed.

(** A listener under any event but ['connect'] keeps the invariant. *)
Lemma Flag_run_listener sid e d l w :
  paired (e, l) = true → e ≠ "connect" → Flag w → Flag (run_listener sid e d l w).
Proof.
  intros Hl He Hw. destruct l; simpl in *.
  - by apply String.eqb_eq in Hl.
  - by apply Flag_on_disconnect.
  - by apply Flag_on_connect_error.
  - done.
  - done.
  - by apply (Flag_view w).
Qed.

Lemma listeners_for_paired e cbs l :
  forallb paired cbs = true → l ∈ listeners_for e cbs → paired (e, l) = true.
Proof.
  intros Hp Hl. unfold listeners_for in Hl.
  apply list_elem_of_fmap in Hl as ([e0 l0] & Hl & Hin). simpl in Hl. subst l0.
  apply list_elem_of_filter in Hin as [He0 Hin]. simpl in He0. subst e0.
  rewrite forallb_forall in Hp. apply Hp. by apply list_elem_of_In.
Qed.

Lemma Flag_fire sid e d w : e ≠ "connect" → Flag w → Flag (fire sid e d w).
Proof.
  intros He Hw. unfold fire. destruct (sockets w !! sid) as [s|] eqn:Es; [|done].
  pose proof (flag_pairs w Hw sid s Es) as Hp.
  assert (∀ l, l ∈ listeners_for e (callbacks s) → paired (e, l) = true) as Hl.
  { intros l. by apply listeners_for_paired. }
  revert Hl Hw. generalize (listeners_for e (callbacks s)). clear Es Hp.
  revert w. intros w ls. revert w. induction ls as [|l ls IH]; intros w Hl Hw; [done|].
  simpl. apply IH.
  - intros l' Hl'. apply Hl. by right.
  - apply Flag_run_listener; [|done|done]. apply Hl. by left.
Qed.

(** The listeners of ['connect'] run on a usable socket that the manager
    holds. *)
Lemma Flag_fire_connect sid d w :
  Flag w → holds_usable sid w → Flag (fire sid "connect" d w).
Proof.
  intros Hw Hu. unfold fire. destruct (sockets w !! sid) as [s|] eqn:Es; [|done].
  pose proof (flag_pairs w Hw sid s Es) as Hp.
  assert (∀ l, l ∈ listeners_for "connect" (callbacks s) → paired ("connect", l) = true)
    as Hl.
  { intros l. by apply listeners_for_paired. }
  revert Hl Hw Hu. generalize (listeners_for "connect" (callbacks s)). clear Es Hp.
  revert w. intros w ls. revert w. induction ls as [|l ls IH]; intros w Hl Hw Hu; [done|].
  simpl. assert (paired ("connect", l) = true) as Hpl by (apply Hl; by left).
  assert (Flag (run_listener sid "connect" d l w)
          ∧ holds_usable sid (run_listener sid "connect" d l w)) as [Hw' Hu'].
  { destruct l; simpl in *; try done.
    - by apply Flag_on_connect.
    - split; [by apply (Flag_view w)|done]. }
  apply IH; [|done|done]. intros l' Hl'. apply Hl. by right.
Qed.

(** The listeners of ['disconnect'] clear the flag whatever it was. *)
Lemma disconnect_fire_frame sid d ls w :
  (∀ l, l ∈ ls → paired ("disconnect", l) = true) →
  let w' := foldl (λ acc l, run_listener sid "disconnect" d l acc) w ls in
  sockets w' = sockets w ∧ socket (this w') = socket (this w)
  ∧ (isConnected (this w) = false ∨ LDisconnect ∈ ls → isConnected (this w') = false).
Proof.
  revert w. induction ls as [|l ls IH]; intros w Hl; simpl.
  - repeat split. intros [Hc|Hin]; [done|by apply elem_of_nil in Hin].
  - assert (paired ("disconnect", l) = true) as Hpl by (apply Hl; by left).
    destruct (IH (run_listener sid "disconnect" d l w)) as (-> & -> & Hc).
    { intros l' Hl'. apply Hl. by right. }
    destruct l; simpl in *; try done.
    + destruct (view_stopHeartbeat (set_this (set_isConnected false) w)) as (H1 & H2 & H3).
      unfold on_disconnect. rewrite H2, H3. repeat split.
      intros _. apply Hc. left. apply Flag_on_disconnect_false.
    + repeat split. intros [Hf|Hin]; apply Hc; [by left|].
      apply elem_of_cons in Hin as [|Hin]; [done|by right].
Qed.

Lemma Flag_setupBrowserEventListeners w : Flag w → Flag (setupBrowserEventListeners w).
Proof. by apply Flag_view. Qed.

Lemma Flag_iter (f : World → World) n w :
  (∀ w', Flag w' → Flag (f w')) → Flag w → Flag (Nat.iter n f w).
Proof. intros Hf Hw. induction n as [|n IH]; [done|]. simpl. by apply Hf. Qed.

Lemma Flag_step o w : keeps_guard o = true → Inv w → Flag w → Flag (step o w).
Proof.
  intros Hk Hi Hw. destruct o; simpl.
  - unfold initialize. apply Flag_setupBrowserEventListeners, Flag_connect.
    by apply (Flag_view w).
  - by apply Flag_connect.
  - by apply Flag_on.
  - by apply Flag_off.
  - by apply Flag_emit.
  - by apply Flag_cleanup.
  - by apply Flag_cleanup.
  - by apply Flag_startHeartbeat.
  - by apply Flag_stopHeartbeat.
  - case_decide; [|done]. unfold heartbeat_tick.
    destruct (socket (this w)); [|done].
    destruct (isConnected (this w)); [by apply Flag_socket_emit|done].
  - apply Flag_iter; [|done].
    intros w' Hw'. unfold handleBeforeUnload.
    destruct (socket (this w')) as [sid|] eqn:Es; [|done].
    destruct (isConnected (this w')); [|done].
    apply Flag_socket_disconnect; [by apply Flag_socket_emit|done].
  - apply Flag_iter; [|done].
    intros w' Hw'. unfold handleVisibilityChange.
    destruct hidden; [done|]. destruct (_ && _); [by apply Flag_connect|done].
  - unfold transport_connect. destruct (sockets w !! sid) as [s|] eqn:Es; [|done].
    destruct (closed s) eqn:Ec; [done|]. destruct (connected s) eqn:En; [done|]. simpl.
    apply Flag_fire_connect.
    + apply Flag_alter; try done. unfold usable. simpl. by intros s' [_ ->]%andb_true_iff.
    + split; [by apply (inv_live w Hi sid s)|]. simpl.
      exists (sk_set_connected true s). rewrite list_lookup_alter_eq, Es.
      split; [done|]. unfold usable. simpl. by rewrite Ec.
  - unfold transport_disconnect. destruct (sockets w !! sid) as [s|] eqn:Es; [|done].
    destruct (closed s) eqn:Ec; [done|]. destruct (connected s) eqn:En; [|done]. simpl.
    pose proof (inv_live w Hi sid s Es Ec) as Hsid.
    destruct Hw as [Hp Hg Ht].
    set (w1 := set_sockets (alter (sk_set_connected false) sid) w).
    unfold fire.
    assert (sockets w1 !! sid = Some (sk_set_connected false s)) as ->.
    { subst w1. simpl. by rewrite list_lookup_alter_eq, Es. }
    simpl.
    destruct (disconnect_fire_frame sid reason (listeners_for "disconnect" (callbacks s)) w1)
      as (Hs & Hk' & Hc).
    { intros l. apply listeners_for_paired. by apply (Hp sid). }
    apply Flag_clear.
    + rewrite Hs. subst w1. simpl. by apply paired_alter.
    + rewrite Hs, Hk'. subst w1. simpl. by apply guard_alter.
    + apply Hc. right. by apply (Hg sid).
  - unfold transport_connect_error. destruct (sockets w !! sid) as [s|] eqn:Es; [|done].
    destruct (_ || _); [done|]. by apply Flag_fire.
  - unfold transport_event. destruct (sockets w !! sid) as [s|] eqn:Es; [|done].
    destruct (closed s) eqn:Ec; [done|]. destruct (connected s) eqn:En; [|done]. simpl.
    destruct (decide (e = "connect")) as [->|He]; [|by apply Flag_fire].
    apply Flag_fire_connect; [done|].
    split; [by apply (inv_live w Hi sid s)|].
    exists s. split; [done|]. unfold usable. by rewrite En, Ec.
Qed.

Lemma Flag_init : Flag init.
Proof. split; [by intros [] ?|done|done]. Qed.

Lemma Flag_run tr w :
  forallb keeps_guard tr = true → Inv w → Flag w → Flag (run tr w).
Proof.
  revert w. induction tr as [|o tr IH]; intros w Hk Hi Hw; [done|].
  simpl in Hk. apply andb_true_iff in Hk as [Ho Hk].
  simpl. apply IH; [done|by apply Inv_step|by apply Flag_step].
Qed.

(** X6. Along every sequence of operations that never calls
    [off('disconnect')] without a handler, a set [isConnected] flag means
    that the manager holds a socket that is connected and was not
    disconnected by the client; so [emit] either only warns or sends on
    such a socket. *)
Theorem isConnected_means_usable_socket (tr : list Op) (e : string) (d : Val) :
  forallb keeps_guard tr = true →
  let w := run tr init in
  (isConnected (this w) = true →
     ∃ sid s, socket (this w) = Some sid ∧ sockets w !! sid = Some s
              ∧ connected s = true ∧ closed s = false)
  ∧ (emit e d w = warn w
     ∨ ∃ sid s, socket (this w) = Some sid ∧ sockets w !! sid = Some s
                ∧ connected s = true ∧ closed s = false
                ∧ emit e d w = set_sockets (λ l, <[sid := sk_send e d s]> l) w).
Proof.
  intros Hk w.
  assert (Flag w) as Hw by (apply Flag_run; [done|apply Inv_init|apply Flag_init]).
  assert (isConnected (this w) = true →
          ∃ sid s, socket (this w) = Some sid ∧ sockets w !! sid = Some s
                   ∧ connected s = true ∧ closed s = false) as Ht.
  { intros Hc. destruct (flag_true w Hw Hc) as (i & s & Hi & Hs & Hu).
    exists i, s. unfold usable in Hu. apply andb_true_iff in Hu as [Hu1 Hu2].
    apply negb_true_iff in Hu2. done. }
  split; [done|]. clear Hw. revert Ht. generalize w. clear. intros w Ht.
  unfold emit. destruct (isConnected (this w)) eqn:Ec.
  - destruct (Ht eq_refl) as (sid & s & Hsid & Hs & Hcn & Hcl). right.
    exists sid, s. rewrite Hsid. repeat split; try done.
    unfold socket_emit. apply set_sockets_ext.
    apply list_eq. intros i. destruct (decide (i = sid)) as [->|Hne].
    + rewrite list_lookup_alter_eq, Hs. simpl.
      by rewrite list_lookup_insert_eq by by eapply lookup_lt_Some.
    + by rewrite list_lookup_alter_ne, list_lookup_insert_ne.
  - left. by destruct (socket (this w)).
Qed.

Lemma isConnected_means_usable_socket_witness :
  ∃ sid s, socket (this (run connected_once init)) = Some sid
           ∧ sockets (run connected_once init) !! sid = Some s
           ∧ connected s = true ∧ closed s = false.
Proof.
  destruct (isConnected_means_usable_socket connected_once "ping" VUndef eq_refl) as [H _].
  apply H. vm_compute. reflexivity.
Defined.

(** *** The registry across reconnects *)

Lemma map_put_keys e v m :
  (map_put e v m).*1 = if decide (e ∈ m.*1) then m.*1 else m.*1 ++ [e].
Proof.
  induction m as [|[e' hs] m IH].
  - destruct (decide (e ∈ ([] : list (string * list nat)).*1)) as [Hin|Hin]; [|done].
    by apply elem_of_nil in Hin.
  - cbn [map_put]. destruct (decide (e = e')) as [->|Hne].
    + rewrite !fmap_cons. cbn [fst]. destruct (decide (e' ∈ e' :: m.*1)) as [Hin|Hin]; [done|].
      exfalso. apply Hin. by left.
    + rewrite !fmap_cons, IH. cbn [fst].
      destruct (decide (e ∈ m.*1)) as [Hin|Hin];
        destruct (decide (e ∈ e' :: m.*1)) as [Hin'|Hin']; try done.
      * exfalso. apply Hin'. by right.
      * exfalso. apply elem_of_cons in Hin' as [?|?]; done.
Qed.

Lemma map_put_elem e v m e' hs :
  (e', hs) ∈ map_put e v m → (e', hs) = (e, v) ∨ (e', hs) ∈ m.
Proof.
  induction m as [|[e0 hs0] m IH]; simpl.
  - intros ->%list_elem_of_singleton. by left.
  - destruct (decide (e = e0)) as [->|Hne].
    + intros [->|Hin]%elem_of_cons; [by left|]. right. by right.
    + intros [->|Hin]%elem_of_cons; [right; by left|].
      destruct (IH Hin) as [?|?]; [by left|]. right. by right.
Qed.

Lemma registry_get_elem e hs m : map_get e m = Some hs → (e, hs) ∈ m.
Proof.
  induction m as [|[e0 hs0] m IH]; simpl; [done|].
  destruct (decide (e = e0)) as [->|Hne].
  - intros [= ->]. by left.
  - intros Hm. right. by apply IH.
Qed.

Lemma RegistryOk_put e v m : NoDup v → RegistryOk m → RegistryOk (map_put e v m).
Proof.
  intros Hv [Hk Hs]. split.
  - rewrite map_put_keys. case_decide as Hin; [done|].
    apply NoDup_app. split; [done|]. split; [|apply NoDup_singleton].
    intros x Hx ->%list_elem_of_singleton. done.
  - intros e' hs [[= -> ->]|Hin]%map_put_elem; [done|]. by apply (Hs e').
Qed.

Lemma RegistryOk_delete e m : RegistryOk m → RegistryOk (map_delete e m).
Proof.
  intros [Hk Hs]. unfold map_delete. split.
  - clear Hs. induction m as [|[e' hs] m IH]; [done|].
    apply NoDup_cons in Hk as [Hk1 Hk2].
    destruct (decide (e' = e)) as [->|Hne].
    + rewrite filter_cons_False by (simpl; intros Hq; by apply Hq). by apply IH.
    + rewrite filter_cons_True by done. simpl. apply NoDup_cons. split; [|by apply IH].
      intros Hin. apply Hk1. apply list_elem_of_fmap in Hin as ([e0 hs0] & -> & Hin).
      apply list_elem_of_filter in Hin as [_ Hin].
      apply list_elem_of_fmap. by exists (e0, hs0).
  - intros e' hs [_ Hin]%list_elem_of_filter. by apply (Hs e').
Qed.

Lemma NoDup_set_add h hs : NoDup hs → NoDup (set_add h hs).
Proof.
  intros Hhs. unfold set_add. case_decide as Hin; [done|].
  apply NoDup_app. split; [done|]. split; [|apply NoDup_singleton].
  intros x Hx ->%list_elem_of_singleton. done.
Qed.

Lemma RegistryOk_get e hs m : RegistryOk m → map_get e m = Some hs → NoDup hs.
Proof. intros [_ Hs] Hm. apply (Hs e). by apply registry_get_elem. Qed.

(** *** Operations that keep the registry *)

Lemma on_eventHandlers e h w :
  eventHandlers (this (on e h w))
  = let m := eventHandlers (this w) in
    let m1 := match map_get e m with Some _ => m | None => map_put e [] m end in
    map_put e (set_add h (default [] (map_get e m1))) m1.
Proof. unfold on. set (w1 := set_this _ w). by destruct (socket (this w1)). Qed.

Lemma off_eventHandlers e h w :
  eventHandlers (this (off e h w))
  = let m := eventHandlers (this w) in
    match h with
    | Some h =>
        match map_get e m with
        | Some hs => if decide (length (filter (λ x, x ≠ h) hs) = 0)
                     then map_delete e m else map_put e (filter (λ x, x ≠ h) hs) m
        | None => m
        end
    | None => match map_get e m with Some _ => map_delete e m | None => m end
    end.
Proof.
  unfold off. destruct h as [h|].
  - set (w1 := set_this _ w). by destruct (socket (this w1)).
  - set (w1 := set_this _ w). by destruct (socket (this w1)).
Qed.

Lemma connect_eventHandlers w : eventHandlers (this (connect w)) = eventHandlers (this w).
Proof.
  rewrite connect_spec. simpl. unfold torn_down.
  destruct (socket (this w)); [apply cleanup_eventHandlers|done].
Qed.

Lemma startHeartbeat_eventHandlers w :
  eventHandlers (this (startHeartbeat w)) = eventHandlers (this w).
Proof. unfold startHeartbeat. simpl. apply stopHeartbeat_eventHandlers. Qed.

Lemma on_connect_error_eventHandlers w :
  eventHandlers (this (on_connect_error w)) = eventHandlers (this w).
Proof.
  unfold on_connect_error. destruct (_ && _); [|done]. by rewrite connect_eventHandlers.
Qed.

Lemma foldl_eventHandlers {A} (f : World → A → World) (l : list A) w :
  (∀ x w', eventHandlers (this (f w' x)) = eventHandlers (this w')) →
  eventHandlers (this (foldl f w l)) = eventHandlers (this w).
Proof.
  intros Hf. revert w. induction l as [|x l IH]; intros w; [done|].
  simpl. by rewrite IH, Hf.
Qed.

Lemma fire_eventHandlers sid e d w :
  eventHandlers (this (fire sid e d w)) = eventHandlers (this w).
Proof.
  unfold fire. destruct (sockets w !! sid) as [s|]; [|done].
  apply foldl_eventHandlers. intros l w'. destruct l; cbn [run_listener]; try done.
  - unfold on_connect. by rewrite startHeartbeat_eventHandlers.
  - unfold on_disconnect. by rewrite stopHeartbeat_eventHandlers.
  - apply on_connect_error_eventHandlers.
Qed.

Lemma iter_eventHandlers (f : World → World) n w :
  (∀ w', eventHandlers (this (f w')) = eventHandlers (this w')) →
  eventHandlers (this (Nat.iter n f w)) = eventHandlers (this w).
Proof. intros Hf. induction n as [|n IH]; [done|]. simpl. by rewrite Hf. Qed.

Lemma RegistryOk_step o w :
  RegistryOk (eventHandlers (this w)) → RegistryOk (eventHandlers (this (step o w))).
Proof.
  intros Hw.
  assert (∀ w', eventHandlers (this w') = eventHandlers (this w) →
                RegistryOk (eventHandlers (this w'))) as Hsame by (by intros w' ->).
  destruct o; cbn [step].
  - apply Hsame. unfold initialize.
    change (eventHandlers (this (setupBrowserEventListeners ?x)))
      with (eventHandlers (this x)).
    by rewrite connect_eventHandlers.
  - apply Hsame, connect_eventHandlers.
  - rewrite on_eventHandlers. simpl.
    destruct (map_get e (eventHandlers (this w))) as [hs|] eqn:E.
    + rewrite E. simpl. apply RegistryOk_put; [|done].
      apply NoDup_set_add. by apply (RegistryOk_get e _ _ Hw).
    + rewrite map_get_put_eq. simpl. apply RegistryOk_put.
      * unfold set_add. rewrite decide_False by apply not_elem_of_nil. apply NoDup_singleton.
      * apply RegistryOk_put; [apply NoDup_nil_2|done].
  - rewrite off_eventHandlers. simpl. destruct h as [h|].
    + destruct (map_get e (eventHandlers (this w))) as [hs|] eqn:E; [|done].
      case_decide; [by apply RegistryOk_delete|].
      apply RegistryOk_put; [|done]. apply NoDup_filter. by apply (RegistryOk_get e _ _ Hw).
    + destruct (map_get e (eventHandlers (this w))); [|done]. by apply RegistryOk_delete.
  - apply Hsame. unfold emit. destruct (socket (this w)); [|done].
    by destruct (isConnected (this w)).
  - apply Hsame, cleanup_eventHandlers.
  - apply Hsame, cleanup_eventHandlers.
  - apply Hsame, startHeartbeat_eventHandlers.
  - apply Hsame, stopHeartbeat_eventHandlers.
  - case_decide; [|done]. apply Hsame. unfold heartbeat_tick.
    destruct (socket (this w)); [|done]. by destruct (isConnected (this w)).
  - apply Hsame, iter_eventHandlers. intros w'. unfold handleBeforeUnload.
    destruct (socket (this w')) as [sid|]; [|done].
    destruct (isConnected (this w')); [|done].
    by rewrite socket_disconnect_eventHandlers.
  - apply Hsame, iter_eventHandlers. intros w'. unfold handleVisibilityChange.
    destruct hidden; [done|]. destruct (_ && _); [|done]. apply connect_eventHandlers.
  - apply Hsame. unfold transport_connect. destruct (sockets w !! sid) as [s|]; [|done].
    destruct (_ || _); [done|]. by rewrite fire_eventHandlers.
  - apply Hsame. unfold transport_disconnect. destruct (sockets w !! sid) as [s|]; [|done].
    destruct (_ || _); [done|]. by rewrite fire_eventHandlers.
  - apply Hsame. unfold transport_connect_error. destruct (sockets w !! sid) as [s|]; [|done].
    destruct (_ || _); [done|]. by rewrite fire_eventHandlers.
  - apply Hsame. unfold transport_event. destruct (sockets w !! sid) as [s|]; [|done].
    destruct (_ || _); [done|]. by rewrite fire_eventHandlers.
Qed.

Lemma RegistryOk_run tr w :
  RegistryOk (eventHandlers (this w)) → RegistryOk (eventHandlers (this (run tr w))).
Proof.
  revert w. induction tr as [|o tr IH]; intros w Hw; [done|].
  simpl. by apply IH, RegistryOk_step.
Qed.

Lemma RegistryOk_init : RegistryOk (eventHandlers (this init)).
Proof. split; [apply NoDup_nil_2|]. intros e hs Hin. by apply elem_of_nil in Hin. Qed.

(** *** What [setupListeners] restores *)

Lemma listeners_for_set_eq e hs : listeners_for e (set_listeners e hs) = LUser <$> hs.
Proof.
  unfold listeners_for, set_listeners. induction hs as [|h hs IH]; [done|].
  rewrite fmap_cons, filter_cons_True by done. rewrite !fmap_cons. by rewrite IH.
Qed.

Lemma listeners_for_set_ne e e' hs : e' ≠ e → listeners_for e (set_listeners e' hs) = [].
Proof.
  intros Hne. unfold listeners_for, set_listeners. induction hs as [|h hs IH]; [done|].
  rewrite fmap_cons, filter_cons_False by done. exact IH.
Qed.

Lemma listeners_for_absent e m :
  e ∉ m.*1 → listeners_for e (registry_listeners m) = [].
Proof.
  unfold registry_listeners. induction m as [|[e' hs] m IH]; intros Hin; [done|].
  simpl in Hin. apply not_elem_of_cons in Hin as [Hne Hin].
  rewrite bind_cons, listeners_for_app. simpl.
  rewrite listeners_for_set_ne by done. by apply IH.
Qed.

Lemma listeners_for_registry e m :
  NoDup m.*1 →
  listeners_for e (registry_listeners m) = LUser <$> default [] (map_get e m).
Proof.
  unfold registry_listeners. induction m as [|[e' hs] m IH]; intros Hk; [done|].
  simpl in Hk. apply NoDup_cons in Hk as [Hk1 Hk2].
  rewrite bind_cons, listeners_for_app. simpl.
  destruct (decide (e = e')) as [->|Hne].
  - rewrite listeners_for_set_eq.
    fold (registry_listeners m). rewrite listeners_for_absent by done.
    by rewrite app_nil_r.
  - rewrite listeners_for_set_ne by done. by apply IH.
Qed.

Lemma attached_listeners e h s :
  attached e h s = length (filter (λ l, l = LUser h) (listeners_for e (callbacks s))).
Proof.
  unfold attached, listeners_for. induction (callbacks s) as [|[e' l] cbs IH]; [done|].
  destruct (decide (e' = e)) as [->|Hne].
  - rewrite (filter_cons_True (λ c, c.1 = e)) by done. simpl.
    destruct (decide (l = LUser h)) as [->|Hl].
    + rewrite !filter_cons_True by done. simpl. by rewrite IH.
    + rewrite !filter_cons_False by congruence. exact IH.
  - rewrite (filter_cons_False (λ c, c.1 = e)) by done.
    rewrite filter_cons_False by congruence. exact IH.
Qed.

Lemma count_LUser h (hs : list nat) :
  length (filter (λ l, l = LUser h) (LUser <$> hs)) = length (filter (λ x, x = h) hs).
Proof.
  induction hs as [|x hs IH]; [done|]. rewrite fmap_cons.
  destruct (decide (x = h)) as [->|Hne].
  - rewrite !filter_cons_True by done. simpl. by rewrite IH.
  - rewrite !filter_cons_False by congruence. exact IH.
Qed.

Lemma filter_eq_absent (h : nat) hs : h ∉ hs → filter (λ x, x = h) hs = [].
Proof.
  induction hs as [|x hs IH]; [done|]. intros [Hne Hin]%not_elem_of_cons.
  rewrite filter_cons_False by congruence. by apply IH.
Qed.

Lemma count_NoDup (h : nat) hs : NoDup hs → length (filter (λ x, x = h) hs) ≤ 1.
Proof.
  induction 1 as [|x hs Hx Hhs IH]; [simpl; lia|].
  destruct (decide (x = h)) as [->|Hne].
  - rewrite filter_cons_True by done. simpl.
    rewrite filter_eq_absent by done. simpl. lia.
  - by rewrite filter_cons_False.
Qed.

Lemma connect_current w :
  current (connect w) = Some (fresh_socket (this (torn_down w))).
Proof.
  unfold current. rewrite connect_spec. simpl.
  rewrite lookup_app_r by lia. by rewrite Nat.sub_diag.
Qed.

(** X7. In every reachable state the registry holds a handler at most once
    per event, and the socket [connect] creates listens, for every event,
    with the manager's own connection listener, then the registered
    handlers in the order of the registry, each attached exactly once,
    then the ['incomingCall'] bridge; [connect] leaves the registry as it
    is. *)
Theorem reconnect_attaches_each_registered_handler_once
    (tr : list Op) (e : string) (h : nat) :
  let w := run tr init in
  NoDup (default [] (registry e w))
  ∧ registered e h w ≤ 1
  ∧ listening e (connect w)
    = listeners_for e connection_listeners
      ++ (LUser <$> default [] (registry e w))
      ++ listeners_for e [("incomingCall", LIncomingCallBridge)]
  ∧ (∃ s, current (connect w) = Some s ∧ attached e h s = registered e h w)
  ∧ ∀ e', registry e' (connect w) = registry e' w.
Proof.
  intros w.
  assert (RegistryOk (eventHandlers (this w))) as Hok
    by apply RegistryOk_run, RegistryOk_init.
  revert Hok. generalize w. clear. intros w Hok.
  assert (NoDup (default [] (registry e w))) as Hnd.
  { unfold registry. destruct (map_get e (eventHandlers (this w))) as [hs|] eqn:E.
    - by apply (RegistryOk_get e _ _ Hok).
    - apply NoDup_nil_2. }
  assert (eventHandlers (this (torn_down w)) = eventHandlers (this w)) as Heh.
  { unfold torn_down. destruct (socket (this w)); [apply cleanup_eventHandlers|done]. }
  assert (listeners_for e (callbacks (fresh_socket (this (torn_down w))))
          = listeners_for e connection_listeners
            ++ (LUser <$> default [] (registry e w))
            ++ listeners_for e [("incomingCall", LIncomingCallBridge)]) as Hl.
  { simpl. rewrite Heh. unfold initial_listeners.
    rewrite (listeners_for_app e [_; _; _; _]), listeners_for_app.
    rewrite listeners_for_registry by apply Hok. done. }
  split; [done|]. split; [by apply count_NoDup|]. split; [|split].
  - unfold listening. by rewrite connect_current.
  - eexists. split; [apply connect_current|].
    rewrite attached_listeners, Hl. rewrite !filter_app, !length_app, count_LUser.
    unfold registered, registry.
    assert (∀ l : list (string * Listener),
              Forall (λ c, c.2 ≠ LUser h) l →
              length (filter (λ l, l = LUser h) (listeners_for e l)) = 0) as Hz.
    { intros l Hl'. unfold listeners_for. induction Hl' as [|[e' x] l Hx _ IH]; [done|].
      destruct (decide (e' = e)) as [->|Hne].
      - rewrite (filter_cons_True (λ c, c.1 = e)) by done. simpl.
        by rewrite filter_cons_False.
      - by rewrite (filter_cons_False (λ c, c.1 = e)). }
    rewrite !Hz; [lia| |]; repeat constructor; done.
  - intros e'. unfold registry. by rewrite connect_eventHandlers.
Qed.

End SocketManagerLaws.

Module CallSoundsLaws.
Import CallSounds CallSoundsInvariants.

Lemma name_cases (p : Val) :
  p = VStr "ringtone" ∨ p = VStr "ringback"
  ∨ (strict_eq p (VStr "ringtone") = false ∧ strict_eq p (VStr "ringback") = false).
Proof.
  destruct (strict_eq p (VStr "ringtone")) eqn:E1.
  - left. destruct p; try done. by apply strict_eq_str in E1 as ->.
  - destruct (strict_eq p (VStr "ringback")) eqn:E2; [|by right; right].
    right. left. destruct p; try done. by apply strict_eq_str in E2 as ->.
Qed.

Lemma coherent_exec s c : coherent s = true → coherent (exec s c) = true.
Proof.
  destruct s as [rt rb i p ac lo ap api].
  destruct (name_cases p) as [->|[->|[E1 E2]]].
  - destruct rt as [[[]]|], rb as [[[]]|], i, ac, lo, ap, api, c;
      intros H; try (by vm_compute in H); by vm_compute.
  - destruct rt as [[[]]|], rb as [[[]]|], i, ac, lo, ap, api, c;
      intros H; try (by vm_compute in H); by vm_compute.
  - destruct rt as [[[]]|], rb as [[[]]|], i, ac, lo, ap, api;
      unfold coherent; cbn; rewrite ?E1, ?E2; cbn; intros H; try done;
      destruct c; unfold exec, stopRingtone, stopRingback; cbn; rewrite ?E1, ?E2; cbn; try done.
Qed.

Lemma wired_exec s c : wired s = true → wired (exec s c) = true.
Proof.
  destruct s as [rt rb i p ac lo ap api].
  destruct (name_cases p) as [->|[->|[E1 E2]]].
  - destruct rt as [[[]]|], rb as [[[]]|], i, ac, lo, ap, api, c;
      intros H; try (by vm_compute in H); by vm_compute.
  - destruct rt as [[[]]|], rb as [[[]]|], i, ac, lo, ap, api, c;
      intros H; try (by vm_compute in H); by vm_compute.
  - destruct rt as [[[]]|], rb as [[[]]|], i, ac, lo, ap, api;
      intros H; try (by vm_compute in H);
      destruct c; unfold wired, exec, stopRingtone, stopRingback; cbn;
      rewrite ?E1, ?E2; cbn; try done.
Qed.

Lemma reachable_sound (autoplay api : bool) (cs : list Call) :
  coherent (foldl exec (constructor autoplay api) cs) = true
  ∧ wired (foldl exec (constructor autoplay api) cs) = true.
Proof.
  assert (coherent (constructor autoplay api) = true
          ∧ wired (constructor autoplay api) = true) as H by done.
  revert H. generalize (constructor autoplay api).
  induction cs as [|c cs IH]; intros s [H1 H2]; [done|].
  simpl. apply IH. split; [by apply coherent_exec|by apply wired_exec].
Qed.

(** X8. After any sequence of calls of the player's public methods, each
    run to completion, at most one of the ringtone element, the ringback
    element and the generated loop is playing, and [getCurrentSound]
    names what plays. *)
Theorem one_audible_loop_and_named (autoplay api : bool) (cs : list Call) :
  let s := foldl exec (constructor autoplay api) cs in
  loops s ≤ 1
  ∧ (playing (ringtone s) = true → getCurrentSound s = VStr "ringtone")
  ∧ (playing (ringback s) = true → getCurrentSound s = VStr "ringback")
  ∧ (loopOscillator s = true →
       getCurrentSound s = VStr "ringtone" ∨ getCurrentSound s = VStr "ringback").
Proof.
  intros s. destruct (reachable_sound autoplay api cs) as [H _]. fold s in H.
  revert H. generalize s. clear. intros s H. unfold coherent in H.
  apply andb_true_iff in H as [H H4]. apply andb_true_iff in H as [H H3].
  apply andb_true_iff in H as [H1 H2]. apply Nat.leb_le in H1.
  unfold getCurrentSound.
  assert (∀ n, strict_eq (playingSound s) (VStr n) = true → playingSound s = VStr n) as Hn.
  { intros n Hs. destruct (playingSound s); try done. by apply strict_eq_str in Hs as ->. }
  repeat split; [done| | |].
  - intros Hp. rewrite Hp in H2. by apply Hn.
  - intros Hp. rewrite Hp in H3. by apply Hn.
  - intros Hp. rewrite Hp in H4. simpl in H4. apply orb_true_iff in H4 as [?|?];
      [left|right]; by apply Hn.
Qed.

(** X9. In every reachable state [playRingtone] and [playRingback] play the
    audio file exactly when the browser allows playback, and otherwise
    start the generated loop exactly when an audio context exists or can
    be created.  [stopRingtone] silences what [playRingtone] started (and
    [stopRingback] what [playRingback] started), while the stop method of
    the other sound changes nothing. *)
Theorem ring_prefers_file_then_generated_tone (autoplay api : bool) (cs : list Call) :
  let s := foldl exec (constructor autoplay api) cs in
  playing (ringtone (playRingtone s)) = autoplayAllowed s
  ∧ playing (ringback (playRingback s)) = autoplayAllowed s
  ∧ loopOscillator (playRingtone s)
    = negb (autoplayAllowed s) && (audioContext s || audioApi s)
  ∧ loopOscillator (playRingback s)
    = negb (autoplayAllowed s) && (audioContext s || audioApi s)
  ∧ silent (stopRingtone (playRingtone s)) = true
  ∧ silent (stopRingback (playRingback s)) = true
  ∧ stopRingback (playRingtone s) = playRingtone s
  ∧ stopRingtone (playRingback s) = playRingback s.
Proof.
  intros s. destruct (reachable_sound autoplay api cs) as [_ H]. fold s in H.
  revert H. generalize s. clear. intros s.
  destruct s as [rt rb i p ac lo ap api].
  destruct rt as [[[]]|], rb as [[[]]|], i, ac, lo, ap, api;
    intros H; try (by vm_compute in H); by vm_compute.
Qed.

End CallSoundsLaws.

Module DashboardLaws.
Import Dashboard DashboardSpec DashboardFacts DashboardInvariants.

(** *** The receive handler *)

Lemma named_persisted m : named m = true → persisted_id m = local_id m ∧ truthy (local_id m) = true.
Proof.
  unfold named, persisted_id. destruct (local_id m) as [| | |s|] eqn:E; try done.
  intros Hs. unfold jor. simpl. by rewrite Hs.
Qed.

Lemma named_self m : named m = true → strict_eq (local_id m) (local_id m) = true.
Proof.
  unfold named. destruct (local_id m) as [| | |s|]; try done. intros _.
  by apply strict_eq_str.
Qed.

Lemma findIndex_lt t l i : findIndex t l = Some i → i < length l.
Proof.
  revert i. induction l as [|m l IH]; intros i; simpl; [done|].
  destruct (_ || _); [intros [= <-]; lia|].
  destruct (findIndex t l) as [j|]; [|done]. intros [= <-].
  specialize (IH j eq_refl). lia.
Qed.

Lemma existsb_elem {A} (p : A → bool) (x : A) (l : list A) :
  x ∈ l → p x = true → existsb p l = true.
Proof.
  intros Hx Hp. apply existsb_exists. exists x. split; [by apply list_elem_of_In|done].
Qed.

Lemma reconcile_holds m l :
  named m = true →
  existsb (λ x, strict_eq (local_id x) (persisted_id m)) (reconcile m l) = true.
Proof.
  intros Hm. destruct (named_persisted m Hm) as [Hp Ht].
  unfold reconcile.
  destruct (existsb _ l) eqn:E; [done|].
  assert (∀ l', m ∈ l' →
            existsb (λ x, strict_eq (local_id x) (persisted_id m)) l' = true) as Hin.
  { intros l' Hl'. apply (existsb_elem _ m); [done|]. rewrite Hp. by apply named_self. }
  destruct (truthy (prop m "clientTempId")); [|apply Hin, elem_of_app; right; by left].
  destruct (findIndex _ l) as [i|] eqn:Ei; [|apply Hin, elem_of_app; right; by left].
  apply Hin. apply list_elem_of_lookup. exists i.
  apply list_lookup_insert_eq. by apply (findIndex_lt _ _ _ Ei).
Qed.

(** X11. Delivering the same pushed record twice to the updater of the
    ['receiveMessage'] handler changes the list as delivering it once
    does, when the record carries a non-empty identifier; one delivery
    adds at most one record and removes none. *)
Theorem reconcile_idempotent (m : Val) (l : list Val) :
  named m = true →
  reconcile m (reconcile m l) = reconcile m l
  ∧ length l ≤ length (reconcile m l) ≤ S (length l).
Proof.
  intros Hm. split.
  - apply reconcile_known. by apply reconcile_holds.
  - unfold reconcile. destruct (existsb _ l); [lia|].
    destruct (truthy _); [|rewrite length_app; simpl; lia].
    destruct (findIndex _ l); [rewrite length_insert|rewrite length_app; simpl]; lia.
Qed.

Lemma reconcile_idempotent_witness :
  named persisted = true
  ∧ reconcile persisted (reconcile persisted (messages queued))
    = reconcile persisted (messages queued)
  ∧ length (reconcile persisted (messages queued)) = 1.
Proof.
  split; [reflexivity|]. split; [|by vm_compute].
  apply (reconcile_idempotent persisted (messages queued)). reflexivity.
Defined.

Lemma not_known_not_elem (s : string) (l : list Val) :
  existsb (λ x, strict_eq (local_id x) (VStr s)) l = false → VStr s ∉ ids l.
Proof.
  intros He Hin. unfold ids in Hin. apply list_elem_of_fmap in Hin as (x & Hx & Hin).
  assert (existsb (λ x, strict_eq (local_id x) (VStr s)) l = true); [|congruence].
  apply (existsb_elem _ x); [done|]. rewrite <- Hx. by apply strict_eq_str.
Qed.

Lemma NoDup_insert_fresh {A} (l : list A) i a :
  a ∉ l → NoDup l → NoDup (<[i := a]> l).
Proof.
  intros Ha Hl. destruct (decide (i < length l)) as [Hi|Hi].
  - rewrite insert_take_drop by done.
    rewrite <- (take_drop i l) in Hl, Ha.
    apply NoDup_app in Hl as (H1 & H2 & H3).
    apply not_elem_of_app in Ha as [Ha1 Ha2].
    assert (drop i l = default a (l !! i) :: drop (S i) l) as Hd.
    { destruct (l !! i) as [x|] eqn:Ex.
      - by rewrite (drop_S l x i).
      - apply lookup_ge_None in Ex. lia. }
    rewrite Hd in H2, H3, Ha2. apply NoDup_cons in H3 as [H3 H4].
    apply not_elem_of_cons in Ha2 as [_ Ha2].
    apply NoDup_app. split; [done|]. split.
    + intros x Hx [->|Hx']%elem_of_cons; [done|].
      apply (H2 x Hx). by right.
    + apply NoDup_cons. done.
  - by rewrite list_insert_ge by lia.
Qed.

(** X12. The updater of the ['receiveMessage'] handler keeps the identifiers
    of the local records pairwise distinct, for a pushed record that
    carries a non-empty identifier. *)
Theorem reconcile_keeps_ids_unique (m : Val) (l : list Val) :
  named m = true → NoDup (ids l) → NoDup (ids (reconcile m l)).
Proof.
  intros Hm Hl. destruct (named_persisted m Hm) as [Hp _].
  unfold reconcile. rewrite Hp.
  destruct (existsb _ l) eqn:E; [done|].
  assert (local_id m ∉ ids l) as Hfresh.
  { unfold named in Hm. destruct (local_id m) as [| | |s|]; try done.
    by apply not_known_not_elem. }
  assert (NoDup (ids (l ++ [m]))) as Happ.
  { unfold ids. rewrite fmap_app. apply NoDup_app. split; [done|]. split.
    - intros x Hx [->|Hx']%elem_of_cons; [done|by apply elem_of_nil in Hx'].
    - apply NoDup_singleton. }
  destruct (truthy (prop m "clientTempId")); [|done].
  destruct (findIndex _ l) as [i|]; [|done].
  unfold ids. rewrite list_fmap_insert. by apply NoDup_insert_fresh.
Qed.

Lemma reconcile_keeps_ids_unique_witness :
  named persisted = true
  ∧ ids history = [VStr "srv0"; VStr "tmp1"]
  ∧ ids (reconcile persisted history) = [VStr "srv0"; VStr "srv1"]
  ∧ NoDup (ids (reconcile persisted history)).
Proof.
  split; [reflexivity|]. split; [by vm_compute|]. split; [by vm_compute|].
  apply (reconcile_keeps_ids_unique persisted history); [reflexivity|].
  vm_compute. apply NoDup_cons_2; [|apply NoDup_singleton].
  intros H%list_elem_of_singleton. discriminate.
Defined.

(** *** Status updates *)

Lemma set_field_idem k x fs : set_field k x (set_field k x fs) = set_field k x fs.
Proof.
  induction fs as [|[k' v] fs IH]; simpl.
  - by rewrite String.eqb_refl.
  - destruct (String.eqb k k') eqn:E; simpl.
    + by rewrite String.eqb_refl.
    + by rewrite E, IH.
Qed.

Lemma with_field_idem m k x : with_field (with_field m k x) k x = with_field m k x.
Proof.
  destruct m; simpl; try by rewrite String.eqb_refl.
  by rewrite set_field_idem.
Qed.

Lemma status_matches_with_status key m st :
  status_matches key m = true →
  status_matches key (with_field m "status" st) = status_matches key m.
Proof.
  intros Hm. unfold status_matches, local_id.
  by rewrite !prop_with_field_ne by done.
Qed.

Lemma update_status_idem key st l :
  update_status key st (update_status key st l) = update_status key st l.
Proof.
  unfold update_status. rewrite <- list_fmap_compose. apply list_fmap_ext.
  intros i m _. simpl. destruct (status_matches key m) eqn:E.
  - rewrite status_matches_with_status, E by done. apply with_field_idem.
  - by rewrite E.
Qed.

Lemma update_status_ids key st l : ids (update_status key st l) = ids l.
Proof.
  unfold ids, update_status. rewrite <- list_fmap_compose. apply list_fmap_ext.
  intros i m _. simpl. destruct (status_matches key m); [|done].
  unfold local_id. by rewrite !prop_with_field_ne by done.
Qed.

Lemma messageStatusUpdate_messages payload w :
  messages (messageStatusUpdate payload w) = messages w
  ∨ messages (messageStatusUpdate payload w)
    = update_status (jor (prop (jor payload (VObj [])) "messageId")
                         (prop (jor payload (VObj [])) "clientTempId"))
        (prop (jor payload (VObj [])) "status") (messages w)
      ∧ negb (truthy (prop (jor payload (VObj [])) "messageId"))
        && negb (truthy (prop (jor payload (VObj [])) "clientTempId")) = false.
Proof.
  unfold messageStatusUpdate. destruct (negb _ && negb _) eqn:E; [by left|].
  right. split; [|done]. by destruct (_ || _).
Qed.

(** X13. Applying the same status update twice leaves the message list as
    applying it once does; a status update changes neither the
    identifiers of the records nor their number. *)
Theorem status_update_idempotent (payload : Val) (w : World) :
  messages (messageStatusUpdate payload (messageStatusUpdate payload w))
  = messages (messageStatusUpdate payload w)
  ∧ ids (messages (messageStatusUpdate payload w)) = ids (messages w)
  ∧ length (messages (messageStatusUpdate payload w)) = length (messages w).
Proof.
  assert (ids (messages (messageStatusUpdate payload w)) = ids (messages w)) as Hids.
  { destruct (messageStatusUpdate_messages payload w) as [->|[-> _]]; [done|].
    apply update_status_ids. }
  split; [|split; [done|]].
  - destruct (messageStatusUpdate_messages payload (messageStatusUpdate payload w))
      as [->|[-> Hk]]; [done|].
    destruct (messageStatusUpdate_messages payload w) as [E|[-> _]].
    + rewrite E. revert E. unfold messageStatusUpdate. rewrite Hk.
      by destruct (_ || _).
    + apply update_status_idem.
  - apply (f_equal length) in Hids. unfold ids in Hids. by rewrite !length_fmap in Hids.
Qed.

(** *** Ending a call *)

Ltac elem_split :=
  repeat match goal with
  | H : _ ∈ _ :: _ |- _ => apply elem_of_cons in H as [?|?]
  | H : _ ∈ _ ++ _ |- _ => apply elem_of_app in H as [?|?]
  | H : ¬ (_ ∈ _ :: _) |- _ => apply not_elem_of_cons in H as [? ?]
  | H : ¬ (_ ∈ _ ++ _) |- _ => apply not_elem_of_app in H as [? ?]
  end; simplify_eq; done.

Lemma stop_track_tracks i w j :
  tracks (stop_track i w) !! j
  = (if bool_decide (j = i) then stopped else id) <$> tracks w !! j.
Proof.
  unfold stop_track. simpl. case_bool_decide as E.
  - subst j. by rewrite list_lookup_alter_eq.
  - rewrite list_lookup_alter_ne by done. by destruct (tracks w !! j).
Qed.

Lemma stop_tracks_tracks (l : list nat) w j :
  tracks (foldl (λ acc i, stop_track i acc) w l) !! j
  = (if bool_decide (j ∈ l) then stopped else id) <$> tracks w !! j
  ∧ streams (foldl (λ acc i, stop_track i acc) w l) = streams w.
Proof.
  revert w. induction l as [|i l IH]; intros w; cbn [foldl].
  - rewrite bool_decide_eq_false_2 by apply not_elem_of_nil. split; [|done].
    by destruct (tracks w !! j).
  - destruct (IH (stop_track i w)) as [-> ->]. split; [|done].
    rewrite stop_track_tracks. destruct (tracks w !! j) as [t|]; [|done]. simpl.
    repeat case_bool_decide; simplify_eq; try done; try (by destruct t);
      exfalso; elem_split.
Qed.

Lemma stop_stream_tracks st w j :
  tracks (stop_stream st w) !! j
  = (if bool_decide (j ∈ stream_tracks st w) then stopped else id) <$> tracks w !! j
  ∧ streams (stop_stream st w) = streams w.
Proof.
  destruct st as [s|]; cbn [stop_stream stream_tracks].
  - apply stop_tracks_tracks.
  - rewrite bool_decide_eq_false_2 by apply not_elem_of_nil. split; [|done].
    by destruct (tracks w !! j).
Qed.

Lemma endCall_tracks (r : Render) (w : World) (j : nat) :
  tracks (endCall r w) !! j
  = (if bool_decide (j ∈ stream_tracks (localStream r) w ++ stream_tracks (remoteStream r) w)
     then stopped else id) <$> tracks w !! j
  ∧ streams (endCall r w) = streams w
  ∧ CS.silent (sounds (endCall r w)) = true.
Proof.
  unfold endCall.
  set (w1 := sound CS.playDisconnect (sound CS.stopAll w)).
  set (w2 := stop_stream (remoteStream r) (stop_stream (localStream r) w1)).
  assert (∀ e d w0, tracks (sm_emit e d w0) = tracks w0 ∧ streams (sm_emit e d w0) = streams w0
                    ∧ sounds (sm_emit e d w0) = sounds w0) as Hemit by done.
  assert (∀ st w0, sounds (stop_stream st w0) = sounds w0) as Hsnd.
  { intros [s|] w0; simpl; [|done]. generalize (default [] (streams w0 !! s)).
    intros l. revert w0. induction l as [|i l IH]; intros w0; simpl; [done|].
    by rewrite IH. }
  set (w3 := match peerConnectionRef w2 with
             | Some pc => pc_update pc_close pc w2
             | None => w2
             end).
  assert (tracks w3 = tracks w2 ∧ streams w3 = streams w2 ∧ sounds w3 = sounds w2)
    as (Ht3 & Hs3 & Hd3) by (subst w3; by destruct (peerConnectionRef w2)).
  assert (tracks w2 !! j
          = (if bool_decide (j ∈ stream_tracks (localStream r) w
                                 ++ stream_tracks (remoteStream r) w)
             then stopped else id) <$> tracks w !! j
          ∧ streams w2 = streams w) as [Ht2 Hs2].
  { subst w2.
    destruct (stop_stream_tracks (remoteStream r) (stop_stream (localStream r) w1) j)
      as [-> ->].
    destruct (stop_stream_tracks (localStream r) w1 j) as [-> Hs1]. split; [|done].
    assert (stream_tracks (remoteStream r) (stop_stream (localStream r) w1)
            = stream_tracks (remoteStream r) w) as ->.
    { unfold stream_tracks. by rewrite Hs1. }
    change (stream_tracks (localStream r) w1) with (stream_tracks (localStream r) w).
    change (tracks w1) with (tracks w).
    destruct (tracks w !! j) as [t|]; [|done]. simpl.
    repeat case_bool_decide; simplify_eq; try done; try (by destruct t);
      exfalso; elem_split. }
  assert (CS.silent (sounds w2) = true) as Hsil.
  { subst w2. rewrite !Hsnd. subst w1. simpl.
    apply CallSoundsFacts.playDisconnect_silent, CallSoundsFacts.stopAll_silent. }
  repeat match goal with |- context [if ?c then _ else _] =>
    lazymatch c with bool_decide _ => fail | _ => destruct c end end;
    simpl; rewrite ?Ht3, ?Hs3, ?Hd3; done.
Qed.

(** X14. [endCall] stops exactly the tracks of the local and the remote
    stream of the render it closes over and leaves every other track as it
    is; whatever the render, it silences the ring sounds, closes the peer
    connection the ref holds, clears the ref and resets the call state. *)
Theorem endCall_stops_the_tracks_its_render_holds (r : Render) (w : World) :
  let w' := endCall r w in
  (∀ j, tracks w' !! j
        = (if bool_decide (j ∈ stream_tracks (localStream r) w
                               ++ stream_tracks (remoteStream r) w)
           then stopped else id) <$> tracks w !! j)
  ∧ streams w' = streams w
  ∧ CS.silent (sounds w') = true
  ∧ peerConnectionRef w' = None
  ∧ (∀ pc p, peerConnectionRef w = Some pc → pcs w !! pc = Some p →
       ∃ p', pcs w' !! pc = Some p' ∧ pc_closed p' = true)
  ∧ inCall (cur w') = false ∧ callType (cur w') = VNull
  ∧ localStream (cur w') = None ∧ remoteStream (cur w') = None
  ∧ activeCallSession (cur w') = VNull.
Proof.
  intros w'. subst w'.
  destruct (endCall_tracks r w 0) as (_ & Hs & Hsil).
  split; [intros j; by destruct (endCall_tracks r w j) as (? & _)|].
  split; [exact Hs|]. split; [exact Hsil|]. apply endCall_always.
Qed.

(** *** Selecting a contact *)

Module SX := SocketManagerLaws.

#[local] Arguments SM.on : simpl never.
#[local] Arguments SM.off : simpl never.
#[local] Arguments SM.emit : simpl never.

Lemma current_socket_current w : current_socket w = SocketManagerSpec.current (sm w).
Proof. reflexivity. Qed.

Lemma signalingEffect_cleanup_sm hAck w :
  signalingCleanup w = Some hAck →
  sm (signalingEffect_cleanup w)
  = SM.off "incomingCallAck" (Some hAck)
      (SM.off "callEnded" None
         (SM.off "iceCandidate" None
            (SM.off "callAnswered" None (SM.off "incomingCall" None (sm w)))))
  ∧ closures (signalingEffect_cleanup w) = closures w
  ∧ cur (signalingEffect_cleanup w) = cur w.
Proof. intros H. unfold signalingEffect_cleanup. by rewrite H. Qed.

Lemma signalingEffect_sm sid w :
  SM.socket (SM.this (sm w)) = Some sid →
  sm (signalingEffect w)
  = SM.on "callEnded" (length (closures w) + 4)
      (SM.on "iceCandidate" (length (closures w) + 3)
         (SM.on "callAnswered" (length (closures w) + 2)
            (SM.on "incomingCallAck" (length (closures w) + 1)
               (SM.on "incomingCall" (length (closures w)) (sm w)))))
  ∧ closures (signalingEffect w)
    = closures w ++ [CHandleIncomingCall (cur w); CHandleIncomingCallAck (cur w);
                     CCallAnswered (cur w); CIceCandidate; CCallEnded (cur w)]
  ∧ cur (signalingEffect w) = cur w
  ∧ signalingCleanup (signalingEffect w) = Some (length (closures w) + 1).
Proof. intros H. unfold signalingEffect. by rewrite H. Qed.

Lemma fetchEffect_frame w :
  sm (fetchEffect w) = sm w ∧ closures (fetchEffect w) = closures w
  ∧ cur (fetchEffect w) = cur w ∧ signalingCleanup (fetchEffect w) = signalingCleanup w.
Proof.
  unfold fetchEffect, fetchMessages.
  destruct (truthy (selectedUser (cur w))).
  - by destruct (_ || _).
  - destruct (truthy (selectedRoom (cur w))); [|done]. by destruct (_ || _).
Qed.

(** X15. Selecting another contact than the selected one while a socket
    exists re-runs the signaling effect: its cleanup detaches every
    ['incomingCall'], ['callAnswered'], ['iceCandidate'] and ['callEnded']
    listener, the ['incomingCall'] bridge of the manager included, and the
    one ['incomingCallAck'] handler of the previous run; then the five
    handlers are registered afresh, closing over the render with the new
    contact.  Selecting the contact object that is selected already
    registers and detaches nothing. *)
Theorem selectUser_replaces_signaling_handlers (u : Val) (w : World) (hAck : nat) :
  is_Some (current_socket w) →
  signalingCleanup w = Some hAck →
  strict_eq u (selectedUser (cur w)) = false →
  let w' := selectUser u w in
  let h := length (closures w) in
  let r := r_selectedRoom VNull (r_selectedUser u (cur w)) in
  (cur w' = r
   ∧ closures w' = closures w ++ [CHandleIncomingCall r; CHandleIncomingCallAck r;
                                  CCallAnswered r; CIceCandidate; CCallEnded r]
   ∧ attached_to "incomingCall" w' = [SM.LUser h]
   ∧ attached_to "callAnswered" w' = [SM.LUser (h + 2)]
   ∧ attached_to "iceCandidate" w' = [SM.LUser (h + 3)]
   ∧ attached_to "callEnded" w' = [SM.LUser (h + 4)]
   ∧ attached_to "incomingCallAck" w'
     = SM.remove_first (SM.LUser hAck) (attached_to "incomingCallAck" w) ++ [SM.LUser (h + 1)]
   ∧ signalingCleanup w' = Some (h + 1))
  ∧ (closures (reselectUser w) = closures w
     ∧ offs (reselectUser w) = offs w
     ∧ signalingCleanup (reselectUser w) = signalingCleanup w
     ∧ ∀ e, attached_to e (reselectUser w) = attached_to e w).
Proof.
  rewrite current_socket_current. intros Hs Hc Hne w' h r. subst w'.
  set (w1 := if truthy (selectedRoom (cur w)) && socket_connected w
             then sm_emit "leaveRoom" (prop (selectedRoom (cur w)) "_id") w else w).
  assert (cur w1 = cur w ∧ closures w1 = closures w ∧ signalingCleanup w1 = signalingCleanup w
          ∧ is_Some (SocketManagerSpec.current (sm w1))
          ∧ (∀ e, SS.listening e (sm w1) = SS.listening e (sm w))
          ∧ offs w1 = offs w) as (E1 & E2 & E3 & E4 & E5 & E6).
  { subst w1. destruct (_ && _); [|done]. repeat split; try done.
    - by apply SX.emit_held.
    - intros e. apply SF.emit_listening. }
  split.
  2: { unfold reselectUser, select. fold w1. cbn [orb].
       set (w2 := setSelectedRoom VNull (setSelectedUser (selectedUser (cur w)) w1)).
       assert (∀ w4, sm w4 = sm w2 → closures w4 = closures w2 → offs w4 = offs w2 →
                     signalingCleanup w4 = signalingCleanup w2 →
                     closures w4 = closures w ∧ offs w4 = offs w
                     ∧ signalingCleanup w4 = signalingCleanup w
                     ∧ ∀ e, attached_to e w4 = attached_to e w) as Hsame.
       { intros w4 H1 H2 H3 H4. rewrite H2, H3, H4. repeat split; try done.
         intros e. rewrite !attached_listening, H1. apply E5. }
       destruct (negb (strict_eq (selectedRoom (cur w)) VNull)); [|by apply Hsame].
       destruct (fetchEffect_frame w2) as (H1 & H2 & _ & H4).
       apply Hsame; try done. unfold fetchEffect, fetchMessages.
       destruct (truthy (selectedUser (cur w2))).
       - by destruct (_ || _).
       - destruct (truthy (selectedRoom (cur w2))); [|done]. by destruct (_ || _). }
  unfold selectUser, select. fold w1. rewrite Hne. cbn [negb orb].
  set (w2 := setSelectedRoom VNull (setSelectedUser u w1)).
  destruct (signalingEffect_cleanup_sm hAck w2) as (F1 & F2 & F3); [by rewrite <- Hc, <- E3|].
  destruct (fetchEffect_frame (signalingEffect_cleanup w2)) as (P1 & P2 & P3 & P4).
  set (w4 := fetchEffect (signalingEffect_cleanup w2)) in *.
  rewrite <- P1 in F1. rewrite <- P2 in F2. rewrite <- P3 in F3.
  set (m1 := sm w4) in *.
  assert (is_Some (SocketManagerSpec.current m1)) as G1.
  { rewrite F1. by repeat apply SX.off_held. }
  assert (∀ e, SS.listening e m1
               = if decide (e = "incomingCallAck")
                 then SM.remove_first (SM.LUser hAck) (SS.listening e (sm w))
                 else if decide (e = "callEnded") then []
                 else if decide (e = "iceCandidate") then []
                 else if decide (e = "callAnswered") then []
                 else if decide (e = "incomingCall") then []
                 else SS.listening e (sm w)) as G2.
  { intros e. rewrite F1, SF.off_listening, !SX.off_all_listening.
    change (sm w2) with (sm w1). rewrite E5.
    repeat case_decide; simplify_eq; done. }
  destruct (SocketManagerSpec.current m1) as [s1|] eqn:Ecur; [|by destruct G1].
  assert (∃ sid, SM.socket (SM.this m1) = Some sid) as [sid Hsid].
  { unfold SocketManagerSpec.current in Ecur. destruct (SM.socket (SM.this m1)); [eauto|done]. }
  destruct (signalingEffect_sm sid w4 Hsid) as (K1 & K2 & K3 & K4).
  rewrite F2, F3 in K2. rewrite F2 in K1, K4.
  change (closures w2) with (closures w1) in *. rewrite E2 in *.
  change (cur w2) with (r_selectedRoom VNull (r_selectedUser u (cur w1))) in *.
  rewrite E1 in *. fold h r in K1, K2, K3, K4 |- *.
  assert (∀ e, attached_to e (signalingEffect w4)
               = SS.listening e m1
                 ++ (if decide ("incomingCall" = e) then [SM.LUser h] else [])
                 ++ (if decide ("incomingCallAck" = e) then [SM.LUser (h + 1)] else [])
                 ++ (if decide ("callAnswered" = e) then [SM.LUser (h + 2)] else [])
                 ++ (if decide ("iceCandidate" = e) then [SM.LUser (h + 3)] else [])
                 ++ (if decide ("callEnded" = e) then [SM.LUser (h + 4)] else [])) as Hatt.
  { intros e. rewrite attached_listening, K1. fold m1.
    assert (is_Some (SocketManagerSpec.current m1)) as H0 by by rewrite Ecur.
    destruct (SX.on_listening_held "incomingCall" e h m1 H0) as [L1 H1].
    destruct (SX.on_listening_held "incomingCallAck" e (h + 1) _ H1) as [L2 H2].
    destruct (SX.on_listening_held "callAnswered" e (h + 2) _ H2) as [L3 H3].
    destruct (SX.on_listening_held "iceCandidate" e (h + 3) _ H3) as [L4 H4].
    destruct (SX.on_listening_held "callEnded" e (h + 4) _ H4) as [L5 H5].
    rewrite L5, L4, L3, L2, L1. by rewrite <- !app_assoc. }
  split; [by rewrite K3, F3|]. split; [done|].
  repeat split; try done; rewrite Hatt, G2; reflexivity.
Qed.

Lemma selectUser_replaces_signaling_handlers_witness :
  attached_to "incomingCall" online = [SM.LIncomingCallBridge; SM.LUser 2]
  ∧ attached_to "incomingCall" (selectUser ann online) = [SM.LUser 8]
  ∧ attached_to "incomingCallAck" (selectUser ann online) = [SM.LUser 9].
Proof.
  split; [vm_compute; reflexivity|].
  assert (is_Some (current_socket online)) as Hs by (eexists; vm_compute; reflexivity).
  assert (signalingCleanup online = Some 3) as Hc by (vm_compute; reflexivity).
  destruct (selectUser_replaces_signaling_handlers ann online 3 Hs Hc eq_refl)
    as ((_ & _ & H1 & _ & _ & _ & H2 & _) & _).
  split; [exact H1|]. rewrite H2. vm_compute. reflexivity.
Defined.

(** *** The temporary listener of a send *)

(** X16. Sending a message attaches one more ['receiveMessage'] listener, and
    nothing that follows detaches it: neither the listener itself when the
    push arrives, nor the race timer, nor the response of the request
    calls [off]. *)
Theorem send_listener_is_never_removed (r : Render) (tmp ts : Val) (w : World) :
  is_blank (message w) = false →
  negb (truthy (selectedUser r)) && nullish (selectedRoom r) = false →
  is_Some (current_socket w) →
  let w1 := sendMessage r tmp ts w in
  closures w1 = closures w ++ [CSendHandler (length (sends w)) tmp]
  ∧ attached_to "receiveMessage" w1
    = attached_to "receiveMessage" w ++ [SM.LUser (length (closures w))]
  ∧ offs w1 = offs w
  ∧ ∀ (w' : World) (i : nat) (msg : Val) (res : option Val),
      (sm (sendHandler i tmp msg w') = sm w' ∧ offs (sendHandler i tmp msg w') = offs w')
      ∧ (sm (sendTimeout i w') = sm w' ∧ offs (sendTimeout i w') = offs w')
      ∧ (sm (apiResponse i res w') = sm w' ∧ offs (apiResponse i res w') = offs w').
Proof.
  rewrite current_socket_current. intros Hb Hsel Hs w1. subst w1.
  assert (∀ i v w', sm (sendMessage_finish i v w') = sm w'
                    ∧ offs (sendMessage_finish i v w') = offs w') as Hfin.
  { intros i v w'. unfold sendMessage_finish. destruct (truthy v); [done|].
    destruct (s_api <$> sends w' !! i) as [[|data|]|]; try done.
    by destruct (nullish data). }
  split; [|split; [|split]].
  - unfold sendMessage. rewrite Hb, Hsel. done.
  - unfold sendMessage. rewrite Hb, Hsel. rewrite attached_listening. simpl.
    destruct (SX.on_listening_held "receiveMessage" "receiveMessage" (length (closures w))
                (sm w) Hs) as [-> _].
    by rewrite decide_True.
  - unfold sendMessage. rewrite Hb, Hsel. done.
  - intros w' i msg res. repeat split.
    + unfold sendHandler. destruct (truthy msg && _); [|done].
      destruct (sends w' !! i) as [s|]; [|done]. destruct (s_resolved s); [done|].
      by destruct (Hfin i msg (clearTimeout (s_timeout s) (send_update s_resolve i w')))
        as [-> _].
    + unfold sendHandler. destruct (truthy msg && _); [|done].
      destruct (sends w' !! i) as [s|]; [|done]. destruct (s_resolved s); [done|].
      by destruct (Hfin i msg (clearTimeout (s_timeout s) (send_update s_resolve i w')))
        as [_ ->].
    + unfold sendTimeout. destruct (sends w' !! i) as [s|]; [|done].
      destruct (s_resolved s); [done|]. destruct (s_api s); [done| |].
      * by destruct (Hfin i data (send_update s_resolve i w')) as [-> _].
      * by destruct (Hfin i VNull (send_update s_resolve i w')) as [-> _].
    + unfold sendTimeout. destruct (sends w' !! i) as [s|]; [|done].
      destruct (s_resolved s); [done|]. destruct (s_api s); [done| |].
      * by destruct (Hfin i data (send_update s_resolve i w')) as [_ ->].
      * by destruct (Hfin i VNull (send_update s_resolve i w')) as [_ ->].
    + unfold apiResponse. destruct (sends w' !! i) as [s|]; [|done].
      destruct (s_api s); try done. destruct (s_awaiting s); [|done].
      set (a := match res with Some data => ApiFulfilled data | None => ApiRejected end).
      by destruct (Hfin i (default VNull res)
                     (send_update s_resolve i (send_update (s_settle a) i w'))) as [-> _].
    + unfold apiResponse. destruct (sends w' !! i) as [s|]; [|done].
      destruct (s_api s); try done. destruct (s_awaiting s); [|done].
      set (a := match res with Some data => ApiFulfilled data | None => ApiRejected end).
      by destruct (Hfin i (default VNull res)
                     (send_update s_resolve i (send_update (s_settle a) i w'))) as [_ ->].
Qed.

Lemma send_listener_is_never_removed_witness :
  attached_to "receiveMessage" typing = [SM.LUser 0]
  ∧ attached_to "receiveMessage"
      (sendMessage (cur typing) (VStr "tmp1") (VStr "2024-05-01T10:00:00Z") typing)
    = attached_to "receiveMessage" typing ++ [SM.LUser (length (closures typing))].
Proof.
  split; [vm_compute; reflexivity|].
  assert (is_Some (current_socket typing)) as Hs by (eexists; vm_compute; reflexivity).
  apply (send_listener_is_never_removed (cur typing) (VStr "tmp1")
           (VStr "2024-05-01T10:00:00Z") typing); [vm_compute; reflexivity..|exact Hs].
Defined.

(** *** Acknowledgements after the offer went out *)

Lemma set_has_add_str (sid : string) (l : list Val) :
  set_has (VStr sid) (set_add (VStr sid) l) = true.
Proof.
  unfold set_add. destruct (set_has (VStr sid) l) eqn:E; [done|].
  unfold set_has. rewrite existsb_app. simpl. rewrite String.eqb_refl.
  by rewrite orb_true_r.
Qed.

Lemma set_has_add_mono (x y : Val) (l : list Val) :
  set_has x l = true → set_has x (set_add y l) = true.
Proof.
  intros Hx. unfold set_add. destruct (set_has y l); [done|].
  unfold set_has. rewrite existsb_app. unfold set_has in Hx. by rewrite Hx.
Qed.

(** X17. Once the acknowledgement handler has sent the offer of a session
    and recorded its id (a string), a further acknowledgement of this
    session does nothing, whatever render handles it; recording a session
    drops no session recorded before. *)
Theorem acks_after_the_offer_are_ignored
    (r r' : Render) (d d' offer : Val) (sid : string) (w : World) :
  prop d "callSessionId" = VStr sid →
  prop d' "callSessionId" = VStr sid →
  let w1 := ack_send r d offer w in
  handleParticipantAck r' d' w1 = w1
  ∧ sm w1 = SM.emit "callUser" (ack_offer r d offer) (sm w)
  ∧ set_has (VStr sid) (initiatorOfferSentRef w1) = true
  ∧ ∀ x, set_has x (initiatorOfferSentRef w) = true →
         set_has x (initiatorOfferSentRef w1) = true.
Proof.
  intros Hd Hd' w1.
  assert (initiatorOfferSentRef w1 = set_add (VStr sid) (initiatorOfferSentRef w)) as Href.
  { subst w1. unfold ack_send. simpl. by rewrite Hd. }
  assert (set_has (VStr sid) (initiatorOfferSentRef w1) = true) as Hhas.
  { rewrite Href. apply set_has_add_str. }
  split; [|split; [done|split; [done|]]].
  - apply ack_for_recorded_session.
    assert (jor d' (VObj []) = d') as ->.
    { destruct d' as [| |b|s|o]; try done. }
    by rewrite Hd'.
  - intros x Hx. rewrite Href. by apply set_has_add_mono.
Qed.

Lemma acks_after_the_offer_are_ignored_witness :
  handleParticipantAck (cur online) joined_ack
    (ack_send (cur online) joined_ack (VStr "offer-1") online)
  = ack_send (cur online) joined_ack (VStr "offer-1") online.
Proof.
  apply (acks_after_the_offer_are_ignored (cur online) (cur online) joined_ack joined_ack
           (VStr "offer-1") "S" online); reflexivity.
Defined.

(** *** The tracks a call sends *)

Lemma add_captured (video : bool) (pc st : nat) (p : PeerConnection) (w0 : World)
    (ts : list Track) :
  tracks w0 = ts ++ captured video →
  streams w0 !! st = Some (seq (length ts) (length (captured video))) →
  pcs w0 !! pc = Some p →
  let w' := add_stream_tracks pc st w0 in
  tracks w' = tracks w0 ++ [silent_track]
  ∧ streams w' = streams w0
  ∧ (∃ p', pcs w' !! pc = Some p'
           ∧ senders p' = senders p ++ sent_tracks video (length ts)
           ∧ pc_closed p' = pc_closed p ∧ pc_render p' = pc_render p)
  ∧ (∀ q, q ≠ pc → pcs w' !! q = pcs w0 !! q)
  ∧ length (pcs w') = length (pcs w0)
  ∧ cur w' = cur w0 ∧ peerConnectionRef w' = peerConnectionRef w0
  ∧ tasks w' = tasks w0 ∧ sm w' = sm w0 ∧ closures w' = closures w0
  ∧ timers w' = timers w0.
Proof.
  intros Ht Hs Hp. unfold add_stream_tracks. rewrite Hs. unfold default, from_option, id.
  assert (tracks w0 !! length ts = Some (mkTrack "audio" false false)) as Hmic.
  { rewrite Ht, lookup_app_r by lia. by rewrite Nat.sub_diag. }
  destruct video; cbn [captured length seq foldl].
  - assert (add_track pc w0 (length ts)
            = pc_update (pc_addTrack (length (tracks w0))) pc
                (w_tracks (tracks w0 ++ [silent_track]) w0)) as ->.
    { unfold add_track. by rewrite Hmic. }
    set (w1 := pc_update _ pc _).
    assert (tracks w1 !! S (length ts) = Some (mkTrack "video" false false)) as Hcam.
    { subst w1. cbn [pc_update tracks w_pcs w_tracks]. rewrite Ht.
      rewrite <- app_assoc. rewrite lookup_app_r by lia.
      replace (S (length ts) - length ts) with 1 by lia. done. }
    unfold add_track. rewrite Hcam. cbn [kind String.eqb Ascii.eqb Bool.eqb].
    subst w1. cbn [pc_update tracks streams pcs cur peerConnectionRef tasks sm closures
                    timers w_pcs w_tracks].
    split; [done|]. split; [done|]. split; [|split; [|split]].
    + rewrite !list_lookup_alter_eq, Hp. cbn. eexists. split; [done|].
      cbn. rewrite <- app_assoc. cbn. rewrite Ht, length_app. cbn.
      unfold sent_tracks. cbn. by repeat split.
    + intros q Hq. by rewrite !list_lookup_alter_ne.
    + by rewrite !length_alter.
    + done.
  - unfold add_track. rewrite Hmic. cbn [kind String.eqb Ascii.eqb Bool.eqb].
    cbn [pc_update tracks streams pcs cur peerConnectionRef tasks sm closures
          timers w_pcs w_tracks].
    split; [done|]. split; [done|]. split; [|split; [|split]].
    + rewrite list_lookup_alter_eq, Hp. cbn. eexists. split; [done|].
      cbn. rewrite Ht, length_app. cbn. unfold sent_tracks. cbn. by repeat split.
    + intros q Hq. by rewrite list_lookup_alter_ne.
    + by rewrite length_alter.
    + done.
Qed.

Lemma mic_not_sent (video : bool) (mic : nat) : mic ∉ sent_tracks video mic.
Proof.
  unfold sent_tracks. destruct video; cbn; intros Hin;
    repeat (apply elem_of_cons in Hin as [Hin|Hin]; [lia|]); by apply elem_of_nil in Hin.
Qed.

(** What the three call paths share: the stream is captured, the peer
    connection [pc] of the state [f] reaches gets the silent track and the
    camera track. *)
Lemma capture_and_add (video : bool) (pc : nat) (p : PeerConnection) (w : World)
    (f : World → World) :
  tracks (f (acquire video w).1) = tracks (acquire video w).1 →
  streams (f (acquire video w).1) = streams (acquire video w).1 →
  pcs (f (acquire video w).1) !! pc = Some p →
  let w' := add_stream_tracks pc (acquire video w).2 (f (acquire video w).1) in
  tracks w' = tracks w ++ captured video ++ [silent_track]
  ∧ streams w' !! length (streams w)
    = Some (seq (length (tracks w)) (length (captured video)))
  ∧ (∃ p', pcs w' !! pc = Some p'
           ∧ senders p' = senders p ++ sent_tracks video (length (tracks w)))
  ∧ cur w' = cur (f (acquire video w).1)
  ∧ peerConnectionRef w' = peerConnectionRef (f (acquire video w).1).
Proof.
  intros Ht Hs Hp.
  assert (tracks (acquire video w).1 = tracks w ++ captured video) as Hta by done.
  assert (streams (acquire video w).1 !! length (streams w)
          = Some (seq (length (tracks w)) (length (captured video)))) as Hsa.
  { unfold acquire. cbn [fst streams w_streams w_tracks].
    rewrite lookup_app_r by lia. by rewrite Nat.sub_diag. }
  rewrite <- Ht in Hta. rewrite <- Hs in Hsa.
  destruct (add_captured video pc (length (streams w)) p (f (acquire video w).1)
              (tracks w) Hta Hsa Hp)
    as (H1 & H2 & (p' & H3 & H4 & _) & _ & _ & H5 & H6 & _).
  change ((acquire video w).2) with (length (streams w)). cbn zeta.
  rewrite H1, H2, H5, H6, Hta, <- app_assoc. repeat split; try done. eauto.
Qed.

(** X18. The three call paths (placing a call, answering one, and sending
    the offer after a participant joined) capture the microphone, and the
    camera for a video call, and hand to the peer connection a generated
    silent audio track and the camera track: the captured microphone track
    is never among the tracks sent. *)
Theorem call_paths_send_a_silent_audio_track (r : Render) (type data : Val) (w : World) :
  (let video := strict_eq type (VStr "video") in
   let w' := startCall_media r type w in
   tracks w' = tracks w ++ captured video ++ [silent_track]
   ∧ streams w' !! length (streams w)
     = Some (seq (length (tracks w)) (length (captured video)))
   ∧ localStream (cur w') = Some (length (streams w))
   ∧ peerConnectionRef w' = Some (length (pcs w))
   ∧ ∃ p, pcs w' !! length (pcs w) = Some p
          ∧ senders p = sent_tracks video (length (tracks w)))
  ∧ (let video := strict_eq (prop (incomingCall r) "callType") (VStr "video") in
     let w' := answerCall_media r w in
     tracks w' = tracks w ++ captured video ++ [silent_track]
     ∧ streams w' !! length (streams w)
       = Some (seq (length (tracks w)) (length (captured video)))
     ∧ localStream (cur w') = Some (length (streams w))
     ∧ peerConnectionRef w' = Some (length (pcs w))
     ∧ ∃ p, pcs w' !! length (pcs w) = Some p
            ∧ senders p = sent_tracks video (length (tracks w)))
  ∧ (∀ pc p0, pcs w !! pc = Some p0 →
     let video := strict_eq (effectiveCallType r data) (VStr "video") in
     let w' := resume (KAckMedia r pc data) (Resolved VUndef) w in
     tracks w' = tracks w ++ captured video ++ [silent_track]
     ∧ streams w' !! length (streams w)
       = Some (seq (length (tracks w)) (length (captured video)))
     ∧ localStream (cur w') = Some (length (streams w))
     ∧ ∃ p, pcs w' !! pc = Some p
            ∧ senders p = senders p0 ++ sent_tracks video (length (tracks w)))
  ∧ ∀ video mic, mic ∉ sent_tracks video mic.
Proof.
  split; [|split; [|split; [|apply mic_not_sent]]].
  - intros video w'. subst w'.
    set (f := λ w1, w_peerConnectionRef (Some (length (pcs w1)))
                      (createPeerConnection r (setLocalStream (Some (acquire video w).2) w1)).1).
    assert (startCall_media r type w
            = push_task (KStartCallOffer r type (length (pcs w)))
                (add_stream_tracks (length (pcs w)) (acquire video w).2
                   (f (acquire video w).1))) as -> by reflexivity.
    destruct (capture_and_add video (length (pcs w)) (mkPC r false [] VUndef VUndef []) w f)
      as (H1 & H2 & (p' & H3 & H4) & H5 & H6); [done|done| |].
    { subst f. cbn. rewrite lookup_app_r by lia. by rewrite Nat.sub_diag. }
    cbn [push_task tracks streams cur pcs peerConnectionRef w_tasks].
    rewrite H1, H2, H5, H6. repeat split; try done. by exists p'.
  - intros video w'. subst w'.
    set (f := λ w1, w_peerConnectionRef (Some (length (pcs w1)))
                      (createPeerConnection r (setLocalStream (Some (acquire video w).2) w1)).1).
    set (w3 := add_stream_tracks (length (pcs w)) (acquire video w).2 (f (acquire video w).1)).
    destruct (capture_and_add video (length (pcs w)) (mkPC r false [] VUndef VUndef []) w f)
      as (H1 & H2 & (p' & H3 & H4) & H5 & H6); [done|done| |].
    { subst f. cbn. rewrite lookup_app_r by lia. by rewrite Nat.sub_diag. }
    fold w3 in H1, H2, H3, H5, H6.
    assert (answerCall_media r w
            = if negb (truthy (prop (incomingCall r) "offer"))
                 && truthy (prop (incomingCall r) "callSessionId")
              then (setTimeout (TOfferWait r (length (closures w3))) OFFER_WAIT_MS
                      (sm_on "incomingCall" (length (closures w3))
                         (new_closure (CHandleOffer r (length (pcs w)) (length (closures w3)))
                            (sm_emit "joinCallSession"
                               (VObj [("callSessionId",
                                       prop (incomingCall r) "callSessionId")]) w3)))).1
              else push_task (KAnswerRemote r (length (pcs w))) w3) as -> by reflexivity.
    destruct (_ && _).
    + change (tracks (setTimeout _ _ _).1) with (tracks w3).
      change (streams (setTimeout _ _ _).1) with (streams w3).
      change (cur (setTimeout _ _ _).1) with (cur w3).
      change (pcs (setTimeout _ _ _).1) with (pcs w3).
      change (peerConnectionRef (setTimeout _ _ _).1) with (peerConnectionRef w3).
      rewrite H1, H2, H5, H6. repeat split; try done. by exists p'.
    + cbn [push_task tracks streams cur pcs peerConnectionRef w_tasks].
      rewrite H1, H2, H5, H6. repeat split; try done. by exists p'.
  - intros pc p0 Hp video w'. subst w'.
    set (f := λ w1, setLocalStream (Some (acquire video w).2) w1).
    assert (resume (KAckMedia r pc data) (Resolved VUndef) w
            = push_task (KAckOffer r pc data)
                (add_stream_tracks pc (acquire video w).2 (f (acquire video w).1)))
      as -> by reflexivity.
    destruct (capture_and_add video pc p0 w f)
      as (H1 & H2 & (p' & H3 & H4) & H5 & H6); [done|done| |].
    { subst f. cbn. done. }
    cbn [push_task tracks streams cur pcs peerConnectionRef w_tasks].
    rewrite H1, H2, H5. repeat split; try done. by exists p'.
Qed.

End DashboardLaws.

Module NotificationManagerFacts.
Import NotificationManager NotificationManagerSpec.

Section facts.
Variable exceeds : string → bool.

#[local] Notation truncate := (NotificationManager.truncate exceeds).
#[local] Notation showMessageNotification := (NotificationManager.showMessageNotification exceeds).
#[local] Notation step := (NotificationManager.step exceeds).
#[local] Notation run := (NotificationManager.run exceeds).

(** *** Permission *)

Lemma perm_foldl {A} (f : State → A → State) (l : list A) s :
  (∀ x s', isEnabled (f s' x) = isEnabled s' ∧ supported (f s' x) = supported s'
           ∧ permission (f s' x) = permission s' ∧ asking (f s' x) = asking s') →
  isEnabled (foldl f s l) = isEnabled s ∧ supported (foldl f s l) = supported s
  ∧ permission (foldl f s l) = permission s ∧ asking (foldl f s l) = asking s.
Proof.
  intros Hf. revert s. induction l as [|x l IH]; intros s; [done|].
  simpl. destruct (IH (f s x)) as (-> & -> & -> & ->). apply Hf.
Qed.

Lemma perm_autoClose t s :
  isEnabled (autoClose t s) = isEnabled s ∧ supported (autoClose t s) = supported s
  ∧ permission (autoClose t s) = permission s ∧ asking (autoClose t s) = asking s.
Proof. unfold autoClose. by destruct (map_has _ _). Qed.

Lemma Enabled_same s s' :
  isEnabled s' = isEnabled s → supported s' = supported s →
  permission s' = permission s → asking s' = asking s →
  Enabled s → Enabled s'.
Proof. unfold Enabled. by intros -> -> -> ->. Qed.

Lemma Enabled_step s ev : Enabled s → Enabled (step s ev).
Proof.
  intros Hs. destruct ev; simpl.
  - unfold requestPermission. destruct (supported s) eqn:E; simpl; [|done].
    destruct (String.eqb (browserPermission s) "granted"); simpl.
    { destruct Hs as [H1 H2]. split; simpl; [done|]. by rewrite E. }
    destruct (String.eqb (browserPermission s) "denied"); simpl.
    { destruct Hs as [H1 H2]. split; simpl; [done|]. by rewrite E. }
    destruct Hs as [H1 H2]. split; simpl; [done|]. by rewrite E.
  - destruct (asking s) as [|k] eqn:Ek; [done|].
    destruct Hs as [H1 H2]. assert (supported s = true) as Hsup by (apply H2; lia).
    destruct p as [p|]; simpl.
    + split; simpl; [|done]. by intros ->%String.eqb_eq.
    + split; simpl; [done|]. done.
  - unfold showIncomingCallNotification. destruct (negb _); [done|].
    by destruct (nullish _).
  - unfold NotificationManager.showMessageNotification. destruct (negb _); [done|].
    destruct (nullish _); [done|]. by destruct (truncate _).
  - unfold onclick. destruct (shown s !! n); [|done]. by destruct callback.
  - unfold onclose. by destruct (shown s !! n).
  - unfold onerror. by destruct (shown s !! n).
  - unfold tick.
    destruct (perm_foldl (λ acc t, autoClose t acc)
                (filter (λ t, due t ≤ S (now s)) (timers s))
                (set_timers (filter (λ t, ¬ due t ≤ S (now s)) (timers s))
                   (set_now (S (now s)) s))) as (H1 & H2 & H3 & H4);
      [intros; apply perm_autoClose|].
    by apply (Enabled_same s).
  - unfold closeNotification. by destruct (map_get _ _).
  - unfold closeAllNotifications.
    destruct (perm_foldl (λ acc (kv : string * nat), close kv.2 acc)
                (activeNotifications s) s) as (H1 & H2 & H3 & H4); [done|].
    by apply (Enabled_same s).
  - done.
Qed.

Lemma Enabled_run tr s : Enabled s → Enabled (run tr s).
Proof.
  revert s. induction tr as [|ev tr IH]; intros s Hs; [done|].
  simpl. by apply IH, Enabled_step.
Qed.

Lemma Enabled_constructor sup perm : Enabled (constructor sup perm).
Proof.
  split; simpl; [|lia]. intros [-> Hp]%andb_true_iff.
  by apply String.eqb_eq in Hp as ->.
Qed.

(** X19. In every reachable state notifications are enabled only in a
    browser that supports them, while the browser's permission is
    ['granted'] and after the manager recorded ['granted']; when they are
    not enabled both [show] methods return [null] and change nothing. *)
Theorem notifications_need_granted_permission
    (sup : bool) (perm : string) (tr : list Event) (d : Val) :
  let s := run tr (constructor sup perm) in
  (isNotificationEnabled s = true →
     supported s = true ∧ browserPermission s = "granted" ∧ permission s = "granted")
  ∧ (isNotificationEnabled s = false →
     showIncomingCallNotification d s = (s, None)
     ∧ showMessageNotification d s = (s, None)).
Proof.
  intros s. assert (Enabled s) as [Hs _] by apply Enabled_run, Enabled_constructor.
  split.
  - unfold isNotificationEnabled. intros [He Hp]%andb_true_iff.
    apply String.eqb_eq in Hp. destruct (Hs He) as [? ?]. done.
  - intros Hn. unfold showIncomingCallNotification, NotificationManager.showMessageNotification.
    by rewrite Hn.
Qed.

(** *** Tracking *)

Ltac elem_split :=
  repeat match goal with
  | H : _ ∈ _ :: _ |- _ => apply elem_of_cons in H as [?|?]
  | H : _ ∈ _ ++ _ |- _ => apply elem_of_app in H as [?|?]
  | H : ¬ (_ ∈ _ :: _) |- _ => apply not_elem_of_cons in H as [? ?]
  | H : ¬ (_ ∈ _ ++ _) |- _ => apply not_elem_of_app in H as [? ?]
  end; simplify_eq; done.

Lemma map_set_elem k v m id n :
  (id, n) ∈ map_set k v m → (id, n) = (k, v) ∨ (id, n) ∈ m.
Proof.
  induction m as [|[k' v'] m IH]; simpl.
  - intros ->%list_elem_of_singleton. by left.
  - destruct (String.eqb k k').
    + intros [->|Hin]%elem_of_cons; [by left|]. right. by right.
    + intros [->|Hin]%elem_of_cons; [right; by left|].
      destruct (IH Hin) as [?|?]; [by left|]. right. by right.
Qed.

Lemma map_delete_elem k m id n :
  (id, n) ∈ map_delete k m ↔ id ≠ k ∧ (id, n) ∈ m.
Proof. unfold map_delete. by rewrite list_elem_of_filter. Qed.

Lemma map_get_elem k m n : map_get k m = Some n → (k, n) ∈ m.
Proof.
  induction m as [|[k' v'] m IH]; simpl; [done|].
  destruct (String.eqb k k') eqn:E.
  - apply String.eqb_eq in E as ->. intros [= ->]. by left.
  - intros H. right. by apply IH.
Qed.

Lemma close_shown n s i :
  shown (close n s) !! i
  = (λ x, if bool_decide (i = n)
          then mkNotification (n_title x) (n_body x) (n_tag x) (n_requireInteraction x)
                 (n_data x) (n_id x) true
          else x) <$> shown s !! i.
Proof.
  unfold close. simpl. case_bool_decide as E.
  - subst i. by rewrite list_lookup_alter_eq.
  - rewrite list_lookup_alter_ne by done. by destruct (shown s !! i).
Qed.

(** Closing a notification and forgetting its key keeps the invariant. *)
Lemma Tracked_close_delete n x s :
  shown s !! n = Some x → Tracked s → Tracked (delete (n_id x) (close n s)).
Proof.
  intros Hx [He Ht].
  assert (activeNotifications (delete (n_id x) (close n s))
          = map_delete (n_id x) (activeNotifications s)) as Ha by done.
  assert (shown (delete (n_id x) (close n s)) = shown (close n s)) as Hsh by done.
  assert (timers (delete (n_id x) (close n s)) = timers s) as Hti by done.
  split; rewrite ?Ha, ?Hsh, ?Hti.
  - intros id m. rewrite map_delete_elem. intros [Hne Hin].
    destruct (He id m Hin) as (y & Hy & Hc & Hid).
    rewrite close_shown, Hy. simpl. case_bool_decide as E; [|by exists y].
    subst m. rewrite Hx in Hy. injection Hy as <-. congruence.
  - intros t Hin. destruct (Ht t Hin) as (y & Hy & Hid).
    rewrite close_shown, Hy. simpl. case_bool_decide; eauto.
Qed.

Lemma Tracked_delete id s : Tracked s → Tracked (delete id s).
Proof.
  intros [He Ht]. split; [|done].
  intros id' m. simpl. rewrite map_delete_elem. intros [_ Hin]. by apply He.
Qed.

Lemma Tracked_present title body id ri data delay s :
  Tracked s → Tracked (present title body id ri data delay s).1.
Proof.
  intros [He Ht]. unfold present. split; simpl.
  - intros id' m Hin. apply map_set_elem in Hin as [ [= -> ->] | Hin].
    + rewrite lookup_app_r, Nat.sub_diag by done. simpl. eauto.
    + destruct (He id' m Hin) as (y & Hy & Hc & Hid). exists y.
      by rewrite lookup_app_l by by eapply lookup_lt_Some.
  - intros t [Hin | ->%list_elem_of_singleton]%elem_of_app.
    + destruct (Ht t Hin) as (y & Hy & Hid). exists y.
      by rewrite lookup_app_l by by eapply lookup_lt_Some.
    + simpl. rewrite lookup_app_r, Nat.sub_diag by done. simpl. eauto.
Qed.

Lemma Tracked_autoClose t s :
  (∃ x, shown s !! t_notification t = Some x ∧ n_id x = t_id t) →
  Tracked s → Tracked (autoClose t s).
Proof.
  intros (x & Hx & Hid) Hs. unfold autoClose. destruct (map_has _ _); [|done].
  rewrite <- Hid. by apply Tracked_close_delete.
Qed.

Lemma autoClose_shown_id t s i :
  n_id <$> shown (autoClose t s) !! i = n_id <$> shown s !! i.
Proof.
  unfold autoClose. destruct (map_has _ _); [|done].
  change (shown (delete (t_id t) (close (t_notification t) s)))
    with (shown (close (t_notification t) s)).
  rewrite close_shown. destruct (shown s !! i); [|done]. simpl. by case_bool_decide.
Qed.

Lemma Tracked_autoClose_all (ts : list Timer) s :
  (∀ t, t ∈ ts → ∃ x, shown s !! t_notification t = Some x ∧ n_id x = t_id t) →
  Tracked s → Tracked (foldl (λ acc t, autoClose t acc) s ts).
Proof.
  revert s. induction ts as [|t ts IH]; intros s Hts Hs; [done|].
  simpl. apply IH.
  - intros t' Hin. destruct (Hts t') as (x & Hx & Hid); [by right|].
    pose proof (autoClose_shown_id t s (t_notification t')) as Hi.
    rewrite Hx in Hi. simpl in Hi.
    destruct (shown (autoClose t s) !! t_notification t') as [y|]; [|done].
    exists y. split; [done|]. simpl in Hi. congruence.
  - apply Tracked_autoClose; [|done]. apply Hts. by left.
Qed.

Lemma Tracked_tick s : Tracked s → Tracked (tick s).
Proof.
  intros [He Ht]. unfold tick. apply Tracked_autoClose_all.
  - intros t [_ Hin]%list_elem_of_filter. by apply Ht.
  - split; [done|]. intros t [_ Hin]%list_elem_of_filter. by apply Ht.
Qed.

Lemma close_all_shown (l : list (string * nat)) s i :
  shown (foldl (λ acc kv, close kv.2 acc) s l) !! i
  = (λ x, if bool_decide (i ∈ l.*2)
          then mkNotification (n_title x) (n_body x) (n_tag x) (n_requireInteraction x)
                 (n_data x) (n_id x) true
          else x) <$> shown s !! i
  ∧ timers (foldl (λ acc kv, close kv.2 acc) s l) = timers s.
Proof.
  revert s. induction l as [|[k n] l IH]; intros s; cbn [foldl snd].
  - split; [|done]. rewrite bool_decide_eq_false_2 by apply not_elem_of_nil.
    by destruct (shown s !! i).
  - destruct (IH (close n s)) as [-> ->]. split; [|done].
    rewrite close_shown. destruct (shown s !! i) as [x|]; [|done]. simpl.
    repeat case_bool_decide; simplify_eq; try done; exfalso; elem_split.
Qed.

Lemma Tracked_step s ev : Tracked s → Tracked (step s ev).
Proof.
  intros Hs. destruct ev; simpl.
  - unfold requestPermission. destruct (negb _); [done|].
    destruct (String.eqb _ _); [by destruct Hs|].
    destruct (String.eqb _ _); by destruct Hs.
  - destruct (asking s); [done|]. destruct p; by destruct Hs.
  - unfold showIncomingCallNotification. destruct (negb _); [done|].
    destruct (nullish _); [done|]. by apply Tracked_present.
  - unfold NotificationManager.showMessageNotification. destruct (negb _); [done|].
    destruct (nullish _); [done|]. destruct (truncate _); [|done].
    by apply Tracked_present.
  - unfold onclick. destruct (shown s !! n) as [x|] eqn:Ex; [|done].
    apply Tracked_close_delete; [by destruct callback|].
    destruct Hs. by destruct callback.
  - unfold onclose. destruct (shown s !! n) as [x|] eqn:Ex; [|done].
    by apply Tracked_close_delete.
  - unfold onerror. destruct (shown s !! n) as [x|] eqn:Ex; [|done].
    by apply Tracked_delete.
  - by apply Tracked_tick.
  - unfold closeNotification. destruct (map_get _ _) as [n|] eqn:En; [|done].
    apply map_get_elem in En. destruct (tr_entries s Hs id n En) as (x & Hx & _ & <-).
    by apply Tracked_close_delete.
  - unfold closeAllNotifications. split; simpl.
    + intros id n Hin. by apply elem_of_nil in Hin.
    + intros t. destruct (close_all_shown (activeNotifications s) s (t_notification t))
        as [-> ->].
      intros Hin. destruct (tr_timers s Hs t Hin) as (x & -> & Hid). simpl.
      case_bool_decide; eauto.
  - by destruct Hs.
Qed.

Lemma Tracked_run tr s : Tracked s → Tracked (run tr s).
Proof.
  revert s. induction tr as [|ev tr IH]; intros s Hs; [done|].
  simpl. by apply IH, Tracked_step.
Qed.

(** X20. In every reachable state each entry of [activeNotifications]
    refers to a notification that is open and was stored under the key
    of the entry.  [closeAllNotifications] closes every tracked
    notification and empties the map; [closeNotification(id)] closes the
    notification tracked under [id] and forgets it. *)
Theorem tracked_notifications_are_open
    (sup : bool) (perm : string) (tr : list Event) :
  let s := run tr (constructor sup perm) in
  (∀ id n, map_get id (activeNotifications s) = Some n →
     ∃ x, shown s !! n = Some x ∧ n_closed x = false ∧ n_id x = id)
  ∧ activeNotifications (closeAllNotifications s) = []
  ∧ (∀ id n, map_get id (activeNotifications s) = Some n →
       ∃ x, shown (closeAllNotifications s) !! n = Some x ∧ n_closed x = true)
  ∧ (∀ id n, map_get id (activeNotifications s) = Some n →
       map_get id (activeNotifications (closeNotification id s)) = None
       ∧ ∃ x, shown (closeNotification id s) !! n = Some x ∧ n_closed x = true).
Proof.
  intros s. assert (Tracked s) as Hs.
  { apply Tracked_run. split; simpl.
    - intros id n Hin. by apply elem_of_nil in Hin.
    - intros t Hin. by apply elem_of_nil in Hin. }
  revert Hs. generalize s. clear. intros s Hs.
  split; [|split; [done|split]].
  - intros id n Hn. by apply (tr_entries s Hs), map_get_elem.
  - intros id n Hn. apply map_get_elem in Hn.
    destruct (tr_entries s Hs id n Hn) as (x & Hx & _).
    unfold closeAllNotifications. simpl.
    destruct (close_all_shown (activeNotifications s) s n) as [-> _]. rewrite Hx. simpl.
    rewrite bool_decide_eq_true_2; [eauto|].
    apply list_elem_of_fmap. by exists (id, n).
  - intros id n Hn. unfold closeNotification. rewrite Hn.
    change (activeNotifications (delete id (close n s)))
      with (map_delete id (activeNotifications s)).
    change (shown (delete id (close n s))) with (shown (close n s)). split.
    + destruct (map_get id (map_delete id (activeNotifications s))) as [m|] eqn:Em; [|done].
      apply map_get_elem, map_delete_elem in Em. by destruct Em.
    + apply map_get_elem in Hn. destruct (tr_entries s Hs id n Hn) as (x & Hx & _).
      rewrite close_shown, Hx. simpl. rewrite bool_decide_eq_true_2 by done. eauto.
Qed.

(** *** The body of a message notification *)

Lemma utf16_length_append (a b : string) :
  utf16_length (a +:+ b) = utf16_length a + utf16_length b.
Proof. induction a as [|c a IH]; simpl; [done|]. rewrite IH. lia. Qed.

Lemma continuation_byte (k : N) :
  continuation (Ascii.ascii_of_N (128 + k mod 64)) = true.
Proof.
  unfold continuation, Ascii.nat_of_ascii.
  assert (k mod 64 < 64)%N as Hk by (apply N.mod_lt; lia).
  revert Hk. generalize (k mod 64)%N. intros m Hm.
  rewrite Ascii.N_ascii_embedding by lia.
  apply andb_true_iff. split; [apply Nat.leb_le|apply Nat.ltb_lt]; lia.
Qed.

Lemma utf16_length_high_surrogate (a : Ascii.ascii) (s : string) :
  utf16_length (high_surrogate a s) ≤ 1.
Proof.
  unfold high_surrogate. destruct s as [|b [|c s]]; simpl; try lia.
  unfold units. rewrite !continuation_byte. simpl. lia.
Qed.

Lemma utf16_length_substring (n : nat) (b : string) :
  utf16_length (substring_units n b) ≤ n.
Proof.
  revert n. induction b as [|a b IH]; intros n; simpl; [lia|].
  destruct (continuation a) eqn:Ec.
  - simpl. unfold units. rewrite Ec. apply IH.
  - destruct n as [|n1]; [simpl; lia|].
    destruct (Ascii.nat_of_ascii a <? 240) eqn:E4.
    + simpl. unfold units. rewrite Ec, E4. specialize (IH n1). lia.
    + destruct n1 as [|n2]; [apply utf16_length_high_surrogate|].
      simpl. unfold units. rewrite Ec, E4. specialize (IH n2). lia.
Qed.

Lemma truncate_length (b b' : string) :
  truncate (VStr b) = Some (VStr b') →
  utf16_length b' ≤ 100
  ∧ b' = (if 100 <? utf16_length b then substring_units 97 b +:+ "..." else b).
Proof.
  unfold NotificationManager.truncate. intros [= <-]. split; [|done].
  destruct (100 <? utf16_length b) eqn:E.
  - rewrite utf16_length_append. pose proof (utf16_length_substring 97 b).
    change (utf16_length "...") with 3. lia.
  - apply Nat.ltb_ge in E. lia.
Qed.

Lemma map_get_set_eq k v m : map_get k (map_set k v m) = Some v.
Proof.
  induction m as [|[k' v'] m IH]; simpl.
  - by rewrite String.eqb_refl.
  - destruct (String.eqb k k') eqn:E; simpl.
    + by rewrite String.eqb_refl.
    + by rewrite E.
Qed.

Lemma present_result title body id ri data delay s s' r :
  present title body id ri data delay s = (s', r) →
  r = Some (length (shown s))
  ∧ shown s' = shown s ++ [mkNotification title body id ri data id false]
  ∧ activeNotifications s' = map_set id (length (shown s)) (activeNotifications s)
  ∧ timers s' = timers s ++ [mkTimer (now s + delay) id (length (shown s))]
  ∧ now s' = now s.
Proof. unfold present. by intros [= <- <-]. Qed.

(** X21. A message notification that is shown is open, tracked under its
    id and does not require interaction; a body text has at most 100
    UTF-16 code units, the measure of [length]: the content of a direct
    message, and [sender: content] for a group message, is passed on when
    it has at most 100 code units and is otherwise cut to its first 97
    code units followed by three dots. *)
Theorem message_notification_body_is_cut (messageData : Val) (s s' : State) (n : nat) :
  showMessageNotification messageData s = (s', Some n) →
  ∃ x, shown s' !! n = Some x
       ∧ n_closed x = false ∧ n_requireInteraction x = false
       ∧ map_get (n_id x) (activeNotifications s') = Some n
       ∧ (∀ b, n_body x = VStr b → utf16_length b ≤ 100)
       ∧ (truthy (prop messageData "isGroupMessage") = false →
          ∀ c, prop messageData "content" = VStr c →
               n_body x = VStr (if 100 <? utf16_length c
                                then substring_units 97 c +:+ "..." else c))
       ∧ (truthy (prop messageData "isGroupMessage") = true →
          let c := to_string (prop messageData "senderName") +:+ ": "
                   +:+ to_string (prop messageData "content") in
          n_body x = VStr (if 100 <? utf16_length c
                           then substring_units 97 c +:+ "..." else c)).
Proof.
  unfold NotificationManager.showMessageNotification. destruct (negb _); [done|].
  destruct (nullish messageData); [done|].
  set (body := if truthy (prop messageData "isGroupMessage")
               then VStr (to_string (prop messageData "senderName") +:+ ": "
                          +:+ to_string (prop messageData "content"))
               else prop messageData "content").
  destruct (truncate body) as [tb|] eqn:Etb; [|done].
  intros Hp. apply present_result in Hp as (Hn & Hsh & Hact & _ & _).
  injection Hn as ->. eexists. rewrite Hsh, Hact.
  rewrite lookup_app_r, Nat.sub_diag by done. simpl. split; [done|].
  split; [done|]. split; [done|]. split; [apply map_get_set_eq|].
  split; [|split].
  - intros b Hb. simpl in Hb. subst tb. destruct body as [| | |b0|o]; try done.
    + by destruct (truncate_length b0 b Etb).
    + unfold NotificationManager.truncate in Etb.
      destruct (prop (VObj o) "length"); try done. by destruct (exceeds _).
  - intros Hg c Hc. simpl. subst body. rewrite Hg, Hc in Etb. by injection Etb as <-.
  - intros Hg. simpl. subst body. rewrite Hg in Etb. by injection Etb as <-.
Qed.

(** *** The auto-close timer *)

Lemma map_get_delete_ne k id m : id ≠ k → map_get id (map_delete k m) = map_get id m.
Proof.
  intros Hne. unfold map_delete. induction m as [|[k' v'] m IH]; [done|].
  destruct (decide (k' = k)) as [->|Hk].
  - rewrite filter_cons_False by (simpl; intros Hq; by apply Hq). simpl.
    destruct (String.eqb id k) eqn:E; [by apply String.eqb_eq in E|done].
  - rewrite filter_cons_True by done. simpl. by rewrite IH.
Qed.

Lemma map_get_delete_eq k m : map_get k (map_delete k m) = None.
Proof.
  destruct (map_get k (map_delete k m)) as [v|] eqn:E; [|done].
  apply map_get_elem, map_delete_elem in E. by destruct E.
Qed.

Lemma map_get_delete_None k id m : map_get id m = None → map_get id (map_delete k m) = None.
Proof.
  intros Hn. destruct (decide (id = k)) as [->|Hne].
  - apply map_get_delete_eq.
  - by rewrite map_get_delete_ne.
Qed.

Lemma autoClose_frame t s : timers (autoClose t s) = timers s ∧ now (autoClose t s) = now s.
Proof. unfold autoClose. by destruct (map_has _ _). Qed.

Lemma autoClose_foreign id n t s :
  foreign id n t → open_under id n s → open_under id n (autoClose t s).
Proof.
  intros [Hid Hn] [(x & Hx & Hc & Hi) Hm]. unfold autoClose.
  destruct (map_has _ _); [|by split; [exists x|]]. split.
  - exists x. change (shown (delete (t_id t) (close (t_notification t) s)))
      with (shown (close (t_notification t) s)).
    rewrite close_shown, Hx. simpl. by rewrite bool_decide_eq_false_2 by congruence.
  - change (activeNotifications (delete (t_id t) (close (t_notification t) s)))
      with (map_delete (t_id t) (activeNotifications s)).
    by rewrite map_get_delete_ne.
Qed.

Lemma autoClose_closed id n t s : closed_under id n s → closed_under id n (autoClose t s).
Proof.
  intros [(x & Hx & Hc & Hi) Hm]. unfold autoClose.
  destruct (map_has _ _); [|by split; [exists x|]]. split.
  - change (shown (delete (t_id t) (close (t_notification t) s)))
      with (shown (close (t_notification t) s)).
    rewrite close_shown, Hx. simpl. case_bool_decide; eauto.
  - change (activeNotifications (delete (t_id t) (close (t_notification t) s)))
      with (map_delete (t_id t) (activeNotifications s)).
    by apply map_get_delete_None.
Qed.

Lemma autoClose_own id n d s :
  open_under id n s → closed_under id n (autoClose (mkTimer d id n) s).
Proof.
  intros [(x & Hx & Hc & Hi) Hm]. unfold autoClose, map_has. simpl. rewrite Hm. split.
  - change (shown (delete id (close n s))) with (shown (close n s)).
    rewrite close_shown, Hx. simpl. rewrite bool_decide_eq_true_2 by done. eauto.
  - apply map_get_delete_eq.
Qed.

Lemma fold_foreign id n (ts : list Timer) s :
  (∀ t, t ∈ ts → foreign id n t) → open_under id n s →
  open_under id n (foldl (λ acc t, autoClose t acc) s ts).
Proof.
  revert s. induction ts as [|t ts IH]; intros s Hts Hs; [done|].
  simpl. apply IH; [intros t' Ht'; apply Hts; by right|].
  apply autoClose_foreign; [|done]. apply Hts. by left.
Qed.

Lemma fold_closed id n (ts : list Timer) s :
  closed_under id n s → closed_under id n (foldl (λ acc t, autoClose t acc) s ts).
Proof.
  revert s. induction ts as [|t ts IH]; intros s Hs; [done|].
  simpl. by apply IH, autoClose_closed.
Qed.

Lemma fold_own id n d (ts : list Timer) s :
  (∀ t, t ∈ ts → t = mkTimer d id n ∨ foreign id n t) →
  mkTimer d id n ∈ ts → open_under id n s →
  closed_under id n (foldl (λ acc t, autoClose t acc) s ts).
Proof.
  revert s. induction ts as [|t ts IH]; intros s Hts Hin Hs; [by apply elem_of_nil in Hin|].
  simpl. destruct (Hts t) as [->|Hf]; [by left| |].
  - by apply fold_closed, autoClose_own.
  - apply IH; [intros t' Ht'; apply Hts; by right| |by apply autoClose_foreign].
    apply elem_of_cons in Hin as [Heq|Hin]; [|done]. subst t. by destruct Hf as [Hf _].
Qed.

Lemma fold_frame (ts : list Timer) s :
  timers (foldl (λ acc t, autoClose t acc) s ts) = timers s
  ∧ now (foldl (λ acc t, autoClose t acc) s ts) = now s.
Proof.
  revert s. induction ts as [|t ts IH]; intros s; [done|].
  simpl. destruct (IH (autoClose t s)) as [-> ->]. apply autoClose_frame.
Qed.

(** While the timer of the notification is armed and not due, a
    millisecond leaves the notification open and tracked; the millisecond
    in which it is due closes and forgets it. *)
Lemma tick_pending id n d s :
  (∀ t, t ∈ timers s → t = mkTimer d id n ∨ foreign id n t) →
  mkTimer d id n ∈ timers s → open_under id n s → S (now s) < d →
  (∀ t, t ∈ timers (tick s) → t = mkTimer d id n ∨ foreign id n t)
  ∧ mkTimer d id n ∈ timers (tick s) ∧ open_under id n (tick s)
  ∧ now (tick s) = S (now s).
Proof.
  intros Hts Hin Hs Hd. unfold tick.
  set (s1 := set_timers _ (set_now (S (now s)) s)).
  destruct (fold_frame (filter (λ t, due t ≤ now (set_now (S (now s)) s))
                          (timers (set_now (S (now s)) s))) s1) as [-> ->].
  split; [|split; [|split; [|done]]].
  - intros t [_ Ht]%list_elem_of_filter. by apply Hts.
  - apply list_elem_of_filter. split; [simpl; lia|done].
  - apply fold_foreign; [|done]. intros t [Hdue Ht]%list_elem_of_filter.
    destruct (Hts t Ht) as [->|Hf]; [|done]. simpl in Hdue. lia.
Qed.

Lemma tick_due id n d s :
  (∀ t, t ∈ timers s → t = mkTimer d id n ∨ foreign id n t) →
  mkTimer d id n ∈ timers s → open_under id n s → S (now s) = d →
  closed_under id n (tick s).
Proof.
  intros Hts Hin Hs Hd. unfold tick. apply (fold_own id n d); [| |done].
  - intros t [_ Ht]%list_elem_of_filter. by apply Hts.
  - apply list_elem_of_filter. split; [simpl; lia|done].
Qed.

Lemma tick_closed id n s : closed_under id n s → closed_under id n (tick s).
Proof. intros Hs. unfold tick. by apply fold_closed. Qed.

Lemma ticks_pending id n d k s :
  (∀ t, t ∈ timers s → t = mkTimer d id n ∨ foreign id n t) →
  mkTimer d id n ∈ timers s → open_under id n s → now s + k < d →
  (∀ t, t ∈ timers (run (replicate k Tick) s) → t = mkTimer d id n ∨ foreign id n t)
  ∧ mkTimer d id n ∈ timers (run (replicate k Tick) s)
  ∧ open_under id n (run (replicate k Tick) s)
  ∧ now (run (replicate k Tick) s) = now s + k.
Proof.
  revert s. induction k as [|k IH]; intros s Hts Hin Hs Hd.
  - simpl. split; [done|split; [done|split; [done|lia]]].
  - simpl. destruct (tick_pending id n d s Hts Hin Hs) as (H1 & H2 & H3 & H4); [lia|].
    destruct (IH (tick s) H1 H2 H3) as (K1 & K2 & K3 & K4); [lia|].
    split; [done|split; [done|split; [done|lia]]].
Qed.

Lemma ticks_closed id n k s :
  closed_under id n s → closed_under id n (run (replicate k Tick) s).
Proof.
  revert s. induction k as [|k IH]; intros s Hs; [done|]. simpl. by apply IH, tick_closed.
Qed.

Lemma present_pending title body id ri data delay s :
  Tracked s → (∀ t, t ∈ timers s → t_id t ≠ id) →
  let s1 := (present title body id ri data delay s).1 in
  let n := length (shown s) in
  (∀ t, t ∈ timers s1 → t = mkTimer (now s + delay) id n ∨ foreign id n t)
  ∧ mkTimer (now s + delay) id n ∈ timers s1
  ∧ open_under id n s1 ∧ now s1 = now s.
Proof.
  intros Hs Hfresh s1 n.
  destruct (present title body id ri data delay s) as [s' r] eqn:Ep.
  apply present_result in Ep as (_ & Hsh & Hact & Htm & Hnow). subst s1. simpl.
  fold n in Hsh, Hact, Htm. split; [|split; [|split; [split|done]]].
  - intros t Hin. rewrite Htm in Hin.
    apply elem_of_app in Hin as [Hin | ->%list_elem_of_singleton]; [right|by left].
    split; [by apply Hfresh|].
    destruct (tr_timers s Hs t Hin) as (x & Hx & _). apply lookup_lt_Some in Hx.
    unfold n. lia.
  - rewrite Htm. apply elem_of_app. right. by left.
  - eexists. rewrite Hsh. unfold n. rewrite lookup_app_r, Nat.sub_diag by done. simpl. done.
  - rewrite Hact. apply map_get_set_eq.
Qed.

Lemma present_closes_itself title body id ri data delay s k :
  Tracked s → (∀ t, t ∈ timers s → t_id t ≠ id) → 0 < delay →
  let s1 := (present title body id ri data delay s).1 in
  let n := length (shown s) in
  (k < delay → open_under id n (run (replicate k Tick) s1))
  ∧ (delay ≤ k → closed_under id n (run (replicate k Tick) s1)).
Proof.
  intros Hs Hfresh Hd s1 n.
  destruct (present_pending title body id ri data delay s Hs Hfresh) as (H1 & H2 & H3 & H4).
  fold s1 n in H1, H2, H3, H4. split.
  - intros Hk. by destruct (ticks_pending id n (now s + delay) k s1 H1 H2 H3) as (_ & _ & ? & _);
      [lia|].
  - intros Hk. replace k with ((delay - 1) + (1 + (k - delay))) by lia.
    rewrite replicate_add. unfold NotificationManager.run. rewrite foldl_app. fold (run (replicate (delay - 1) Tick) s1).
    destruct (ticks_pending id n (now s + delay) (delay - 1) s1 H1 H2 H3)
      as (K1 & K2 & K3 & K4); [lia|].
    rewrite replicate_add. rewrite foldl_app. simpl.
    apply (ticks_closed id n (k - delay)). apply (tick_due id n (now s + delay)); try done. lia.
Qed.

(** X22. A notification shown in a reachable state whose armed timers
    belong to other ids stays open and tracked while less than its delay
    (5000 ms for a message, 30000 ms for a call) has passed, and is closed
    and forgotten from then on, when only time passes. *)
Theorem notification_closes_itself
    (sup : bool) (perm : string) (tr : list Event) (d : Val) (s1 : State) (n k : nat)
    (id : string) (delay : nat) :
  let s := run tr (constructor sup perm) in
  (showMessageNotification d s = (s1, Some n) ∧ delay = MESSAGE_TIMEOUT_MS
   ∧ id = "message-" +:+ to_string (jor (prop d "messageId") (stamp s)))
  ∨ (showIncomingCallNotification d s = (s1, Some n) ∧ delay = CALL_TIMEOUT_MS
     ∧ id = "call-" +:+ to_string (jor (jor (prop d "callSessionId") (prop d "callId"))
                                     (stamp s))) →
  (∀ t, t ∈ timers s → t_id t ≠ id) →
  (k < delay → open_under id n (run (replicate k Tick) s1))
  ∧ (delay ≤ k → closed_under id n (run (replicate k Tick) s1)).
Proof.
  intros s Hshow Hfresh.
  assert (Tracked s) as Hs.
  { apply Tracked_run. split; simpl.
    - intros i m Hin. by apply elem_of_nil in Hin.
    - intros t Hin. by apply elem_of_nil in Hin. }
  revert Hs Hshow Hfresh. generalize s. clear. intros s Hs Hshow Hfresh.
  destruct Hshow as [(Hshow & -> & ->)|(Hshow & -> & ->)].
  - unfold NotificationManager.showMessageNotification in Hshow. destruct (negb _); [done|].
    destruct (nullish d); [done|]. destruct (truncate _) as [tb|]; [|done].
    match type of Hshow with present ?t ?b ?i ?r ?dd ?dl s = _ =>
      pose proof (present_closes_itself t b i r dd dl s k Hs Hfresh) as Hp;
      destruct (present t b i r dd dl s) as [s1' r1] eqn:Ep end.
    apply present_result in Ep as (Hr & _). simplify_eq.
    apply Hp. unfold MESSAGE_TIMEOUT_MS. lia.
  - unfold showIncomingCallNotification in Hshow. destruct (negb _); [done|].
    destruct (nullish d); [done|].
    match type of Hshow with present ?t ?b ?i ?r ?dd ?dl s = _ =>
      pose proof (present_closes_itself t b i r dd dl s k Hs Hfresh) as Hp;
      destruct (present t b i r dd dl s) as [s1' r1] eqn:Ep end.
    apply present_result in Ep as (Hr & _). simplify_eq.
    apply Hp. apply Nat.ltb_lt. vm_compute. reflexivity.
Qed.
End facts.

Lemma message_notification_body_is_cut_witness :
  ∃ x, shown (showMessageNotification (λ _, false) long_message granted).1 !! 0 = Some x
       ∧ n_body x = VStr (accents 97 +:+ "...")
       ∧ utf16_length (accents 97 +:+ "...") = 100
       ∧ String.length (accents 97 +:+ "...") = 197.
Proof.
  assert (showMessageNotification (λ _, false) long_message granted
          = ((showMessageNotification (λ _, false) long_message granted).1, Some 0)) as Hshow
    by (vm_compute; reflexivity).
  destruct (message_notification_body_is_cut (λ _, false) long_message granted _ 0 Hshow)
    as (x & Hx & _ & _ & _ & _ & Hb & _).
  exists x. split; [exact Hx|]. split; [|split; vm_compute; reflexivity].
  rewrite (Hb eq_refl (accents 120) eq_refl). vm_compute. reflexivity.
Defined.

Lemma notification_closes_itself_witness :
  open_under "message-test-1" 0
    (run (λ _, false) (replicate 3 Tick)
       (showMessageNotification (λ _, false) test_message granted).1).
Proof.
  apply (notification_closes_itself (λ _, false) true "granted" [] test_message
           (showMessageNotification (λ _, false) test_message granted).1 0 3
           "message-test-1" MESSAGE_TIMEOUT_MS).
  - left. split; [vm_compute; reflexivity|]. split; [reflexivity|]. vm_compute. reflexivity.
  - intros t Ht. vm_compute in Ht. by apply elem_of_nil in Ht.
  - unfold MESSAGE_TIMEOUT_MS. lia.
Defined.

End NotificationManagerFacts.

